(** * code-context-mcp: a shallow embedding of the indexing pipeline

    The development follows the TypeScript sources:

    - [utils/codeSplitter.ts]: [extensionToSplitter], the SQL tokenizer
      [splitSQLStatements], [parseValues], [splitInsertStatement];
    - [utils/filePatternMatcher.ts]: [globToSqlPattern],
      [createFilePatternCondition];
    - [tools/processFiles.ts]: the synchronizer transaction and
      [processFileContents];
    - [tools/embedFiles.ts]: [embedFiles];
    - [tools/queryRepo.ts]: the retrieval part of [queryRepo].

    JavaScript strings are modelled as [string] (sequences of 8-bit
    characters); [toUpperCase], [toLowerCase] and [trim] are the ASCII
    restrictions of the JavaScript functions.  JavaScript numbers that hold
    lengths, identifiers and counters are [nat]; scores are rationals [Q]. *)

From Stdlib Require Import List Bool Arith Lia ZArith QArith.
From Stdlib Require Import Strings.String Strings.Ascii.
From Stdlib Require Import Numbers.DecimalString.
Import ListNotations.

Local Open Scope string_scope.
Local Open Scope nat_scope.

(* ================================================================== *)
(** * JavaScript string primitives *)
(* ================================================================== *)

Module JsString.

Definition is_upper (c : ascii) : bool :=
  let n := nat_of_ascii c in (65 <=? n) && (n <=? 90).

Definition is_lower (c : ascii) : bool :=
  let n := nat_of_ascii c in (97 <=? n) && (n <=? 122).

Definition lower_char (c : ascii) : ascii :=
  if is_upper c then ascii_of_nat (nat_of_ascii c + 32) else c.

Definition upper_char (c : ascii) : ascii :=
  if is_lower c then ascii_of_nat (nat_of_ascii c - 32) else c.

Fixpoint map_string (f : ascii -> ascii) (s : string) : string :=
  match s with
  | EmptyString => EmptyString
  | String c r => String (f c) (map_string f r)
  end.

(** [s.toLowerCase()] and [s.toUpperCase()]. *)
Definition toLowerCase : string -> string := map_string lower_char.
Definition toUpperCase : string -> string := map_string upper_char.

(** The two functions above are those of JavaScript on texts of ASCII
    characters: there they change nothing but the case of the letters [a]
    to [z], and the result has the length of the text.  Outside ASCII the
    functions of JavaScript do more (the upper case of the sharp s is two
    characters long). *)
Definition is_ascii (c : ascii) : bool := Nat.ltb (nat_of_ascii c) 128.

Fixpoint ascii_only (s : string) : bool :=
  match s with
  | EmptyString => true
  | String c r => is_ascii c && ascii_only r
  end.

(** [s.startsWith(p)]; [String.prefix p s] of the standard library. *)
Definition startsWith (s p : string) : bool := String.prefix p s.

(** [s.substring(i)] and [s.slice(i)] for [0 <= i]. *)
Fixpoint drop (i : nat) (s : string) : string :=
  match i, s with
  | O, _ => s
  | S _, EmptyString => EmptyString
  | S j, String _ r => drop j r
  end.

(** [s.slice(0, i)]. *)
Fixpoint take (i : nat) (s : string) : string :=
  match i, s with
  | O, _ => EmptyString
  | S _, EmptyString => EmptyString
  | S j, String c r => String c (take j r)
  end.

(** [s[i]], which is [undefined] past the end. *)
Definition charAt (s : string) (i : nat) : option ascii := String.get i s.

(** White space removed by [trim]: tab, line feed, vertical tab, form feed,
    carriage return and space. *)
Definition is_space (c : ascii) : bool :=
  let n := nat_of_ascii c in ((9 <=? n) && (n <=? 13)) || (n =? 32).

Fixpoint trimStart (s : string) : string :=
  match s with
  | EmptyString => EmptyString
  | String c r => if is_space c then trimStart r else s
  end.

Fixpoint rev_string (acc s : string) : string :=
  match s with
  | EmptyString => acc
  | String c r => rev_string (String c acc) r
  end.

Definition trimEnd (s : string) : string :=
  rev_string "" (trimStart (rev_string "" s)).

Definition trim (s : string) : string := trimEnd (trimStart s).

(** [s.indexOf(p)], [None] for [-1]. *)
Fixpoint indexOf_from (fuel i : nat) (s p : string) : option nat :=
  if startsWith s p then Some i
  else match fuel, s with
       | S f, String _ r => indexOf_from f (S i) r p
       | _, _ => None
       end.

Definition indexOf (s p : string) : option nat :=
  indexOf_from (String.length s) 0 s p.

(** [s.includes(p)]. *)
Definition includes (s p : string) : bool :=
  match indexOf s p with Some _ => true | None => false end.

(** [s.replace(/p/g, r)] for a literal pattern [p] that is not empty: scan
    from the left, replace each match and continue after it. *)
Fixpoint replaceAll_fuel (fuel : nat) (s p r : string) : string :=
  match fuel with
  | O => s
  | S f =>
    match s with
    | EmptyString => EmptyString
    | String c rest =>
      if startsWith s p
      then r ++ replaceAll_fuel f (drop (String.length p) s) p r
      else String c (replaceAll_fuel f rest p r)
    end
  end.

Definition replaceAll (s p r : string) : string :=
  replaceAll_fuel (String.length s) s p r.

(** [parts.join(sep)]. *)
Fixpoint join (sep : string) (parts : list string) : string :=
  match parts with
  | [] => ""
  | [p] => p
  | p :: rest => p ++ sep ++ join sep rest
  end.

End JsString.
Import JsString.

(* ================================================================== *)
(** * [extensionToSplitter] (utils/codeSplitter.ts) *)
(* ================================================================== *)

Module Dispatch.

(** The [case] labels of the [switch], in source order, grouped by the
    [return] they fall through to. *)
Definition switch_cases : list (list string * string) :=
  [ (["c++"; "cpp"; "c"; "h"; "hpp"; "m"; "mm"], "cpp");
    (["go"], "go");
    (["java"], "java");
    (["js"; "ts"; "typescript"; "tsx"; "jsx"; "javascript"; "json";
      "pbxproj"], "js");
    (["yaml"; "yml"; "toml"; "ini"; "cfg"; "conf"; "props"; "env"; "plist";
      "gemfile"; "dockerfile"; "podfile"; "patch"], "text");
    (["sh"; "bash"; "zsh"; "fish"; "bat"; "cmd"], "text");
    (["properties"; "xsd"], "text");
    (["sql"], "sql");
    (["php"], "php");
    (["proto"], "proto");
    (["py"; "python"], "python");
    (["rst"], "rst");
    (["rb"; "ruby"], "ruby");
    (["rs"; "rust"], "rust");
    (["scala"], "scala");
    (["swift"], "swift");
    (["md"; "markdown"], "markdown");
    (["tex"; "latex"], "latex");
    (["html"; "htm"; "xml"; "xsl"; "xdt"; "xcworkspacedata"; "xcprivacy";
      "xcsettings"; "xcscheme"], "html");
    (["sol"; "solidity"], "sol");
    (["text"; "txt"; "lst"; "reg"], "text");
    (["jpr"; "jws"; "iml"], "html");
    (["lock"; "jpg"; "jpeg"; "png"; "gif"; "bmp"; "svg"; "ico"; "webp";
      "tiff"; "bin"; "exe"; "dll"; "so"; "dylib"; "obj"; "o"; "zip"; "tar";
      "gz"; "rar"; "7z"; "jar"; "war"; "ear"; "class"], "ignore") ].

Definition mem (e : string) (l : list string) : bool :=
  existsb (String.eqb e) l.

(** The [switch]: the first group holding the label decides; [default]
    returns ["text"]. *)
Fixpoint switch (e : string) (cases : list (list string * string)) : string :=
  match cases with
  | [] => "text"
  | (labels, result) :: rest =>
    if mem e labels then result else switch e rest
  end.

Definition extensionToSplitter (extension : string) : string :=
  match extension with
  | EmptyString => "text"
  | _ => switch (toLowerCase extension) switch_cases
  end.

(** The chunking classes. *)
Definition classes : list string :=
  ["cpp"; "go"; "java"; "js"; "text"; "sql"; "php"; "proto"; "python";
   "rst"; "ruby"; "rust"; "scala"; "swift"; "markdown"; "latex"; "html";
   "sol"; "ignore"].

(** Every enumerated extension. *)
Definition known_extensions : list string :=
  flat_map fst switch_cases.

(** The binary and artifact extensions. *)
Definition ignore_extensions : list string :=
  ["lock"; "jpg"; "jpeg"; "png"; "gif"; "bmp"; "svg"; "ico"; "webp";
   "tiff"; "bin"; "exe"; "dll"; "so"; "dylib"; "obj"; "o"; "zip"; "tar";
   "gz"; "rar"; "7z"; "jar"; "war"; "ear"; "class"].

End Dispatch.

(* ================================================================== *)
(** * Path patterns (utils/filePatternMatcher.ts) *)
(* ================================================================== *)

Module FilePattern.

(** [globToSqlPattern]: first every ["**"] becomes ["%"], then every
    remaining ["*"] becomes ["%"]. *)
Definition globToSqlPattern (pattern : string) : string :=
  let sqlPattern := replaceAll pattern "**" "%" in
  let sqlPattern := replaceAll sqlPattern "*" "%" in
  sqlPattern.

(** SQLite compares the characters of a [LIKE] pattern without regard to
    ASCII case. *)
Definition eq_nocase (a b : ascii) : bool :=
  Ascii.eqb (upper_char a) (upper_char b).

(** SQLite's [path LIKE pattern] without [ESCAPE]: ["%"] matches any
    sequence of characters, ["_"] any one character. *)
Fixpoint like (pattern path : string) : bool :=
  match pattern with
  | EmptyString =>
    match path with EmptyString => true | _ => false end
  | String p pattern' =>
    if Ascii.eqb p "%" then
      (fix any (s : string) : bool :=
         like pattern' s ||
         match s with
         | EmptyString => false
         | String _ s' => any s'
         end) path
    else
      match path with
      | EmptyString => false
      | String c path' =>
        (Ascii.eqb p "_" || eq_nocase p c) && like pattern' path'
      end
  end.

(** [createFilePatternCondition] writes each pattern between single quotes
    into the text of the query.  SQLite reads the pattern back as it was
    written when the pattern holds no single quote (which would end the
    literal) and no NUL (which would end the text); the clauses below are
    what the text means for such patterns. *)
Fixpoint no_quote (p : string) : bool :=
  match p with
  | EmptyString => true
  | String c r =>
    negb (Ascii.eqb c "'") && negb (Ascii.eqb c "000") && no_quote r
  end.

Definition written_as_read (patterns : option (list string)) : bool :=
  match patterns with
  | Some ps => forallb no_quote ps
  | None => true
  end.

(** One parenthesised conjunct of the generated [WHERE] fragment. *)
Inductive clause : Type :=
| AnyLike (patterns : list string)   (* (f.path LIKE .. OR ..) *)
| NoneLike (patterns : list string). (* (f.path NOT LIKE .. AND ..) *)

(** [createFilePatternCondition]; [None] is [undefined]. *)
Definition createFilePatternCondition
    (includePatterns excludePatterns : option (list string)) : list clause :=
  let conditions : list clause := [] in
  let conditions :=
    match includePatterns with
    | Some ((_ :: _) as ps) =>
      (conditions ++ [AnyLike (map globToSqlPattern ps)])%list
    | _ => conditions
    end in
  let conditions :=
    match excludePatterns with
    | Some ((_ :: _) as ps) =>
      (conditions ++ [NoneLike (map globToSqlPattern ps)])%list
    | _ => conditions
    end in
  conditions.

(** The SQL text of a conjunct and of the whole fragment. *)
Definition clause_sql (c : clause) : string :=
  match c with
  | AnyLike ps =>
    join " OR " (map (fun p => "f.path LIKE '" ++ p ++ "'") ps)
  | NoneLike ps =>
    join " AND " (map (fun p => "f.path NOT LIKE '" ++ p ++ "'") ps)
  end.

Definition condition_sql (cs : list clause) : string :=
  String.concat "" (map (fun c => " AND (" ++ clause_sql c ++ ")") cs).

(** What SQLite evaluates for a row whose [f.path] is [path]. *)
Definition clause_holds (path : string) (c : clause) : bool :=
  match c with
  | AnyLike ps => existsb (fun p => like p path) ps
  | NoneLike ps => forallb (fun p => negb (like p path)) ps
  end.

Definition condition_holds (cs : list clause) (path : string) : bool :=
  forallb (clause_holds path) cs.

(** The glob semantics of the interface description: ["**"] matches any
    characters, ["*"] any characters other than ["/"]. *)
Fixpoint glob_match (fuel : nat) (pattern path : string) : bool :=
  match fuel with
  | O => false
  | S f =>
    match pattern with
    | EmptyString =>
      match path with EmptyString => true | _ => false end
    | String "*" (String "*" pattern') =>
      glob_match f pattern' path ||
      match path with
      | EmptyString => false
      | String _ path' => glob_match f pattern path'
      end
    | String "*" pattern' =>
      glob_match f pattern' path ||
      match path with
      | EmptyString => false
      | String c path' =>
        negb (Ascii.eqb c "/") && glob_match f pattern path'
      end
    | String p pattern' =>
      match path with
      | EmptyString => false
      | String c path' => Ascii.eqb p c && glob_match f pattern' path'
      end
    end
  end.

Definition glob_matches (pattern path : string) : bool :=
  glob_match (String.length pattern + String.length path + 1) pattern path.

End FilePattern.

(* ================================================================== *)
(** * The SQL splitter (class [SQLSchemaSplitter], utils/codeSplitter.ts) *)
(* ================================================================== *)

Module SQLSchemaSplitter.

Definition str (c : ascii) : string := String c EmptyString.

(** ** [parseValues] *)

Record ParseState : Type := mkParse {
  valuesArray : list string;
  currentTuple : string;
  nestingLevel : Z;
  inString : bool;
  stringChar : option ascii;   (* [None] is the initial [""] *)
  escapeNext : bool
}.

Definition parse_init : ParseState :=
  mkParse [] "" 0%Z false None false.

(** A single or a double quote (character 34). *)
Definition is_quote (c : ascii) : bool :=
  Ascii.eqb c "'" || Ascii.eqb c "034".

Definition same_char (c : ascii) (o : option ascii) : bool :=
  match o with Some d => Ascii.eqb c d | None => false end.

(** The inner [while]: skip commas, spaces and line feeds that follow a
    closed tuple. *)
Fixpoint skip_separators (rest : string) : string :=
  match rest with
  | String c rest' =>
    if Ascii.eqb c "," || Ascii.eqb c " " || Ascii.eqb c "010"
    then skip_separators rest' else rest
  | EmptyString => EmptyString
  end.

(** The body of the [for] loop at [char = valuesPart[i]]; [rest] is
    [valuesPart.slice(i + 1)].  Returns the state and the text left to
    scan. *)
Definition parse_char (char : ascii) (rest : string) (st : ParseState)
  : ParseState * string :=
  let cur := st.(currentTuple) ++ str char in
  let st := mkParse st.(valuesArray) cur st.(nestingLevel) st.(inString)
                    st.(stringChar) st.(escapeNext) in
  if st.(escapeNext) then
    (mkParse st.(valuesArray) cur st.(nestingLevel) st.(inString)
             st.(stringChar) false, rest)
  else if Ascii.eqb char "\" then
    (mkParse st.(valuesArray) cur st.(nestingLevel) st.(inString)
             st.(stringChar) true, rest)
  else if is_quote char then
    if st.(inString) && same_char char st.(stringChar) then
      (mkParse st.(valuesArray) cur st.(nestingLevel) false
               st.(stringChar) false, rest)
    else if negb st.(inString) then
      (mkParse st.(valuesArray) cur st.(nestingLevel) true
               (Some char) false, rest)
    else (st, rest)
  else if negb st.(inString) then
    if Ascii.eqb char "(" then
      (mkParse st.(valuesArray) cur (st.(nestingLevel) + 1)%Z st.(inString)
               st.(stringChar) false, rest)
    else if Ascii.eqb char ")" then
      let level := (st.(nestingLevel) - 1)%Z in
      if (level =? 0)%Z then
        (mkParse (st.(valuesArray) ++ [trim cur])%list "" level st.(inString)
                 st.(stringChar) false, skip_separators rest)
      else
        (mkParse st.(valuesArray) cur level st.(inString)
                 st.(stringChar) false, rest)
    else (st, rest)
  else (st, rest).

Fixpoint parse_loop (fuel : nat) (rest : string) (st : ParseState)
  : ParseState :=
  match fuel, rest with
  | S f, String char rest' =>
    let '(st', rest'') := parse_char char rest' st in
    parse_loop f rest'' st'
  | _, _ => st
  end.

Definition parseValues (valuesPart : string) : list string :=
  (parse_loop (String.length valuesPart) valuesPart parse_init).(valuesArray).

(** ** [splitInsertStatement] *)

Section Budget.

Variable maxCharacters : nat.

(** The [for] loop over [valuesArray]: the statements pushed so far and
    [currentValues]. *)
Fixpoint insert_loop (insertIntoPart : string) (tuples : list string)
    (insertStatements : list string) (currentValues : string)
  : list string * string :=
  match tuples with
  | [] => (insertStatements, currentValues)
  | valueTuple :: tuples' =>
    let newStatementLength :=
      String.length insertIntoPart + String.length currentValues
      + String.length valueTuple + 1 in
    if newStatementLength <=? maxCharacters then
      if negb (String.eqb currentValues "") then
        insert_loop insertIntoPart tuples' insertStatements
                    (currentValues ++ "," ++ valueTuple)
      else
        insert_loop insertIntoPart tuples' insertStatements valueTuple
    else
      let newStatement := insertIntoPart ++ currentValues ++ ";" in
      insert_loop insertIntoPart tuples'
                  (insertStatements ++ [newStatement])%list valueTuple
  end.

Definition splitInsertStatement (statement : string) : list string :=
  match indexOf (toUpperCase statement) "VALUES" with
  | None => [statement]
  | Some insertIndex =>
    let insertIntoPart :=
      take (insertIndex + String.length "VALUES") statement ++ " " in
    let valuesPart := drop (insertIndex + String.length "VALUES") statement in
    let valuesArray := parseValues valuesPart in
    let '(insertStatements, currentValues) :=
      insert_loop insertIntoPart valuesArray [] "" in
    if negb (String.eqb currentValues "") then
      let newStatement := insertIntoPart ++ currentValues ++ ";" in
      (insertStatements ++ [newStatement])%list
    else insertStatements
  end.

End Budget.

(** ** [splitSQLStatements] *)

Inductive CommentType : Type :=
| NoComment      (* [""] *)
| LineComment    (* ["--"] *)
| BlockComment.  (* ["/*"] *)

Record TokState : Type := mkTok {
  statements : list string;
  currentStatement : string;
  insideString : bool;
  quoteChar : option ascii;     (* the local [stringChar] *)
  insideComment : bool;
  commentType : CommentType;
  insideFunction : bool;
  insideProcedure : bool;
  insideView : bool;
  insideBlock : bool;
  blockLevel : Z
}.

Definition tok_init : TokState :=
  mkTok [] "" false None false NoComment false false false false 0%Z.

Definition set_statements v (st : TokState) :=
  mkTok v st.(currentStatement) st.(insideString) st.(quoteChar)
        st.(insideComment) st.(commentType) st.(insideFunction)
        st.(insideProcedure) st.(insideView) st.(insideBlock) st.(blockLevel).
Definition set_currentStatement v (st : TokState) :=
  mkTok st.(statements) v st.(insideString) st.(quoteChar)
        st.(insideComment) st.(commentType) st.(insideFunction)
        st.(insideProcedure) st.(insideView) st.(insideBlock) st.(blockLevel).
Definition set_string v q (st : TokState) :=
  mkTok st.(statements) st.(currentStatement) v q
        st.(insideComment) st.(commentType) st.(insideFunction)
        st.(insideProcedure) st.(insideView) st.(insideBlock) st.(blockLevel).
Definition set_comment v t (st : TokState) :=
  mkTok st.(statements) st.(currentStatement) st.(insideString)
        st.(quoteChar) v t st.(insideFunction)
        st.(insideProcedure) st.(insideView) st.(insideBlock) st.(blockLevel).
Definition set_insideFunction v (st : TokState) :=
  mkTok st.(statements) st.(currentStatement) st.(insideString)
        st.(quoteChar) st.(insideComment) st.(commentType) v
        st.(insideProcedure) st.(insideView) st.(insideBlock) st.(blockLevel).
Definition set_insideProcedure v (st : TokState) :=
  mkTok st.(statements) st.(currentStatement) st.(insideString)
        st.(quoteChar) st.(insideComment) st.(commentType)
        st.(insideFunction) v st.(insideView) st.(insideBlock)
        st.(blockLevel).
Definition set_insideView v (st : TokState) :=
  mkTok st.(statements) st.(currentStatement) st.(insideString)
        st.(quoteChar) st.(insideComment) st.(commentType)
        st.(insideFunction) st.(insideProcedure) v st.(insideBlock)
        st.(blockLevel).
Definition set_insideBlock v (st : TokState) :=
  mkTok st.(statements) st.(currentStatement) st.(insideString)
        st.(quoteChar) st.(insideComment) st.(commentType)
        st.(insideFunction) st.(insideProcedure) st.(insideView) v
        st.(blockLevel).
Definition set_blockLevel v (st : TokState) :=
  mkTok st.(statements) st.(currentStatement) st.(insideString)
        st.(quoteChar) st.(insideComment) st.(commentType)
        st.(insideFunction) st.(insideProcedure) st.(insideView)
        st.(insideBlock) v.

(** [currentStatement += s]. *)
Definition append_current (s : string) (st : TokState) : TokState :=
  set_currentStatement (st.(currentStatement) ++ s) st.

(** [statements.push(currentStatement.trim()); currentStatement = ""]. *)
Definition push_statement (st : TokState) : TokState :=
  set_currentStatement ""
    (set_statements (st.(statements) ++ [trim st.(currentStatement)])%list st).

Definition beginKeywords : list string := ["BEGIN"; "BBEGI"; "BEGINN"].
Definition endKeywords : list string := ["END"; "EEN"].
Definition exceptionKeywords : list string := ["EXCEPTION"; "EEXCEPTIO"].

(** [keywords.find((kw) => remainingText.startsWith(kw))]. *)
Definition find_keyword (keywords : list string) (remainingText : string)
  : option string :=
  find (fun kw => startsWith remainingText kw) keywords.

Definition outside_constructs (st : TokState) : bool :=
  negb st.(insideFunction) && negb st.(insideProcedure)
  && negb st.(insideView) && negb st.(insideBlock).

Definition inside_compound (st : TokState) : bool :=
  st.(insideFunction) || st.(insideProcedure) || st.(insideBlock).

(** The first [if .. else if] chain of the loop body (strings, comments,
    construct openers).  [rest] is [text.substring(index)], which starts
    with [char]; [remainingText] is [upperText.substring(index)].  Returns
    the state and by how much the chain advanced [index]. *)
Definition lex_chain (char : ascii) (rest remainingText : string)
    (st : TokState) : TokState * nat :=
  if st.(insideString) then
    if same_char char st.(quoteChar) then
      (set_string false st.(quoteChar) st, 0)
    else if Ascii.eqb char "\" then
      (* index++; if (index < text.length) currentStatement += text[index] *)
      match drop 1 rest with
      | String escaped _ => (append_current (str escaped) st, 1)
      | EmptyString => (st, 1)
      end
    else (st, 0)
  else if st.(insideComment) then
    match st.(commentType) with
    | LineComment =>
      if Ascii.eqb char "010" || Ascii.eqb char "013"
      then (set_comment false st.(commentType) st, 0) else (st, 0)
    | BlockComment =>
      if startsWith remainingText "*/"
      then (append_current "*/" (set_comment false st.(commentType) st), 1)
      else (st, 0)
    | NoComment => (st, 0)
    end
  else if is_quote char then
    (set_string true (Some char) st, 0)
  else if startsWith remainingText "/*" then
    (append_current "/*" (set_comment true BlockComment st), 1)
  else if startsWith remainingText "--" then
    (append_current "--" (set_comment true LineComment st), 1)
  else if outside_constructs st then
    if startsWith remainingText "CREATE FUNCTION"
       || startsWith remainingText "CREATE OR REPLACE FUNCTION" then
      (set_blockLevel 0%Z (set_insideFunction true st), 0)
    else if startsWith remainingText "CREATE PROCEDURE"
         || startsWith remainingText "CREATE OR REPLACE PROCEDURE" then
      (set_blockLevel 0%Z (set_insideProcedure true st), 0)
    else if startsWith remainingText "CREATE VIEW"
         || startsWith remainingText "CREATE OR REPLACE VIEW" then
      (set_insideView true st, 0)
    else
      match find_keyword beginKeywords remainingText with
      | Some matchedBegin =>
        let st := set_blockLevel 1%Z (set_insideBlock true st) in
        if String.length "BEGIN" <? String.length matchedBegin then
          (append_current (drop (String.length "BEGIN") matchedBegin) st,
           String.length matchedBegin - String.length "BEGIN")
        else (st, 0)
      | None => (st, 0)
      end
  else (st, 0).

(** The second chain (block keywords and terminators).  Returns the state
    and by how much [index] moves before the next iteration: a [continue]
    leaves the loop body before its final [index++]. *)
Definition block_chain (char : ascii) (remainingText : string)
    (st : TokState) : TokState * nat :=
  if inside_compound st then
    match find_keyword beginKeywords remainingText with
    | Some matchedBegin =>
      let st := set_blockLevel (st.(blockLevel) + 1)%Z st in
      let st := append_current (drop 1 matchedBegin) st in
      (st, String.length matchedBegin - 1)          (* continue *)
    | None =>
      match find_keyword endKeywords remainingText with
      | Some matchedEnd =>
        if (String.length matchedEnd =? String.length "END")
           || (String.length matchedEnd =? String.length "END;") then
          let st := set_blockLevel (st.(blockLevel) - 1)%Z st in
          let st := append_current (drop 1 matchedEnd) st in
          let st :=
            if (st.(blockLevel) =? 0)%Z then
              if st.(insideFunction) then
                push_statement (set_insideFunction false st)
              else if st.(insideProcedure) then
                push_statement (set_insideProcedure false st)
              else if st.(insideBlock) then
                push_statement (set_insideBlock false st)
              else st
            else st in
          (st, String.length matchedEnd - 1)        (* continue *)
        else (st, 1)
      | None => (st, 1)
      end
    end
  else if st.(insideView) then
    if Ascii.eqb char ";"
    then (push_statement (set_insideView false st), 1)
    else (st, 1)
  else if Ascii.eqb char ";" && outside_constructs st then
    (push_statement st, 1)
  else (st, 1).

(** One iteration of the [while] loop at [char = text[index]]. *)
Definition tok_step (char : ascii) (rest : string) (st : TokState)
  : TokState * nat :=
  let remainingText := toUpperCase rest in
  let st := append_current (str char) st in
  let '(st, skipped) := lex_chain char rest remainingText st in
  let '(st, moved) := block_chain char remainingText st in
  (st, skipped + moved).

(** The [while (index < text.length)] loop; the loop variable is carried
    as [rest = text.substring(index)]. *)
Fixpoint tok_loop (fuel : nat) (rest : string) (st : TokState) : TokState :=
  match fuel, rest with
  | S f, String char _ =>
    let '(st', advance) := tok_step char rest st in
    tok_loop f (drop advance rest) st'
  | _, _ => st
  end.

Definition splitSQLStatements (text : string) : list string :=
  let st := tok_loop (String.length text) text tok_init in
  if negb (String.eqb (trim st.(currentStatement)) "")
  then (st.(statements) ++ [trim st.(currentStatement)])%list
  else st.(statements).

(** ** [splitText] *)

(** [s.split("\n")]. *)
Fixpoint split_lines_acc (acc s : string) : list string :=
  match s with
  | EmptyString => [acc]
  | String c r =>
    if Ascii.eqb c "010" then acc :: split_lines_acc "" r
    else split_lines_acc (acc ++ str c) r
  end.

Definition split_lines (s : string) : list string := split_lines_acc "" s.

Section SplitText.

Variable maxCharacters : nat.

Fixpoint lines_loop (lines splits : list string) (currentSplit : string)
  : list string * string :=
  match lines with
  | [] => (splits, currentSplit)
  | line :: lines' =>
    if String.length currentSplit + String.length line + 1 <=? maxCharacters
    then
      lines_loop lines' splits
        (currentSplit
         ++ (if String.eqb currentSplit "" then "" else str "010") ++ line)
    else
      lines_loop lines'
        (if String.eqb currentSplit "" then splits
         else (splits ++ [currentSplit])%list)
        line
  end.

Definition split_statement (statement : string) : list string :=
  if includes (toUpperCase statement) "INSERT INTO"
     && includes (toUpperCase statement) "VALUES" then
    splitInsertStatement maxCharacters statement
  else if String.length statement <=? maxCharacters then [statement]
  else
    let '(splits, currentSplit) :=
      lines_loop (split_lines statement) [] "" in
    if String.eqb currentSplit "" then splits
    else (splits ++ [currentSplit])%list.

Definition splitText (text : string) : list string :=
  flat_map split_statement (splitSQLStatements text).

End SplitText.

(** ** Texts without comments and compound constructs *)

(** A comment opener or the opener of a function, a procedure or a BEGIN
    block starts at the head of [rest]. *)
Definition opener_here (rest : string) : bool :=
  let u := toUpperCase rest in
  startsWith u "/*"
  || startsWith u "--"
  || startsWith u "CREATE FUNCTION"
  || startsWith u "CREATE OR REPLACE FUNCTION"
  || startsWith u "CREATE PROCEDURE"
  || startsWith u "CREATE OR REPLACE PROCEDURE"
  || startsWith u "BEGIN"
  || startsWith u "BBEGI"
  || startsWith u "BEGINN".

(** Reading [text] with string literals in single or double quotes and
    backslash escapes: outside the literals no opener starts, and inside
    them there is no [";"].  [quote] is the quote of the literal the text
    starts in, [escaped] tells that its first character follows a
    backslash. *)
Fixpoint simple_from (text : string) (quote : option ascii) (escaped : bool)
  : bool :=
  match text with
  | EmptyString => true
  | String c rest =>
    if escaped then
      negb (Ascii.eqb c ";") && simple_from rest quote false
    else
      match quote with
      | Some q =>
        negb (Ascii.eqb c ";")
        && (if Ascii.eqb c q then simple_from rest None false
            else if Ascii.eqb c "\" then simple_from rest quote true
            else simple_from rest quote false)
      | None =>
        if is_quote c then simple_from rest (Some c) false
        else negb (opener_here text) && simple_from rest None false
      end
  end.

Definition simple (text : string) : bool := simple_from text None false.

(** Cutting a text after each [";"]: the trimmed pieces that end in [";"],
    and the text that follows the last [";"]. *)
Fixpoint pieces (current rest : string) : list string * string :=
  match rest with
  | EmptyString => ([], current)
  | String c rest' =>
    if Ascii.eqb c ";" then
      let '(l, remainder) := pieces "" rest' in
      (trim (current ++ str c) :: l, remainder)
    else pieces (current ++ str c) rest'
  end.

Definition split_at_semicolons (text : string) : list string :=
  let '(l, remainder) := pieces "" text in
  if String.eqb (trim remainder) "" then l
  else (l ++ [trim remainder])%list.

Definition after_last_semicolon (text : string) : string :=
  snd (pieces "" text).

Fixpoint count_semicolons (text : string) : nat :=
  match text with
  | EmptyString => 0
  | String c rest =>
    (if Ascii.eqb c ";" then 1 else 0) + count_semicolons rest
  end.

(** Outside every comment and compound construct, and inside a string
    literal exactly when [quote] gives its quote character. *)
Definition calm (st : TokState) (quote : option ascii) : Prop :=
  st.(insideComment) = false
  /\ st.(insideFunction) = false /\ st.(insideProcedure) = false
  /\ st.(insideBlock) = false
  /\ match quote with
     | Some q => st.(insideString) = true /\ st.(quoteChar) = Some q
     | None => st.(insideString) = false
     end.

(** What one iteration does to the statements and to the text that is
    being collected. *)
Definition advances (text : string) (st : TokState) (text' : string)
    (st' : TokState) : Prop :=
  (st'.(statements) ++ fst (pieces st'.(currentStatement) text'))%list
  = (st.(statements) ++ fst (pieces st.(currentStatement) text))%list
  /\ snd (pieces st'.(currentStatement) text')
     = snd (pieces st.(currentStatement) text).

(** The INSERT statement built from a group of tuples. *)
Definition render (insertIntoPart : string) (group : list string) : string :=
  insertIntoPart ++ join "," group ++ ";".

End SQLSchemaSplitter.

(* ================================================================== *)
(** * Results of calls that may throw *)
(* ================================================================== *)

Inductive Outcome (A : Type) : Type :=
| Ok (a : A)
| Throw (message : string).

Arguments Ok {A} a.
Arguments Throw {A} message.

(* ================================================================== *)
(** * The persisted schema (utils/db.ts) and its statements *)
(* ================================================================== *)

Module Store.

Inductive FileStatus : Type := FilePending | Fetched | Ingested | Done.

Inductive BranchStatus : Type :=
  BranchPending | FilesProcessed | EmbeddingsGenerated.

Record RepositoryRow : Type := mkRepository {
  repo_id : nat;
  repo_name : string;
  repo_path : string
}.

Record BranchRow : Type := mkBranch {
  branch_id : nat;
  branch_name : string;
  branch_repository_id : nat;
  last_commit_sha : string;
  branch_status : BranchStatus
}.

Record FileRow : Type := mkFile {
  file_id : nat;
  file_repository_id : nat;
  file_path : string;
  file_name : string;
  file_sha : string;
  file_status : FileStatus
}.

Record ChunkRow : Type := mkChunk {
  chunk_id : nat;
  chunk_file_id : nat;
  chunk_content : string;
  chunk_number : nat;
  embedding : option (list Q);        (* JSON text of the vector, or NULL *)
  model_version : option string;
  token_count : option nat
}.

(** The tables, each in row order, and the AUTOINCREMENT counters. *)
Record DB : Type := mkDB {
  repository : list RepositoryRow;
  branch : list BranchRow;
  file : list FileRow;
  branch_file_association : list (nat * nat);   (* (branch_id, file_id) *)
  file_chunk : list ChunkRow;
  repository_seq : nat;
  branch_seq : nat;
  file_seq : nat;
  chunk_seq : nat
}.

Definition set_repository v n (d : DB) :=
  mkDB v d.(branch) d.(file) d.(branch_file_association) d.(file_chunk)
       n d.(branch_seq) d.(file_seq) d.(chunk_seq).
Definition set_branch v n (d : DB) :=
  mkDB d.(repository) v d.(file) d.(branch_file_association) d.(file_chunk)
       d.(repository_seq) n d.(file_seq) d.(chunk_seq).
Definition set_file v n (d : DB) :=
  mkDB d.(repository) d.(branch) v d.(branch_file_association)
       d.(file_chunk) d.(repository_seq) d.(branch_seq) n d.(chunk_seq).
Definition set_association v (d : DB) :=
  mkDB d.(repository) d.(branch) d.(file) v d.(file_chunk)
       d.(repository_seq) d.(branch_seq) d.(file_seq) d.(chunk_seq).
Definition set_file_chunk v n (d : DB) :=
  mkDB d.(repository) d.(branch) d.(file) d.(branch_file_association) v
       d.(repository_seq) d.(branch_seq) d.(file_seq) n.

Definition file_status_eqb (a b : FileStatus) : bool :=
  match a, b with
  | FilePending, FilePending | Fetched, Fetched
  | Ingested, Ingested | Done, Done => true
  | _, _ => false
  end.

Definition branch_status_eqb (a b : BranchStatus) : bool :=
  match a, b with
  | BranchPending, BranchPending | FilesProcessed, FilesProcessed
  | EmbeddingsGenerated, EmbeddingsGenerated => true
  | _, _ => false
  end.

Definition assoc_eqb (a b : nat * nat) : bool :=
  (fst a =? fst b) && (snd a =? snd b).

(** [bfa.branch_id = ? AND bfa.file_id = f.id] has a row. *)
Definition associated (d : DB) (branchId fileId : nat) : bool :=
  existsb (assoc_eqb (branchId, fileId)) d.(branch_file_association).

Definition has_repository (d : DB) (repoId : nat) : bool :=
  existsb (fun r => r.(repo_id) =? repoId) d.(repository).

Definition has_branch (d : DB) (branchId : nat) : bool :=
  existsb (fun b => b.(branch_id) =? branchId) d.(branch).

Definition has_file (d : DB) (fileId : nat) : bool :=
  existsb (fun f => f.(file_id) =? fileId) d.(file).

(** [SELECT f.id, f.path, f.sha FROM file f JOIN branch_file_association bfa
    ON f.id = bfa.file_id WHERE bfa.branch_id = ?] *)
Definition select_branch_files (d : DB) (branchId : nat) : list FileRow :=
  filter (fun f => associated d branchId f.(file_id)) d.(file).

(** [SELECT id FROM file WHERE repository_id = ? AND path = ? AND sha = ?] *)
Definition select_file_by_key (d : DB) (repoId : nat) (path sha : string)
  : option nat :=
  option_map file_id
    (find (fun f => (f.(file_repository_id) =? repoId)
                    && String.eqb f.(file_path) path
                    && String.eqb f.(file_sha) sha) d.(file)).

(** [INSERT INTO branch_file_association (branch_id, file_id) VALUES (?, ?)]:
    the primary key and both foreign keys are enforced. *)
Definition insert_association (branchId fileId : nat) (d : DB)
  : Outcome DB :=
  if associated d branchId fileId then
    Throw "UNIQUE constraint failed: branch_file_association.branch_id, branch_file_association.file_id"
  else if negb (has_branch d branchId && has_file d fileId) then
    Throw "FOREIGN KEY constraint failed"
  else
    Ok (set_association
          (d.(branch_file_association) ++ [(branchId, fileId)])%list d).

(** [INSERT INTO file (repository_id, path, sha, name, status)
    VALUES (?, ?, ?, ?, 'pending')]; returns [lastInsertRowid]. *)
Definition insert_file (repoId : nat) (path sha name : string) (d : DB)
  : Outcome (nat * DB) :=
  match select_file_by_key d repoId path sha with
  | Some _ =>
    Throw "UNIQUE constraint failed: file.repository_id, file.path, file.sha"
  | None =>
    if negb (has_repository d repoId) then
      Throw "FOREIGN KEY constraint failed"
    else
      let id := S d.(file_seq) in
      Ok (id, set_file
                (d.(file) ++ [mkFile id repoId path name sha FilePending])%list
                id d)
  end.

(** [UPDATE file SET sha = ?, status = 'pending' WHERE id = ?]: fails when
    another row already holds (repository, path, sha). *)
Definition update_file_sha (sha : string) (fileId : nat) (d : DB)
  : Outcome DB :=
  let clash (f : FileRow) :=
    existsb (fun g => negb (g.(file_id) =? fileId)
                      && (g.(file_repository_id) =? f.(file_repository_id))
                      && String.eqb g.(file_path) f.(file_path)
                      && String.eqb g.(file_sha) sha) d.(file) in
  if existsb (fun f => (f.(file_id) =? fileId) && clash f) d.(file) then
    Throw "UNIQUE constraint failed: file.repository_id, file.path, file.sha"
  else
    Ok (set_file
          (map (fun f =>
                  if f.(file_id) =? fileId
                  then mkFile f.(file_id) f.(file_repository_id)
                              f.(file_path) f.(file_name) sha FilePending
                  else f) d.(file))
          d.(file_seq) d).

(** [UPDATE file SET status = ? WHERE id = ?] *)
Definition update_file_status (status : FileStatus) (fileId : nat) (d : DB)
  : DB :=
  set_file
    (map (fun f =>
            if f.(file_id) =? fileId
            then mkFile f.(file_id) f.(file_repository_id) f.(file_path)
                        f.(file_name) f.(file_sha) status
            else f) d.(file))
    d.(file_seq) d.

(** [DELETE FROM branch_file_association WHERE branch_id = ? AND file_id = ?] *)
Definition delete_association (branchId fileId : nat) (d : DB) : DB :=
  set_association
    (filter (fun a => negb (assoc_eqb (branchId, fileId) a))
            d.(branch_file_association)) d.

(** [SELECT 1 FROM branch_file_association WHERE file_id = ? LIMIT 1] *)
Definition file_in_use (d : DB) (fileId : nat) : bool :=
  existsb (fun a => snd a =? fileId) d.(branch_file_association).

(** [DELETE FROM file_chunk WHERE file_id = ?] *)
Definition delete_file_chunks (fileId : nat) (d : DB) : DB :=
  set_file_chunk
    (filter (fun c => negb (c.(chunk_file_id) =? fileId)) d.(file_chunk))
    d.(chunk_seq) d.

(** [DELETE FROM file WHERE id = ?], with the [ON DELETE CASCADE] of the
    tables that reference [file]. *)
Definition delete_file (fileId : nat) (d : DB) : DB :=
  let d := set_file (filter (fun f => negb (f.(file_id) =? fileId)) d.(file))
                    d.(file_seq) d in
  let d := set_association
             (filter (fun a => negb (snd a =? fileId))
                     d.(branch_file_association)) d in
  delete_file_chunks fileId d.

(** [INSERT INTO file_chunk (file_id, content, chunk_number) VALUES (?, ?, ?)
    ON CONFLICT(file_id, chunk_number) DO NOTHING] *)
Definition insert_chunk_or_ignore (fileId : nat) (content : string)
    (chunkNumber : nat) (d : DB) : Outcome DB :=
  if existsb (fun c => (c.(chunk_file_id) =? fileId)
                       && (c.(chunk_number) =? chunkNumber)) d.(file_chunk)
  then Ok d
  else if negb (has_file d fileId) then
    Throw "FOREIGN KEY constraint failed"
  else
    let id := S d.(chunk_seq) in
    Ok (set_file_chunk
          (d.(file_chunk)
           ++ [mkChunk id fileId content chunkNumber None None None])%list
          id d).

(** [INSERT INTO file_chunk (file_id, content, chunk_number, embedding,
    model_version, token_count) VALUES (?, ?, ?, ?, ?, ?)] *)
Definition insert_chunk_embedded (fileId : nat) (content : string)
    (chunkNumber : nat) (vector : list Q) (model : string) (tokens : nat)
    (d : DB) : Outcome DB :=
  if existsb (fun c => (c.(chunk_file_id) =? fileId)
                       && (c.(chunk_number) =? chunkNumber)) d.(file_chunk)
  then Throw "UNIQUE constraint failed: file_chunk.file_id, file_chunk.chunk_number"
  else if negb (has_file d fileId) then
    Throw "FOREIGN KEY constraint failed"
  else
    let id := S d.(chunk_seq) in
    Ok (set_file_chunk
          (d.(file_chunk)
           ++ [mkChunk id fileId content chunkNumber (Some vector)
                       (Some model) (Some tokens)])%list
          id d).

(** [UPDATE file_chunk SET embedding = ?, model_version = ? WHERE id = ?] *)
Definition update_chunk_embedding (vector : list Q) (model : string)
    (chunkId : nat) (d : DB) : DB :=
  set_file_chunk
    (map (fun c =>
            if c.(chunk_id) =? chunkId
            then mkChunk c.(chunk_id) c.(chunk_file_id) c.(chunk_content)
                         c.(chunk_number) (Some vector) (Some model)
                         c.(token_count)
            else c) d.(file_chunk))
    d.(chunk_seq) d.

(** [UPDATE branch SET status = ? WHERE id = ?] *)
Definition update_branch_status (status : BranchStatus) (branchId : nat)
    (d : DB) : DB :=
  set_branch
    (map (fun b =>
            if b.(branch_id) =? branchId
            then mkBranch b.(branch_id) b.(branch_name)
                          b.(branch_repository_id) b.(last_commit_sha) status
            else b) d.(branch))
    d.(branch_seq) d.

(** [UPDATE branch SET last_commit_sha = ?, status = 'pending' WHERE id = ?] *)
Definition update_branch_commit (sha : string) (branchId : nat) (d : DB)
  : DB :=
  set_branch
    (map (fun b =>
            if b.(branch_id) =? branchId
            then mkBranch b.(branch_id) b.(branch_name)
                          b.(branch_repository_id) sha BranchPending
            else b) d.(branch))
    d.(branch_seq) d.

(** [SELECT id, status FROM branch WHERE id = ?] *)
Definition select_branch (d : DB) (branchId : nat) : option BranchRow :=
  find (fun b => b.(branch_id) =? branchId) d.(branch).

(** [SELECT id, last_commit_sha, status FROM branch WHERE name = ? AND
    repository_id = ?] *)
Definition select_branch_by_name (d : DB) (name : string) (repoId : nat)
  : option BranchRow :=
  find (fun b => String.eqb b.(branch_name) name
                 && (b.(branch_repository_id) =? repoId)) d.(branch).

(** [SELECT id FROM repository WHERE name = ?] and [.. WHERE path = ?] *)
Definition select_repository_by_name (d : DB) (name : string)
  : option RepositoryRow :=
  find (fun r => String.eqb r.(repo_name) name) d.(repository).

Definition select_repository_by_path (d : DB) (path : string)
  : option RepositoryRow :=
  find (fun r => String.eqb r.(repo_path) path) d.(repository).

(** [INSERT INTO repository (name, path) VALUES (?, ?)], [UNIQUE(path)]. *)
Definition insert_repository (name path : string) (d : DB)
  : Outcome (nat * DB) :=
  match select_repository_by_path d path with
  | Some _ => Throw "UNIQUE constraint failed: repository.path"
  | None =>
    let id := S d.(repository_seq) in
    Ok (id, set_repository
              (d.(repository) ++ [mkRepository id name path])%list id d)
  end.

(** [INSERT INTO branch (name, repository_id, last_commit_sha, status)
    VALUES (?, ?, ?, 'pending')], [UNIQUE(name, repository_id)]. *)
Definition insert_branch (name : string) (repoId : nat) (sha : string)
    (d : DB) : Outcome (nat * DB) :=
  match select_branch_by_name d name repoId with
  | Some _ => Throw "UNIQUE constraint failed: branch.name, branch.repository_id"
  | None =>
    if negb (has_repository d repoId) then
      Throw "FOREIGN KEY constraint failed"
    else
      let id := S d.(branch_seq) in
      Ok (id, set_branch
                (d.(branch) ++ [mkBranch id name repoId sha BranchPending])%list
                id d)
  end.

(** [SELECT COUNT( * ) as count FROM branch_file_association
    WHERE branch_id = ?] *)
Definition count_branch_associations (d : DB) (branchId : nat) : nat :=
  List.length (filter (fun a => fst a =? branchId)
                      d.(branch_file_association)).

(** The rows of [file_chunk fc JOIN file f ON fc.file_id = f.id JOIN
    branch_file_association bfa ON f.id = bfa.file_id WHERE
    bfa.branch_id = ?], as pairs of a chunk and its file. *)
Definition branch_chunks (d : DB) (branchId : nat)
  : list (ChunkRow * FileRow) :=
  flat_map
    (fun c =>
       map (fun f => (c, f))
           (filter (fun f => (f.(file_id) =? c.(chunk_file_id))
                             && associated d branchId f.(file_id))
                   d.(file)))
    d.(file_chunk).

(** [.. AND fc.embedding IS NULL] *)
Definition chunks_without_embedding (d : DB) (branchId : nat)
  : list (ChunkRow * FileRow) :=
  filter (fun cf => match (fst cf).(embedding) with
                    | None => true | Some _ => false end)
         (branch_chunks d branchId).

(** [.. AND fc.embedding IS NOT NULL] *)
Definition chunks_with_embedding (d : DB) (branchId : nat)
  : list (ChunkRow * FileRow) :=
  filter (fun cf => match (fst cf).(embedding) with
                    | None => false | Some _ => true end)
         (branch_chunks d branchId).

(** [SELECT f.id, f.path, f.sha .. WHERE f.status = 'pending' AND
    bfa.branch_id = ?] *)
Definition select_pending_files (d : DB) (branchId : nat) : list FileRow :=
  filter (fun f => file_status_eqb f.(file_status) FilePending)
         (select_branch_files d branchId).

(** The chunks stored for a file, by ordinal. *)
Definition file_chunks (d : DB) (fileId : nat) : list ChunkRow :=
  filter (fun c => c.(chunk_file_id) =? fileId) d.(file_chunk).

End Store.

(* ================================================================== *)
(** * The synchronizer transaction of [processFiles] (tools/processFiles.ts) *)
(* ================================================================== *)

Module Sync.

Import Store.

(** Sequencing of statements that may throw. *)
Definition bind {A B : Type} (m : Outcome A) (k : A -> Outcome B)
  : Outcome B :=
  match m with
  | Ok a => k a
  | Throw e => Throw e
  end.

Notation "'let*' x ':=' m 'in' k" := (bind m (fun x => k))
  (at level 10, x pattern, m at level 200, k at level 200).

(** An entry of the VCS listing ([interface RepositoryFile]). *)
Record RepositoryFile : Type := mkRepositoryFile {
  path : string;
  name : string;
  sha : string
}.

(** An element of [filesToProcess]. *)
Record FileToProcess : Type := mkFileToProcess {
  ftp_id : nat;
  ftp_path : string;
  ftp_name : string
}.

(** A JavaScript [Map] from paths to rows, in insertion order. *)
Definition FileMap : Type := list (string * FileRow).

Fixpoint map_get (m : FileMap) (key : string) : option FileRow :=
  match m with
  | [] => None
  | (k, v) :: m' => if String.eqb k key then Some v else map_get m' key
  end.

(** [m.set(key, v)] keeps the position of a key that is present. *)
Fixpoint map_set (m : FileMap) (key : string) (v : FileRow) : FileMap :=
  match m with
  | [] => [(key, v)]
  | (k, w) :: m' =>
    if String.eqb k key then (k, v) :: m' else (k, w) :: map_set m' key v
  end.

Definition map_delete (m : FileMap) (key : string) : FileMap :=
  filter (fun kv => negb (String.eqb (fst kv) key)) m.

Definition map_keys (m : FileMap) : list string := map fst m.

(** [for (const file of existingFiles) existingFileMap.set(file.path, file)] *)
Definition build_map (existingFiles : list FileRow) : FileMap :=
  fold_left (fun m f => map_set m f.(file_path) f) existingFiles [].

(** The variables of the transaction function.  The four path lists record
    which branch of the loop each path took; the source keeps only the
    counters, and [newFiles] counts the inserted files alone. *)
Record SyncState : Type := mkSync {
  db : DB;
  existingFileMap : FileMap;
  filesToProcess : list FileToProcess;
  newFiles : nat;
  updatedFiles : nat;
  unchangedFiles : nat;
  removedFiles : nat;
  new_paths : list string;
  updated_paths : list string;
  unchanged_paths : list string;
  removed_paths : list string
}.

Definition push_new (fileId : nat) (f : RepositoryFile) (inserted : bool)
    (d : DB) (m : FileMap) (st : SyncState) : SyncState :=
  mkSync d m
         (st.(filesToProcess)
          ++ [mkFileToProcess fileId f.(path) f.(name)])%list
         (if inserted then S st.(newFiles) else st.(newFiles))
         st.(updatedFiles) st.(unchangedFiles) st.(removedFiles)
         (st.(new_paths) ++ [f.(path)])%list
         st.(updated_paths) st.(unchanged_paths) st.(removed_paths).

Definition push_updated (fileId : nat) (f : RepositoryFile) (d : DB)
    (m : FileMap) (st : SyncState) : SyncState :=
  mkSync d m
         (st.(filesToProcess)
          ++ [mkFileToProcess fileId f.(path) f.(name)])%list
         st.(newFiles) (S st.(updatedFiles)) st.(unchangedFiles)
         st.(removedFiles) st.(new_paths)
         (st.(updated_paths) ++ [f.(path)])%list
         st.(unchanged_paths) st.(removed_paths).

Definition push_unchanged (f : RepositoryFile) (m : FileMap)
    (st : SyncState) : SyncState :=
  mkSync st.(db) m st.(filesToProcess)
         st.(newFiles) st.(updatedFiles) (S st.(unchangedFiles))
         st.(removedFiles) st.(new_paths) st.(updated_paths)
         (st.(unchanged_paths) ++ [f.(path)])%list st.(removed_paths).

Definition push_removed (p : string) (d : DB) (st : SyncState) : SyncState :=
  mkSync d st.(existingFileMap) st.(filesToProcess)
         st.(newFiles) st.(updatedFiles) st.(unchangedFiles)
         (S st.(removedFiles)) st.(new_paths) st.(updated_paths)
         st.(unchanged_paths) (st.(removed_paths) ++ [p])%list.

Section Transaction.

Variables repoId branchId : nat.

(** The body of [for (const file of files)]. *)
Definition sync_file (f : RepositoryFile) (st : SyncState)
  : Outcome SyncState :=
  let existingFile := map_get st.(existingFileMap) f.(path) in
  let m := map_delete st.(existingFileMap) f.(path) in
  match existingFile with
  | None =>
    match select_file_by_key st.(db) repoId f.(path) f.(sha) with
    | Some fileId =>
      (* the file exists in the store for another branch *)
      if associated st.(db) branchId fileId then
        Ok (push_new fileId f false st.(db) m st)
      else
        let* d := insert_association branchId fileId st.(db) in
        Ok (push_new fileId f false d m st)
    | None =>
      (* truly new file *)
      let* (fileId, d) :=
        insert_file repoId f.(path) f.(sha) f.(name) st.(db) in
      let* d := insert_association branchId fileId d in
      Ok (push_new fileId f true d m st)
    end
  | Some existing =>
    if negb (String.eqb existing.(file_sha) f.(sha)) then
      let* d := update_file_sha f.(sha) existing.(file_id) st.(db) in
      Ok (push_updated existing.(file_id) f d m st)
    else
      Ok (push_unchanged f m st)
  end.

Fixpoint sync_files (files : list RepositoryFile) (st : SyncState)
  : Outcome SyncState :=
  match files with
  | [] => Ok st
  | f :: files' =>
    let* st := sync_file f st in
    sync_files files' st
  end.

(** The body of [for (const [path, file] of existingFileMap.entries())]. *)
Definition remove_file (entry : string * FileRow) (st : SyncState)
  : SyncState :=
  let '(p, f) := entry in
  let d := delete_association branchId f.(file_id) st.(db) in
  let d :=
    if negb (file_in_use d f.(file_id))
    then delete_file f.(file_id) (delete_file_chunks f.(file_id) d)
    else d in
  push_removed p d st.

Definition sweep (st : SyncState) : SyncState :=
  fold_left (fun st entry => remove_file entry st) st.(existingFileMap) st.

(** The transaction function [processFiles = (db) => { .. }]. *)
Definition processFilesTx (files : list RepositoryFile) (d : DB)
  : Outcome SyncState :=
  let existingFiles := select_branch_files d branchId in
  let st := mkSync d (build_map existingFiles) [] 0 0 0 0 [] [] [] [] in
  let* st := sync_files files st in
  Ok (sweep st).

End Transaction.

(** The prior persisted file set of the branch, by path. *)
Definition prior (d : DB) (branchId : nat) : FileMap :=
  build_map (select_branch_files d branchId).

(** ** Notions used to state what the transaction does *)

(** How the loop classifies a listing entry against a map. *)
Definition is_new (m : FileMap) (f : RepositoryFile) : bool :=
  match map_get m f.(path) with None => true | Some _ => false end.

Definition is_updated (m : FileMap) (f : RepositoryFile) : bool :=
  match map_get m f.(path) with
  | Some e => negb (String.eqb e.(file_sha) f.(sha))
  | None => false
  end.

Definition is_unchanged (m : FileMap) (f : RepositoryFile) : bool :=
  match map_get m f.(path) with
  | Some e => String.eqb e.(file_sha) f.(sha)
  | None => false
  end.

Definition paths (files : list RepositoryFile) : list string :=
  map path files.

(** The file ids held by the prior file set of the branch in [d0]: the
    only rows the transaction updates or deletes. *)
Definition held (branchId : nat) (d0 : DB) (id : nat) : Prop :=
  exists k e, In (k, e) (prior d0 branchId) /\ e.(file_id) = id.

(** [d'] keeps the rows and associations of [d] whose file id is not
    held, and its counter is not behind. *)
Definition keeps (branchId : nat) (d0 d d' : DB) : Prop :=
  (forall r, In r d.(file) -> ~ held branchId d0 r.(file_id) ->
             In r d'.(file))
  /\ (forall a, In a d.(branch_file_association) ->
                ~ held branchId d0 (snd a) ->
                In a d'.(branch_file_association))
  /\ d.(file_seq) <= d'.(file_seq).

(** Rows of [d] come from [d0] or belong to a path that was handled. *)
Definition from_prior (d0 : DB) (processed : list string) (d : DB) : Prop :=
  forall r, In r d.(file) ->
            In r d0.(file) \/ In r.(file_path) processed.

(** What holds for a listing entry that was new: its File is recorded for
    re-chunking and associated with the branch; the File is a row the store
    already had, or, when the store had no row with this repository, path
    and content identifier, a row inserted as pending under a fresh id. *)
Definition settled (repoId branchId : nat) (d0 : DB) (f : RepositoryFile)
    (d : DB) (toProcess : list FileToProcess) : Prop :=
  exists row,
    In (mkFileToProcess row.(file_id) f.(path) f.(name)) toProcess
    /\ In (branchId, row.(file_id)) d.(branch_file_association)
    /\ In row d.(file)
    /\ row.(file_repository_id) = repoId
    /\ row.(file_path) = f.(path)
    /\ row.(file_sha) = f.(sha)
    /\ ~ held branchId d0 row.(file_id)
    /\ (In row d0.(file)
        \/ (d0.(file_seq) < row.(file_id)
            /\ row.(file_status) = FilePending
            /\ forall r0, In r0 d0.(file) ->
                          ~ (r0.(file_repository_id) = repoId
                             /\ r0.(file_path) = f.(path)
                             /\ r0.(file_sha) = f.(sha)))).

(** The counters of the log line count the recorded paths. *)
Definition counted (st : SyncState) : Prop :=
  st.(updatedFiles) = List.length st.(updated_paths)
  /\ st.(unchangedFiles) = List.length st.(unchanged_paths)
  /\ st.(removedFiles) = List.length st.(removed_paths)
  /\ st.(newFiles) <= List.length st.(new_paths).

End Sync.

(* ================================================================== *)
(** * Similarity scan of [queryRepo] *)
(* ================================================================== *)

Module Retrieval.

Import Store FilePattern.

(** A row of the scan: [fc.content, f.path, fc.chunk_number, similarity];
    [None] is SQL [NULL]. *)
Record SearchResult : Type := mkResult {
  content : string;
  filePath : string;
  chunkNumber : nat;
  similarity : option Q
}.

(** [SELECT SUM(json_extract(value, '$') * json_extract(?, '$[' || key ||
    ']')) FROM json_each(fc.embedding) GROUP BY key IS NOT NULL]: the products
    of the coordinates that both vectors have; [NULL] when there is none. *)
Fixpoint products (chunkVector queryVector : list Q) : list Q :=
  match chunkVector, queryVector with
  | c :: cs, q :: qs => (c * q)%Q :: products cs qs
  | _, _ => []
  end.

Definition product_sum (chunkVector queryVector : list Q) : option Q :=
  match products chunkVector queryVector with
  | [] => None
  | ps => Some (fold_left Qplus ps 0%Q)
  end.

(** The score column of the first scan: [( .. )/${queryEmbedding.length}]. *)
Definition similarity_initial (queryVector chunkVector : list Q)
  : option Q :=
  match product_sum chunkVector queryVector with
  | Some s =>
    match queryVector with
    | [] => None
    | _ => Some (s / inject_Z (Z.of_nat (List.length queryVector)))%Q
    end
  | None => None
  end.

(** The score column of the scan that follows the backfill: [( .. )]. *)
Definition similarity_retry (queryVector chunkVector : list Q) : option Q :=
  product_sum chunkVector queryVector.

(** [ORDER BY similarity DESC]: [NULL] sorts last. *)
Definition score_geb (a b : option Q) : bool :=
  match a, b with
  | _, None => true
  | None, Some _ => false
  | Some x, Some y => Qle_bool y x
  end.

Fixpoint insert_sorted (r : SearchResult) (l : list SearchResult)
  : list SearchResult :=
  match l with
  | [] => [r]
  | x :: l' =>
    if score_geb x.(similarity) r.(similarity)
    then x :: insert_sorted r l' else r :: l
  end.

Definition order_by_similarity_desc (l : list SearchResult)
  : list SearchResult :=
  fold_left (fun acc r => insert_sorted r acc) l [].

(** The rows of the scan before [LIMIT], with the score column given by
    [score]. *)
Definition ranking (score : list Q -> list Q -> option Q) (d : DB)
    (queryVector : list Q) (branchId : nat) (condition : list clause)
  : list SearchResult :=
  let rows :=
    filter (fun cf => condition_holds condition (snd cf).(file_path))
           (chunks_with_embedding d branchId) in
  let scored :=
    map (fun cf =>
           mkResult (fst cf).(chunk_content) (snd cf).(file_path)
                    (fst cf).(chunk_number)
                    (match (fst cf).(embedding) with
                     | Some v => score queryVector v
                     | None => None
                     end)) rows in
  order_by_similarity_desc scored.

(** The scan with a limit that is a natural number. *)
Definition scan (score : list Q -> list Q -> option Q) (d : DB)
    (queryVector : list Q) (branchId : nat) (condition : list clause)
    (effectiveLimit : nat) : list SearchResult :=
  firstn effectiveLimit (ranking score d queryVector branchId condition).

Definition initial_scan := scan similarity_initial.
Definition retry_scan := scan similarity_retry.

(** A JavaScript number, as far as [LIMIT ?] tells numbers apart: a finite
    value, written as a rational, or one of [NaN], [Infinity] and
    [-Infinity]. *)
Inductive JsNumber : Type :=
| Finite (q : Q)
| NotFinite.

(** The integer that SQLite makes of the number bound to [LIMIT ?]: the
    number itself when it is an integer of 64 bits, and none otherwise. *)
Definition limit_integer (n : JsNumber) : option Z :=
  match n with
  | Finite q =>
    let z := (Qnum q / Zpos (Qden q))%Z in
    if ((Qnum q mod Zpos (Qden q) =? 0)
        && (- 2 ^ 63 <=? z) && (z <? 2 ^ 63))%Z
    then Some z else None
  | NotFinite => None
  end.

(** [.. LIMIT ?]: a number that is no integer makes the statement fail, a
    negative integer is no limit. *)
Definition limited {A : Type} (limit : JsNumber) (rows : list A)
  : Outcome (list A) :=
  match limit_integer limit with
  | None => Throw "datatype mismatch"
  | Some z => Ok (if (z <? 0)%Z then rows else firstn (Z.to_nat z) rows)
  end.

(** The scan as [queryRepo] runs it, with the number it was given bound to
    [LIMIT ?]. *)
Definition select_similar (score : list Q -> list Q -> option Q) (d : DB)
    (queryVector : list Q) (branchId : nat) (condition : list clause)
    (limit : JsNumber) : Outcome (list SearchResult) :=
  limited limit (ranking score d queryVector branchId condition).

(** The keyword post-filter. *)
Definition keyword_filter (keywordsSearch : option (list string))
    (results : list SearchResult) : list SearchResult :=
  match keywordsSearch with
  | Some ((_ :: _) as kws) =>
    let lowercaseKeywords := map (fun kw => toLowerCase (trim kw)) kws in
    filter (fun r =>
              existsb (fun keyword => includes (toLowerCase r.(content)) keyword)
                      lowercaseKeywords) results
  | _ => results
  end.

(** The score the retrieval contract describes: the coordinate-wise product
    sum divided by the dimensionality. *)
Definition spec_score (queryVector chunkVector : list Q) : Q :=
  (fold_left Qplus (products chunkVector queryVector) 0
   / inject_Z (Z.of_nat (List.length queryVector)))%Q.

End Retrieval.

(* ================================================================== *)
(** * The entry operations (tools/*.ts) *)
(* ================================================================== *)

Module Pipeline.

Import Store Sync Retrieval FilePattern Dispatch.

(** What an entry operation returns: its success object or
    [{ error: { message } }]. *)
Inductive Payload (A : Type) : Type :=
| Success (a : A)
| Error (message : string).

Arguments Success {A} a.
Arguments Error {A} message.

(** Calls observed from outside. *)
Inductive Event : Type :=
| EvInitialScan
| EvRetryScan
| EvEmbedFiles
| EvEmbedder (texts : nat)
| EvProgress (fraction : Q).

(** The store, a counter of the calls made to collaborators so far, and the
    observed calls. *)
Record World : Type := mkWorld {
  store : DB;
  clock : nat;
  trace : list Event
}.

Definition M (A : Type) : Type := World -> Outcome A * World.

Definition ret {A : Type} (a : A) : M A := fun w => (Ok a, w).

Definition throw {A : Type} (message : string) : M A :=
  fun w => (Throw message, w).

Definition mbind {A B : Type} (m : M A) (k : A -> M B) : M B :=
  fun w =>
    match m w with
    | (Ok a, w') => k a w'
    | (Throw e, w') => (Throw e, w')
    end.

Notation "x <- m ;; k" := (mbind m (fun x => k))
  (at level 61, m at next level, right associativity).
Notation "m ;;; k" := (mbind m (fun _ => k))
  (at level 61, right associativity).

(** [try { body } catch (error) { handler }]. *)
Definition try_catch {A : Type} (body : M A) (handler : string -> M A)
  : M A :=
  fun w =>
    match body w with
    | (Ok a, w') => (Ok a, w')
    | (Throw e, w') => handler e w'
    end.

Definition emit (e : Event) : M unit :=
  fun w => (Ok tt, mkWorld w.(store) w.(clock) (w.(trace) ++ [e])%list).

Definition get_store : M DB := fun w => (Ok w.(store), w).

(** [n.toString()] inside a message. *)
Definition string_of_nat (n : nat) : string :=
  NilEmpty.string_of_uint (Nat.to_uint n).

Section Collaborators.

(** [fault t = Some message]: the call number [t] to a collaborator (Store,
    VCS, file system, Embedder, splitting library, progress sink) throws. *)
Variable fault : nat -> option string.

(** Embedder: the vector returned for a text by call number [t]. *)
Variable embed_text : nat -> string -> list Q.

(** VCS: local path of the clone, current branch, commit of a branch and
    the listing of a branch, as answered by call number [t]. *)
Variable git_clone : nat -> string -> string.
Variable git_head : nat -> string.
Variable git_revparse : nat -> string -> string.
Variable git_ls_tree : nat -> string -> list RepositoryFile.

(** File system: [existsSync] and [readFileSync]. *)
Variable fs_exists : nat -> string -> bool.
Variable fs_read : nat -> string -> string.

(** The splitting library: [RecursiveCharacterTextSplitter] by chunking
    class, and [createDocuments] of [TextSplitter] given [splitText], the
    chunk header and the text. *)
Variable recursive_split : string -> string -> list string.
Variable createDocuments :
  (string -> list string) -> string -> string -> list string.

(** A call to a collaborator: it takes the next call number and throws when
    the fault plan says so. *)
Definition collab {A : Type} (f : nat -> DB -> Outcome (A * DB)) : M A :=
  fun w =>
    let t := w.(clock) in
    let w1 := mkWorld w.(store) (S t) w.(trace) in
    match fault t with
    | Some message => (Throw message, w1)
    | None =>
      match f t w.(store) with
      | Ok (a, d) => (Ok a, mkWorld d (S t) w.(trace))
      | Throw e => (Throw e, w1)
      end
    end.

(** [dbInterface.get / all]: a query. *)
Definition db_query {A : Type} (q : DB -> A) : M A :=
  collab (fun _ d => Ok (q d, d)).

(** [dbInterface.get / all] of a statement that can fail. *)
Definition db_try {A : Type} (q : DB -> Outcome A) : M A :=
  collab (fun _ d => match q d with
                     | Ok a => Ok (a, d)
                     | Throw e => Throw e
                     end).

(** [dbInterface.run]: a statement. *)
Definition db_run (stmt : DB -> DB) : M unit :=
  collab (fun _ d => Ok (tt, stmt d)).

(** [dbInterface.transaction(body)]: nothing is kept when [body] throws. *)
Definition transaction {A : Type} (body : DB -> Outcome (A * DB)) : M A :=
  collab (fun _ d => body d).

(** A call that does not touch the store. *)
Definition external {A : Type} (f : nat -> A) : M A :=
  collab (fun t d => Ok (f t, d)).

(** [progressNotifier?.sendProgress(fraction, 1)]. *)
Definition sendProgress (progressNotifier : bool) (fraction : Q) : M unit :=
  if progressNotifier
  then emit (EvProgress fraction) ;;; external (fun _ => tt)
  else ret tt.

(** [generateOllamaEmbeddings(texts)]. *)
Definition generateOllamaEmbeddings (texts : list string) : M (list (list Q)) :=
  emit (EvEmbedder (List.length texts)) ;;;
  external (fun t => map (embed_text t) texts).

(** ** [splitDocument] (utils/codeSplitter.ts) *)

(** [s.split(".").pop()]. *)
Fixpoint last_segment_acc (acc s : string) : string :=
  match s with
  | EmptyString => acc
  | String c r =>
    if Ascii.eqb c "." then last_segment_acc "" r
    else last_segment_acc (acc ++ String c "") r
  end.

Definition last_segment (s : string) : string := last_segment_acc "" s.

Definition CHUNK_SIZE_CHARACTERS : nat := 22750.

Definition splitDocument (filename code : string) : list string :=
  let extension := last_segment filename in
  let splitType := extensionToSplitter extension in
  if String.eqb splitType "ignore" then []
  else
    let splitText :=
      if negb (String.eqb splitType "text")
         && negb (String.eqb splitType "sql")
      then recursive_split splitType
      else if String.eqb splitType "sql"
      then SQLSchemaSplitter.splitText CHUNK_SIZE_CHARACTERS
      else recursive_split "text" in
    createDocuments splitText
      ("FILE NAME: " ++ filename
       ++ String "010" (String "010" ("---" ++ String "010" (String "010" ""))))
      code.

(** ** [processFileContents] (tools/processFiles.ts) *)

(** [content.replace(/\0/g, "")]. *)
Fixpoint remove_nul (s : string) : string :=
  match s with
  | EmptyString => EmptyString
  | String c r =>
    if Ascii.eqb c "000" then remove_nul r else String c (remove_nul r)
  end.

(** The statements of the transaction that stores the chunks of a file. *)
Fixpoint insert_chunks (fileId : nat) (chunks : list string) (i : nat)
    (d : DB) : Outcome DB :=
  match chunks with
  | [] => Ok d
  | pageContent :: chunks' =>
    let* d := insert_chunk_or_ignore fileId pageContent (i + 1) d in
    insert_chunks fileId chunks' (S i) d
  end.

Definition store_chunks (fileId : nat) (chunks : list string) (d : DB)
  : Outcome (unit * DB) :=
  let* d := insert_chunks fileId chunks 0 d in
  Ok (tt, update_file_status Fetched fileId d).

(** [path.join(repoPath, file.path)]. *)
Definition path_join (a b : string) : string := a ++ "/" ++ b.

(** The body of [for (const file of pendingFiles)]. *)
Definition process_pending_file (repoPath : string) (f : FileRow) : M unit :=
  let extension := toLowerCase (last_segment f.(file_path)) in
  let splitType :=
    if String.eqb extension "" then "ignore"
    else extensionToSplitter extension in
  if negb (String.eqb splitType "ignore") then
    try_catch
      (let filePath := path_join repoPath f.(file_path) in
       present <- external (fun t => fs_exists t filePath) ;;
       if negb present then ret tt
       else
         content <- external (fun t => fs_read t filePath) ;;
         let content := remove_nul content in
         let maxLength := 1000000 in
         let content :=
           if maxLength <? String.length content
           then take maxLength content else content in
         chunks <- external (fun _ => splitDocument f.(file_path) content) ;;
         transaction (store_chunks f.(file_id) chunks))
      (fun _ => ret tt)
  else
    db_run (update_file_status Done f.(file_id)).

Fixpoint for_each {A : Type} (body : A -> M unit) (l : list A) : M unit :=
  match l with
  | [] => ret tt
  | a :: l' => body a ;;; for_each body l'
  end.

Definition processFileContents (branchName repoPath : string) : M unit :=
  external (fun _ => tt) ;;;                               (* git.checkout *)
  repo <- db_query (fun d => select_repository_by_path d repoPath) ;;
  match repo with
  | None => throw "TypeError: Cannot read properties of undefined (reading 'id')"
  | Some repo =>
    branch <- db_query (fun d =>
                select_branch_by_name d branchName repo.(repo_id)) ;;
    match branch with
    | None =>
      throw "TypeError: Cannot read properties of undefined (reading 'id')"
    | Some branch =>
      pendingFiles <- db_query (fun d =>
                        select_pending_files d branch.(branch_id)) ;;
      for_each (process_pending_file repoPath) pendingFiles
    end
  end.

(** ** [processFiles] (tools/processFiles.ts) *)

Record ProcessFilesInput : Type := mkProcessFilesInput {
  pf_repoLocalPath : string;
  pf_repoId : nat;
  pf_branchId : nat;
  pf_actualBranch : string;
  pf_needsUpdate : bool
}.

Record ProcessFilesOutput : Type := mkProcessFilesOutput {
  out_needsUpdate : bool;
  out_filesToProcess : list FileToProcess
}.

Definition MAX_FILES_TO_PROCESS : nat := 1000000.

Definition processFiles (input : option ProcessFilesInput)
    (progressNotifier : bool) : M (Payload ProcessFilesOutput) :=
  try_catch
    (match input with
     | None => ret (Error "Input parameters are required for processFiles tool")
     | Some input =>
       if negb input.(pf_needsUpdate) then
         ret (Success (mkProcessFilesOutput false []))
       else
         (* getRepositoryFiles: checkout, rev-parse, ls-tree *)
         external (fun _ => tt) ;;;
         external (fun _ => tt) ;;;
         files <- external (fun t => git_ls_tree t input.(pf_actualBranch)) ;;
         st <- transaction (fun d =>
                 let* st := processFilesTx input.(pf_repoId)
                              input.(pf_branchId) files d in
                 Ok (st, st.(Sync.db))) ;;
         let limitedFiles := firstn MAX_FILES_TO_PROCESS st.(filesToProcess) in
         sendProgress progressNotifier (33 # 100) ;;;
         try_catch
           (processFileContents input.(pf_actualBranch)
                                input.(pf_repoLocalPath) ;;;
            db_run (update_branch_status FilesProcessed input.(pf_branchId)) ;;;
            sendProgress progressNotifier (66 # 100))
           (fun _ => ret tt) ;;;
         ret (Success (mkProcessFilesOutput true limitedFiles))
     end)
    (fun message =>
       ret (Error ("Error executing processFiles tool: " ++ message))).

(** ** [embedFiles] (tools/embedFiles.ts) *)

Record EmbedFilesInput : Type := mkEmbedFilesInput {
  ef_repoLocalPath : string;
  ef_branchId : nat
}.

Definition BATCH_SIZE : nat := 100.
Definition EMBEDDING_MODEL : string :=
  "unclemusclez/jina-embeddings-v2-base-code".

(** The transaction that stores the vectors of a batch. *)
Definition store_embeddings (batch : list (ChunkRow * FileRow))
    (embeddings : list (list Q)) (d : DB) : Outcome (unit * DB) :=
  Ok (tt,
      fold_left (fun d ce =>
                   update_chunk_embedding (snd ce) EMBEDDING_MODEL
                                          (fst (fst ce)).(chunk_id) d)
                (combine batch embeddings) d).

(** [for (let i = 0; i < chunks.length; i += BATCH_SIZE)]; [remaining] is
    [chunks.slice(i)]. *)
Fixpoint embed_batches (fuel : nat) (progressNotifier : bool)
    (totalChunks : nat) (remaining : list (ChunkRow * FileRow))
    (processedChunks : nat) : M nat :=
  match fuel, remaining with
  | S fuel', _ :: _ =>
    let batch := firstn BATCH_SIZE remaining in
    let chunkContents := map (fun ce => (fst ce).(chunk_content)) batch in
    embeddings <- generateOllamaEmbeddings chunkContents ;;
    transaction (store_embeddings batch embeddings) ;;;
    let processedChunks := processedChunks + List.length batch in
    sendProgress progressNotifier
      (Z.of_nat processedChunks # Pos.of_nat totalChunks) ;;;
    embed_batches fuel' progressNotifier totalChunks
                  (skipn BATCH_SIZE remaining) processedChunks
  | _, _ => ret processedChunks
  end.

Definition embedFiles (input : option EmbedFilesInput)
    (progressNotifier : bool) : M (Payload nat) :=
  emit EvEmbedFiles ;;;
  try_catch
    (match input with
     | None => ret (Error "Input parameters are required for embedFiles tool")
     | Some input =>
       let branchId := input.(ef_branchId) in
       branchExists <- db_query (fun d => select_branch d branchId) ;;
       match branchExists with
       | None =>
         ret (Error ("Branch with ID " ++ string_of_nat branchId
                     ++ " does not exist"))
       | Some _ =>
         fileCount <- db_query (fun d =>
                        count_branch_associations d branchId) ;;
         if fileCount =? 0 then
           db_run (update_branch_status EmbeddingsGenerated branchId) ;;;
           ret (Success 0)
         else
           chunks <- db_query (fun d =>
                       chunks_without_embedding d branchId) ;;
           match chunks with
           | [] =>
             db_run (update_branch_status EmbeddingsGenerated branchId) ;;;
             sendProgress progressNotifier 1 ;;;
             ret (Success 0)
           | _ =>
             processedChunks <-
               embed_batches (List.length chunks) progressNotifier
                             (List.length chunks) chunks 0 ;;
             db_run (update_branch_status EmbeddingsGenerated branchId) ;;;
             ret (Success processedChunks)
           end
       end
     end)
    (fun message =>
       ret (Error ("Error executing embedFiles tool: " ++ message))).

(** ** [ingestBranch] (tools/ingestBranch.ts) *)

Record IngestBranchInput : Type := mkIngestBranchInput {
  ib_repoUrl : string;
  ib_branch : option string
}.

Record BranchData : Type := mkBranchData {
  repoLocalPath : string;
  repoId : nat;
  branchId : nat;
  needsUpdate : bool;
  repoName : string;
  actualBranch : string;
  latestCommit : string
}.

(** [path.basename(repoUrl, ".git")]. *)
Fixpoint after_last_slash (acc s : string) : string :=
  match s with
  | EmptyString => acc
  | String c r =>
    if Ascii.eqb c "/" then after_last_slash "" r
    else after_last_slash (acc ++ String c "") r
  end.

Definition basename_git (repoUrl : string) : string :=
  let base := after_last_slash "" repoUrl in
  let n := String.length base in
  if (4 <? n) && String.eqb (drop (n - 4) base) ".git"
  then take (n - 4) base else base.

Definition ingestBranch (input : option IngestBranchInput)
    (progressNotifier : bool) : M (Payload BranchData) :=
  try_catch
    (match input with
     | None => ret (Error "Input parameters are required for ingestBranch tool")
     | Some input =>
       let repoUrl := input.(ib_repoUrl) in
       if String.eqb repoUrl "" then
         ret (Error "Required parameter (repoUrl) is missing")
       else
         let actualBranch :=
           match input.(ib_branch) with Some b => b | None => "" end in
         (* cloneRepositoryWithProgress *)
         sendProgress progressNotifier 0 ;;;
         repoLocalPath <- external (fun t => git_clone t repoUrl) ;;
         sendProgress progressNotifier (33 # 100) ;;;
         actualBranch <-
           (if String.eqb actualBranch "" then
              try_catch (external git_head) (fun _ => ret "main")
            else ret actualBranch) ;;
         external (fun _ => tt) ;;;                        (* git.checkout *)
         latestCommit <- external (fun t => git_revparse t actualBranch) ;;
         let repoName := basename_git repoUrl in
         repoExists <- db_query (fun d =>
                         select_repository_by_name d repoName) ;;
         repoId <-
           match repoExists with
           | Some r => ret r.(repo_id)
           | None => transaction (insert_repository repoName repoLocalPath)
           end ;;
         branchExists <- db_query (fun d =>
                           select_branch_by_name d actualBranch repoId) ;;
         match branchExists with
         | Some b =>
           changed <-
             (if negb (String.eqb b.(last_commit_sha) latestCommit) then
                db_run (update_branch_commit latestCommit b.(branch_id)) ;;;
                ret true
              else ret false) ;;
           let needsUpdate :=
             changed
             || negb (branch_status_eqb b.(branch_status)
                                        EmbeddingsGenerated) in
           ret (Success (mkBranchData repoLocalPath repoId b.(branch_id)
                           needsUpdate repoName actualBranch latestCommit))
         | None =>
           newId <- transaction (insert_branch actualBranch repoId
                                               latestCommit) ;;
           ret (Success (mkBranchData repoLocalPath repoId newId true
                           repoName actualBranch latestCommit))
         end
     end)
    (fun message =>
       ret (Error ("Error executing ingestBranch tool: " ++ message))).

(** ** [queryRepo] (tools/queryRepo.ts) *)

Record QueryRepoInput : Type := mkQueryRepoInput {
  repoUrl : string;
  branch : option string;
  semanticSearch : string;
  keywordsSearch : option (list string);
  filePatterns : option (list string);
  excludePatterns : option (list string);
  limit : option JsNumber
}.

Record QueryRepoOutput : Type := mkQueryRepoOutput {
  out_repoUrl : string;
  out_branch : string;
  results : list SearchResult
}.

(** The steps from the query embedding to the ranked results. *)
Definition search (branchData : BranchData) (semanticSearch : string)
    (input : QueryRepoInput) (heartbeat : bool)
  : M (Payload (list SearchResult)) :=
  embeddings <- generateOllamaEmbeddings [semanticSearch] ;;
  match embeddings with
  | [] => throw "TypeError: Cannot read properties of undefined (reading 'length')"
  | queryEmbedding :: _ =>
    sendProgress heartbeat (6 # 10) ;;;
    let effectiveLimit :=
      match input.(limit) with
      | None => Finite (inject_Z 10)
      | Some l => l
      end in
    let filePatternCondition :=
      createFilePatternCondition input.(filePatterns)
                                 input.(excludePatterns) in
    emit EvInitialScan ;;;
    results <- db_try (fun d =>
                 select_similar similarity_initial d queryEmbedding
                                branchData.(branchId) filePatternCondition
                                effectiveLimit) ;;
    sendProgress heartbeat (7 # 10) ;;;
    match results with
    | [] =>
      count <- db_query (fun d =>
                 List.length
                   (chunks_without_embedding d branchData.(branchId))) ;;
      if 0 <? count then
        sendProgress heartbeat (75 # 100) ;;;
        embedResult <-
          embedFiles (Some (mkEmbedFilesInput branchData.(repoLocalPath)
                                              branchData.(branchId)))
                     false ;;
        sendProgress heartbeat (9 # 10) ;;;
        match embedResult with
        | Error message => ret (Error message)
        | Success _ =>
          emit EvRetryScan ;;;
          retryResults <- db_try (fun d =>
                            select_similar similarity_retry d queryEmbedding
                                           branchData.(branchId)
                                           filePatternCondition
                                           effectiveLimit) ;;
          ret (Success (results ++ retryResults)%list)
        end
      else ret (Success results)
    | _ => ret (Success results)
    end
  end.

Definition queryRepo (input : option QueryRepoInput)
    (progressNotifier : bool) : M (Payload QueryRepoOutput) :=
  let heartbeat := progressNotifier in
  try_catch
    (match input with
     | None => ret (Error "Input parameters are required for queryRepo tool")
     | Some input =>
       let missing (o : option (list string)) :=
         match o with None => true | Some _ => false end in
       if String.eqb input.(repoUrl) ""
          || (String.eqb input.(semanticSearch) ""
              && missing input.(keywordsSearch))
       then
         ret (Error "Required parameters (repoUrl, semanticSearch or keywordsSearch) are missing")
       else
         let semanticSearch :=
           if String.eqb input.(semanticSearch) "" then
             match input.(keywordsSearch) with
             | Some kws => join " " kws
             | None => ""
             end
           else input.(semanticSearch) in
         sendProgress heartbeat (5 # 100) ;;;
         branchResult <-
           ingestBranch (Some (mkIngestBranchInput input.(repoUrl)
                                                   input.(branch)))
                        false ;;
         sendProgress heartbeat (25 # 100) ;;;
         match branchResult with
         | Error message => ret (Error message)
         | Success branchData =>
           filesResult <-
             processFiles
               (Some (mkProcessFilesInput
                        branchData.(repoLocalPath) branchData.(repoId)
                        branchData.(branchId) branchData.(actualBranch)
                        branchData.(needsUpdate)))
               false ;;
           sendProgress heartbeat (5 # 10) ;;;
           match filesResult with
           | Error message => ret (Error message)
           | Success _ =>
             found <- search branchData semanticSearch input heartbeat ;;
             match found with
             | Error message => ret (Error message)
             | Success results =>
               let filteredResults :=
                 keyword_filter input.(keywordsSearch) results in
               sendProgress heartbeat 1 ;;;
               ret (Success (mkQueryRepoOutput input.(repoUrl)
                               branchData.(actualBranch) filteredResults))
             end
           end
         end
     end)
    (fun message =>
       ret (Error ("Error executing queryRepo tool: " ++ message))).

End Collaborators.

(** ** Notions used to state what the operations do *)




(** Chunks that still lack a vector in [d] are rows of [d0] whose id is not
    in [ids]; files and associations are those of [d0]. *)
Definition untouched (ids : list nat) (d0 d : DB) : Prop :=
  d.(file) = d0.(file)
  /\ d.(branch_file_association) = d0.(branch_file_association)
  /\ forall c, In c d.(file_chunk) -> c.(embedding) = None ->
               In c d0.(file_chunk) /\ ~ In c.(chunk_id) ids.




End Pipeline.

(* ================================================================== *)
(** * Small stores and collaborators for concrete runs *)
(* ================================================================== *)

Module Scenarios.

Import Store Sync Retrieval Pipeline.

(** Collaborators that never fail: the embedder answers every text with
    the vector (1/2, 1/2); the splitting library returns the text as one
    chunk, prefixed with the chunk header. *)
Definition no_fault (t : nat) : option string := None.
Definition embed_half (t : nat) (text : string) : list Q := [1 # 2; 1 # 2]%Q.
Definition one_chunk (class text : string) : list string := [text].
Definition with_header (splitText : string -> list string)
    (chunkHeader text : string) : list string :=
  map (fun chunk => chunkHeader ++ chunk) (splitText text).

(** A file under [src/a/]. *)
Definition b_js_store : DB :=
  mkDB [mkRepository 1 "r" "/repos/r"]
       [mkBranch 1 "main" 1 "c1" EmbeddingsGenerated]
       [mkFile 1 1 "src/a/b.js" "b.js" "s1" Fetched]
       [(1, 1)]
       [mkChunk 1 1 "let x;" 1 (Some [1%Q]) (Some "m") None]
       1 1 1 1.

(** A branch [main] with three files, and [lib.ts] held by branch [dev]. *)
Definition sync_store : DB :=
  mkDB [mkRepository 1 "x" "/repos/x"]
       [mkBranch 1 "main" 1 "c0" EmbeddingsGenerated;
        mkBranch 2 "dev" 1 "c9" EmbeddingsGenerated]
       [mkFile 1 1 "x.ts" "x.ts" "sha1" Fetched;
        mkFile 2 1 "old.ts" "old.ts" "sha5" Fetched;
        mkFile 3 1 "lib.ts" "lib.ts" "sha7" Fetched;
        mkFile 4 1 "same.ts" "same.ts" "sha8" Fetched]
       [(1, 1); (1, 2); (2, 3); (1, 4)]
       [] 1 2 4 0.

Definition sync_listing : list RepositoryFile :=
  [mkRepositoryFile "x.ts" "x.ts" "sha2";
   mkRepositoryFile "lib.ts" "lib.ts" "sha7";
   mkRepositoryFile "new.ts" "new.ts" "sha3";
   mkRepositoryFile "same.ts" "same.ts" "sha8"].

(** Two branches of one repository hold [x.ts], [main] at content
    identifier [sha1] and [dev] at [sha2]. *)
Definition converging_store : DB :=
  mkDB [mkRepository 1 "x" "/repos/x"]
       [mkBranch 1 "main" 1 "c0" EmbeddingsGenerated;
        mkBranch 2 "dev" 1 "c9" EmbeddingsGenerated]
       [mkFile 1 1 "x.ts" "x.ts" "sha1" Fetched;
        mkFile 2 1 "x.ts" "x.ts" "sha2" Fetched]
       [(1, 1); (2, 2)]
       [] 1 2 2 0.

(** [main] has caught up with [dev]: its listing has [x.ts] at [sha2]. *)
Definition converging_listing : list RepositoryFile :=
  [mkRepositoryFile "x.ts" "x.ts" "sha2"].

(** [x.ts] was indexed at content identifier [sha1] with one chunk. *)
Definition rechunk_store : DB :=
  mkDB [mkRepository 1 "x" "/repos/x"]
       [mkBranch 1 "main" 1 "c1" BranchPending]
       [mkFile 1 1 "x.ts" "x.ts" "sha1" Fetched]
       [(1, 1)]
       [mkChunk 1 1 "old" 1 (Some [1; 0]%Q) (Some "m") None]
       1 1 1 1.

(** [processFiles] on a listing in which [x.ts] is at [sha2] and reads as
    ["new"]. *)
Definition rechunk_run : Outcome (Payload ProcessFilesOutput) * World :=
  processFiles no_fault
    (fun _ _ => [mkRepositoryFile "x.ts" "x.ts" "sha2"])
    (fun _ _ => true) (fun _ _ => "new") one_chunk with_header
    (Some (mkProcessFilesInput "/repos/x" 1 1 "main" true)) false
    (mkWorld rechunk_store 0 []).

(** [processFiles] for [main] on the two branches above. *)
Definition converging_run : Outcome (Payload ProcessFilesOutput) * World :=
  processFiles no_fault (fun _ _ => converging_listing)
    (fun _ _ => true) (fun _ _ => "text") one_chunk with_header
    (Some (mkProcessFilesInput "/repos/x" 1 1 "main" true)) false
    (mkWorld converging_store 0 []).

(** [a.ts] is still pending (it was never chunked), [b.ts] is fetched and
    has one chunk without a vector. *)
Definition midway_store : DB :=
  mkDB [mkRepository 1 "x" "/repos/x"]
       [mkBranch 1 "main" 1 "c1" FilesProcessed]
       [mkFile 1 1 "a.ts" "a.ts" "sha1" FilePending;
        mkFile 2 1 "b.ts" "b.ts" "sha2" Fetched]
       [(1, 1); (1, 2)]
       [mkChunk 1 2 "text" 1 None None None]
       1 1 2 1.

Definition embed_run : Outcome (Payload nat) * World :=
  embedFiles no_fault embed_half
    (Some (mkEmbedFilesInput "/repos/x" 1)) false
    (mkWorld midway_store 0 []).

Definition query_input : QueryRepoInput :=
  mkQueryRepoInput "https://github.com/o/x.git" (Some "main") "find"
                   (Some []) None None None.

(** [queryRepo] on the store above; the files of the listing are not on
    disk. *)
Definition query_run : Outcome (Payload QueryRepoOutput) * World :=
  queryRepo no_fault embed_half
    (fun _ _ => "/repos/x") (fun _ => "main") (fun _ _ => "c1")
    (fun _ _ => [mkRepositoryFile "a.ts" "a.ts" "sha1";
                 mkRepositoryFile "b.ts" "b.ts" "sha2"])
    (fun _ _ => false) (fun _ _ => "") one_chunk with_header
    (Some query_input) true (mkWorld midway_store 0 []).

End Scenarios.


(* ================================================================== *)
(** * Notions used to state what the SQL splitter does *)
(* ================================================================== *)

Module InsertNotions.

Import SQLSchemaSplitter.

Fixpoint all_chars (p : ascii -> bool) (s : string) : bool :=
  match s with
  | EmptyString => true
  | String c r => p c && all_chars p r
  end.

(** A character that [parseValues] only copies: no quote, no backslash, no
    parenthesis. *)
Definition plain_char (c : ascii) : bool :=
  negb (is_quote c) && negb (Ascii.eqb c "\")
  && negb (Ascii.eqb c "(") && negb (Ascii.eqb c ")").

(** A character skipped after a closed tuple. *)
Definition separator_char (c : ascii) : bool :=
  Ascii.eqb c "," || Ascii.eqb c " " || Ascii.eqb c "010".

(** The parts of a tuple's body: a plain character, or a string literal in
    single or double quotes. *)
Inductive Item : Type :=
| Plain (c : ascii)
| Literal (quote : ascii) (text : string).

(** A literal holds neither its own quote nor a backslash. *)
Definition item_ok (i : Item) : bool :=
  match i with
  | Plain c => plain_char c
  | Literal q text =>
    is_quote q
    && all_chars (fun c => negb (Ascii.eqb c q) && negb (Ascii.eqb c "\")) text
  end.

Definition item_text (i : Item) : string :=
  match i with
  | Plain c => str c
  | Literal q text => str q ++ text ++ str q
  end.

Fixpoint body_text (body : list Item) : string :=
  match body with
  | [] => ""
  | i :: body' => item_text i ++ body_text body'
  end.

Definition tuple_text (body : list Item) : string :=
  "(" ++ body_text body ++ ")".

(** A VALUES list: each tuple is followed by its separator. *)
Fixpoint values_text (tuples : list (list Item * string)) : string :=
  match tuples with
  | [] => ""
  | (body, separator) :: tuples' =>
    tuple_text body ++ separator ++ values_text tuples'
  end.

Definition tuple_ok (t : list Item * string) : bool :=
  forallb item_ok (fst t) && all_chars separator_char (snd t).

(** A group of tuples that is a single tuple or none, or whose tuples with
    their commas fit the budget after the INSERT prefix. *)
Definition within_budget (maxCharacters : nat) (insertIntoPart : string)
    (g : list string) : Prop :=
  List.length g <= 1
  \/ String.length insertIntoPart + String.length (join "," g)
     <= maxCharacters.

End InsertNotions.

Module LineNotions.

Import InsertNotions.

Definition not_empty (s : string) : bool := negb (String.eqb s "").

Definition no_line_feed (s : string) : bool :=
  all_chars (fun c => negb (Ascii.eqb c "010")) s.

(** The condition under which [splitText] hands a statement to
    [splitInsertStatement]. *)
Definition is_insert (statement : string) : bool :=
  includes (toUpperCase statement) "INSERT INTO"
  && includes (toUpperCase statement) "VALUES".

(** The non-empty lines of the pieces built so far, [currentSplit]
    included. *)
Definition kept_lines (splits : list string) (currentSplit : string)
  : list string :=
  filter not_empty
         (flat_map SQLSchemaSplitter.split_lines (splits ++ [currentSplit])).

(** A piece fits the budget or is one line of the statement. *)
Definition fits_budget (maxCharacters : nat) (all_lines : list string)
    (piece : string) : Prop :=
  String.length piece <= maxCharacters \/ In piece all_lines.

End LineNotions.

Module TokenizerNotions.

(** A statement as the tokenizer emits it: not empty, and without white
    space at either end. *)
Definition well_trimmed (s : string) : Prop := s <> "" /\ trim s = s.

End TokenizerNotions.

Module PatternNotions.

(** What the two replacements of [globToSqlPattern] come to, read from the
    left: a pair of stars becomes one ["%"], a remaining star becomes
    ["%"], every other character stays. *)
Fixpoint star_to_percent (fuel : nat) (pattern : string) : string :=
  match fuel with
  | O => ""
  | S f =>
    match pattern with
    | EmptyString => ""
    | String c rest =>
      if Ascii.eqb c "*" then
        match rest with
        | String d rest' =>
          if Ascii.eqb d "*" then String "%" (star_to_percent f rest')
          else String "%" (star_to_percent f rest)
        | EmptyString => "%"
        end
      else String c (star_to_percent f rest)
    end
  end.

(** The replacement of a single character. *)
Definition star_percent (c : ascii) : ascii :=
  if Ascii.eqb c "*" then "%"%char else c.

End PatternNotions.

From Stdlib Require Import Numbers.HexadecimalString.

(* ================================================================== *)
(** * The listing of a branch ([getRepositoryFiles], tools/processFiles.ts
      and utils/gitUtils.ts) *)
(* ================================================================== *)

Module GitListing.

Import InsertNotions.

(** [s.split(sep)] for a separator of one character. *)
Fixpoint split_acc (sep : ascii) (acc s : string) : list string :=
  match s with
  | EmptyString => [acc]
  | String c r =>
    if Ascii.eqb c sep then acc :: split_acc sep "" r
    else split_acc sep (acc ++ String c "") r
  end.

Definition split (sep : ascii) (s : string) : list string :=
  split_acc sep "" s.

(** [path.basename(p)] of Node's posix [path]: the slashes at the end are
    left out, and what follows the last slash that remains is returned. *)
Fixpoint drop_slashes (s : string) : string :=
  match s with
  | String c r => if Ascii.eqb c "/" then drop_slashes r else s
  | EmptyString => EmptyString
  end.

Fixpoint until_slash (s : string) : string :=
  match s with
  | String c r => if Ascii.eqb c "/" then "" else String c (until_slash r)
  | EmptyString => EmptyString
  end.

Definition basename (p : string) : string :=
  rev_string "" (until_slash (drop_slashes (rev_string "" p))).

(** An element of [files]; [sha] is [undefined] when the text before the
    tab has fewer than three fields. *)
Record ListedFile : Type := mkListedFile {
  lf_path : string;
  lf_name : string;
  lf_sha : option string
}.

(** The body of [for (const line of lines)]: what is pushed, if anything. *)
Definition parse_line (line : string) : option ListedFile :=
  match split "009" line with
  | info :: filePath :: _ =>
    let sha := nth_error (split " " info) 2 in
    if String.eqb filePath "" then None
    else Some (mkListedFile filePath (basename filePath) sha)
  | _ => None
  end.

(** The files [getRepositoryFiles] makes of the output of
    [git ls-tree -r]. *)
Definition parse_ls_tree (stdout : string) : list ListedFile :=
  let lines :=
    filter (fun line => negb (String.eqb (trim line) ""))
           (split "010" stdout) in
  flat_map (fun line =>
              match parse_line line with
              | Some f => [f]
              | None => []
              end) lines.

(** ** Notions used to state what the parsing does *)

(** A line of [git ls-tree]: [<mode> SP <type> SP <object> TAB <file>]. *)
Record TreeEntry : Type := mkTreeEntry {
  te_mode : string;
  te_type : string;
  te_object : string;
  te_file : string
}.

Definition entry_line (e : TreeEntry) : string :=
  e.(te_mode) ++ " " ++ e.(te_type) ++ " " ++ e.(te_object)
  ++ String "009" e.(te_file).

Fixpoint listing_text (entries : list TreeEntry) : string :=
  match entries with
  | [] => ""
  | e :: entries' => entry_line e ++ String "010" (listing_text entries')
  end.

Definition no_space (s : string) : bool :=
  all_chars (fun c => negb (is_space c)) s.

(** Mode, type and object name hold no white space and the object name is
    not empty; the file name is not empty and holds no tab and no line
    feed. *)
Definition entry_ok (e : TreeEntry) : bool :=
  no_space e.(te_mode) && no_space e.(te_type) && no_space e.(te_object)
  && negb (String.eqb e.(te_object) "")
  && negb (String.eqb e.(te_file) "")
  && all_chars (fun c => negb (Ascii.eqb c "009") && negb (Ascii.eqb c "010"))
               e.(te_file).

End GitListing.

(* ================================================================== *)
(** * [getFileHash] (githubRepo.ts) *)
(* ================================================================== *)

Module FileHash.

Local Open Scope Z_scope.

(** The conversion of a number to a 32-bit integer that the bit operators
    apply to their operands. *)
Definition to_int32 (z : Z) : Z := (z + 2 ^ 31) mod 2 ^ 32 - 2 ^ 31.

(** [hash << 5] *)
Definition shift_left_5 (hash : Z) : Z :=
  to_int32 (Z.shiftl (to_int32 hash) 5).

(** The body of the loop at [char = content.charCodeAt(i)]:
    [hash = ((hash << 5) - hash) + char; hash = hash & hash]. *)
Definition hash_step (hash : Z) (c : ascii) : Z :=
  let char := Z.of_nat (nat_of_ascii c) in
  let hash := shift_left_5 hash - hash + char in
  Z.land (to_int32 hash) (to_int32 hash).

Fixpoint hash_loop (content : string) (hash : Z) : Z :=
  match content with
  | EmptyString => hash
  | String c rest => hash_loop rest (hash_step hash c)
  end.

(** [getFileHash], given what [readFileSync] returned: the number in
    base 16, with a minus sign when it is negative. *)
Definition getFileHash (content : string) : string :=
  NilZero.string_of_int (Z.to_hex_int (hash_loop content 0)).

(** The polynomial in 31 with the character codes as coefficients, by
    Horner's rule. *)
Fixpoint polynomial (content : string) (acc : Z) : Z :=
  match content with
  | EmptyString => acc
  | String c rest => polynomial rest (31 * acc + Z.of_nat (nat_of_ascii c))
  end.

End FileHash.

(* ================================================================== *)
(** * Notions used to state what the operations leave alone *)
(* ================================================================== *)

Module PipelineNotions.

Import Store Sync Retrieval Pipeline.

(** Every run of [m] takes a world to one related to it by [R], whether it
    returns or throws. *)
Definition respects {A : Type} (R : World -> World -> Prop) (m : M A)
  : Prop :=
  forall w, R w (snd (m w)).

Definition on_store (S : DB -> DB -> Prop) (w w' : World) : Prop :=
  S w.(store) w'.(store).

Definition on_trace (T : list Event -> list Event -> Prop) (w w' : World)
  : Prop :=
  T w.(trace) w'.(trace).

(** What identifies a chunk, a file and a branch apart from the columns
    the pipeline rewrites. *)
Definition chunk_core (c : ChunkRow) : nat * nat * string * nat * option nat :=
  (c.(chunk_id), c.(chunk_file_id), c.(chunk_content), c.(chunk_number),
   c.(token_count)).

Definition file_core (f : FileRow) : nat * nat * string * string * string :=
  (f.(file_id), f.(file_repository_id), f.(file_path), f.(file_name),
   f.(file_sha)).

Definition branch_core (b : BranchRow) : nat * string * nat * string :=
  (b.(branch_id), b.(branch_name), b.(branch_repository_id),
   b.(last_commit_sha)).

(** [embedFiles] may write vectors, model versions and branch statuses;
    everything else is as before. *)
Definition only_embeddings (d d' : DB) : Prop :=
  d'.(repository) = d.(repository)
  /\ d'.(file) = d.(file)
  /\ d'.(branch_file_association) = d.(branch_file_association)
  /\ map chunk_core d'.(file_chunk) = map chunk_core d.(file_chunk)
  /\ map branch_core d'.(Store.branch) = map branch_core d.(Store.branch).

(** [processFileContents] may append chunks without a vector and write
    file statuses; everything else is as before. *)
Definition only_new_chunks (d d' : DB) : Prop :=
  d'.(repository) = d.(repository)
  /\ d'.(Store.branch) = d.(Store.branch)
  /\ d'.(branch_file_association) = d.(branch_file_association)
  /\ map file_core d'.(file) = map file_core d.(file)
  /\ exists more,
       d'.(file_chunk) = (d.(file_chunk) ++ more)%list
       /\ Forall (fun c => c.(embedding) = None) more.

(** The progress fractions among the observed calls. *)
Fixpoint progress_of (tr : list Event) : list Q :=
  match tr with
  | [] => []
  | EvProgress q :: tr' => q :: progress_of tr'
  | _ :: tr' => progress_of tr'
  end.

(** The sizes of the embedder calls among the observed calls. *)
Fixpoint embedder_calls (tr : list Event) : list nat :=
  match tr with
  | [] => []
  | EvEmbedder n :: tr' => n :: embedder_calls tr'
  | _ :: tr' => embedder_calls tr'
  end.

(** The outcome and the world after [m] is run in [w] satisfy [Q]. *)
Definition wp {A : Type} (m : M A) (Q : Outcome A -> World -> Prop)
    (w : World) : Prop :=
  Q (fst (m w)) (snd (m w)).

(** The world after a call to a collaborator that left the store alone. *)
Definition tick (w : World) : World :=
  mkWorld w.(store) (S w.(clock)) w.(trace).

(** The branch rows with the given id all have the given status. *)
Definition branch_has_status (d : DB) (branchId : nat) (s : BranchStatus)
  : Prop :=
  forall row, In row d.(Store.branch) -> row.(branch_id) = branchId ->
              row.(branch_status) = s.

(** The sizes are those of batches: between one and a hundred. *)
Definition batch_sized (sizes : list nat) : Prop :=
  Forall (fun n => 1 <= n <= 100) sizes.

End PipelineNotions.

(* ================================================================== *)
(** * More collaborators for concrete runs *)
(* ================================================================== *)

Module Scenarios2.

(** The fourth call to a collaborator fails: in [embedFiles] on a branch
    with chunks to embed, that is the first call to the embedder. *)
Definition embedder_offline (t : nat) : option string :=
  if t =? 3 then Some "offline" else None.

(** The state in which the synchronisation of [main] in [sync_store]
    with [sync_listing] ends. *)
Definition sync_after : Sync.SyncState :=
  Eval vm_compute in
    match Sync.processFilesTx 1 1 Scenarios.sync_listing
                              Scenarios.sync_store with
    | Ok st => st
    | Throw _ =>
      Sync.mkSync Scenarios.sync_store [] [] 0 0 0 0 [] [] [] []
    end.

(** What [queryRepo] returns in [Scenarios.query_run]. *)
Definition query_out : Pipeline.QueryRepoOutput :=
  Eval vm_compute in
    match fst Scenarios.query_run with
    | Ok (Pipeline.Success out) => out
    | _ => Pipeline.mkQueryRepoOutput "" "" []
    end.

(** [ingestBranch] on a branch that the store holds at the commit that the
    VCS reports, with its embeddings generated. *)
Definition ingest_run
  : Outcome (Pipeline.Payload Pipeline.BranchData) * Pipeline.World :=
  Pipeline.ingestBranch Scenarios.no_fault
    (fun _ _ => "/repos/r") (fun _ => "main") (fun _ _ => "c1")
    (Some (Pipeline.mkIngestBranchInput "https://github.com/o/r.git" None))
    false (Pipeline.mkWorld Scenarios.b_js_store 0 []).

Definition ingest_data : Pipeline.BranchData :=
  Pipeline.mkBranchData "/repos/r" 1 1 false "r" "main" "c1".

(** What [processFiles] returns in [Scenarios.rechunk_run]. *)
Definition rechunk_out : Pipeline.ProcessFilesOutput :=
  Eval vm_compute in
    match fst Scenarios.rechunk_run with
    | Ok (Pipeline.Success out) => out
    | _ => Pipeline.mkProcessFilesOutput false []
    end.

(** [processFiles] for a repository id that the store does not hold: the
    transaction fails on the foreign key of the new file. *)
Definition orphan_run
  : Outcome (Pipeline.Payload Pipeline.ProcessFilesOutput) * Pipeline.World :=
  Pipeline.processFiles Scenarios.no_fault
    (fun _ _ => [Sync.mkRepositoryFile "n.ts" "n.ts" "sha9"])
    (fun _ _ => true) (fun _ _ => "new") Scenarios.one_chunk
    Scenarios.with_header
    (Some (Pipeline.mkProcessFilesInput "/repos/x" 9 1 "main" true)) false
    (Pipeline.mkWorld Scenarios.rechunk_store 0 []).

End Scenarios2.

From Stdlib Require Import Sorting.Permutation Sorting.Sorted.

(* ================================================================== *)
(** * Notions used to state what the similarity scan returns *)
(* ================================================================== *)

Module RetrievalNotions.

Import Store FilePattern Retrieval.

(** No result is followed, at any distance, by one with a higher score;
    results without a score come last. *)
Definition ranked (l : list SearchResult) : Prop :=
  StronglySorted
    (fun a b => score_geb a.(similarity) b.(similarity) = true) l.

(** The rows the [WHERE] clause of the scan lets through: the chunks of
    the branch that have a vector and whose file path fulfils the
    condition. *)
Definition qualifying (d : DB) (branchId : nat) (condition : list clause)
  : list (ChunkRow * FileRow) :=
  filter (fun cf => condition_holds condition (snd cf).(file_path))
         (chunks_with_embedding d branchId).

(** The row of the result set for a chunk and its file. *)
Definition row_of (score : list Q -> list Q -> option Q)
    (queryVector : list Q) (cf : ChunkRow * FileRow) : SearchResult :=
  mkResult (fst cf).(chunk_content) (snd cf).(file_path)
           (fst cf).(chunk_number)
           (match (fst cf).(embedding) with
            | Some v => score queryVector v
            | None => None
            end).



End RetrievalNotions.

(* ================================================================== *)
(** * Notions used to state what a synchronisation leaves to the other
      branches *)
(* ================================================================== *)

Module SyncNotions.

Import Store Sync.

(** The associations of a branch, in row order. *)
Definition of_branch (b : nat) (l : list (nat * nat)) : list (nat * nat) :=
  filter (fun a => fst a =? b) l.

(** A branch other than [branchId] is associated with the file. *)
Definition used_elsewhere (branchId : nat) (d : DB) (fileId : nat) : Prop :=
  exists b, b <> branchId /\ In (b, fileId) d.(branch_file_association).

(** [d'] has the repositories and branches of [d], the associations of
    every branch but [branchId] as they were, and of a file that another
    branch is associated with it still has the row, if there was one, and
    the chunks. *)
Definition spares (branchId : nat) (d d' : DB) : Prop :=
  d'.(repository) = d.(repository)
  /\ d'.(Store.branch) = d.(Store.branch)
  /\ (forall b, b <> branchId ->
        of_branch b d'.(branch_file_association)
        = of_branch b d.(branch_file_association))
  /\ (forall id, used_elsewhere branchId d id ->
        (has_file d id = true -> has_file d' id = true)
        /\ file_chunks d' id = file_chunks d id).

(** The branch holds the row: it is a row of [file] that the branch is
    associated with. *)
Definition holds (d : DB) (branchId : nat) (r : FileRow) : Prop :=
  In r (select_branch_files d branchId).

(** File ids are unique and were issued by the counter. *)
Definition ids_sound (d : DB) : Prop :=
  NoDup (map file_id d.(file))
  /\ forall r, In r d.(file) -> r.(file_id) <= d.(file_seq).

(** The branch holds one row per path. *)
Definition one_row_per_path (d : DB) (branchId : nat) : Prop :=
  forall r1 r2,
    holds d branchId r1 -> holds d branchId r2 ->
    r1.(file_path) = r2.(file_path) -> r1 = r2.

(** The branch holds what the listing says: for every entry a row with
    the path and the content identifier of the entry, and no other row. *)
Definition reflects (d : DB) (branchId : nat) (files : list RepositoryFile)
  : Prop :=
  (forall f, In f files ->
     exists row, holds d branchId row
                 /\ row.(file_path) = f.(path)
                 /\ row.(file_sha) = f.(sha))
  /\ (forall row, holds d branchId row ->
        exists f, In f files
                  /\ f.(path) = row.(file_path)
                  /\ f.(sha) = row.(file_sha)).

(** The loop over the listing after the entries [done], with the store [d]
    and the map [m] of the rows not met yet: every entry met has its row;
    every row of the branch belongs to an entry met or waits in the map;
    and the map holds rows of the branch under their paths, none of them
    met. *)
Definition in_step (branchId : nat) (done : list RepositoryFile) (d : DB)
    (m : FileMap) : Prop :=
  ids_sound d
  /\ one_row_per_path d branchId
  /\ (forall f, In f done ->
        exists row, holds d branchId row
                    /\ row.(file_path) = f.(path)
                    /\ row.(file_sha) = f.(sha))
  /\ (forall row, holds d branchId row ->
        (exists f, In f done
                   /\ f.(path) = row.(file_path)
                   /\ f.(sha) = row.(file_sha))
        \/ In (row.(file_path), row) m)
  /\ (forall k e, In (k, e) m ->
        holds d branchId e /\ e.(file_path) = k /\ ~ In k (paths done))
  /\ NoDup (map_keys m).

(** The listing says what the branch already holds: every entry is a path
    of the branch with the content identifier stored for it, no path is
    listed twice, and every path of the branch is listed. *)
Definition up_to_date (d : DB) (branchId : nat)
    (files : list RepositoryFile) : Prop :=
  NoDup (paths files)
  /\ (forall f, In f files -> is_unchanged (prior d branchId) f = true)
  /\ (forall k, In k (map_keys (prior d branchId)) -> In k (paths files)).

End SyncNotions.

(* ================================================================== *)
(** * Notions used to state what [queryRepo] answers *)
(* ================================================================== *)

Module QueryNotions.

Import JsString Store FilePattern Retrieval Pipeline.

(** [r] shows a chunk stored with a vector for a file of the branch whose
    path fulfils the condition. *)
Definition answer_of (d : DB) (branchId : nat) (condition : list clause)
    (r : SearchResult) : Prop :=
  exists c f,
    In (c, f) (chunks_with_embedding d branchId)
    /\ condition_holds condition f.(file_path) = true
    /\ r.(content) = c.(chunk_content)
    /\ r.(filePath) = f.(file_path)
    /\ r.(chunkNumber) = c.(chunk_number).

(** When keywords are given, the content holds one of them, trimmed,
    letter case aside. *)
Definition has_keyword (keywords : option (list string))
    (r : SearchResult) : Prop :=
  match keywords with
  | Some ((_ :: _) as kws) =>
    exists kw, In kw kws
               /\ includes (toLowerCase r.(content))
                           (toLowerCase (trim kw)) = true
  | _ => True
  end.

(** [limit === undefined ? 10 : limit] *)
Definition limit_of (input : QueryRepoInput) : JsNumber :=
  match input.(limit) with
  | None => Finite (inject_Z 10)
  | Some l => l
  end.

Definition patterns_of (input : QueryRepoInput) : list clause :=
  createFilePatternCondition input.(filePatterns) input.(excludePatterns).

End QueryNotions.

(* ================================================================== *)
(** * Notions used to state what [ingestBranch] records *)
(* ================================================================== *)

Module IngestNotions.

Import Store Pipeline.

(** What identifies a branch row: its id, its name and its repository. *)
Definition branch_key (b : BranchRow) : nat * string * nat :=
  (b.(branch_id), b.(branch_name), b.(branch_repository_id)).

(** [d'] has the files, associations and chunks of [d]; its repositories
    are those of [d], followed by new ones; its branches are those of [d]
    by id, name and repository, followed by new ones. *)
Definition only_registers (d d' : DB) : Prop :=
  d'.(file) = d.(file)
  /\ d'.(branch_file_association) = d.(branch_file_association)
  /\ d'.(file_chunk) = d.(file_chunk)
  /\ (exists more, d'.(repository) = (d.(repository) ++ more)%list)
  /\ (exists more,
        map branch_key d'.(Store.branch)
        = (map branch_key d.(Store.branch) ++ more)%list).

(** The rows that the identifiers of a result of [ingestBranch] denote in
    [d]: a repository with the id and the name, and a branch with the id,
    the name, the repository and the commit. *)
Definition names_rows (data : BranchData) (d : DB) : Prop :=
  (exists repo,
     In repo d.(repository)
     /\ repo.(repo_id) = data.(repoId)
     /\ repo.(repo_name) = data.(repoName))
  /\ (exists row,
        In row d.(Store.branch)
        /\ row.(branch_id) = data.(branchId)
        /\ row.(branch_name) = data.(actualBranch)
        /\ row.(branch_repository_id) = data.(repoId)
        /\ row.(last_commit_sha) = data.(latestCommit)
        /\ (data.(needsUpdate) = false ->
            row.(branch_status) = EmbeddingsGenerated)).

End IngestNotions.

(* ================================================================== *)
(** * Notions used to state what [processFiles] does to the store *)
(* ================================================================== *)

Module ProcessNotions.

Import Store Pipeline PipelineNotions.

(** [d'] is [d] after chunking: the repositories and the associations are
    those of [d]; the branches and the files are those of [d] but for
    their statuses; the chunks are those of [d], followed by new ones
    without a vector. *)
Definition chunked (d d' : DB) : Prop :=
  d'.(repository) = d.(repository)
  /\ d'.(branch_file_association) = d.(branch_file_association)
  /\ map branch_core d'.(Store.branch) = map branch_core d.(Store.branch)
  /\ map file_core d'.(file) = map file_core d.(file)
  /\ exists more,
       d'.(file_chunk) = (d.(file_chunk) ++ more)%list
       /\ Forall (fun c => c.(embedding) = None) more.

End ProcessNotions.

(* ================================================================== *)
(** * Notions used to state how [queryRepo] reports progress *)
(* ================================================================== *)

Module ProgressNotions.

Import Pipeline PipelineNotions.

(** A run of fractions that grow, each above 0 and at most [hi]. *)
Definition paced (hi : Q) (sent : list Q) : Prop :=
  StronglySorted Qlt sent
  /\ Forall (fun q => (0 < q)%Q /\ (q <= hi)%Q) sent.

(** The fractions reported between two worlds. *)
Definition sent_since (w w' : World) (sent : list Q) : Prop :=
  progress_of w'.(trace) = (progress_of w.(trace) ++ sent)%list.

(** No fraction is reported between two traces. *)
Definition silent (tr tr' : list Event) : Prop :=
  progress_of tr' = progress_of tr.

(** The fractions reported since [w0] are paced below [b]. *)
Definition so_far (w0 : World) (b : Q) (w : World) : Prop :=
  exists sent, sent_since w0 w sent /\ paced b sent.

(** What has been reported when an operation returns: fractions that grow
    and lie above 0 and at most at 1, the last of which is 1 when the
    operation succeeds. *)
Definition reported (w0 : World) (A : Type) (o : Outcome (Payload A))
    (w : World) : Prop :=
  exists sent,
    sent_since w0 w sent /\ paced 1 sent
    /\ forall a, o = Ok (Success a) ->
                 exists before, sent = (before ++ [1%Q])%list.

End ProgressNotions.
(* ================================================================== *)
(** * Properties *)
(* ================================================================== *)

(** ** Strings *)

Module JsStringFacts.

Lemma lower_upper_char (c : ascii) : lower_char (upper_char c) = lower_char c.
Proof. destruct c as [[] [] [] [] [] [] [] []]; reflexivity. Qed.

Lemma lower_lower_char (c : ascii) : lower_char (lower_char c) = lower_char c.
Proof. destruct c as [[] [] [] [] [] [] [] []]; reflexivity. Qed.

Lemma toLowerCase_toUpperCase (s : string) :
  toLowerCase (toUpperCase s) = toLowerCase s.
Proof.
  induction s as [|c s IH]; simpl; [reflexivity|].
  unfold toLowerCase, toUpperCase in *; simpl.
  now rewrite lower_upper_char, IH.
Qed.

Lemma toLowerCase_idempotent (s : string) :
  toLowerCase (toLowerCase s) = toLowerCase s.
Proof.
  induction s as [|c s IH]; simpl; [reflexivity|].
  unfold toLowerCase in *; simpl.
  now rewrite lower_lower_char, IH.
Qed.

Lemma append_assoc (a b c : string) : (a ++ b) ++ c = a ++ (b ++ c).
Proof. induction a as [|x a IH]; simpl; [reflexivity | now rewrite IH]. Qed.

Lemma append_empty_r (a : string) : a ++ "" = a.
Proof. induction a as [|x a IH]; simpl; [reflexivity | now rewrite IH]. Qed.

Lemma length_append (a b : string) :
  String.length (a ++ b) = String.length a + String.length b.
Proof. induction a as [|x a IH]; simpl; [reflexivity | now rewrite IH]. Qed.

End JsStringFacts.

(** ** The extension dispatch *)

Module DispatchFacts.

Import Dispatch JsStringFacts.

Lemma mem_In (e : string) (l : list string) : mem e l = true <-> In e l.
Proof.
  unfold mem. rewrite existsb_exists. split.
  - intros [x [Hin Heq]]. apply String.eqb_eq in Heq. now subst.
  - intros Hin. exists e. split; [assumption | apply String.eqb_refl].
Qed.

Lemma switch_default (e : string) (cases : list (list string * string)) :
  ~ In e (flat_map fst cases) -> switch e cases = "text".
Proof.
  induction cases as [|[labels result] cases IH]; simpl; intros Hnot.
  - reflexivity.
  - destruct (mem e labels) eqn:Hmem.
    + exfalso. apply Hnot, in_or_app. left. now apply mem_In.
    + apply IH. intros Hin. apply Hnot, in_or_app. now right.
Qed.

Lemma switch_result (e : string) (cases : list (list string * string)) :
  switch e cases = "text"
  \/ exists labels, In (labels, switch e cases) cases /\ In e labels.
Proof.
  induction cases as [|[labels result] cases IH]; simpl.
  - now left.
  - destruct (mem e labels) eqn:Hmem.
    + right. exists labels. split; [now left | now apply mem_In].
    + destruct IH as [IH | [l [Hin He]]]; [now left|].
      right. exists l. split; [now right | assumption].
Qed.

Lemma switch_in_classes (e : string) : In (switch e switch_cases) classes.
Proof.
  destruct (switch_result e switch_cases) as [H | [labels [Hin _]]].
  - rewrite H. simpl. tauto.
  - remember (switch e switch_cases) as r eqn:Hr. clear Hr.
    unfold switch_cases in Hin. simpl in Hin.
    repeat (destruct Hin as [Hin | Hin];
            [injection Hin as _ <-; simpl; tauto|]).
    contradiction.
Qed.

Lemma switch_ignore (e : string) :
  switch e switch_cases = "ignore" <-> In e ignore_extensions.
Proof.
  split.
  - intros H.
    destruct (switch_result e switch_cases) as [Ht | [labels [Hin He]]].
    + rewrite H in Ht. discriminate.
    + rewrite H in Hin. unfold switch_cases in Hin. simpl in Hin.
      repeat (destruct Hin as [Hin | Hin]; [try discriminate Hin|]).
      * injection Hin as <-. exact He.
      * contradiction.
  - intros H. unfold ignore_extensions in H. simpl in H.
    repeat (destruct H as [H | H]; [subst e; reflexivity|]).
    contradiction.
Qed.

Lemma extensionToSplitter_lower (e : string) :
  extensionToSplitter e = switch (toLowerCase e) switch_cases.
Proof. destruct e; reflexivity. Qed.

(** C10.  [extensionToSplitter] returns one of the chunking classes for
    every extension string; two extensions that differ only in letter case
    get the same class; the empty extension and every extension outside the
    enumerated ones get ["text"]; and the class is ["ignore"] exactly for
    the fixed list of binary and artifact extensions. *)
Theorem extensionToSplitter_total_case_insensitive :
  forall extension : string,
    In (extensionToSplitter extension) classes
    /\ (forall other, toLowerCase other = toLowerCase extension ->
                      extensionToSplitter other = extensionToSplitter extension)
    /\ extensionToSplitter (toUpperCase extension)
       = extensionToSplitter extension
    /\ extensionToSplitter "" = "text"
    /\ (~ In (toLowerCase extension) known_extensions ->
        extensionToSplitter extension = "text")
    /\ (extensionToSplitter extension = "ignore"
        <-> In (toLowerCase extension) ignore_extensions).
Proof.
  intros extension. repeat split.
  - rewrite extensionToSplitter_lower. apply switch_in_classes.
  - intros other H. rewrite !extensionToSplitter_lower. now rewrite H.
  - rewrite !extensionToSplitter_lower. now rewrite toLowerCase_toUpperCase.
  - intros H. rewrite extensionToSplitter_lower. now apply switch_default.
  - rewrite extensionToSplitter_lower. apply switch_ignore.
  - rewrite extensionToSplitter_lower. apply switch_ignore.
Qed.

Lemma extensionToSplitter_total_case_insensitive_witness :
  extensionToSplitter "Sql" = extensionToSplitter "sQL"
  /\ extensionToSplitter "unknown-ext" = "text"
  /\ In (toLowerCase "PNG") ignore_extensions.
Proof.
  split; [|split].
  - apply (proj1 (proj2 (extensionToSplitter_total_case_insensitive "sQL"))).
    reflexivity.
  - apply (proj1 (proj2 (proj2 (proj2 (proj2
             (extensionToSplitter_total_case_insensitive "unknown-ext")))))).
    vm_compute. intuition discriminate.
  - apply (proj1 (proj2 (proj2 (proj2 (proj2 (proj2
             (extensionToSplitter_total_case_insensitive "PNG"))))))).
    reflexivity.
Defined.

End DispatchFacts.

(** ** Path patterns *)

Module FilePatternFacts.

Import FilePattern Store Retrieval Scenarios.

(** What the generated condition means for a path: some include pattern
    matches when any is given, and no exclude pattern matches. *)
Lemma condition_holds_iff
    (includePatterns excludePatterns : option (list string)) (p : string) :
  condition_holds
    (createFilePatternCondition includePatterns excludePatterns) p = true
  <-> (match includePatterns with
       | Some ((_ :: _) as ps) =>
         exists g, In g ps /\ like (globToSqlPattern g) p = true
       | _ => True
       end)
      /\ (match excludePatterns with
          | Some ps => forall g, In g ps -> like (globToSqlPattern g) p = false
          | None => True
          end).
Proof.
  assert (Hany : forall ps,
             existsb (fun q => like q p) (map globToSqlPattern ps) = true
             <-> exists g, In g ps /\ like (globToSqlPattern g) p = true).
  { intros ps. rewrite existsb_exists. split.
    - intros [q [Hin Hq]]. apply in_map_iff in Hin as [g [<- Hg]]. eauto.
    - intros [g [Hg Hq]]. exists (globToSqlPattern g). split; [|assumption].
      now apply in_map. }
  assert (Hnone : forall ps,
             forallb (fun q => negb (like q p)) (map globToSqlPattern ps) = true
             <-> forall g, In g ps -> like (globToSqlPattern g) p = false).
  { intros ps. rewrite forallb_forall. split.
    - intros H g Hg. apply negb_true_iff, H. now apply in_map.
    - intros H q Hin. apply in_map_iff in Hin as [g [<- Hg]].
      apply negb_true_iff. now apply H. }
  unfold createFilePatternCondition, condition_holds.
  destruct includePatterns as [[|i ips]|];
    destruct excludePatterns as [[|e eps]|];
    cbn [app forallb clause_holds];
    rewrite ?andb_true_r, ?andb_true_iff, ?Hany, ?Hnone;
    try tauto.
  all: try (split; [intros _; split; [exact I | intros g []] | reflexivity]).
  all: split; [intros H; split; [exact H | intros g []] | tauto].
Qed.

(** C7, at the include pattern ["src/*.js"] and the path ["src/a/b.js"]:
    [globToSqlPattern] turns ["*"] into ["%"], which SQLite's [LIKE] lets
    run across ["/"]; the chunk of [src/a/b.js] is returned although ["*"]
    is to stay within one path segment. *)
Theorem star_matches_across_directories :
  let includePatterns := Some ["src/*.js"] in
  let condition := createFilePatternCondition includePatterns None in
  globToSqlPattern "src/*.js" = "src/%.js"
  /\ condition_sql condition = " AND (f.path LIKE 'src/%.js')"
  /\ condition_holds condition "src/a/b.js" = true
  /\ glob_matches "src/*.js" "src/a/b.js" = false
  /\ map filePath (initial_scan b_js_store [1%Q] 1 condition 10)
     = ["src/a/b.js"].
Proof. vm_compute. repeat split. Qed.

End FilePatternFacts.

(** ** Splitting of INSERT statements *)

Module InsertSplitFacts.

Import SQLSchemaSplitter JsStringFacts.

Lemma join_snoc (sep : string) (g : list string) (t : string) :
  g <> [] -> join sep (g ++ [t]) = join sep g ++ sep ++ t.
Proof.
  induction g as [|a g IH]; intros Hne; [contradiction|].
  destruct g as [|b g].
  - reflexivity.
  - change (join sep ((a :: b :: g) ++ [t]))
      with (a ++ sep ++ join sep ((b :: g) ++ [t])).
    rewrite IH by discriminate.
    change (join sep (a :: b :: g)) with (a ++ sep ++ join sep (b :: g)).
    now rewrite !append_assoc.
Qed.

Lemma join_empty (sep : string) (g : list string) :
  Forall (fun t => t <> "") g -> join sep g = "" -> g = [].
Proof.
  intros Hall Hj. destruct g as [|a g]; [reflexivity|].
  inversion Hall as [|? ? Ha _]; subst.
  destruct a as [|c a]; [contradiction|].
  destruct g; discriminate.
Qed.

Lemma insert_loop_groups (maxCharacters : nat) (insertIntoPart : string) :
  forall (tuples : list string) (insertStatements g : list string),
    Forall (fun t => t <> "") tuples ->
    Forall (fun t => t <> "") g ->
    exists groups g',
      insert_loop maxCharacters insertIntoPart tuples insertStatements
                  (join "," g)
      = ((insertStatements ++ map (render insertIntoPart) groups)%list,
         join "," g')
      /\ Forall (fun t => t <> "") g'
      /\ (List.concat groups ++ g' = g ++ tuples)%list.
Proof.
  induction tuples as [|t tuples IH]; intros stmts g Htuples Hg.
  - exists [], g. simpl. rewrite !app_nil_r. auto.
  - inversion Htuples as [|? ? Ht Hrest]; subst.
    cbn [insert_loop].
    destruct (_ <=? maxCharacters).
    + destruct (String.eqb (join "," g) "") eqn:Hcur; cbn [negb].
      * apply String.eqb_eq in Hcur. apply join_empty in Hcur; [|assumption].
        subst g.
        destruct (IH stmts [t]) as [groups [g' [Hloop [Hg' Hcat]]]];
          [assumption | now constructor |].
        exists groups, g'. auto.
      * assert (Hne : g <> []) by (intros ->; discriminate).
        rewrite <- join_snoc by assumption.
        destruct (IH stmts (g ++ [t])%list)
          as [groups [g' [Hloop [Hg' Hcat]]]];
          [assumption | apply Forall_app; split; [assumption | now constructor] |].
        exists groups, g'. rewrite <- app_assoc in Hcat. auto.
    + destruct (IH (stmts ++ [render insertIntoPart g])%list [t])
        as [groups [g' [Hloop [Hg' Hcat]]]];
        [assumption | now constructor |].
      exists (g :: groups), g'. split; [|split].
      * change (join "," [t]) with t in Hloop. unfold render at 1 in Hloop.
        rewrite Hloop. cbn [map]. now rewrite <- app_assoc.
      * assumption.
      * cbn [List.concat]. rewrite <- app_assoc, Hcat. reflexivity.
Qed.

(** The statements produced for an INSERT hold the parsed tuples, all of
    them and in their order, each tuple whole. *)
Lemma splitInsertStatement_keeps_tuples
    (maxCharacters : nat) (statement : string) (insertIndex : nat) :
  indexOf (toUpperCase statement) "VALUES" = Some insertIndex ->
  let insertIntoPart := take (insertIndex + 6) statement ++ " " in
  let valuesArray := parseValues (drop (insertIndex + 6) statement) in
  Forall (fun t => t <> "") valuesArray ->
  exists groups : list (list string),
    List.concat groups = valuesArray
    /\ splitInsertStatement maxCharacters statement
       = map (render insertIntoPart) groups.
Proof.
  intros Hidx insertIntoPart valuesArray Hne.
  unfold splitInsertStatement. rewrite Hidx.
  change (String.length "VALUES") with 6.
  fold insertIntoPart. fold valuesArray.
  destruct (insert_loop_groups maxCharacters insertIntoPart valuesArray [] []
              Hne (Forall_nil _)) as [groups [g' [Hloop [Hg' Hcat]]]].
  change (join "," []) with "" in Hloop. rewrite Hloop.
  cbn [app] in *.
  destruct (String.eqb (join "," g') "") eqn:Hcur; cbn [negb].
  - apply String.eqb_eq, join_empty in Hcur; [|assumption]. subst g'.
    exists groups. rewrite app_nil_r in Hcat. auto.
  - exists (groups ++ [g'])%list. split.
    + rewrite List.concat_app. cbn [List.concat]. now rewrite app_nil_r.
    + rewrite map_app. reflexivity.
Qed.

(** Whatever the budget: when a second tuple brings the counted length
    exactly to the budget, it is joined to the first and the statement
    built from both is one character over the budget. *)
Lemma insert_loop_one_over_budget
    (maxCharacters : nat) (insertIntoPart t1 t2 : string) :
  t1 <> "" ->
  String.length insertIntoPart + String.length t1 + String.length t2 + 1
  = maxCharacters ->
  insert_loop maxCharacters insertIntoPart [t1; t2] [] ""
  = ([], t1 ++ "," ++ t2)
  /\ String.length (render insertIntoPart [t1; t2]) = maxCharacters + 1.
Proof.
  intros Ht1 Hlen. split.
  - cbn [insert_loop String.length].
    replace (String.length insertIntoPart + 0 + String.length t1 + 1
             <=? maxCharacters) with true
      by (symmetry; apply Nat.leb_le; lia).
    cbn [String.eqb negb].
    replace (String.length insertIntoPart + String.length t1
             + String.length t2 + 1 <=? maxCharacters) with true
      by (symmetry; apply Nat.leb_le; lia).
    destruct (String.eqb t1 "") eqn:He; [|reflexivity].
    apply String.eqb_eq in He. contradiction.
  - unfold render. cbn [join]. rewrite !length_append. cbn [String.length].
    lia.
Qed.

(** C6, at the statement [INSERT INTO t VALUES (1),(2);] (29 characters)
    and a budget of 28 characters: both tuples are kept in one statement of
    29 characters, although an INSERT of either tuple alone has 25
    characters.  The length test counts one separator where the statement
    needs the comma and the semicolon. *)
Theorem insert_statement_exceeds_budget :
  let statement := "INSERT INTO t VALUES (1),(2);" in
  let maxCharacters := 28 in
  parseValues " (1),(2);" = ["(1)"; "(2)"]
  /\ splitInsertStatement maxCharacters statement = [statement]
  /\ splitText maxCharacters statement = [statement]
  /\ maxCharacters < String.length statement
  /\ String.length "INSERT INTO t VALUES (1);" <= maxCharacters
  /\ String.length "INSERT INTO t VALUES (2);" <= maxCharacters
  /\ splitInsertStatement 27 statement
     = ["INSERT INTO t VALUES (1);"; "INSERT INTO t VALUES (2);"].
Proof. vm_compute. repeat split; repeat constructor. Qed.

End InsertSplitFacts.

(** ** The SQL tokenizer *)

Module TokenizerFacts.

Import SQLSchemaSplitter JsStringFacts.

Lemma pieces_step (current : string) (c : ascii) (rest : string) :
  Ascii.eqb c ";" = false ->
  pieces current (String c rest) = pieces (current ++ str c) rest.
Proof. intros H. cbn [pieces]. now rewrite H. Qed.

Lemma semicolon_is_no_quote (c : ascii) :
  Ascii.eqb c ";" = true -> is_quote c = false.
Proof. intros H. apply Ascii.eqb_eq in H. now subst c. Qed.

Lemma view_opener_is_no_semicolon (c : ascii) (rest : string) :
  startsWith (toUpperCase (String c rest)) "CREATE VIEW"
  || startsWith (toUpperCase (String c rest)) "CREATE OR REPLACE VIEW" = true ->
  Ascii.eqb c ";" = false.
Proof.
  intros H. destruct (Ascii.eqb c ";") eqn:Hc; [|reflexivity].
  apply Ascii.eqb_eq in Hc. subst c. discriminate H.
Qed.

Lemma tok_step_in_string (c q : ascii) (rest : string) (st : TokState) :
  calm st (Some q) ->
  simple_from (String c rest) (Some q) false = true ->
  exists st' quote' moved,
    tok_step c (String c rest) st = (st', moved)
    /\ 0 < moved
    /\ calm st' quote'
    /\ simple_from (drop moved (String c rest)) quote' false = true
    /\ advances (String c rest) st (drop moved (String c rest)) st'.
Proof.
  intros (HiC & HiF & HiP & HiB & HiS & Hq) Hsimple.
  cbn [simple_from] in Hsimple.
  apply andb_true_iff in Hsimple as [Hc Hsimple].
  apply negb_true_iff in Hc.
  destruct st as [stmts cur iS qc iC ct iF iP iV iB lvl].
  cbn in HiC, HiF, HiP, HiB, HiS, Hq. subst iC iF iP iB iS qc.
  unfold tok_step, lex_chain, append_current, set_currentStatement.
  cbn [insideString insideComment statements currentStatement quoteChar
       commentType insideFunction insideProcedure insideView insideBlock
       blockLevel same_char].
  destruct (Ascii.eqb c q) eqn:Hcq.
  - (* the closing quote *)
    unfold set_string, block_chain, inside_compound, outside_constructs.
    cbn [insideString insideComment statements currentStatement quoteChar
         commentType insideFunction insideProcedure insideView insideBlock
         blockLevel orb].
    rewrite Hc. cbn [andb].
    exists (mkTok stmts (cur ++ str c) false (Some q) false ct false false
                  iV false lvl), None, 1.
    split; [now destruct iV|]. split; [lia|].
    split; [unfold calm; cbn; repeat split|].
    split; [exact Hsimple|].
    unfold advances. cbn [statements currentStatement drop].
    now rewrite (pieces_step cur c rest Hc).
  - destruct (Ascii.eqb c "\") eqn:Hbs.
    + (* a backslash and the character it escapes *)
      destruct rest as [|c2 rest2].
      * cbn [drop].
        unfold block_chain, inside_compound, outside_constructs.
        cbn [insideString insideComment statements currentStatement
             quoteChar commentType insideFunction insideProcedure
             insideView insideBlock blockLevel orb].
        rewrite Hc. cbn [andb].
        exists (mkTok stmts (cur ++ str c) true (Some q) false ct false false
                      iV false lvl), (Some q), 2.
        split; [now destruct iV|]. split; [lia|].
        split; [unfold calm; cbn; repeat split|].
        split; [reflexivity|].
        unfold advances. cbn [statements currentStatement drop].
        now rewrite (pieces_step cur c "" Hc).
      * cbn [drop].
        unfold block_chain, inside_compound, outside_constructs.
        cbn [insideString insideComment statements currentStatement
             quoteChar commentType insideFunction insideProcedure
             insideView insideBlock blockLevel orb].
        rewrite Hc. cbn [andb].
        cbn [simple_from] in Hsimple.
        apply andb_true_iff in Hsimple as [Hc2 Hsimple].
        apply negb_true_iff in Hc2.
        exists (mkTok stmts ((cur ++ str c) ++ str c2) true (Some q) false ct
                      false false iV false lvl), (Some q), 2.
        split; [now destruct iV|]. split; [lia|].
        split; [unfold calm; cbn; repeat split|].
        split; [exact Hsimple|].
        unfold advances. cbn [statements currentStatement drop].
        now rewrite (pieces_step cur c _ Hc), (pieces_step _ c2 _ Hc2).
    + (* any other character of the literal *)
      unfold block_chain, inside_compound, outside_constructs.
      cbn [insideString insideComment statements currentStatement quoteChar
           commentType insideFunction insideProcedure insideView insideBlock
           blockLevel orb].
      rewrite Hc. cbn [andb].
      exists (mkTok stmts (cur ++ str c) true (Some q) false ct false false
                    iV false lvl), (Some q), 1.
      split; [now destruct iV|]. split; [lia|].
      split; [unfold calm; cbn; repeat split|].
      split; [exact Hsimple|].
      unfold advances. cbn [statements currentStatement drop].
      now rewrite (pieces_step cur c rest Hc).
Qed.

Lemma tok_step_in_code (c : ascii) (rest : string) (st : TokState) :
  calm st None ->
  simple_from (String c rest) None false = true ->
  exists st' quote',
    tok_step c (String c rest) st = (st', 1)
    /\ calm st' quote'
    /\ simple_from rest quote' false = true
    /\ advances (String c rest) st rest st'.
Proof.
  intros (HiC & HiF & HiP & HiB & HiS) Hsimple.
  cbn [simple_from] in Hsimple.
  destruct st as [stmts cur iS qc iC ct iF iP iV iB lvl].
  cbn in HiC, HiF, HiP, HiB, HiS. subst iC iF iP iB iS.
  unfold tok_step, lex_chain, append_current, set_currentStatement.
  cbn [insideString insideComment statements currentStatement quoteChar
       commentType insideFunction insideProcedure insideView insideBlock
       blockLevel].
  destruct (is_quote c) eqn:Hquote.
  - (* an opening quote *)
    assert (Hc : Ascii.eqb c ";" = false).
    { destruct (Ascii.eqb c ";") eqn:Hc; [|reflexivity].
      apply semicolon_is_no_quote in Hc. congruence. }
    unfold set_string, block_chain, inside_compound, outside_constructs.
    cbn [insideString insideComment statements currentStatement quoteChar
         commentType insideFunction insideProcedure insideView insideBlock
         blockLevel orb].
    rewrite Hc. cbn [andb].
    exists (mkTok stmts (cur ++ str c) true (Some c) false ct false false iV
                  false lvl), (Some c).
    split; [now destruct iV|].
    split; [unfold calm; cbn; repeat split|].
    split; [exact Hsimple|].
    unfold advances. cbn [statements currentStatement].
    now rewrite (pieces_step cur c rest Hc).
  - apply andb_true_iff in Hsimple as [Hopen Hsimple].
    apply negb_true_iff in Hopen. unfold opener_here in Hopen.
    set (u := toUpperCase (String c rest)) in *.
    repeat (apply orb_false_iff in Hopen; destruct Hopen as [Hopen ?]).
    repeat match goal with
           | H : startsWith u _ = false |- _ => rewrite H
           end.
    unfold outside_constructs.
    cbn [insideFunction insideProcedure insideView insideBlock negb andb orb].
    unfold find_keyword, beginKeywords. cbn [find].
    repeat match goal with
           | H : startsWith u _ = false |- _ => rewrite H
           end.
    destruct iV.
    + (* inside a view *)
      cbn [negb andb].
      unfold block_chain, inside_compound, push_statement, set_insideView,
        set_statements, set_currentStatement.
      cbn [insideString insideComment statements currentStatement quoteChar
           commentType insideFunction insideProcedure insideView insideBlock
           blockLevel orb].
      destruct (Ascii.eqb c ";") eqn:Hc.
      * eexists; exists None. split; [reflexivity|].
        split; [unfold calm; cbn; repeat split|]. split; [exact Hsimple|].
        unfold advances. cbn [statements currentStatement pieces].
        rewrite Hc. destruct (pieces "" rest) as [l k]. cbn [fst snd].
        now rewrite <- app_assoc.
      * eexists; exists None. split; [reflexivity|].
        split; [unfold calm; cbn; repeat split|]. split; [exact Hsimple|].
        unfold advances. cbn [statements currentStatement].
        now rewrite (pieces_step cur c rest Hc).
    + cbn [negb andb].
      destruct (startsWith u "CREATE VIEW"
                || startsWith u "CREATE OR REPLACE VIEW") eqn:Hview.
      * (* the opener of a view *)
        pose proof (view_opener_is_no_semicolon c rest Hview) as Hc.
        unfold block_chain, inside_compound, set_insideView.
        cbn [insideString insideComment statements currentStatement quoteChar
             commentType insideFunction insideProcedure insideView
             insideBlock blockLevel orb].
        rewrite Hc.
        eexists; exists None. split; [reflexivity|].
        split; [unfold calm; cbn; repeat split|]. split; [exact Hsimple|].
        unfold advances. cbn [statements currentStatement].
        now rewrite (pieces_step cur c rest Hc).
      * unfold block_chain, inside_compound, outside_constructs,
          push_statement, set_statements, set_currentStatement.
        cbn [insideString insideComment statements currentStatement quoteChar
             commentType insideFunction insideProcedure insideView
             insideBlock blockLevel orb negb andb].
        destruct (Ascii.eqb c ";") eqn:Hc; cbn [andb].
        -- eexists; exists None. split; [reflexivity|].
           split; [unfold calm; cbn; repeat split|]. split; [exact Hsimple|].
           unfold advances. cbn [statements currentStatement pieces].
           rewrite Hc. destruct (pieces "" rest) as [l k]. cbn [fst snd].
           now rewrite <- app_assoc.
        -- eexists; exists None. split; [reflexivity|].
           split; [unfold calm; cbn; repeat split|]. split; [exact Hsimple|].
           unfold advances. cbn [statements currentStatement].
           now rewrite (pieces_step cur c rest Hc).
Qed.

Lemma drop_length (n : nat) (s : string) :
  String.length (drop n s) = String.length s - n.
Proof.
  revert s. induction n as [|n IH]; intros s; cbn.
  - lia.
  - destruct s as [|c s]; cbn; [reflexivity | apply IH].
Qed.

Lemma tok_loop_simple :
  forall (fuel : nat) (rest : string) (st : TokState) (quote : option ascii),
    calm st quote ->
    simple_from rest quote false = true ->
    String.length rest <= fuel ->
    (tok_loop fuel rest st).(statements)
    = (st.(statements) ++ fst (pieces st.(currentStatement) rest))%list
    /\ (tok_loop fuel rest st).(currentStatement)
       = snd (pieces st.(currentStatement) rest).
Proof.
  induction fuel as [|fuel IH]; intros rest st quote Hcalm Hsimple Hfuel.
  - destruct rest; [|cbn in Hfuel; lia]. cbn. now rewrite app_nil_r.
  - destruct rest as [|c rest]; [cbn; now rewrite app_nil_r|].
    cbn [tok_loop].
    destruct quote as [q|].
    + destruct (tok_step_in_string c q rest st Hcalm Hsimple)
        as (st' & quote' & moved & Hstep & Hpos & Hcalm' & Hsimple' & Hadv & Hrem).
      rewrite Hstep.
      destruct (IH (drop moved (String c rest)) st' quote' Hcalm' Hsimple')
        as [Hs Hcur].
      { rewrite drop_length. cbn [String.length] in *. lia. }
      rewrite Hs, Hcur. auto.
    + destruct (tok_step_in_code c rest st Hcalm Hsimple)
        as (st' & quote' & Hstep & Hcalm' & Hsimple' & Hadv & Hrem).
      rewrite Hstep. cbn [drop].
      destruct (IH rest st' quote' Hcalm' Hsimple') as [Hs Hcur].
      { cbn [String.length] in Hfuel. lia. }
      rewrite Hs, Hcur. auto.
Qed.

Lemma pieces_length (current text : string) :
  List.length (fst (pieces current text)) = count_semicolons text.
Proof.
  revert current. induction text as [|c text IH]; intros current; cbn.
  - reflexivity.
  - destruct (Ascii.eqb c ";").
    + specialize (IH ""). destruct (pieces "" text); cbn in *. now rewrite IH.
    + apply IH.
Qed.

(** C5, as amended.  On a text of ASCII characters without comment openers
    and without openers of functions, procedures and BEGIN blocks outside
    its string literals, and without [";"] inside its string literals
    (single or double quoted, with backslash escapes), the tokenizer cuts
    after every [";"], a view definition ending at its first [";"] like any
    other statement: the statements are the trimmed pieces in order, one
    per [";"], and one more for text that is not blank after the last
    [";"].  The text is to be of ASCII characters because the tokenizer
    looks for keywords in [text.toUpperCase()] at the positions of [text],
    and only there the two have the same positions. *)
Theorem simple_text_split_at_every_semicolon :
  forall text : string,
    ascii_only text = true ->
    simple text = true ->
    splitSQLStatements text = split_at_semicolons text
    /\ List.length (splitSQLStatements text)
       = count_semicolons text
         + (if String.eqb (trim (after_last_semicolon text)) "" then 0 else 1).
Proof.
  intros text _ Hsimple.
  assert (Hsplit : splitSQLStatements text = split_at_semicolons text).
  { unfold splitSQLStatements, split_at_semicolons.
    destruct (tok_loop_simple (String.length text) text tok_init None)
      as [Hs Hcur]; [unfold calm; cbn; repeat split | exact Hsimple | lia |].
    rewrite Hs, Hcur.
    cbn [tok_init currentStatement statements app].
    destruct (pieces "" text) as [l k]; cbn [fst snd].
    destruct (String.eqb (trim k) ""); reflexivity. }
  split; [assumption|].
  rewrite Hsplit. unfold split_at_semicolons, after_last_semicolon.
  pose proof (pieces_length "" text) as Hlen.
  destruct (pieces "" text) as [l k]; cbn [fst snd] in *.
  destruct (String.eqb (trim k) "").
  - lia.
  - rewrite length_app. cbn [List.length]. lia.
Qed.

Lemma simple_text_split_at_every_semicolon_witness :
  splitSQLStatements
    "CREATE VIEW v AS SELECT 'it''s' ; INSERT INTO t VALUES ('a\'b') ;x"
  = ["CREATE VIEW v AS SELECT 'it''s' ;"; "INSERT INTO t VALUES ('a\'b') ;";
     "x"]
  /\ List.length
       (splitSQLStatements
          "CREATE VIEW v AS SELECT 'it''s' ; INSERT INTO t VALUES ('a\'b') ;x")
     = 3.
Proof.
  destruct (simple_text_split_at_every_semicolon
              "CREATE VIEW v AS SELECT 'it''s' ; INSERT INTO t VALUES ('a\'b') ;x")
    as [H1 H2].
  - vm_compute. reflexivity.
  - vm_compute. reflexivity.
  - split; [exact H1 | exact H2].
Defined.

(** C5 as stated fails at ["SELECT 1"]: the text is of ASCII characters and
    has no [";"], no string, no comment and no construct, so no terminator
    at all, and the tokenizer yields one statement. *)
Lemma unterminated_text_is_a_statement :
  let text := "SELECT 1" in
  ascii_only text = true
  /\ simple text = true
  /\ includes (toUpperCase text) "END" = false
  /\ count_semicolons text = 0
  /\ splitSQLStatements text = ["SELECT 1"]
  /\ List.length (splitSQLStatements text) <> count_semicolons text.
Proof. vm_compute. repeat split. discriminate. Qed.

(** The scenario of the description: two statements. *)
Example scenario_two_statements :
  splitSQLStatements
    "CREATE TABLE t(x int); INSERT INTO t VALUES (1),(2),(3);"
  = ["CREATE TABLE t(x int);"; "INSERT INTO t VALUES (1),(2),(3);"].
Proof. vm_compute. reflexivity. Qed.

(** Outside the amended statement: a [";"] inside a string literal or a
    comment ends a statement too, since the test for [";"] does not look at
    [insideString] and [insideComment]. *)
Example semicolon_inside_string_splits :
  splitSQLStatements "SELECT 'a;b';" = ["SELECT 'a;"; "b';"].
Proof. vm_compute. reflexivity. Qed.

Example semicolon_inside_comment_splits :
  splitSQLStatements "SELECT 1; /* c;d */ SELECT 2;"
  = ["SELECT 1;"; "//* c;"; "d **/ SELECT 2;"].
Proof. vm_compute. reflexivity. Qed.

(** A function definition is kept whole up to its END; the character after
    the keyword is scanned twice, as [continue] skips [index++]. *)
Example function_body_kept_whole :
  splitSQLStatements
    "CREATE FUNCTION f() RETURNS int AS BEGIN RETURN 1; END; SELECT 2;"
  = ["CREATE FUNCTION f() RETURNS int AS BEGINN RETURN 1; END"; "D;";
     "SELECT 2;"].
Proof. vm_compute. reflexivity. Qed.

(** A BEGIN block met outside a construct starts at level 1 and is counted
    again by the block chain, so its END does not close it. *)
Example begin_block_not_closed :
  splitSQLStatements "BEGIN SELECT 1; END; SELECT 2;"
  = ["BEGINN SELECT 1; ENDD; SELECT 2;"].
Proof. vm_compute. reflexivity. Qed.

End TokenizerFacts.

(** ** The synchronizer *)

Module SyncFacts.

Import Store Sync.

(** *** The map of existing files *)

Lemma map_get_delete (m : FileMap) (k k' : string) :
  map_get (map_delete m k) k'
  = if String.eqb k k' then None else map_get m k'.
Proof.
  unfold map_delete.
  induction m as [|[k0 v] m IH]; cbn.
  - now destruct (String.eqb k k').
  - destruct (String.eqb k0 k) eqn:H0; cbn.
    + apply String.eqb_eq in H0. subst k0.
      rewrite IH. destruct (String.eqb k k'); reflexivity.
    + rewrite IH. destruct (String.eqb k0 k') eqn:H1; [|reflexivity].
      apply String.eqb_eq in H1. subst k0.
      rewrite String.eqb_sym, H0. reflexivity.
Qed.

Lemma map_get_In (m : FileMap) (k : string) (v : FileRow) :
  map_get m k = Some v -> In (k, v) m.
Proof.
  induction m as [|[k0 w] m IH]; cbn; [discriminate|].
  destruct (String.eqb k0 k) eqn:H0.
  - apply String.eqb_eq in H0. intros [= ->]. left. now subst.
  - intros H. right. now apply IH.
Qed.

Lemma map_get_keys (m : FileMap) (k : string) :
  map_get m k <> None <-> In k (map_keys m).
Proof.
  induction m as [|[k0 w] m IH]; cbn; [tauto|].
  destruct (String.eqb k0 k) eqn:H0.
  - apply String.eqb_eq in H0. split; [now left | discriminate].
  - apply String.eqb_neq in H0. rewrite IH. intuition congruence.
Qed.

Lemma map_delete_In (m : FileMap) (k : string) (e : string * FileRow) :
  In e (map_delete m k) <-> In e m /\ fst e <> k.
Proof.
  unfold map_delete. rewrite filter_In, negb_true_iff, String.eqb_neq.
  tauto.
Qed.

Lemma map_set_keys (m : FileMap) (k : string) (v : FileRow) :
  map_keys (map_set m k v)
  = if existsb (String.eqb k) (map_keys m) then map_keys m
    else (map_keys m ++ [k])%list.
Proof.
  induction m as [|[k0 w] m IH]; cbn; [reflexivity|].
  rewrite (String.eqb_sym k k0).
  destruct (String.eqb k0 k) eqn:H0; cbn; [reflexivity|].
  unfold map_keys in *. rewrite IH.
  destruct (existsb _ _); reflexivity.
Qed.

Lemma map_set_In (m : FileMap) (k : string) (v : FileRow)
    (e : string * FileRow) :
  In e (map_set m k v) -> e = (k, v) \/ In e m.
Proof.
  induction m as [|[k0 w] m IH]; cbn.
  - intros [<- | []]. now left.
  - destruct (String.eqb k0 k) eqn:H0; cbn.
    + apply String.eqb_eq in H0. subst k0. intros [<- | H]; auto.
    + intros [<- | H]; auto. destruct (IH H); auto.
Qed.

Lemma map_set_NoDup (m : FileMap) (k : string) (v : FileRow) :
  NoDup (map_keys m) -> NoDup (map_keys (map_set m k v)).
Proof.
  intros H. rewrite map_set_keys.
  destruct (existsb (String.eqb k) (map_keys m)) eqn:Hex; [assumption|].
  apply NoDup_app; [assumption | repeat constructor; intros [] |].
  intros x Hx [Hk | []]. subst x.
  assert (existsb (String.eqb k) (map_keys m) = true); [|congruence].
  apply existsb_exists. exists k. split; [assumption | apply String.eqb_refl].
Qed.

Lemma build_map_facts (rows : list FileRow) :
  forall m : FileMap,
    NoDup (map_keys m) ->
    (forall k e, In (k, e) m -> In e rows /\ e.(file_path) = k) ->
    NoDup (map_keys (fold_left (fun m f => map_set m f.(file_path) f) rows m))
    /\ forall k e,
        In (k, e) (fold_left (fun m f => map_set m f.(file_path) f) rows m) ->
        (In e rows /\ e.(file_path) = k).
Proof.
  intros m. revert m.
  assert (G : forall (l : list FileRow) (m : FileMap),
             NoDup (map_keys m) ->
             (forall k e, In (k, e) m -> In e rows /\ e.(file_path) = k) ->
             (forall f, In f l -> In f rows) ->
             NoDup (map_keys
                      (fold_left (fun m f => map_set m f.(file_path) f) l m))
             /\ forall k e,
                 In (k, e)
                    (fold_left (fun m f => map_set m f.(file_path) f) l m) ->
                 (In e rows /\ e.(file_path) = k)).
  { induction l as [|f l IH]; intros m Hnd Hm Hl; cbn; [auto|].
    apply IH.
    - now apply map_set_NoDup.
    - intros k e Hin. apply map_set_In in Hin as [[= -> ->] | Hin].
      + split; [apply Hl; now left | reflexivity].
      + now apply Hm.
    - intros g Hg. apply Hl. now right. }
  intros m Hnd Hm. apply G; auto.
Qed.

Lemma build_map_NoDup (rows : list FileRow) :
  NoDup (map_keys (build_map rows)).
Proof.
  apply (build_map_facts rows []); [constructor | intros k e []].
Qed.

Lemma build_map_In (rows : list FileRow) (k : string) (e : FileRow) :
  In (k, e) (build_map rows) -> In e rows /\ e.(file_path) = k.
Proof.
  apply (build_map_facts rows []); [constructor | intros k' e' []].
Qed.

(** *** How the loop classifies the listing *)

Lemma sync_file_lists (repoId branchId : nat) (f : RepositoryFile)
    (st st' : SyncState) :
  sync_file repoId branchId f st = Ok st' ->
  st'.(existingFileMap) = map_delete st.(existingFileMap) f.(path)
  /\ st'.(new_paths)
     = (st.(new_paths) ++ paths (filter (is_new st.(existingFileMap)) [f]))%list
  /\ st'.(updated_paths)
     = (st.(updated_paths)
        ++ paths (filter (is_updated st.(existingFileMap)) [f]))%list
  /\ st'.(unchanged_paths)
     = (st.(unchanged_paths)
        ++ paths (filter (is_unchanged st.(existingFileMap)) [f]))%list
  /\ st'.(removed_paths) = st.(removed_paths).
Proof.
  unfold sync_file, is_new, is_updated, is_unchanged. cbn [filter].
  destruct (map_get (existingFileMap st) (path f)) as [e|].
  - destruct (String.eqb (file_sha e) (sha f)); cbn [negb].
    + intros [= <-]. cbn. rewrite !app_nil_r. auto.
    + destruct (update_file_sha _ _ _); cbn [bind]; [|discriminate].
      intros [= <-]. cbn. rewrite !app_nil_r. auto.
  - destruct (select_file_by_key _ _ _ _) as [fileId|].
    + destruct (associated _ _ _).
      * intros [= <-]. cbn. rewrite !app_nil_r. auto.
      * destruct (insert_association _ _ _); cbn [bind]; [|discriminate].
        intros [= <-]. cbn. rewrite !app_nil_r. auto.
    + destruct (insert_file _ _ _ _ _) as [[fileId d]|]; cbn [bind];
        [|discriminate].
      destruct (insert_association _ _ _); cbn [bind]; [|discriminate].
      intros [= <-]. cbn. rewrite !app_nil_r. auto.
Qed.

Lemma filter_same_class (g : FileMap -> RepositoryFile -> bool)
    (m : FileMap) (p : string) (files : list RepositoryFile) :
  (forall m1 m2 f, map_get m1 f.(path) = map_get m2 f.(path) ->
                   g m1 f = g m2 f) ->
  ~ In p (paths files) ->
  filter (g (map_delete m p)) files = filter (g m) files.
Proof.
  intros Hg Hp. apply filter_ext_in. intros f Hf. apply Hg.
  rewrite map_get_delete.
  destruct (String.eqb p (path f)) eqn:H; [|reflexivity].
  apply String.eqb_eq in H. subst p. exfalso. apply Hp.
  unfold paths. now apply in_map.
Qed.

Lemma sync_files_lists (repoId branchId : nat) :
  forall (files : list RepositoryFile) (st st' : SyncState),
    NoDup (paths files) ->
    sync_files repoId branchId files st = Ok st' ->
    st'.(existingFileMap)
    = fold_left map_delete (paths files) st.(existingFileMap)
    /\ st'.(new_paths)
       = (st.(new_paths)
          ++ paths (filter (is_new st.(existingFileMap)) files))%list
    /\ st'.(updated_paths)
       = (st.(updated_paths)
          ++ paths (filter (is_updated st.(existingFileMap)) files))%list
    /\ st'.(unchanged_paths)
       = (st.(unchanged_paths)
          ++ paths (filter (is_unchanged st.(existingFileMap)) files))%list
    /\ st'.(removed_paths) = st.(removed_paths).
Proof.
  induction files as [|f files IH]; intros st st' Hnd Hrun.
  - cbn in Hrun. injection Hrun as <-. cbn. rewrite !app_nil_r. auto.
  - cbn [sync_files] in Hrun.
    destruct (sync_file repoId branchId f st) as [st1|] eqn:Hstep;
      cbn [bind] in Hrun; [|discriminate].
    apply sync_file_lists in Hstep as (Hm & Hn & Hu & Hc & Hr).
    cbn [paths map] in Hnd. inversion Hnd as [|? ? Hnotin Hnd']; subst.
    apply IH in Hrun as (Hm' & Hn' & Hu' & Hc' & Hr'); [|assumption].
    rewrite Hm in *.
    rewrite filter_same_class in Hn', Hu', Hc'; try assumption;
      try (intros m1 m2 g Hg; unfold is_new, is_updated, is_unchanged;
           now rewrite Hg).
    cbn [paths map fold_left].
    change (f :: files) with ([f] ++ files)%list.
    rewrite !filter_app. unfold paths in *. rewrite !map_app.
    rewrite Hn', Hu', Hc', Hr', Hn, Hu, Hc, Hr, !app_assoc. auto.
Qed.

Lemma sweep_lists (branchId : nat) :
  forall (entries : FileMap) (st : SyncState),
    let st' := fold_left (fun st entry => remove_file branchId entry st)
                         entries st in
    st'.(new_paths) = st.(new_paths)
    /\ st'.(updated_paths) = st.(updated_paths)
    /\ st'.(unchanged_paths) = st.(unchanged_paths)
    /\ st'.(removed_paths) = (st.(removed_paths) ++ map_keys entries)%list
    /\ st'.(filesToProcess) = st.(filesToProcess).
Proof.
  induction entries as [|[p e] entries IH]; intros st; cbn.
  - rewrite app_nil_r. auto.
  - specialize (IH (remove_file branchId (p, e) st)).
    cbn in IH. destruct IH as (Hn & Hu & Hc & Hr & Hf).
    rewrite Hn, Hu, Hc, Hr, Hf. cbn. rewrite <- app_assoc. auto.
Qed.

Lemma fold_delete_In (ps : list string) :
  forall (m : FileMap) (e : string * FileRow),
    In e (fold_left map_delete ps m) <-> In e m /\ ~ In (fst e) ps.
Proof.
  induction ps as [|p ps IH]; intros m e; cbn; [tauto|].
  rewrite IH, map_delete_In. intuition congruence.
Qed.

Lemma fold_delete_NoDup (ps : list string) :
  forall m : FileMap,
    NoDup (map_keys m) -> NoDup (map_keys (fold_left map_delete ps m)).
Proof.
  induction ps as [|p ps IH]; intros m H; cbn; [assumption|].
  apply IH. unfold map_delete, map_keys in *.
  clear IH. induction m as [|[k v] m IHm]; cbn; [constructor|].
  inversion H as [|? ? Hk Hm]; subst.
  destruct (negb (String.eqb k p)); cbn; [|now apply IHm].
  constructor; [|now apply IHm].
  intros Hin. apply Hk. apply in_map_iff in Hin as [[k' v'] [Heq Hin]].
  apply filter_In in Hin as [Hin _]. cbn in Heq. subst k'.
  apply in_map_iff. now exists (k, v').
Qed.

End SyncFacts.

Module SyncStoreFacts.

Import Store Sync SyncFacts.

(** *** Rows and associations the transaction leaves alone *)

Section Frame.

Variables repoId branchId : nat.

(** The store before the transaction. *)
Variable d0 : DB.

Hypothesis ids_unique : NoDup (map file_id d0.(file)).
Hypothesis ids_issued :
  forall r, In r d0.(file) -> r.(file_id) <= d0.(file_seq).

Lemma keeps_refl (d : DB) : keeps branchId d0 d d.
Proof. unfold keeps. auto. Qed.

Lemma keeps_trans (d1 d2 d3 : DB) : keeps branchId d0 d1 d2 -> keeps branchId d0 d2 d3 -> keeps branchId d0 d1 d3.
Proof. unfold keeps. intros (A & B & C) (A' & B' & C'). repeat split; auto; lia. Qed.

Lemma prior_entry (k : string) (e : FileRow) :
  In (k, e) (prior d0 branchId) -> In e d0.(file) /\ e.(file_path) = k.
Proof.
  intros H. apply build_map_In in H as [H1 H2]. split; [|assumption].
  unfold select_branch_files in H1. now apply filter_In in H1.
Qed.

Lemma associated_In (d : DB) (b i : nat) :
  associated d b i = true <-> In (b, i) d.(branch_file_association).
Proof.
  unfold associated. rewrite existsb_exists. split.
  - intros [[b' i'] [Hin Heq]]. unfold assoc_eqb in Heq. cbn in Heq.
    apply andb_true_iff in Heq as [H1 H2].
    apply Nat.eqb_eq in H1, H2. now subst.
  - intros Hin. exists (b, i). split; [assumption|].
    unfold assoc_eqb. cbn. now rewrite !Nat.eqb_refl.
Qed.

Lemma insert_association_facts (b i : nat) (d d' : DB) :
  insert_association b i d = Ok d' ->
  d'.(file) = d.(file) /\ d'.(file_seq) = d.(file_seq)
  /\ d'.(branch_file_association)
     = (d.(branch_file_association) ++ [(b, i)])%list.
Proof.
  unfold insert_association.
  destruct (associated d b i); [discriminate|].
  destruct (negb _); [discriminate|].
  intros [= <-]. cbn. auto.
Qed.

Lemma insert_file_facts (r : nat) (p s n : string) (d d' : DB) (id : nat) :
  insert_file r p s n d = Ok (id, d') ->
  id = S d.(file_seq) /\ d'.(file_seq) = id
  /\ d'.(file) = (d.(file) ++ [mkFile id r p n s FilePending])%list
  /\ d'.(branch_file_association) = d.(branch_file_association).
Proof.
  unfold insert_file.
  destruct (select_file_by_key d r p s); [discriminate|].
  destruct (negb _); [discriminate|].
  intros [= <- <-]. cbn. auto.
Qed.

Lemma update_file_sha_facts (s : string) (i : nat) (d d' : DB) :
  update_file_sha s i d = Ok d' ->
  d'.(file)
  = map (fun f => if f.(file_id) =? i
                  then mkFile f.(file_id) f.(file_repository_id)
                              f.(file_path) f.(file_name) s FilePending
                  else f) d.(file)
  /\ d'.(file_seq) = d.(file_seq)
  /\ d'.(branch_file_association) = d.(branch_file_association).
Proof.
  unfold update_file_sha.
  destruct (existsb _ _); [discriminate|].
  intros [= <-]. cbn. auto.
Qed.

Lemma select_file_by_key_Some (d : DB) (r : nat) (p s : string) (id : nat) :
  select_file_by_key d r p s = Some id ->
  exists row, In row d.(file) /\ row.(file_id) = id
              /\ row.(file_repository_id) = r
              /\ row.(file_path) = p /\ row.(file_sha) = s.
Proof.
  unfold select_file_by_key.
  destruct (find _ _) as [row|] eqn:Hfind; [|discriminate].
  intros [= <-]. apply find_some in Hfind as [Hin Hkey].
  apply andb_true_iff in Hkey as [Hkey Hs].
  apply andb_true_iff in Hkey as [Hr Hp].
  apply Nat.eqb_eq in Hr. apply String.eqb_eq in Hp, Hs.
  exists row. auto.
Qed.

Lemma select_file_by_key_None (d : DB) (r : nat) (p s : string) :
  select_file_by_key d r p s = None ->
  forall row, In row d.(file) ->
              ~ (row.(file_repository_id) = r
                 /\ row.(file_path) = p /\ row.(file_sha) = s).
Proof.
  unfold select_file_by_key.
  destruct (find _ _) as [row|] eqn:Hfind; [discriminate|].
  intros _ row Hin (Hr & Hp & Hs).
  apply (find_none _ _ Hfind) in Hin.
  rewrite Hr, Hp, Hs, Nat.eqb_refl, !String.eqb_refl in Hin. discriminate.
Qed.

(** One iteration of the loop over the listing. *)
Lemma sync_file_keeps (f : RepositoryFile) (st st' : SyncState) :
  sync_file repoId branchId f st = Ok st' ->
  (forall k e, In (k, e) st.(existingFileMap) -> held branchId d0 e.(file_id)) ->
  keeps branchId d0 st.(db) st'.(db)
  /\ incl st.(filesToProcess) st'.(filesToProcess).
Proof.
  unfold sync_file. intros Hrun Hmap.
  destruct (map_get (existingFileMap st) (path f)) as [e|] eqn:Hget.
  - apply map_get_In in Hget. apply Hmap in Hget.
    destruct (String.eqb (file_sha e) (sha f)); cbn [negb] in Hrun.
    + injection Hrun as <-. cbn. split; [apply keeps_refl | apply incl_refl].
    + destruct (update_file_sha _ _ _) as [d|] eqn:Hupd; cbn [bind] in Hrun;
        [|discriminate].
      injection Hrun as <-. cbn.
      apply update_file_sha_facts in Hupd as (Hf & Hs & Ha).
      split; [|apply incl_appl, incl_refl].
      unfold keeps. rewrite Hf, Hs, Ha. repeat split; auto.
      intros r Hin Hnot. apply in_map_iff. exists r. split; [|assumption].
      destruct (file_id r =? file_id e) eqn:Heq; [|reflexivity].
      apply Nat.eqb_eq in Heq. rewrite Heq in Hnot. contradiction.
  - destruct (select_file_by_key _ _ _ _) as [fileId|].
    + destruct (associated _ _ _).
      * injection Hrun as <-. cbn.
        split; [apply keeps_refl | apply incl_appl, incl_refl].
      * destruct (insert_association _ _ _) as [d|] eqn:Hins;
          cbn [bind] in Hrun; [|discriminate].
        injection Hrun as <-. cbn.
        apply insert_association_facts in Hins as (Hf & Hs & Ha).
        split; [|apply incl_appl, incl_refl].
        unfold keeps. rewrite Hf, Hs, Ha. repeat split; auto.
        intros a Hin _. apply in_or_app. now left.
    + destruct (insert_file _ _ _ _ _) as [[fileId d]|] eqn:Hfile;
        cbn [bind] in Hrun; [|discriminate].
      destruct (insert_association _ _ _) as [d'|] eqn:Hins;
        cbn [bind] in Hrun; [|discriminate].
      injection Hrun as <-. cbn.
      apply insert_file_facts in Hfile as (Hid & Hs & Hf & Ha).
      apply insert_association_facts in Hins as (Hf' & Hs' & Ha').
      split; [|apply incl_appl, incl_refl].
      unfold keeps. rewrite Hf', Hs', Ha', Hf, Hs, Ha, Hid.
      repeat split; auto.
      * intros r Hin _. apply in_or_app. now left.
      * intros a Hin _. apply in_or_app. now left.
Qed.

Lemma sync_files_keeps :
  forall (files : list RepositoryFile) (st st' : SyncState),
    sync_files repoId branchId files st = Ok st' ->
    (forall k e, In (k, e) st.(existingFileMap) -> held branchId d0 e.(file_id)) ->
    keeps branchId d0 st.(db) st'.(db)
    /\ incl st.(filesToProcess) st'.(filesToProcess)
    /\ (forall k e, In (k, e) st'.(existingFileMap) -> held branchId d0 e.(file_id)).
Proof.
  induction files as [|f files IH]; intros st st' Hrun Hmap.
  - injection Hrun as <-. split; [apply keeps_refl|].
    split; [apply incl_refl | assumption].
  - cbn [sync_files] in Hrun.
    destruct (sync_file repoId branchId f st) as [st1|] eqn:Hstep;
      cbn [bind] in Hrun; [|discriminate].
    pose proof (sync_file_keeps _ _ _ Hstep Hmap) as [Hk Hi].
    apply sync_file_lists in Hstep as (Hm & _).
    assert (Hmap1 : forall k e, In (k, e) (existingFileMap st1) ->
                                held branchId d0 (file_id e)).
    { intros k e Hin. rewrite Hm in Hin. apply map_delete_In in Hin as [Hin _].
      eauto. }
    destruct (IH _ _ Hrun Hmap1) as (Hk' & Hi' & Hm').
    split; [eapply keeps_trans; eassumption|].
    split; [eapply incl_tran; eassumption | assumption].
Qed.

Lemma delete_association_keeps (e : FileRow) (d : DB) :
  held branchId d0 e.(file_id) -> keeps branchId d0 d (delete_association branchId e.(file_id) d).
Proof.
  intros He. unfold keeps, delete_association. cbn. repeat split; auto.
  intros a Hin Hnot. apply filter_In. split; [assumption|].
  apply negb_true_iff. unfold assoc_eqb. cbn.
  destruct (snd a =? file_id e) eqn:Heq.
  - apply Nat.eqb_eq in Heq. rewrite Heq in Hnot. contradiction.
  - rewrite Nat.eqb_sym in Heq. rewrite Heq. apply andb_false_r.
Qed.

Lemma delete_file_keeps (e : FileRow) (d : DB) :
  held branchId d0 e.(file_id) ->
  keeps branchId d0 d (delete_file e.(file_id) (delete_file_chunks e.(file_id) d)).
Proof.
  intros He. unfold keeps, delete_file, delete_file_chunks. cbn.
  repeat split; auto.
  - intros r Hin Hnot. apply filter_In. split; [assumption|].
    apply negb_true_iff, Nat.eqb_neq. intros Heq. rewrite Heq in Hnot.
    contradiction.
  - intros a Hin Hnot. apply filter_In. split; [assumption|].
    apply negb_true_iff, Nat.eqb_neq. intros Heq. rewrite Heq in Hnot.
    contradiction.
Qed.

Lemma sweep_keeps :
  forall (entries : FileMap) (st : SyncState),
    (forall k e, In (k, e) entries -> held branchId d0 e.(file_id)) ->
    keeps branchId d0 st.(db)
          (fold_left (fun st entry => remove_file branchId entry st)
                     entries st).(db).
Proof.
  induction entries as [|[p e] entries IH]; intros st Hent; cbn [fold_left].
  - apply keeps_refl.
  - eapply keeps_trans; [|apply IH; intros k e' Hin; apply (Hent k); now right].
    assert (He : held branchId d0 (file_id e)) by (apply (Hent p); now left).
    unfold remove_file. cbn [db push_removed].
    destruct (negb _).
    + eapply keeps_trans; [apply delete_association_keeps; exact He|].
      now apply delete_file_keeps.
    + now apply delete_association_keeps.
Qed.


(** *** A path that is new to the branch *)

Lemma settled_keeps (f : RepositoryFile) (d d' : DB)
    (l l' : list FileToProcess) :
  settled repoId branchId d0 f d l -> keeps branchId d0 d d' -> incl l l' -> settled repoId branchId d0 f d' l'.
Proof.
  intros (row & H1 & H2 & H3 & H4 & H5 & H6 & H7 & H8) (Kf & Ka & _) Hl.
  exists row. repeat split; auto.
Qed.

Lemma same_id_same_row (a b : FileRow) :
  In a d0.(file) -> In b d0.(file) -> a.(file_id) = b.(file_id) -> a = b.
Proof.
  revert ids_unique. generalize (file d0).
  induction l as [|x l IH]; cbn; intros Hnd Ha Hb Heq; [contradiction|].
  inversion Hnd as [|? ? Hx Hl]; subst.
  destruct Ha as [-> | Ha], Hb as [-> | Hb]; auto.
  - exfalso. apply Hx. rewrite Heq. now apply in_map.
  - exfalso. apply Hx. rewrite <- Heq. now apply in_map.
Qed.

Lemma map_get_fold_delete_None (ps : list string) :
  forall (m : FileMap) (p : string),
    map_get m p = None -> map_get (fold_left map_delete ps m) p = None.
Proof.
  induction ps as [|q ps IH]; intros m p H; cbn; [assumption|].
  apply IH. rewrite map_get_delete. now destruct (String.eqb q p).
Qed.

Lemma absent_not_held (f : RepositoryFile) (r0 : FileRow) :
  map_get (prior d0 branchId) f.(path) = None ->
  In r0 d0.(file) -> r0.(file_path) = f.(path) -> ~ held branchId d0 r0.(file_id).
Proof.
  intros Hget Hin Hpath (k & e & Hke & Hid).
  destruct (prior_entry _ _ Hke) as [He Hk].
  assert (e = r0) by (apply same_id_same_row; assumption). subst e.
  assert (Hkeys : In f.(path) (map_keys (prior d0 branchId))).
  { unfold map_keys. apply in_map_iff. exists (k, r0). cbn.
    split; [congruence | assumption]. }
  apply map_get_keys in Hkeys. contradiction.
Qed.

Lemma sync_file_from_prior (f : RepositoryFile) (st st' : SyncState)
    (processed : list string) :
  sync_file repoId branchId f st = Ok st' ->
  (forall k e, In (k, e) st.(existingFileMap) -> In (k, e) (prior d0 branchId)) ->
  from_prior d0 processed st.(db) ->
  from_prior d0 (processed ++ [f.(path)]) st'.(db).
Proof.
  unfold sync_file, from_prior. intros Hrun Hmap Hprior.
  assert (Hweak : forall r, In r (file (db st)) ->
            In r (file d0) \/ In (file_path r) (processed ++ [path f])).
  { intros r Hr. destruct (Hprior r Hr); [now left|].
    right. apply in_or_app. now left. }
  destruct (map_get (existingFileMap st) (path f)) as [e|] eqn:Hget.
  - apply map_get_In, Hmap, prior_entry in Hget as [He Hpath].
    destruct (String.eqb (file_sha e) (sha f)); cbn [negb] in Hrun.
    + injection Hrun as <-. exact Hweak.
    + destruct (update_file_sha _ _ _) as [d|] eqn:Hupd; cbn [bind] in Hrun;
        [|discriminate].
      injection Hrun as <-. cbn [db push_updated].
      apply update_file_sha_facts in Hupd as (Hf & _). rewrite Hf.
      intros r Hr. apply in_map_iff in Hr as [r1 [Hr1 Hin1]].
      destruct (file_id r1 =? file_id e) eqn:Heq.
      * apply Nat.eqb_eq in Heq. subst r. cbn [file_path].
        right. destruct (Hprior r1 Hin1) as [H0 | Hp].
        -- assert (r1 = e) by (apply same_id_same_row; assumption).
           subst r1. rewrite Hpath. apply in_or_app. right. now left.
        -- apply in_or_app. now left.
      * subst r. now apply Hweak.
  - destruct (select_file_by_key _ _ _ _) as [fileId|].
    + destruct (associated _ _ _).
      * injection Hrun as <-. exact Hweak.
      * destruct (insert_association _ _ _) as [d|] eqn:Hins;
          cbn [bind] in Hrun; [|discriminate].
        injection Hrun as <-. cbn [db push_new].
        apply insert_association_facts in Hins as (Hf & _). rewrite Hf.
        exact Hweak.
    + destruct (insert_file _ _ _ _ _) as [[fileId d]|] eqn:Hfile;
        cbn [bind] in Hrun; [|discriminate].
      destruct (insert_association _ _ _) as [d'|] eqn:Hins;
        cbn [bind] in Hrun; [|discriminate].
      injection Hrun as <-. cbn [db push_new].
      apply insert_file_facts in Hfile as (_ & _ & Hf & _).
      apply insert_association_facts in Hins as (Hf' & _).
      rewrite Hf', Hf. intros r Hr. apply in_app_or in Hr as [Hr | [<- | []]].
      * now apply Hweak.
      * right. cbn. apply in_or_app. right. now left.
Qed.

Lemma settled_intro (f : RepositoryFile) (d : DB)
    (toProcess : list FileToProcess) (row : FileRow) :
  In (mkFileToProcess row.(file_id) f.(path) f.(name)) toProcess ->
  In (branchId, row.(file_id)) d.(branch_file_association) ->
  In row d.(file) ->
  row.(file_repository_id) = repoId ->
  row.(file_path) = f.(path) ->
  row.(file_sha) = f.(sha) ->
  ~ held branchId d0 row.(file_id) ->
  (In row d0.(file)
   \/ (d0.(file_seq) < row.(file_id)
       /\ row.(file_status) = FilePending
       /\ forall r0, In r0 d0.(file) ->
                     ~ (r0.(file_repository_id) = repoId
                        /\ r0.(file_path) = f.(path)
                        /\ r0.(file_sha) = f.(sha)))) ->
  settled repoId branchId d0 f d toProcess.
Proof. intros. exists row. tauto. Qed.

Lemma in_snoc {A : Type} (l : list A) (a : A) : In a (l ++ [a]).
Proof. apply in_or_app. right. now left. Qed.

Lemma sync_file_new (f : RepositoryFile) (st st' : SyncState)
    (processed : list string) :
  sync_file repoId branchId f st = Ok st' ->
  map_get (prior d0 branchId) f.(path) = None ->
  st.(existingFileMap) = fold_left map_delete processed (prior d0 branchId) ->
  ~ In f.(path) processed ->
  from_prior d0 processed st.(db) ->
  keeps branchId d0 d0 st.(db) ->
  settled repoId branchId d0 f st'.(db) st'.(filesToProcess).
Proof.
  intros Hrun Hget0 Hmap Hfresh Hprior (Kf & Ka & Kseq).
  assert (Hget : map_get (existingFileMap st) (path f) = None).
  { rewrite Hmap. now apply map_get_fold_delete_None. }
  unfold sync_file in Hrun. rewrite Hget in Hrun.
  destruct (select_file_by_key (db st) repoId (path f) (sha f))
    as [fileId|] eqn:Hsel.
  - apply select_file_by_key_Some in Hsel
      as (row & Hin & Hid & Hrepo & Hpath & Hsha).
    assert (Hrow0 : In row (file d0)).
    { destruct (Hprior row Hin) as [H | H]; [assumption|].
      rewrite Hpath in H. contradiction. }
    assert (Hnot : ~ held branchId d0 (file_id row))
      by (apply (absent_not_held f); assumption).
    destruct (associated (db st) branchId fileId) eqn:Hassoc.
    + injection Hrun as <-. cbn [db filesToProcess push_new].
      apply (settled_intro f _ _ row); auto.
      * rewrite Hid. apply in_snoc.
      * rewrite Hid. now apply associated_In.
    + destruct (insert_association _ _ _) as [d|] eqn:Hins;
        cbn [bind] in Hrun; [|discriminate].
      injection Hrun as <-. cbn [db filesToProcess push_new].
      apply insert_association_facts in Hins as (Hf & _ & Ha).
      apply (settled_intro f _ _ row); auto.
      * rewrite Hid. apply in_snoc.
      * rewrite Hid, Ha. apply in_snoc.
      * now rewrite Hf.
  - destruct (insert_file _ _ _ _ _) as [[fileId d]|] eqn:Hfile;
      cbn [bind] in Hrun; [|discriminate].
    destruct (insert_association _ _ _) as [d'|] eqn:Hins;
      cbn [bind] in Hrun; [|discriminate].
    injection Hrun as <-. cbn [db filesToProcess push_new].
    apply insert_file_facts in Hfile as (Hid & _ & Hf & Ha).
    apply insert_association_facts in Hins as (Hf' & _ & Ha').
    apply (settled_intro f _ _
             (mkFile fileId repoId (path f) (name f) (sha f) FilePending));
      cbn [file_id file_repository_id file_path file_sha file_status];
      auto.
    + apply in_snoc.
    + rewrite Ha'. apply in_snoc.
    + rewrite Hf', Hf. apply in_snoc.
    + intros (k & e & Hke & He). apply prior_entry in Hke as [Hke _].
      apply ids_issued in Hke. lia.
    + right. split; [lia|]. split; [reflexivity|].
      intros r0 Hr0 (Hr & Hp & Hs).
      assert (Hnot : ~ held branchId d0 (file_id r0))
        by (apply (absent_not_held f); assumption).
      apply (select_file_by_key_None _ _ _ _ Hsel r0); auto.
Qed.

Lemma sync_files_settle :
  forall (files : list RepositoryFile) (st st' : SyncState)
         (processed : list string),
    NoDup (paths files) ->
    sync_files repoId branchId files st = Ok st' ->
    st.(existingFileMap) = fold_left map_delete processed (prior d0 branchId) ->
    (forall p, In p (paths files) -> ~ In p processed) ->
    from_prior d0 processed st.(db) ->
    keeps branchId d0 d0 st.(db) ->
    forall f, In f files -> map_get (prior d0 branchId) f.(path) = None ->
              settled repoId branchId d0 f st'.(db) st'.(filesToProcess).
Proof.
  induction files as [|f0 files IH];
    intros st st' processed Hnd Hrun Hmap Hfresh Hprior Hkeeps f Hin Hget;
    [contradiction|].
  cbn [sync_files] in Hrun.
  destruct (sync_file repoId branchId f0 st) as [st1|] eqn:Hstep;
    cbn [bind] in Hrun; [|discriminate].
  cbn [paths map] in Hnd. inversion Hnd as [|? ? Hnotin Hnd']; subst.
  assert (Hheld : forall k e, In (k, e) (existingFileMap st) ->
                              held branchId d0 (file_id e)).
  { intros k e Hke. rewrite Hmap in Hke. apply fold_delete_In in Hke as [Hke _].
    exists k, e. auto. }
  assert (HinM0 : forall k e, In (k, e) (existingFileMap st) -> In (k, e) (prior d0 branchId)).
  { intros k e Hke. rewrite Hmap in Hke. now apply fold_delete_In in Hke. }
  pose proof (sync_file_keeps _ _ _ Hstep Hheld) as [Hk1 Hi1].
  pose proof (sync_file_from_prior _ _ _ _ Hstep HinM0 Hprior) as Hprior1.
  pose proof (sync_file_lists _ _ _ _ _ Hstep) as (Hm1 & _).
  assert (Hmap1 : existingFileMap st1
                  = fold_left map_delete (processed ++ [path f0]) (prior d0 branchId)).
  { rewrite Hm1, Hmap, fold_left_app. reflexivity. }
  assert (Hheld1 : forall k e, In (k, e) (existingFileMap st1) ->
                               held branchId d0 (file_id e)).
  { intros k e Hke. rewrite Hmap1 in Hke.
    apply fold_delete_In in Hke as [Hke _]. exists k, e. auto. }
  destruct Hin as [<- | Hin].
  - pose proof (sync_files_keeps _ _ _ Hrun Hheld1) as (Hk & Hi & _).
    eapply settled_keeps; [|exact Hk | exact Hi].
    eapply sync_file_new; try eassumption.
    apply Hfresh. now left.
  - apply (IH st1 st' (processed ++ [path f0])%list); auto.
    + intros p Hp Hp'. apply in_app_or in Hp' as [Hp' | [<- | []]].
      * apply (Hfresh p); [now right | assumption].
      * contradiction.
    + eapply keeps_trans; eassumption.
Qed.

End Frame.

(** *** Counters of the log line *)

Lemma sync_file_counted (repoId branchId : nat) (f : RepositoryFile)
    (st st' : SyncState) :
  sync_file repoId branchId f st = Ok st' -> counted st -> counted st'.
Proof.
  unfold sync_file, counted. intros Hrun (Hu & Hc & Hr & Hn).
  destruct (map_get _ _) as [e|].
  - destruct (String.eqb _ _); cbn [negb] in Hrun.
    + injection Hrun as <-. cbn. rewrite length_app. cbn. lia.
    + destruct (update_file_sha _ _ _); cbn [bind] in Hrun; [|discriminate].
      injection Hrun as <-. cbn. rewrite length_app. cbn. lia.
  - destruct (select_file_by_key _ _ _ _).
    + destruct (associated _ _ _).
      * injection Hrun as <-. cbn. rewrite length_app. cbn. lia.
      * destruct (insert_association _ _ _); cbn [bind] in Hrun;
          [|discriminate].
        injection Hrun as <-. cbn. rewrite length_app. cbn. lia.
    + destruct (insert_file _ _ _ _ _) as [[i d]|]; cbn [bind] in Hrun;
        [|discriminate].
      destruct (insert_association _ _ _); cbn [bind] in Hrun;
        [|discriminate].
      injection Hrun as <-. cbn. rewrite length_app. cbn. lia.
Qed.

Lemma sync_files_counted (repoId branchId : nat) :
  forall (files : list RepositoryFile) (st st' : SyncState),
    sync_files repoId branchId files st = Ok st' -> counted st -> counted st'.
Proof.
  induction files as [|f files IH]; intros st st' Hrun Hc.
  - now injection Hrun as <-.
  - cbn [sync_files] in Hrun.
    destruct (sync_file repoId branchId f st) as [st1|] eqn:Hstep;
      cbn [bind] in Hrun; [|discriminate].
    eapply IH; [eassumption|]. eapply sync_file_counted; eassumption.
Qed.

Lemma sweep_counted (branchId : nat) :
  forall (entries : FileMap) (st : SyncState),
    counted st ->
    counted (fold_left (fun st entry => remove_file branchId entry st)
                       entries st).
Proof.
  induction entries as [|[p e] entries IH]; intros st Hc; cbn [fold_left];
    [assumption|].
  apply IH. destruct Hc as (Hu & Hc & Hr & Hn).
  unfold counted, remove_file. cbn. rewrite length_app. cbn. lia.
Qed.

End SyncStoreFacts.

Module SyncTheorem.

Import Store Sync SyncFacts SyncStoreFacts Scenarios.

Lemma NoDup_paths_filter (g : RepositoryFile -> bool)
    (files : list RepositoryFile) :
  NoDup (paths files) -> NoDup (paths (filter g files)).
Proof.
  induction files as [|f files IH]; cbn; intros H; [constructor|].
  inversion H as [|? ? Hf Hfiles]; subst.
  destruct (g f); cbn; [|now apply IH].
  constructor; [|now apply IH].
  intros Hin. apply Hf. unfold paths in *.
  apply in_map_iff in Hin as [x [Hx Hin]]. apply filter_In in Hin as [Hin _].
  apply in_map_iff. now exists x.
Qed.

Lemma same_path_same_entry (files : list RepositoryFile)
    (f g : RepositoryFile) :
  NoDup (paths files) -> In f files -> In g files -> path f = path g -> f = g.
Proof.
  induction files as [|x files IH]; cbn; intros Hnd Hf Hg Heq; [contradiction|].
  inversion Hnd as [|? ? Hx Hfiles]; subst.
  destruct Hf as [-> | Hf], Hg as [-> | Hg]; auto.
  - exfalso. apply Hx. rewrite Heq. now apply in_map.
  - exfalso. apply Hx. rewrite <- Heq. now apply in_map.
Qed.

Lemma in_paths_filter (g : RepositoryFile -> bool)
    (files : list RepositoryFile) (p : string) :
  In p (paths (filter g files))
  <-> exists f, In f files /\ path f = p /\ g f = true.
Proof.
  unfold paths. rewrite in_map_iff. split.
  - intros [f [Hp Hin]]. apply filter_In in Hin as [Hin Hg]. eauto.
  - intros [f [Hin [Hp Hg]]]. exists f. split; [assumption|].
    apply filter_In. auto.
Qed.

(** X28.  For a listing with one entry per path, and a store whose file
    ids are unique and were issued by the counter, a synchronizer
    transaction that commits sorts the paths of the prior file set of the branch and of
    the listing into new, updated, unchanged and removed by path and
    content identifier, no path twice; the counters of its log line count
    these paths (the new counter the inserted files only); and the File of
    each new path is recorded for re-chunking and associated with the
    branch, being a row the store already had for this repository, path and
    content identifier, or else a row inserted as pending under a fresh
    id. *)
Theorem sync_partitions_listing :
  forall (repoId branchId : nat) (files : list RepositoryFile) (d : DB)
         (st : SyncState),
    NoDup (map path files) ->
    NoDup (map file_id d.(file)) ->
    (forall r, In r d.(file) -> r.(file_id) <= d.(file_seq)) ->
    processFilesTx repoId branchId files d = Ok st ->
    let L0 := prior d branchId in
    (forall p, In p st.(new_paths)
               <-> In p (map path files) /\ map_get L0 p = None)
    /\ (forall p, In p st.(updated_paths)
                  <-> exists f e, In f files /\ path f = p
                                  /\ map_get L0 p = Some e
                                  /\ e.(file_sha) <> f.(sha))
    /\ (forall p, In p st.(unchanged_paths)
                  <-> exists f e, In f files /\ path f = p
                                  /\ map_get L0 p = Some e
                                  /\ e.(file_sha) = f.(sha))
    /\ (forall p, In p st.(removed_paths)
                  <-> map_get L0 p <> None /\ ~ In p (map path files))
    /\ NoDup (st.(new_paths) ++ st.(updated_paths)
              ++ st.(unchanged_paths) ++ st.(removed_paths))%list
    /\ (st.(updatedFiles) = List.length st.(updated_paths)
        /\ st.(unchangedFiles) = List.length st.(unchanged_paths)
        /\ st.(removedFiles) = List.length st.(removed_paths)
        /\ st.(newFiles) <= List.length st.(new_paths))
    /\ (forall f, In f files -> map_get L0 f.(path) = None ->
          exists row,
            In (mkFileToProcess row.(file_id) f.(path) f.(name))
               st.(filesToProcess)
            /\ associated st.(db) branchId row.(file_id) = true
            /\ In row st.(db).(file)
            /\ row.(file_repository_id) = repoId
            /\ row.(file_path) = f.(path)
            /\ row.(file_sha) = f.(sha)
            /\ (In row d.(file)
                \/ (d.(file_seq) < row.(file_id)
                    /\ row.(file_status) = FilePending
                    /\ forall r0, In r0 d.(file) ->
                                  ~ (r0.(file_repository_id) = repoId
                                     /\ r0.(file_path) = f.(path)
                                     /\ r0.(file_sha) = f.(sha))))).
Proof.
  intros repoId branchId files d st Hnd Hids Hseq Hrun L0.
  unfold processFilesTx in Hrun. fold (prior d branchId) in Hrun. fold L0 in Hrun.
  set (st0 := mkSync d L0 [] 0 0 0 0 [] [] [] []) in Hrun.
  destruct (sync_files repoId branchId files st0) as [st1|] eqn:Hloop;
    cbn [bind] in Hrun; [|discriminate].
  injection Hrun as <-.
  fold (paths files) in *.
  pose proof (sync_files_lists _ _ _ _ _ Hnd Hloop) as (Hm & Hn & Hu & Hc & Hr).
  cbn [st0 existingFileMap new_paths updated_paths unchanged_paths
       removed_paths app] in Hm, Hn, Hu, Hc, Hr.
  unfold sweep.
  pose proof (sweep_lists branchId (existingFileMap st1) st1)
    as (Sn & Su & Sc & Sr & Sf).
  cbn zeta in Sn, Su, Sc, Sr, Sf.
  rewrite Sn, Su, Sc, Sr, Hn, Hu, Hc, Hr, Hm. cbn [app].
  assert (Hnew : forall p, In p (paths (filter (is_new L0) files))
                           <-> In p (paths files) /\ map_get L0 p = None).
  { intros p. rewrite in_paths_filter. unfold is_new. split.
    - intros (f & Hin & <- & Hg). split; [now apply in_map|].
      now destruct (map_get L0 (path f)).
    - intros [Hin Hg]. apply in_map_iff in Hin as (f & <- & Hin).
      exists f. rewrite Hg. auto. }
  assert (Hupd : forall p, In p (paths (filter (is_updated L0) files))
                           <-> exists f e, In f files /\ path f = p
                                           /\ map_get L0 p = Some e
                                           /\ e.(file_sha) <> f.(sha)).
  { intros p. rewrite in_paths_filter. unfold is_updated. split.
    - intros (f & Hin & <- & Hg).
      destruct (map_get L0 (path f)) as [e|]; [|discriminate].
      exists f, e. apply negb_true_iff, String.eqb_neq in Hg. auto.
    - intros (f & e & Hin & <- & Hg & Hs). exists f. rewrite Hg.
      repeat split; auto. now apply negb_true_iff, String.eqb_neq. }
  assert (Hunc : forall p, In p (paths (filter (is_unchanged L0) files))
                           <-> exists f e, In f files /\ path f = p
                                           /\ map_get L0 p = Some e
                                           /\ e.(file_sha) = f.(sha)).
  { intros p. rewrite in_paths_filter. unfold is_unchanged. split.
    - intros (f & Hin & <- & Hg).
      destruct (map_get L0 (path f)) as [e|]; [|discriminate].
      exists f, e. apply String.eqb_eq in Hg. auto.
    - intros (f & e & Hin & <- & Hg & Hs). exists f. rewrite Hg.
      repeat split; auto. now apply String.eqb_eq. }
  assert (Hrem : forall p,
             In p (map_keys (fold_left map_delete (paths files) L0))
             <-> map_get L0 p <> None /\ ~ In p (paths files)).
  { intros p. rewrite map_get_keys. unfold map_keys. rewrite !in_map_iff.
    split.
    - intros ([k e] & <- & Hin). apply fold_delete_In in Hin as [Hin Hp].
      split; [|assumption]. now exists (k, e).
    - intros [([k e] & <- & Hin) Hp]. exists (k, e). split; [reflexivity|].
      now apply fold_delete_In. }
  split; [exact Hnew|]. split; [exact Hupd|]. split; [exact Hunc|].
  split; [exact Hrem|]. split; [|split].
  - apply NoDup_app; [now apply NoDup_paths_filter | |].
    + apply NoDup_app; [now apply NoDup_paths_filter | |].
      * apply NoDup_app; [now apply NoDup_paths_filter | |].
        -- apply fold_delete_NoDup, build_map_NoDup.
        -- intros p Hp Hp'. apply Hunc in Hp as (f & e & Hin & <- & _).
           apply Hrem in Hp' as [_ Hp']. apply Hp'. now apply in_map.
      * intros p Hp Hp'. apply Hupd in Hp as (f & e & Hin & <- & Hg & Hs).
        apply in_app_or in Hp' as [Hp' | Hp'].
        -- apply Hunc in Hp' as (f' & e' & Hin' & Heq & Hg' & Hs').
           assert (f' = f) by (apply (same_path_same_entry files); auto).
           subst f'. congruence.
        -- apply Hrem in Hp' as [_ Hp']. apply Hp'. now apply in_map.
    + intros p Hp Hp'. apply Hnew in Hp as [Hin Hg].
      apply in_app_or in Hp' as [Hp' | Hp'].
      * apply Hupd in Hp' as (f & e & _ & _ & Hg' & _). congruence.
      * apply in_app_or in Hp' as [Hp' | Hp'].
        -- apply Hunc in Hp' as (f & e & _ & _ & Hg' & _). congruence.
        -- apply Hrem in Hp' as [Hp' _]. contradiction.
  - assert (C0 : counted st0) by (unfold counted; cbn; lia).
    pose proof (sweep_counted branchId (existingFileMap st1) st1
                  (sync_files_counted _ _ _ _ _ Hloop C0)) as C.
    unfold counted in C. rewrite Sn, Su, Sc, Sr, Hn, Hu, Hc, Hr, Hm in C.
    exact C.
  - intros f Hin Hget.
    assert (Hsettled : settled repoId branchId d f (db st1)
                               (filesToProcess st1)).
    { apply (sync_files_settle repoId branchId d Hids Hseq files st0 st1 []);
        auto.
      - intros r Hin0. now left.
      - apply keeps_refl. }
    assert (Hheld : forall k e, In (k, e) (existingFileMap st1) ->
                                held branchId d (file_id e)).
    { intros k e Hke. rewrite Hm in Hke.
      apply fold_delete_In in Hke as [Hke _]. exists k, e. auto. }
    pose proof (sweep_keeps branchId d (existingFileMap st1) st1 Hheld) as Hk.
    destruct (settled_keeps _ _ _ _ _ _ _ _ Hsettled Hk
                (incl_refl (filesToProcess st1)))
      as (row & H1 & H2 & H3 & H4 & H5 & H6 & _ & H8).
    exists row. rewrite Hm in Sf, H2, H3. rewrite Sf, associated_In.
    tauto.
Qed.

Lemma sync_partitions_listing_witness :
  exists st,
    processFilesTx 1 1 sync_listing sync_store = Ok st
    /\ st.(new_paths) = ["lib.ts"; "new.ts"]
    /\ st.(updated_paths) = ["x.ts"]
    /\ st.(unchanged_paths) = ["same.ts"]
    /\ st.(removed_paths) = ["old.ts"]
    /\ NoDup (st.(new_paths) ++ st.(updated_paths)
              ++ st.(unchanged_paths) ++ st.(removed_paths))%list.
Proof.
  destruct (processFilesTx 1 1 sync_listing sync_store) as [st|] eqn:Hrun;
    [|vm_compute in Hrun; discriminate].
  exists st.
  assert (Hnd : NoDup (map path sync_listing))
    by (vm_compute; repeat constructor; cbn; intuition discriminate).
  assert (Hids : NoDup (map file_id sync_store.(file)))
    by (vm_compute; repeat constructor; cbn; intuition discriminate).
  assert (Hseq : forall r, In r sync_store.(file) ->
                           r.(file_id) <= sync_store.(file_seq))
    by (intros r Hr; vm_compute in Hr;
        repeat (destruct Hr as [<- | Hr]; [vm_compute; lia|]);
        contradiction).
  pose proof (sync_partitions_listing 1 1 sync_listing sync_store st
                Hnd Hids Hseq Hrun) as (_ & _ & _ & _ & Hpart & _).
  vm_compute in Hrun. injection Hrun as <-.
  repeat split; try reflexivity. exact Hpart.
Defined.

(** C1, at a branch [main] that holds [x.ts] at [sha1] while a row of the
    same repository has [x.ts] at [sha2] for the branch [dev], and a listing
    of [main] with [x.ts] at [sha2]: the path is in the prior file set with
    another content identifier, so it is to be sorted as updated.  The
    transaction runs [UPDATE file SET sha] on the row of [main] without
    looking for the row that has the path at [sha2], the statement fails on
    [UNIQUE(repository_id, path, sha)], the transaction is rolled back and
    [processFiles] returns an error: no path is sorted and the store is as
    before.  The listing has one entry per path and the ids of the store
    are unique and issued by the counter. *)
Theorem update_to_stored_content_rolls_back :
  NoDup (map path converging_listing)
  /\ NoDup (map file_id converging_store.(file))
  /\ (forall r, In r converging_store.(file) ->
                r.(file_id) <= converging_store.(file_seq))
  /\ map (fun kv => (fst kv, (snd kv).(file_sha)))
         (prior converging_store 1) = [("x.ts", "sha1")]
  /\ map (is_updated (prior converging_store 1)) converging_listing = [true]
  /\ select_file_by_key converging_store 1 "x.ts" "sha2" = Some 2
  /\ processFilesTx 1 1 converging_listing converging_store
     = Throw "UNIQUE constraint failed: file.repository_id, file.path, file.sha"
  /\ fst converging_run
     = Ok (Pipeline.Error "Error executing processFiles tool: UNIQUE constraint failed: file.repository_id, file.path, file.sha")
  /\ (snd converging_run).(Pipeline.store) = converging_store.
Proof.
  repeat split; try (vm_compute; reflexivity).
  - vm_compute. repeat constructor. intros [].
  - vm_compute. repeat constructor; cbn; intuition discriminate.
  - intros r Hr. vm_compute in Hr.
    repeat (destruct Hr as [<- | Hr]; [vm_compute; lia|]). contradiction.
Qed.

End SyncTheorem.

(** ** Runs of the pipeline on small stores *)

Module ScenarioFacts.

Import Store Sync Retrieval Pipeline Scenarios.

(** *** Re-chunking a file whose content identifier changed *)

(** C2, at a branch whose only file [x.ts] went from [sha1] to [sha2] with
    the new content ["new"]: [processFiles] records the file as updated and
    then re-chunks it, but [processFileContents] deletes nothing and its
    INSERT does nothing on the ordinal that is taken; the file ends as
    [fetched] at [sha2] with the chunk of the old content, vector included,
    and without the chunk of the new content. *)
Theorem stale_chunk_survives_rechunking :
  fst rechunk_run
  = Ok (Success (mkProcessFilesOutput true [mkFileToProcess 1 "x.ts" "x.ts"]))
  /\ (snd rechunk_run).(store).(file)
     = [mkFile 1 1 "x.ts" "x.ts" "sha2" Fetched]
  /\ file_chunks (snd rechunk_run).(store) 1
     = [mkChunk 1 1 "old" 1 (Some [1; 0]%Q) (Some "m") None]
  /\ splitDocument one_chunk with_header "x.ts" "new"
     = ["FILE NAME: x.ts" ++ String "010" (String "010" "---")
        ++ String "010" (String "010" "new")]
  /\ ~ In (String.concat "" (splitDocument one_chunk with_header "x.ts" "new"))
          (map chunk_content (file_chunks (snd rechunk_run).(store) 1)).
Proof.
  vm_compute. repeat split. intros [H | []]. discriminate H.
Qed.

(** *** Completion of a branch *)

(** C3, at a branch with a pending file and a fetched file: [embedFiles]
    embeds the one outstanding chunk and sets the branch to
    [embeddings_generated] without looking at the files, which stay
    [pending] and [fetched]; no file is [ingested] or [done]. *)
Theorem branch_completed_with_pending_file :
  fst embed_run = Ok (Success 1)
  /\ map branch_status (snd embed_run).(store).(Store.branch)
     = [EmbeddingsGenerated]
  /\ map file_status (select_branch_files (snd embed_run).(store) 1)
     = [FilePending; Fetched]
  /\ map embedding (snd embed_run).(store).(file_chunk)
     = [Some [1 # 2; 1 # 2]%Q].
Proof. vm_compute. repeat split. Qed.

(** *** Scores after a backfill *)

Lemma similarity_initial_spec (queryVector chunkVector : list Q) :
  products chunkVector queryVector <> [] ->
  similarity_initial queryVector chunkVector
  = Some (spec_score queryVector chunkVector).
Proof.
  unfold similarity_initial, product_sum, spec_score. intros H.
  destruct (products chunkVector queryVector) as [|p ps] eqn:Hp;
    [contradiction|].
  destruct queryVector as [|q qs]; [|reflexivity].
  destruct chunkVector; discriminate.
Qed.

Lemma similarity_retry_undivided (queryVector chunkVector : list Q) :
  products chunkVector queryVector <> [] ->
  similarity_retry queryVector chunkVector
  = Some (fold_left Qplus (products chunkVector queryVector) 0%Q).
Proof.
  unfold similarity_retry, product_sum. intros H.
  destruct (products chunkVector queryVector); [contradiction | reflexivity].
Qed.

(** C4, at a query whose first scan is empty and whose backfill embeds one
    chunk: query and chunk vector are both (1/2, 1/2), the product sum is
    1/2 and the dimensionality 2, so the score is to be 1/4; the scan after
    the backfill leaves the division out and returns 1/2.  The first scan
    does divide. *)
Theorem retry_scan_score_not_divided :
  exists (w : World) (score : Q),
    query_run
    = (Ok (Success (mkQueryRepoOutput "https://github.com/o/x.git" "main"
                      [mkResult "text" "b.ts" 1 (Some score)])), w)
    /\ (score == 1 # 2)%Q
    /\ (spec_score [1 # 2; 1 # 2] [1 # 2; 1 # 2] == 1 # 4)%Q
    /\ ~ (score == spec_score [1 # 2; 1 # 2] [1 # 2; 1 # 2])%Q
    /\ similarity_retry [1 # 2; 1 # 2]%Q [1 # 2; 1 # 2]%Q = Some score
    /\ similarity_initial [1 # 2; 1 # 2]%Q [1 # 2; 1 # 2]%Q
       = Some (spec_score [1 # 2; 1 # 2] [1 # 2; 1 # 2]).
Proof.
  eexists. eexists.
  split; [vm_compute; reflexivity|].
  split; [vm_compute; reflexivity|].
  split; [vm_compute; reflexivity|].
  split; [vm_compute; discriminate|].
  split; vm_compute; reflexivity.
Qed.

End ScenarioFacts.

(** ** The entry operations *)

Module EntryFacts.

Import Store Sync Retrieval Pipeline.

Lemma try_catch_returns {A : Type} (body : M A) (handler : string -> A)
    (w : World) :
  exists a w', try_catch body (fun message => ret (handler message)) w
               = (Ok a, w').
Proof.
  unfold try_catch, ret. destruct (body w) as [[a | e] w']; eauto.
Qed.

(** C9.  Whatever the collaborators answer and whichever of their calls
    throw, [queryRepo], [processFiles], [embedFiles] and [ingestBranch]
    return a payload, which is the success object or
    [{ error: { message } }]; none of them throws. *)
Theorem entry_operations_return_payloads :
  forall (fault : nat -> option string)
         (embed_text : nat -> string -> list Q)
         (git_clone : nat -> string -> string) (git_head : nat -> string)
         (git_revparse : nat -> string -> string)
         (git_ls_tree : nat -> string -> list RepositoryFile)
         (fs_exists : nat -> string -> bool)
         (fs_read : nat -> string -> string)
         (recursive_split : string -> string -> list string)
         (createDocuments :
            (string -> list string) -> string -> string -> list string)
         (progressNotifier : bool) (w : World),
    (forall input, exists payload w',
        queryRepo fault embed_text git_clone git_head git_revparse
                  git_ls_tree fs_exists fs_read recursive_split
                  createDocuments input progressNotifier w
        = (Ok payload, w'))
    /\ (forall input, exists payload w',
           processFiles fault git_ls_tree fs_exists fs_read recursive_split
                        createDocuments input progressNotifier w
           = (Ok payload, w'))
    /\ (forall input, exists payload w',
           embedFiles fault embed_text input progressNotifier w
           = (Ok payload, w'))
    /\ (forall input, exists payload w',
           ingestBranch fault git_clone git_head git_revparse input
                        progressNotifier w
           = (Ok payload, w')).
Proof.
  intros. repeat split; intros input.
  - unfold queryRepo. apply try_catch_returns.
  - unfold processFiles. apply try_catch_returns.
  - unfold embedFiles, mbind, emit. apply try_catch_returns.
  - unfold ingestBranch. apply try_catch_returns.
Qed.

(** A failure of the first call to a collaborator, here of the progress
    sink, comes back as an error payload. *)
Example queryRepo_reports_failure :
  fst (queryRepo (fun t => if t =? 0 then Some "sink closed" else None)
         Scenarios.embed_half (fun _ _ => "/repos/x") (fun _ => "main")
         (fun _ _ => "c1") (fun _ _ => []) (fun _ _ => false)
         (fun _ _ => "") Scenarios.one_chunk Scenarios.with_header
         (Some Scenarios.query_input) true
         (mkWorld Scenarios.midway_store 0 []))
  = Ok (Error "Error executing queryRepo tool: sink closed").
Proof. vm_compute. reflexivity. Qed.

(** A failure inside the synchronizer transaction (a second file that
    already holds the path and the new content identifier) rolls the
    transaction back and comes back as an error payload. *)
Example processFiles_reports_constraint :
  let d :=
    mkDB [mkRepository 1 "x" "/repos/x"]
         [mkBranch 1 "main" 1 "c1" BranchPending;
          mkBranch 2 "dev" 1 "c2" BranchPending]
         [mkFile 1 1 "x.ts" "x.ts" "sha1" Fetched;
          mkFile 2 1 "x.ts" "x.ts" "sha2" Fetched]
         [(1, 1); (2, 2)] [] 1 2 2 0 in
  let run :=
    processFiles Scenarios.no_fault
      (fun _ _ => [mkRepositoryFile "x.ts" "x.ts" "sha2"])
      (fun _ _ => true) (fun _ _ => "new") Scenarios.one_chunk
      Scenarios.with_header
      (Some (mkProcessFilesInput "/repos/x" 1 1 "main" true)) false
      (mkWorld d 0 []) in
  fst run
  = Ok (Error "Error executing processFiles tool: UNIQUE constraint failed: file.repository_id, file.path, file.sha")
  /\ (snd run).(store) = d.
Proof. vm_compute. split; reflexivity. Qed.

End EntryFacts.

(* ================================================================== *)
(** * The ranking of the similarity scan and its limit *)
(* ================================================================== *)

Module RankingFacts.

Import Store FilePattern Retrieval RetrievalNotions.

Lemma in_firstn {A : Type} (n : nat) (l : list A) (x : A) :
  In x (firstn n l) -> In x l.
Proof.
  intros H. rewrite <- (firstn_skipn n l). apply in_or_app. now left.
Qed.

Lemma score_geb_trans (a b c : option Q) :
  score_geb a b = true -> score_geb b c = true -> score_geb a c = true.
Proof.
  destruct a as [x|], b as [y|], c as [z|]; cbn; try congruence.
  rewrite !Qle_bool_iff. intros H1 H2. now apply Qle_trans with y.
Qed.

Lemma score_geb_total (a b : option Q) :
  score_geb a b = false -> score_geb b a = true.
Proof.
  destruct a as [x|], b as [y|]; cbn; try congruence.
  intros H. apply Qle_bool_iff. apply Qlt_le_weak, Qnot_le_lt.
  intros Hle. apply Qle_bool_iff in Hle. congruence.
Qed.

Lemma insert_sorted_perm (r : SearchResult) (l : list SearchResult) :
  Permutation (insert_sorted r l) (r :: l).
Proof.
  induction l as [|x l IH]; cbn [insert_sorted]; [reflexivity|].
  destruct (score_geb (similarity x) (similarity r)); [|reflexivity].
  rewrite IH. apply perm_swap.
Qed.

Lemma insert_sorted_ranked (r : SearchResult) (l : list SearchResult) :
  ranked l -> ranked (insert_sorted r l).
Proof.
  unfold ranked. induction l as [|x l IH]; cbn [insert_sorted]; intros Hl.
  - constructor; constructor.
  - inversion Hl as [|? ? Hs Hx]; subst.
    destruct (score_geb (similarity x) (similarity r)) eqn:E.
    + constructor; [now apply IH|].
      apply Forall_forall. intros y Hy.
      apply (Permutation_in _ (insert_sorted_perm r l)) in Hy.
      destruct Hy as [<-|Hy]; [exact E|].
      rewrite Forall_forall in Hx. now apply Hx.
    + constructor; [exact Hl|].
      apply score_geb_total in E. constructor; [exact E|].
      apply Forall_forall. intros y Hy.
      rewrite Forall_forall in Hx.
      eapply score_geb_trans; [exact E | now apply Hx].
Qed.

Lemma order_from (l acc : list SearchResult) :
  ranked acc ->
  ranked (fold_left (fun acc r => insert_sorted r acc) l acc)
  /\ Permutation (fold_left (fun acc r => insert_sorted r acc) l acc)
                 (acc ++ l).
Proof.
  revert acc. induction l as [|r l IH]; intros acc Hacc; cbn [fold_left].
  - rewrite app_nil_r. now split.
  - destruct (IH (insert_sorted r acc) (insert_sorted_ranked r acc Hacc))
      as [Hs Hp].
    split; [exact Hs|]. rewrite Hp, insert_sorted_perm.
    apply Permutation_middle.
Qed.

Lemma order_by_similarity_desc_spec (l : list SearchResult) :
  ranked (order_by_similarity_desc l)
  /\ Permutation (order_by_similarity_desc l) l.
Proof.
  unfold order_by_similarity_desc.
  apply (order_from l []). constructor.
Qed.

Lemma ranking_spec (score : list Q -> list Q -> option Q) (d : DB)
    (queryVector : list Q) (branchId : nat) (condition : list clause) :
  ranked (ranking score d queryVector branchId condition)
  /\ Permutation (ranking score d queryVector branchId condition)
                 (map (row_of score queryVector)
                      (qualifying d branchId condition)).
Proof.
  unfold ranking. fold (qualifying d branchId condition).
  change (map _ (qualifying d branchId condition))
    with (map (row_of score queryVector) (qualifying d branchId condition)).
  apply order_by_similarity_desc_spec.
Qed.

Lemma limited_ok {A : Type} (limit : JsNumber) (rows found : list A) :
  limited limit rows = Ok found ->
  exists z, limit_integer limit = Some z
            /\ found = if (z <? 0)%Z then rows
                       else firstn (Z.to_nat z) rows.
Proof.
  unfold limited. destruct (limit_integer limit) as [z|]; [|discriminate].
  intros [= <-]. now exists z.
Qed.

Lemma limited_fails {A : Type} (limit : JsNumber) (rows : list A)
    (e : string) :
  limited limit rows = Throw e ->
  limit_integer limit = None /\ e = "datatype mismatch".
Proof.
  unfold limited. destruct (limit_integer limit) as [z|]; [discriminate|].
  intros [= <-]. now split.
Qed.

Lemma limited_integer {A : Type} (limit : JsNumber) (z : Z) (rows : list A) :
  limit_integer limit = Some z ->
  limited limit rows
  = Ok (if (z <? 0)%Z then rows else firstn (Z.to_nat z) rows).
Proof. unfold limited. now intros ->. Qed.

Lemma limited_in {A : Type} (limit : JsNumber) (rows found : list A)
    (x : A) :
  limited limit rows = Ok found -> In x found -> In x rows.
Proof.
  intros H Hin. apply limited_ok in H as (z & _ & ->).
  destruct (z <? 0)%Z; [assumption | now apply in_firstn in Hin].
Qed.



Lemma select_similar_in (score : list Q -> list Q -> option Q) (d : DB)
    (queryVector : list Q) (branchId : nat) (condition : list clause)
    (limit : JsNumber) (found : list SearchResult) (r : SearchResult) :
  select_similar score d queryVector branchId condition limit = Ok found ->
  In r found ->
  exists cf, In cf (qualifying d branchId condition)
             /\ r = row_of score queryVector cf.
Proof.
  unfold select_similar. intros H Hin.
  apply (limited_in _ _ _ _ H) in Hin.
  destruct (ranking_spec score d queryVector branchId condition) as [_ Hp].
  apply (Permutation_in _ Hp) in Hin.
  apply in_map_iff in Hin as [cf [<- Hcf]]. now exists cf.
Qed.

End RankingFacts.

(** ** Lazy backfill *)

Module BackfillFacts.

Import Store Sync Retrieval Pipeline FilePattern RetrievalNotions.



Lemma in_branch_chunks (d : DB) (b : nat) (c : ChunkRow) (f : FileRow) :
  In (c, f) (branch_chunks d b)
  <-> In c d.(file_chunk) /\ In f d.(file)
      /\ f.(file_id) = c.(chunk_file_id)
      /\ associated d b f.(file_id) = true.
Proof.
  unfold branch_chunks. rewrite in_flat_map. split.
  - intros (c' & Hc & Hin). apply in_map_iff in Hin as (f' & [= -> ->] & Hf).
    apply filter_In in Hf as [Hf Hcond].
    apply andb_true_iff in Hcond as [Hid Ha]. apply Nat.eqb_eq in Hid. auto.
  - intros (Hc & Hf & Hid & Ha). exists c. split; [assumption|].
    apply in_map_iff. exists f. split; [reflexivity|].
    apply filter_In. split; [assumption|].
    apply andb_true_iff. split; [now apply Nat.eqb_eq | assumption].
Qed.

Lemma in_chunks_without_embedding (d : DB) (b : nat) (c : ChunkRow)
    (f : FileRow) :
  In (c, f) (chunks_without_embedding d b)
  <-> In (c, f) (branch_chunks d b) /\ c.(embedding) = None.
Proof.
  unfold chunks_without_embedding. rewrite filter_In. cbn.
  destruct (embedding c); intuition congruence.
Qed.

Lemma outstanding_chunks_have_association (d : DB) (b : nat) :
  chunks_without_embedding d b <> [] ->
  (count_branch_associations d b =? 0) = false.
Proof.
  intros H. destruct (chunks_without_embedding d b) as [|[c f] l] eqn:Hl;
    [contradiction|].
  assert (Hin : In (c, f) (chunks_without_embedding d b))
    by (rewrite Hl; now left).
  apply in_chunks_without_embedding in Hin as [Hin _].
  apply in_branch_chunks in Hin as (_ & _ & _ & Ha).
  apply SyncStoreFacts.associated_In in Ha.
  apply Nat.eqb_neq. unfold count_branch_associations.
  assert (Hf : In (b, file_id f)
                  (filter (fun a => fst a =? b) (branch_file_association d))).
  { apply filter_In. split; [assumption | apply Nat.eqb_refl]. }
  destruct (filter _ _); [contradiction | discriminate].
Qed.

Lemma untouched_refl (d : DB) : untouched [] d d.
Proof. unfold untouched. auto. Qed.

Lemma untouched_update (ids : list nat) (d0 d : DB) (v : list Q)
    (m : string) (id : nat) :
  untouched ids d0 d ->
  untouched (ids ++ [id]) d0 (update_chunk_embedding v m id d).
Proof.
  intros (Hf & Ha & Hc). unfold untouched, update_chunk_embedding. cbn.
  repeat split; auto.
  - apply in_map_iff in H as (c0 & <- & Hin).
    destruct (chunk_id c0 =? id); [discriminate | now apply Hc].
  - apply in_map_iff in H as (c0 & <- & Hin).
    destruct (chunk_id c0 =? id) eqn:Hid; [discriminate|].
    intros Hids. apply in_app_or in Hids as [Hids | [Heq | []]].
    + now apply (Hc c0).
    + apply Nat.eqb_neq in Hid. congruence.
Qed.

Lemma store_embeddings_untouched :
  forall (batch : list (ChunkRow * FileRow)) (embeddings : list (list Q))
         (ids : list nat) (d0 d : DB),
    List.length embeddings = List.length batch ->
    untouched ids d0 d ->
    exists d',
      store_embeddings batch embeddings d = Ok (tt, d')
      /\ untouched (ids ++ map (fun ce => (fst ce).(chunk_id)) batch) d0 d'.
Proof.
  unfold store_embeddings.
  induction batch as [|ce batch IH]; intros embeddings ids d0 d Hlen Hu.
  - exists d. cbn. rewrite app_nil_r. auto.
  - destruct embeddings as [|v embeddings]; [discriminate|].
    cbn [combine fold_left fst snd].
    destruct (IH embeddings (ids ++ [chunk_id (fst ce)])%list d0
                 (update_chunk_embedding v EMBEDDING_MODEL
                                         (chunk_id (fst ce)) d))
      as (d' & Hrun & Hu').
    + cbn in Hlen. lia.
    + now apply untouched_update.
    + exists d'. injection Hrun as Hrun. rewrite Hrun.
      cbn [map]. rewrite <- app_assoc in Hu'. auto.
Qed.

(** *** The vectors that the backfill writes *)






Section NoFault.

Variable fault : nat -> option string.
Variable embed_text : nat -> string -> list Q.

Hypothesis no_fault : forall t, fault t = None.

















End NoFault.


End BackfillFacts.

(** ** White space and reversal *)

Module TextFacts.

Import JsStringFacts InsertNotions SQLSchemaSplitter.

Lemma rev_string_app (acc s : string) :
  rev_string acc s = rev_string "" s ++ acc.
Proof.
  revert acc. induction s as [|c s IH]; intros acc; cbn.
  - reflexivity.
  - rewrite (IH (String c acc)), (IH (String c "")).
    now rewrite append_assoc.
Qed.

Lemma rev_string_append (a b : string) :
  rev_string "" (a ++ b) = rev_string "" b ++ rev_string "" a.
Proof.
  induction a as [|c a IH]; cbn.
  - now rewrite append_empty_r.
  - rewrite (rev_string_app (String c "")), IH.
    rewrite (rev_string_app (String c "") a). now rewrite append_assoc.
Qed.

Lemma rev_string_involutive (s : string) :
  rev_string "" (rev_string "" s) = s.
Proof.
  induction s as [|c s IH]; cbn; [reflexivity|].
  rewrite (rev_string_app (String c "")), rev_string_append, IH.
  reflexivity.
Qed.

Lemma rev_string_empty (s : string) : rev_string "" s = "" -> s = "".
Proof.
  intros H. rewrite <- (rev_string_involutive s), H. reflexivity.
Qed.

Lemma all_chars_append (p : ascii -> bool) (a b : string) :
  all_chars p (a ++ b) = all_chars p a && all_chars p b.
Proof.
  induction a as [|c a IH]; cbn; [reflexivity|].
  now rewrite IH, andb_assoc.
Qed.

Lemma all_chars_rev (p : ascii -> bool) (s : string) :
  all_chars p (rev_string "" s) = all_chars p s.
Proof.
  induction s as [|c s IH]; cbn; [reflexivity|].
  rewrite (rev_string_app (String c "")), all_chars_append, IH. cbn.
  rewrite andb_true_r. apply andb_comm.
Qed.

Lemma trimStart_spaces (s : string) :
  all_chars is_space s = true -> trimStart s = "".
Proof.
  induction s as [|c s IH]; cbn; [reflexivity|].
  intros H. apply andb_true_iff in H as [Hc Hs]. rewrite Hc. now apply IH.
Qed.

Lemma trimStart_empty (s : string) :
  trimStart s = "" -> all_chars is_space s = true.
Proof.
  induction s as [|c s IH]; cbn; [reflexivity|].
  destruct (is_space c); [exact IH | discriminate].
Qed.

(** [trimStart] stops at the first character that is no white space. *)
Lemma trimStart_stops (lead : string) (c : ascii) (rest : string) :
  all_chars is_space lead = true -> is_space c = false ->
  trimStart (lead ++ String c rest) = String c rest.
Proof.
  intros Hlead Hc. induction lead as [|x lead IH]; cbn.
  - now rewrite Hc.
  - cbn in Hlead. apply andb_true_iff in Hlead as [Hx Hl]. rewrite Hx.
    now apply IH.
Qed.

Lemma trimStart_result (s : string) :
  trimStart s = ""
  \/ exists c rest, trimStart s = String c rest /\ is_space c = false.
Proof.
  induction s as [|c s IH]; cbn; [now left|].
  destruct (is_space c) eqn:Hc; [exact IH | right; eauto].
Qed.

Lemma trimStart_idempotent (s : string) : trimStart (trimStart s) = trimStart s.
Proof.
  destruct (trimStart_result s) as [-> | (c & rest & -> & Hc)];
    [reflexivity | cbn; now rewrite Hc].
Qed.

Lemma trim_empty (s : string) : trim s = "" -> all_chars is_space s = true.
Proof.
  unfold trim, trimEnd. intros H.
  apply rev_string_empty, trimStart_empty in H.
  rewrite all_chars_rev in H.
  destruct (trimStart_result s) as [He | (c & rest & He & Hc)].
  - now apply trimStart_empty.
  - rewrite He in H. cbn in H. now rewrite Hc in H.
Qed.

Lemma trim_spaces (s : string) : all_chars is_space s = true -> trim s = "".
Proof.
  intros H. unfold trim. now rewrite trimStart_spaces.
Qed.

(** A text that ends in a character that is no white space does not trim
    to the empty string. *)
Lemma trim_ends_in_char (s : string) (c : ascii) :
  is_space c = false -> trim (s ++ String c "") <> "".
Proof.
  intros Hc H. apply trim_empty in H. rewrite all_chars_append in H. cbn in H.
  rewrite Hc in H. now rewrite andb_false_r in H.
Qed.

(** What [trimEnd] returns is empty or ends in a character that is no
    white space; [trim] leaves such a text alone when it also starts with
    one. *)
Lemma trimEnd_wrapped (c : ascii) (mid : string) (d : ascii) :
  is_space d = false ->
  trimEnd (String c (mid ++ String d "")) = String c (mid ++ String d "").
Proof.
  intros Hd. unfold trimEnd.
  assert (E : rev_string "" (String c (mid ++ String d ""))
              = String d (rev_string "" (String c mid))).
  { change (String c (mid ++ String d "")) with (String c mid ++ String d "").
    rewrite rev_string_append. reflexivity. }
  rewrite E. cbn [trimStart]. rewrite Hd, <- E.
  apply rev_string_involutive.
Qed.

Lemma trim_wrapped (lead : string) (c : ascii) (mid : string) (d : ascii) :
  all_chars is_space lead = true -> is_space c = false -> is_space d = false ->
  trim (lead ++ String c (mid ++ String d "")) = String c (mid ++ String d "").
Proof.
  intros Hl Hc Hd. unfold trim. rewrite trimStart_stops by assumption.
  now apply trimEnd_wrapped.
Qed.

Lemma trimEnd_idempotent (s : string) : trimEnd (trimEnd s) = trimEnd s.
Proof.
  unfold trimEnd. now rewrite rev_string_involutive, trimStart_idempotent.
Qed.

Lemma trimEnd_keeps_head (c : ascii) (rest : string) :
  is_space c = false ->
  exists rest', trimEnd (String c rest) = String c rest'.
Proof.
  intros Hc. unfold trimEnd.
  change (String c rest) with (String c "" ++ rest).
  rewrite rev_string_append. cbn [rev_string].
  set (r := rev_string "" rest).
  assert (H : exists u, trimStart (r ++ String c "") = u ++ String c "").
  { induction r as [|x r IH]; cbn.
    - rewrite Hc. now exists "".
    - destruct (is_space x); [exact IH | now exists (String x r)]. }
  destruct H as [u ->]. rewrite rev_string_append. cbn. eauto.
Qed.

Lemma trim_idempotent (s : string) : trim (trim s) = trim s.
Proof.
  unfold trim.
  destruct (trimStart_result s) as [-> | (c & rest & -> & Hc)];
    [reflexivity|].
  destruct (trimEnd_keeps_head c rest Hc) as [rest' He].
  rewrite He. cbn [trimStart]. rewrite Hc, <- He.
  apply trimEnd_idempotent.
Qed.

End TextFacts.

(** ** [parseValues] *)

Module ParseValuesFacts.

Import JsStringFacts InsertNotions SQLSchemaSplitter TextFacts.

Lemma plain_char_cases (c : ascii) :
  plain_char c = true ->
  is_quote c = false /\ Ascii.eqb c "\" = false
  /\ Ascii.eqb c "(" = false /\ Ascii.eqb c ")" = false.
Proof.
  unfold plain_char. rewrite !andb_true_iff, !negb_true_iff. tauto.
Qed.

(** Outside a string literal a plain character is copied. *)
Lemma parse_char_plain (c : ascii) (rest : string)
    (vals : list string) (cur : string) (lvl : Z) (sc : option ascii) :
  plain_char c = true ->
  parse_char c rest (mkParse vals cur lvl false sc false)
  = (mkParse vals (cur ++ str c) lvl false sc false, rest).
Proof.
  intros H. apply plain_char_cases in H as (Hq & Hb & Ho & Hc).
  unfold parse_char. cbn. now rewrite Hb, Hq, Ho, Hc.
Qed.

(** Inside a literal every character but the quote and the backslash is
    copied. *)
Lemma parse_char_in_literal (c q : ascii) (rest : string)
    (vals : list string) (cur : string) (lvl : Z) :
  Ascii.eqb c q = false -> Ascii.eqb c "\" = false ->
  parse_char c rest (mkParse vals cur lvl true (Some q) false)
  = (mkParse vals (cur ++ str c) lvl true (Some q) false, rest).
Proof.
  intros Hq Hb. unfold parse_char. cbn. rewrite Hb, Hq.
  destruct (is_quote c); reflexivity.
Qed.

Lemma parse_char_open_literal (q : ascii) (rest : string)
    (vals : list string) (cur : string) (lvl : Z) (sc : option ascii) :
  is_quote q = true ->
  parse_char q rest (mkParse vals cur lvl false sc false)
  = (mkParse vals (cur ++ str q) lvl true (Some q) false, rest).
Proof.
  intros Hq. unfold parse_char. cbn. rewrite Hq.
  destruct (Ascii.eqb q "\") eqn:Hb; [|reflexivity].
  apply Ascii.eqb_eq in Hb. subst q. discriminate Hq.
Qed.

Lemma parse_char_close_literal (q : ascii) (rest : string)
    (vals : list string) (cur : string) (lvl : Z) :
  is_quote q = true ->
  parse_char q rest (mkParse vals cur lvl true (Some q) false)
  = (mkParse vals (cur ++ str q) lvl false (Some q) false, rest).
Proof.
  intros Hq. unfold parse_char. cbn. rewrite Hq, Ascii.eqb_refl.
  destruct (Ascii.eqb q "\") eqn:Hb; [|reflexivity].
  apply Ascii.eqb_eq in Hb. subst q. discriminate Hq.
Qed.

(** The text of a literal, scanned from inside the literal. *)
Lemma parse_loop_literal_text (q : ascii) :
  forall (text rest : string) (fuel : nat) (vals : list string)
         (cur : string) (lvl : Z),
    all_chars (fun c => negb (Ascii.eqb c q) && negb (Ascii.eqb c "\")) text
    = true ->
    String.length (text ++ rest) <= fuel ->
    exists fuel',
      String.length rest <= fuel'
      /\ parse_loop fuel (text ++ rest) (mkParse vals cur lvl true (Some q) false)
         = parse_loop fuel' rest
             (mkParse vals (cur ++ text) lvl true (Some q) false).
Proof.
  induction text as [|c text IH]; intros rest fuel vals cur lvl Hok Hfuel.
  - exists fuel. cbn in *. now rewrite append_empty_r.
  - cbn in Hok. rewrite !andb_true_iff, !negb_true_iff in Hok.
    destruct Hok as [[Hq Hb] Hok].
    destruct fuel as [|fuel]; [cbn in Hfuel; lia|].
    cbn [append parse_loop]. rewrite parse_char_in_literal by assumption.
    destruct (IH rest fuel vals (cur ++ str c) lvl Hok) as [fuel' [Hf Hrun]].
    { cbn in Hfuel. lia. }
    exists fuel'. split; [assumption|]. rewrite Hrun.
    now rewrite append_assoc.
Qed.

(** The body of a tuple, scanned outside any literal. *)
Lemma parse_loop_body :
  forall (body : list Item) (rest : string) (fuel : nat)
         (vals : list string) (cur : string) (lvl : Z) (sc : option ascii),
    forallb item_ok body = true ->
    String.length (body_text body ++ rest) <= fuel ->
    exists fuel' sc',
      String.length rest <= fuel'
      /\ parse_loop fuel (body_text body ++ rest)
                    (mkParse vals cur lvl false sc false)
         = parse_loop fuel' rest
             (mkParse vals (cur ++ body_text body) lvl false sc' false).
Proof.
  induction body as [|i body IH]; intros rest fuel vals cur lvl sc Hok Hfuel.
  - exists fuel, sc. cbn in *. now rewrite append_empty_r.
  - cbn [forallb] in Hok. apply andb_true_iff in Hok as [Hi Hok].
    cbn [body_text] in *. rewrite append_assoc in *.
    destruct i as [c | q text]; cbn [item_ok item_text] in *.
    + destruct fuel as [|fuel]; [cbn in Hfuel; lia|].
      cbn [str append parse_loop]. rewrite parse_char_plain by assumption.
      destruct (IH rest fuel vals (cur ++ str c) lvl sc Hok)
        as (fuel' & sc' & Hf & Hrun).
      { cbn in Hfuel. lia. }
      exists fuel', sc'. split; [assumption|]. rewrite Hrun.
      now rewrite append_assoc.
    + apply andb_true_iff in Hi as [Hq Htext].
      destruct fuel as [|fuel]; [cbn in Hfuel; lia|].
      rewrite !append_assoc in *.
      cbn [str append parse_loop]. rewrite parse_char_open_literal by assumption.
      destruct (parse_loop_literal_text q text
                  (String q (body_text body ++ rest)) fuel vals
                  (cur ++ str q) lvl Htext) as [fuel1 [Hf1 Hrun1]].
      { cbn in Hfuel. cbn. lia. }
      rewrite Hrun1.
      destruct fuel1 as [|fuel1]; [cbn in Hf1; lia|].
      cbn [parse_loop]. rewrite parse_char_close_literal by assumption.
      destruct (IH rest fuel1 vals ((cur ++ str q) ++ text ++ str q) lvl
                   (Some q) Hok) as (fuel' & sc' & Hf & Hrun).
      { cbn in Hf1. lia. }
      exists fuel', sc'. split; [assumption|].
      rewrite ?append_assoc in Hrun. rewrite ?append_assoc.
      exact Hrun.
Qed.

Lemma skip_separators_separator (separator rest : string) :
  all_chars separator_char separator = true ->
  skip_separators (separator ++ rest) = skip_separators rest.
Proof.
  induction separator as [|c s IH]; cbn; [reflexivity|].
  intros H. apply andb_true_iff in H as [Hc Hs].
  unfold separator_char in Hc. rewrite Hc. now apply IH.
Qed.

Lemma skip_separators_length (s : string) :
  String.length (skip_separators s) <= String.length s.
Proof.
  induction s as [|c s IH]; cbn; [lia|].
  destruct (_ || _); cbn; lia.
Qed.

Lemma skip_separators_plain (s : string) :
  all_chars plain_char s = true ->
  all_chars plain_char (skip_separators s) = true.
Proof.
  induction s as [|c s IH]; cbn; [reflexivity|].
  intros H. destruct (_ || _).
  - apply andb_true_iff in H as [_ H]. now apply IH.
  - exact H.
Qed.

(** Plain text adds no tuple. *)
Lemma parse_loop_plain :
  forall (text : string) (fuel : nat) (vals : list string) (cur : string)
         (lvl : Z) (sc : option ascii),
    all_chars plain_char text = true ->
    (parse_loop fuel text (mkParse vals cur lvl false sc false)).(valuesArray)
    = vals.
Proof.
  induction text as [|c text IH]; intros fuel vals cur lvl sc Hok.
  - destruct fuel; reflexivity.
  - cbn in Hok. apply andb_true_iff in Hok as [Hc Hok].
    destruct fuel as [|fuel]; [reflexivity|].
    cbn [parse_loop]. rewrite parse_char_plain by assumption.
    now apply IH.
Qed.

Lemma is_space_plain (s : string) :
  all_chars is_space s = true -> all_chars plain_char s = true.
Proof.
  induction s as [|c s IH]; cbn; [reflexivity|].
  intros H. apply andb_true_iff in H as [Hc Hs]. rewrite IH by assumption.
  rewrite andb_true_r.
  destruct c as [[] [] [] [] [] [] [] []]; try reflexivity; discriminate Hc.
Qed.

Lemma parse_char_open_paren (rest : string) (vals : list string)
    (cur : string) (lvl : Z) (sc : option ascii) :
  parse_char "(" rest (mkParse vals cur lvl false sc false)
  = (mkParse vals (cur ++ "(") (lvl + 1)%Z false sc false, rest).
Proof. reflexivity. Qed.

Lemma parse_char_close_paren (rest : string) (vals : list string)
    (cur : string) (sc : option ascii) :
  parse_char ")" rest (mkParse vals cur 1%Z false sc false)
  = (mkParse (vals ++ [trim (cur ++ ")")])%list "" 0%Z false sc false,
     skip_separators rest).
Proof. reflexivity. Qed.

(** A whole tuple at nesting level 0: it is pushed, trimmed, and the
    separators after it are skipped. *)
Lemma parse_loop_tuple (body : list Item) (rest : string) (fuel : nat)
    (vals : list string) (lead : string) (sc : option ascii) :
  forallb item_ok body = true ->
  all_chars is_space lead = true ->
  String.length (tuple_text body ++ rest) <= fuel ->
  exists fuel' sc',
    String.length (skip_separators rest) <= fuel'
    /\ parse_loop fuel (tuple_text body ++ rest)
                  (mkParse vals lead 0%Z false sc false)
       = parse_loop fuel' (skip_separators rest)
           (mkParse (vals ++ [tuple_text body])%list "" 0%Z false sc' false).
Proof.
  intros Hok Hlead Hfuel. unfold tuple_text in *.
  assert (E : ("(" ++ body_text body ++ ")") ++ rest
              = String "(" (body_text body ++ String ")" rest)).
  { cbn [append]. now rewrite append_assoc. }
  rewrite E in *. clear E.
  destruct fuel as [|fuel]; [cbn in Hfuel; lia|].
  cbn [parse_loop]. rewrite parse_char_open_paren.
  destruct (parse_loop_body body (String ")" rest) fuel vals (lead ++ "(")
              (0 + 1)%Z sc Hok) as (fuel1 & sc1 & Hf1 & Hrun1).
  { cbn [String.length] in Hfuel. lia. }
  rewrite Hrun1.
  destruct fuel1 as [|fuel1]; [cbn in Hf1; lia|].
  cbn [parse_loop]. change (0 + 1)%Z with 1%Z.
  rewrite parse_char_close_paren.
  exists fuel1, sc1. split.
  { pose proof (skip_separators_length rest). cbn in Hf1. lia. }
  rewrite !append_assoc.
  change ("(" ++ body_text body ++ ")")
    with (String "(" (body_text body ++ String ")" "")).
  assert (T : trim (lead ++ String "(" (body_text body ++ String ")" ""))
              = String "(" (body_text body ++ String ")" "")).
  { apply trim_wrapped; [assumption | reflexivity | reflexivity]. }
  change (lead ++ "(" ++ body_text body ++ ")")
    with (lead ++ String "(" (body_text body ++ String ")" "")).
  now rewrite T.
Qed.

Lemma values_text_head (tuples : list (list Item * string)) (tail : string) :
  tuples <> [] ->
  skip_separators (values_text tuples ++ tail) = values_text tuples ++ tail.
Proof.
  destruct tuples as [|[body separator] tuples]; [contradiction|].
  intros _. reflexivity.
Qed.

Lemma parse_loop_values :
  forall (tuples : list (list Item * string)) (tail : string) (fuel : nat)
         (vals : list string) (lead : string) (sc : option ascii),
    forallb tuple_ok tuples = true ->
    all_chars plain_char tail = true ->
    all_chars is_space lead = true ->
    String.length (values_text tuples ++ tail) <= fuel ->
    (parse_loop fuel (values_text tuples ++ tail)
                (mkParse vals lead 0%Z false sc false)).(valuesArray)
    = (vals ++ map (fun t => tuple_text (fst t)) tuples)%list.
Proof.
  induction tuples as [|[body separator] tuples IH];
    intros tail fuel vals lead sc Hok Htail Hlead Hfuel.
  - cbn. rewrite app_nil_r. now apply parse_loop_plain.
  - cbn [forallb] in Hok. apply andb_true_iff in Hok as [Ht Hok].
    unfold tuple_ok in Ht. cbn [fst snd] in Ht.
    apply andb_true_iff in Ht as [Hbody Hsep].
    cbn [values_text] in *. rewrite !append_assoc in *.
    destruct (parse_loop_tuple body (separator ++ values_text tuples ++ tail)
                fuel vals lead sc Hbody Hlead Hfuel)
      as (fuel' & sc' & Hf & Hrun).
    rewrite Hrun. rewrite skip_separators_separator in * by assumption.
    cbn [map fst].
    replace (vals ++ tuple_text body :: map (fun t => tuple_text (fst t)) tuples)%list
      with ((vals ++ [tuple_text body])
            ++ map (fun t => tuple_text (fst t)) tuples)%list
      by (now rewrite <- app_assoc).
    destruct tuples as [|t tuples'].
    + cbn [values_text append map] in *. rewrite app_nil_r.
      apply parse_loop_plain. now apply skip_separators_plain.
    + rewrite values_text_head in * by discriminate.
      now apply IH.
Qed.

(** X1.  [parseValues] gives back the tuples of a VALUES list, in order and
    each whole, whatever separators (commas, spaces, line feeds) stand
    between them: white space before the first tuple is trimmed away,
    parentheses and commas inside a quoted literal do not end a tuple, and
    text after the last tuple that holds no parenthesis, quote or
    backslash (such as the closing semicolon) is dropped. *)
Theorem parseValues_recovers_tuples
    (lead : string) (tuples : list (list Item * string)) (tail : string) :
  all_chars is_space lead = true ->
  forallb tuple_ok tuples = true ->
  all_chars plain_char tail = true ->
  parseValues (lead ++ values_text tuples ++ tail)
  = map (fun t => tuple_text (fst t)) tuples.
Proof.
  intros Hlead Hok Htail. unfold parseValues, parse_init.
  destruct (parse_loop_body (map Plain (list_ascii_of_string lead))
              (values_text tuples ++ tail)
              (String.length (lead ++ values_text tuples ++ tail))
              [] "" 0%Z None) as (fuel' & sc' & Hf & Hrun).
  - apply is_space_plain in Hlead. clear -Hlead.
    induction lead as [|c lead IH]; cbn in *; [reflexivity|].
    apply andb_true_iff in Hlead as [Hc Hl]. now rewrite Hc, IH.
  - assert (E : body_text (map Plain (list_ascii_of_string lead)) = lead).
    { clear. induction lead as [|c lead IH]; cbn; [reflexivity | now rewrite IH]. }
    rewrite E. lia.
  - assert (E : body_text (map Plain (list_ascii_of_string lead)) = lead).
    { clear. induction lead as [|c lead IH]; cbn; [reflexivity | now rewrite IH]. }
    rewrite E in Hrun. rewrite Hrun. cbn [append].
    now rewrite parse_loop_values.
Qed.

Lemma parseValues_recovers_tuples_witness :
  parseValues " ('a)(', 1), (2,'b,c') ON CONFLICT DO NOTHING;"
  = ["('a)(', 1)"; "(2,'b,c')"].
Proof.
  apply (parseValues_recovers_tuples " "
           [([Literal "'" "a)("; Plain ","; Plain " "; Plain "1"], ", ");
            ([Plain "2"; Plain ","; Literal "'" "b,c"], " ")]
           "ON CONFLICT DO NOTHING;"); reflexivity.
Defined.

(** Every tuple [parseValues] returns ends where a closing parenthesis was
    read: none is empty. *)
Lemma parse_char_tuples (c : ascii) (rest : string) (st : ParseState) :
  Forall (fun t => t <> "") st.(valuesArray) ->
  Forall (fun t => t <> "") (fst (parse_char c rest st)).(valuesArray).
Proof.
  intros H. unfold parse_char.
  repeat match goal with
         | |- context [if ?b then _ else _] => destruct b eqn:?
         end; cbn [fst valuesArray]; try assumption.
  apply Forall_app. split; [assumption|]. constructor; [|constructor].
  match goal with H : Ascii.eqb c ")" = true |- _ =>
    apply Ascii.eqb_eq in H; subst c end.
  now apply trim_ends_in_char.
Qed.

Lemma parseValues_tuples_not_empty (valuesPart : string) :
  Forall (fun t => t <> "") (parseValues valuesPart).
Proof.
  unfold parseValues.
  assert (H : forall fuel rest st,
             Forall (fun t => t <> "") st.(valuesArray) ->
             Forall (fun t => t <> "") (parse_loop fuel rest st).(valuesArray)).
  { induction fuel as [|fuel IH]; intros rest st Hst; [assumption|].
    destruct rest as [|c rest]; [assumption|]. cbn [parse_loop].
    pose proof (parse_char_tuples c rest st Hst) as Hstep.
    destruct (parse_char c rest st) as [st' rest']. now apply IH. }
  apply H. constructor.
Qed.

End ParseValuesFacts.

(** ** The budget of [splitInsertStatement] *)

Module InsertBudgetFacts.

Import JsStringFacts InsertNotions SQLSchemaSplitter TextFacts
       InsertSplitFacts ParseValuesFacts.

Section Budget.

Variable maxCharacters : nat.
Variable insertIntoPart : string.

Lemma insert_loop_within :
  forall (tuples : list string) (insertStatements g : list string),
    Forall (fun t => t <> "") tuples ->
    Forall (fun t => t <> "") g ->
    within_budget maxCharacters insertIntoPart g ->
    exists groups g',
      insert_loop maxCharacters insertIntoPart tuples insertStatements
                  (join "," g)
      = ((insertStatements ++ map (render insertIntoPart) groups)%list,
         join "," g')
      /\ Forall (fun t => t <> "") g'
      /\ (List.concat groups ++ g' = g ++ tuples)%list
      /\ Forall (within_budget maxCharacters insertIntoPart) groups
      /\ within_budget maxCharacters insertIntoPart g'
      /\ (g <> [] -> Forall (fun group => group <> []) groups /\ g' <> []).
Proof.
  induction tuples as [|t tuples IH]; intros stmts g Htuples Hg Hw.
  - exists [], g. simpl. rewrite !app_nil_r. repeat split; auto.
  - inversion Htuples as [|? ? Ht Hrest]; subst.
    cbn [insert_loop].
    destruct (_ <=? maxCharacters) eqn:Hfit.
    + apply Nat.leb_le in Hfit.
      destruct (String.eqb (join "," g) "") eqn:Hcur; cbn [negb].
      * apply String.eqb_eq in Hcur. apply join_empty in Hcur; [|assumption].
        subst g.
        destruct (IH stmts [t])
          as (groups & g' & Hloop & Hg' & Hcat & Hws & Hw' & Hne');
          [assumption | now constructor | left; cbn; lia |].
        exists groups, g'. repeat split; auto; contradiction.
      * assert (Hne : g <> []) by (intros ->; discriminate).
        rewrite <- join_snoc by assumption.
        destruct (IH stmts (g ++ [t])%list)
          as (groups & g' & Hloop & Hg' & Hcat & Hws & Hw' & Hne').
        -- assumption.
        -- apply Forall_app; split; [assumption | now constructor].
        -- right. rewrite join_snoc by assumption.
           rewrite !length_append. cbn [String.length]. lia.
        -- exists groups, g'. rewrite <- app_assoc in Hcat.
           repeat split; auto; apply Hne'; now destruct g.
    + destruct (IH (stmts ++ [render insertIntoPart g])%list [t])
        as (groups & g' & Hloop & Hg' & Hcat & Hws & Hw' & Hne');
        [assumption | now constructor | left; cbn; lia |].
      destruct Hne' as [Hgroups Hg'ne]; [discriminate|].
      exists (g :: groups), g'. repeat split.
      * change (join "," [t]) with t in Hloop. unfold render at 1 in Hloop.
        rewrite Hloop. cbn [map]. now rewrite <- app_assoc.
      * assumption.
      * cbn [List.concat]. rewrite <- app_assoc, Hcat. reflexivity.
      * now constructor.
      * assumption.
      * now constructor.
      * assumption.
Qed.

End Budget.

(** X2.  [splitInsertStatement] on a statement that holds VALUES: the
    statements it returns are the INSERT prefix followed by groups of the
    parsed tuples, joined by commas and closed by a semicolon; the groups
    taken together are the parsed tuples, all of them and in order; and a
    statement that holds two tuples or more is at most one character longer
    than the budget. *)
Theorem splitInsertStatement_groups_near_budget
    (maxCharacters : nat) (statement : string) (insertIndex : nat) :
  indexOf (toUpperCase statement) "VALUES" = Some insertIndex ->
  let insertIntoPart := take (insertIndex + 6) statement ++ " " in
  let valuesArray := parseValues (drop (insertIndex + 6) statement) in
  exists groups : list (list string),
    List.concat groups = valuesArray
    /\ splitInsertStatement maxCharacters statement
       = map (render insertIntoPart) groups
    /\ forall g, In g groups -> 2 <= List.length g ->
                 String.length (render insertIntoPart g) <= maxCharacters + 1.
Proof.
  intros Hidx insertIntoPart valuesArray.
  pose proof (parseValues_tuples_not_empty (drop (insertIndex + 6) statement))
    as Hne.
  fold valuesArray in Hne.
  unfold splitInsertStatement. rewrite Hidx.
  change (String.length "VALUES") with 6.
  fold insertIntoPart. fold valuesArray.
  destruct (insert_loop_within maxCharacters insertIntoPart valuesArray [] []
              Hne (Forall_nil _))
    as (groups & g' & Hloop & Hg' & Hcat & Hws & Hw' & _); [left; cbn; lia|].
  change (join "," []) with "" in Hloop. rewrite Hloop.
  cbn [app] in *.
  assert (Hbound : forall g,
             (List.length g <= 1
              \/ String.length insertIntoPart + String.length (join "," g)
                 <= maxCharacters) ->
             2 <= List.length g ->
             String.length (render insertIntoPart g) <= maxCharacters + 1).
  { intros g [Hone | Hfit] Htwo; [lia|].
    unfold render. rewrite !length_append. cbn [String.length]. lia. }
  destruct (String.eqb (join "," g') "") eqn:Hcur; cbn [negb].
  - apply String.eqb_eq, join_empty in Hcur; [|assumption]. subst g'.
    exists groups. rewrite app_nil_r in Hcat. repeat split; auto.
    intros g Hin. apply Hbound.
    rewrite Forall_forall in Hws. now apply Hws.
  - exists (groups ++ [g'])%list. repeat split.
    + rewrite List.concat_app. cbn [List.concat]. now rewrite app_nil_r.
    + rewrite map_app. reflexivity.
    + intros g Hin. apply Hbound. apply in_app_or in Hin as [Hin | [<- | []]].
      * rewrite Forall_forall in Hws. now apply Hws.
      * assumption.
Qed.

Lemma splitInsertStatement_groups_near_budget_witness :
  exists groups : list (list string),
    List.concat groups = ["(1)"; "(2)"; "(3)"]
    /\ splitInsertStatement 28 "INSERT INTO t VALUES (1),(2),(3);"
       = map (render "INSERT INTO t VALUES ") groups
    /\ forall g, In g groups -> 2 <= List.length g ->
                 String.length (render "INSERT INTO t VALUES " g) <= 28 + 1.
Proof.
  exact (splitInsertStatement_groups_near_budget
           28 "INSERT INTO t VALUES (1),(2),(3);" 14 eq_refl).
Defined.

(** X3.  When the first parsed tuple alone does not fit the budget, the
    first statement [splitInsertStatement] returns is the INSERT prefix
    closed by a semicolon, with no tuple in it; the tuple follows in the
    next statement. *)
Theorem oversized_first_tuple_leaves_empty_statement
    (maxCharacters : nat) (statement : string) (insertIndex : nat)
    (first : string) (others : list string) :
  indexOf (toUpperCase statement) "VALUES" = Some insertIndex ->
  let insertIntoPart := take (insertIndex + 6) statement ++ " " in
  parseValues (drop (insertIndex + 6) statement) = first :: others ->
  maxCharacters < String.length insertIntoPart + String.length first + 1 ->
  exists group more,
    splitInsertStatement maxCharacters statement
    = (insertIntoPart ++ ";")
        :: render insertIntoPart (first :: group) :: more.
Proof.
  intros Hidx insertIntoPart Hparse Hbig.
  pose proof (parseValues_tuples_not_empty (drop (insertIndex + 6) statement))
    as Hne.
  rewrite Hparse in Hne. inversion Hne as [|? ? Hfirst Hothers]; subst.
  unfold splitInsertStatement. rewrite Hidx.
  change (String.length "VALUES") with 6.
  fold insertIntoPart. rewrite Hparse.
  cbn [insert_loop String.length].
  replace (String.length insertIntoPart + 0 + String.length first + 1
           <=? maxCharacters) with false
    by (symmetry; apply Nat.leb_gt; lia).
  cbn [app].
  destruct (insert_loop_within maxCharacters insertIntoPart others
              [insertIntoPart ++ "" ++ ";"] [first] Hothers)
    as (groups & g' & Hloop & Hg' & Hcat & _ & _ & Hnonempty);
    [now constructor | left; cbn; lia |].
  destruct Hnonempty as [Hgroups Hg'ne]; [discriminate|].
  change (join "," [first]) with first in Hloop. rewrite Hloop.
  cbn [append app].
  assert (Hcur : String.eqb (join "," g') "" = false).
  { destruct (String.eqb (join "," g') "") eqn:Hcur; [|reflexivity].
    apply String.eqb_eq, join_empty in Hcur; [contradiction | assumption]. }
  rewrite Hcur. cbn [negb app].
  destruct groups as [|g groups].
  - cbn [List.concat app map] in *.
    destruct g' as [|x g']; [contradiction|].
    injection Hcat as -> Hcat.
    exists g', []. reflexivity.
  - inversion Hgroups as [|? ? Hg _]; subst.
    destruct g as [|x g]; [contradiction|].
    cbn [List.concat app map] in *. injection Hcat as -> Hcat.
    eexists g, _. reflexivity.
Qed.

Lemma oversized_first_tuple_leaves_empty_statement_witness :
  exists group more,
    splitInsertStatement 24 "INSERT INTO t VALUES (1),(2);"
    = ("INSERT INTO t VALUES " ++ ";")
        :: render "INSERT INTO t VALUES " ("(1)" :: group) :: more.
Proof.
  refine (oversized_first_tuple_leaves_empty_statement
            24 "INSERT INTO t VALUES (1),(2);" 14 "(1)" ["(2)"]
            eq_refl eq_refl _).
  cbn. lia.
Defined.

End InsertBudgetFacts.

(** ** Splitting a long statement by lines *)

Module LineSplitFacts.

Import JsStringFacts InsertNotions LineNotions SQLSchemaSplitter TextFacts.

Lemma split_lines_acc_line (acc line : string) :
  no_line_feed line = true -> split_lines_acc acc line = [acc ++ line].
Proof.
  revert acc. induction line as [|c line IH]; intros acc H; cbn.
  - now rewrite append_empty_r.
  - cbn in H. apply andb_true_iff in H as [Hc Hl].
    apply negb_true_iff in Hc. rewrite Hc, IH by assumption.
    now rewrite append_assoc.
Qed.

Lemma split_lines_acc_snoc (acc s line : string) :
  no_line_feed line = true ->
  split_lines_acc acc (s ++ String "010" line)
  = (split_lines_acc acc s ++ [line])%list.
Proof.
  intros Hl. revert acc. induction s as [|c s IH]; intros acc; cbn.
  - now rewrite split_lines_acc_line.
  - destruct (Ascii.eqb c "010"); cbn; now rewrite IH.
Qed.

Lemma split_lines_acc_no_line_feed (acc s : string) :
  no_line_feed acc = true ->
  Forall (fun l => no_line_feed l = true) (split_lines_acc acc s).
Proof.
  revert acc. induction s as [|c s IH]; intros acc Hacc; cbn.
  - now constructor.
  - destruct (Ascii.eqb c "010") eqn:Hc.
    + constructor; [assumption | now apply IH].
    + apply IH. unfold no_line_feed in *. rewrite all_chars_append. cbn.
      now rewrite Hacc, Hc.
Qed.

Lemma split_lines_no_line_feed (s : string) :
  Forall (fun l => no_line_feed l = true) (split_lines s).
Proof. now apply split_lines_acc_no_line_feed. Qed.

Section Lines.

Variable maxCharacters : nat.

Lemma kept_push (splits : list string) (currentSplit line : string) :
  no_line_feed line = true ->
  kept_lines (if String.eqb currentSplit "" then splits
        else (splits ++ [currentSplit])%list) line
  = (kept_lines splits currentSplit ++ filter not_empty [line])%list.
Proof.
  intros Hl. unfold kept_lines.
  assert (E : split_lines line = [line])
    by (unfold split_lines; now rewrite split_lines_acc_line).
  destruct (String.eqb currentSplit "") eqn:Hc.
  - apply String.eqb_eq in Hc. subst currentSplit.
    rewrite !flat_map_app, !filter_app. cbn [flat_map]. rewrite E.
    cbn. now rewrite app_nil_r.
  - rewrite !flat_map_app, !filter_app. cbn [flat_map]. rewrite E.
    rewrite !app_nil_r. now rewrite <- app_assoc.
Qed.

Lemma kept_join (splits : list string) (currentSplit line : string) :
  no_line_feed line = true ->
  kept_lines splits
       (currentSplit
        ++ (if String.eqb currentSplit "" then "" else str "010") ++ line)
  = (kept_lines splits currentSplit ++ filter not_empty [line])%list.
Proof.
  intros Hl. unfold kept_lines.
  rewrite !flat_map_app, !filter_app. cbn [flat_map]. rewrite !app_nil_r.
  rewrite <- app_assoc. f_equal.
  destruct (String.eqb currentSplit "") eqn:Hc.
  - apply String.eqb_eq in Hc. subst currentSplit. cbn [append].
    unfold split_lines. rewrite split_lines_acc_line by assumption.
    reflexivity.
  - unfold split_lines. cbn [str append].
    rewrite split_lines_acc_snoc by assumption.
    now rewrite filter_app.
Qed.

Lemma lines_loop_kept :
  forall (lines splits : list string) (currentSplit : string),
    Forall (fun l => no_line_feed l = true) lines ->
    kept_lines (fst (lines_loop maxCharacters lines splits currentSplit))
         (snd (lines_loop maxCharacters lines splits currentSplit))
    = (kept_lines splits currentSplit ++ filter not_empty lines)%list.
Proof.
  induction lines as [|line lines IH]; intros splits cur Hall.
  - cbn. now rewrite app_nil_r.
  - inversion Hall as [|? ? Hl Hrest]; subst.
    cbn [lines_loop].
    destruct (_ <=? maxCharacters).
    + rewrite IH by assumption. rewrite kept_join by assumption.
      rewrite <- app_assoc. f_equal.
      cbn [filter]. now destruct (not_empty line).
    + rewrite IH by assumption. rewrite kept_push by assumption.
      rewrite <- app_assoc. f_equal.
      cbn [filter]. now destruct (not_empty line).
Qed.

Lemma lines_loop_fits (all_lines : list string) :
  forall (lines splits : list string) (currentSplit : string),
    incl lines all_lines ->
    Forall (fits_budget maxCharacters all_lines) splits ->
    currentSplit = "" \/ fits_budget maxCharacters all_lines currentSplit ->
    Forall (fits_budget maxCharacters all_lines)
           (fst (lines_loop maxCharacters lines splits currentSplit))
    /\ (snd (lines_loop maxCharacters lines splits currentSplit) = ""
        \/ fits_budget maxCharacters all_lines
                (snd (lines_loop maxCharacters lines splits currentSplit))).
Proof.
  induction lines as [|line lines IH]; intros splits cur Hincl Hsplits Hcur.
  - cbn. auto.
  - assert (Hline : In line all_lines) by (apply Hincl; now left).
    assert (Hincl' : incl lines all_lines)
      by (intros x Hx; apply Hincl; now right).
    cbn [lines_loop].
    destruct (_ <=? maxCharacters) eqn:Hfit.
    + apply Nat.leb_le in Hfit. apply IH; [assumption | assumption |].
      right. left. rewrite !length_append.
      destruct (String.eqb cur ""); cbn [String.length str]; lia.
    + apply IH; [assumption | | right; now right].
      destruct (String.eqb cur "") eqn:Hc; [assumption|].
      apply Forall_app. split; [assumption|].
      constructor; [|constructor].
      destruct Hcur as [-> | Hcur]; [discriminate Hc | assumption].
Qed.

End Lines.

(** X4.  [splitText] on a statement that is not an INSERT with VALUES:
    the non-empty lines of the pieces are the non-empty lines of the
    statement, all of them and in order.  Only empty lines can be lost
    (those that come first in a piece). *)
Theorem split_statement_keeps_lines (maxCharacters : nat) (statement : string) :
  is_insert statement = false ->
  filter not_empty
         (flat_map split_lines (split_statement maxCharacters statement))
  = filter not_empty (split_lines statement).
Proof.
  intros Hins. unfold split_statement. unfold is_insert in Hins.
  rewrite Hins.
  destruct (String.length statement <=? maxCharacters).
  - cbn [flat_map]. now rewrite app_nil_r.
  - pose proof (lines_loop_kept maxCharacters (split_lines statement) [] ""
                  (split_lines_no_line_feed statement)) as H.
    destruct (lines_loop maxCharacters (split_lines statement) [] "")
      as [splits cur].
    cbn [fst snd] in H. unfold kept_lines in H.
    change (filter not_empty (flat_map split_lines ([] ++ [""])))
      with (@nil string) in H.
    cbn [app] in H.
    destruct (String.eqb cur "") eqn:Hc.
    + apply String.eqb_eq in Hc. subst cur.
      rewrite flat_map_app, filter_app in H. cbn in H.
      now rewrite app_nil_r in H.
    + exact H.
Qed.

Lemma split_statement_keeps_lines_witness :
  filter not_empty
         (flat_map split_lines
            (split_statement 12
               ("CREATE TABLE t (" ++ String "010"
                  ("  a int," ++ String "010" ("" ++ String "010"
                  ("  b int" ++ String "010" ");"))))))
  = ["CREATE TABLE t ("; "  a int,"; "  b int"; ");"].
Proof.
  exact (split_statement_keeps_lines 12
           ("CREATE TABLE t (" ++ String "010"
              ("  a int," ++ String "010" ("" ++ String "010"
              ("  b int" ++ String "010" ");")))) eq_refl).
Defined.

(** X5.  Each piece [splitText] returns for a statement that is not an
    INSERT with VALUES fits the budget, unless it is a single line of the
    statement that is itself too long. *)
Theorem split_statement_budget
    (maxCharacters : nat) (statement piece : string) :
  is_insert statement = false ->
  In piece (split_statement maxCharacters statement) ->
  String.length piece <= maxCharacters \/ In piece (split_lines statement).
Proof.
  intros Hins. unfold split_statement. unfold is_insert in Hins.
  rewrite Hins.
  destruct (String.length statement <=? maxCharacters) eqn:Hlen.
  - intros [<- | []]. left. now apply Nat.leb_le.
  - destruct (lines_loop_fits maxCharacters (split_lines statement)
                (split_lines statement) [] "") as [Hs Hc];
      [apply incl_refl | constructor | now left |].
    destruct (lines_loop maxCharacters (split_lines statement) [] "")
      as [splits cur].
    cbn [fst snd] in *. rewrite Forall_forall in Hs.
    destruct (String.eqb cur "") eqn:Hcur.
    + apply Hs.
    + intros Hin. apply in_app_or in Hin as [Hin | [<- | []]].
      * now apply Hs.
      * destruct Hc as [-> | Hc]; [discriminate Hcur | exact Hc].
Qed.

Lemma split_statement_budget_witness :
  String.length "  a int," <= 12
  \/ In "  a int,"
        (split_lines ("CREATE TABLE t (" ++ String "010" "  a int,")).
Proof.
  apply (split_statement_budget 12
           ("CREATE TABLE t (" ++ String "010" "  a int,") "  a int,").
  - reflexivity.
  - vm_compute. right. left. reflexivity.
Defined.

End LineSplitFacts.

(** ** Statements of the tokenizer, on any text *)

Module StatementFacts.

Import JsStringFacts SQLSchemaSplitter TextFacts TokenizerNotions.

Lemma well_trimmed_trim (s : string) : trim s <> "" -> well_trimmed (trim s).
Proof. intros H. split; [assumption | apply trim_idempotent]. Qed.

Ltac split_cases :=
  repeat match goal with
         | |- context [if ?b then _ else _] => destruct b eqn:?
         | |- context [match ?x with NoComment => _ | _ => _ end] =>
           destruct x eqn:?
         | |- context [match ?x with Some _ => _ | None => _ end] =>
           destruct x eqn:?
         | |- context [match ?x with EmptyString => _ | String _ _ => _ end] =>
           destruct x eqn:?
         end.

(** The first chain never pushes a statement. *)
Lemma lex_chain_statements (char : ascii) (rest remainingText : string)
    (st : TokState) :
  (fst (lex_chain char rest remainingText st)).(statements) = st.(statements).
Proof. unfold lex_chain. split_cases; reflexivity. Qed.

(** At a semicolon the first chain adds nothing to the statement that is
    being collected. *)
Lemma lex_chain_semicolon (rest : string) (st : TokState) :
  (fst (lex_chain ";" (String ";" rest) (toUpperCase (String ";" rest)) st))
    .(currentStatement)
  = st.(currentStatement).
Proof.
  unfold lex_chain.
  change (toUpperCase (String ";" rest)) with (String ";" (toUpperCase rest)).
  cbn [startsWith String.prefix find_keyword find beginKeywords is_quote
       Ascii.eqb Bool.eqb orb andb].
  split_cases; try reflexivity;
    match goal with
    | H : _ = true |- _ => cbn in H; discriminate H
    | H : _ = Some _ |- _ => cbn in H; discriminate H
    end.
Qed.

Lemma end_keyword_tail (remainingText matchedEnd : string) :
  find_keyword endKeywords remainingText = Some matchedEnd ->
  drop 1 matchedEnd = "ND" \/ drop 1 matchedEnd = "EN".
Proof.
  unfold find_keyword. intros H. apply find_some in H as [Hin _].
  destruct Hin as [<- | [<- | []]]; auto.
Qed.

Lemma push_statement_statements (st : TokState) :
  (push_statement st).(statements)
  = (st.(statements) ++ [trim st.(currentStatement)])%list.
Proof. reflexivity. Qed.

(** The second chain pushes a statement at a block end, where the text
    collected ends in the keyword, or at a semicolon. *)
Lemma block_chain_statements (char : ascii) (remainingText : string)
    (st : TokState) :
  Forall well_trimmed st.(statements) ->
  (Ascii.eqb char ";" = true -> trim st.(currentStatement) <> "") ->
  Forall well_trimmed (fst (block_chain char remainingText st)).(statements).
Proof.
  intros Hall Hsemi.
  assert (Hpush : forall s : TokState,
             s.(statements) = st.(statements) ->
             trim s.(currentStatement) <> "" ->
             Forall well_trimmed (push_statement s).(statements)).
  { intros s Hs Hne. rewrite push_statement_statements, Hs.
    apply Forall_app. split; [assumption|].
    constructor; [now apply well_trimmed_trim | constructor]. }
  assert (Hend : forall matchedEnd (s : TokState),
             find_keyword endKeywords remainingText = Some matchedEnd ->
             trim (s.(currentStatement) ++ drop 1 matchedEnd) <> "").
  { intros m s Hm. destruct (end_keyword_tail _ _ Hm) as [-> | ->].
    - change "ND" with ("N" ++ String "D" ""). rewrite <- append_assoc.
      now apply trim_ends_in_char.
    - change "EN" with ("E" ++ String "N" ""). rewrite <- append_assoc.
      now apply trim_ends_in_char. }
  unfold block_chain.
  destruct (inside_compound st).
  - destruct (find_keyword beginKeywords remainingText); [assumption|].
    destruct (find_keyword endKeywords remainingText) as [matchedEnd|] eqn:Hm;
      [|assumption].
    destruct (_ || _); [|assumption].
    cbn [fst].
    repeat match goal with
           | |- context [if ?b then _ else _] => destruct b eqn:?
           end;
      try assumption;
      apply Hpush; try reflexivity; apply (Hend matchedEnd st eq_refl).
  - destruct (insideView st).
    + destruct (Ascii.eqb char ";") eqn:Hc; [|assumption].
      cbn [fst]. apply Hpush; [reflexivity | now apply Hsemi].
    + destruct (Ascii.eqb char ";" && outside_constructs st) eqn:Hc;
        [|assumption].
      apply andb_true_iff in Hc as [Hc _].
      cbn [fst]. apply Hpush; [reflexivity | now apply Hsemi].
Qed.

Lemma tok_step_statements (char : ascii) (rest : string) (st : TokState) :
  Forall well_trimmed st.(statements) ->
  Forall well_trimmed (fst (tok_step char (String char rest) st)).(statements).
Proof.
  intros Hall. unfold tok_step.
  pose proof (lex_chain_statements char (String char rest)
                (toUpperCase (String char rest))
                (append_current (str char) st)) as Hlex.
  pose proof (fun H : Ascii.eqb char ";" = true =>
                lex_chain_semicolon rest (append_current (str ";") st)) as Hsemi.
  destruct (lex_chain char (String char rest) (toUpperCase (String char rest))
              (append_current (str char) st)) as [st1 skipped] eqn:Hchain.
  cbn [fst] in Hlex.
  pose proof (block_chain_statements char (toUpperCase (String char rest)) st1)
    as Hblock.
  destruct (block_chain char (toUpperCase (String char rest)) st1)
    as [st2 moved].
  cbn [fst] in *. apply Hblock.
  - now rewrite Hlex.
  - intros Hc. specialize (Hsemi Hc). apply Ascii.eqb_eq in Hc. subst char.
    rewrite Hchain in Hsemi. cbn [fst] in Hsemi. rewrite Hsemi.
    cbn [append_current set_currentStatement currentStatement].
    now apply trim_ends_in_char.
Qed.

Lemma tok_loop_statements :
  forall (fuel : nat) (rest : string) (st : TokState),
    Forall well_trimmed st.(statements) ->
    Forall well_trimmed (tok_loop fuel rest st).(statements).
Proof.
  induction fuel as [|fuel IH]; intros rest st Hall; [assumption|].
  destruct rest as [|char rest]; [assumption|].
  cbn [tok_loop].
  pose proof (tok_step_statements char rest st Hall) as Hstep.
  destruct (tok_step char (String char rest) st) as [st' advance].
  now apply IH.
Qed.

(** X6.  Whatever the text, no statement [splitSQLStatements] returns is
    empty, and none starts or ends with white space. *)
Theorem splitSQLStatements_well_trimmed (text statement : string) :
  In statement (splitSQLStatements text) ->
  statement <> "" /\ trim statement = statement.
Proof.
  unfold splitSQLStatements.
  pose proof (tok_loop_statements (String.length text) text tok_init
                (Forall_nil _)) as Hall.
  rewrite Forall_forall in Hall.
  destruct (String.eqb (trim (currentStatement _)) "") eqn:Hcur; cbn [negb].
  - apply Hall.
  - intros Hin. apply in_app_or in Hin as [Hin | [<- | []]].
    + now apply Hall.
    + apply well_trimmed_trim. intros H. rewrite H in Hcur. discriminate Hcur.
Qed.

Lemma splitSQLStatements_well_trimmed_witness :
  "SELECT 1 ;" <> "" /\ trim "SELECT 1 ;" = "SELECT 1 ;".
Proof.
  apply (splitSQLStatements_well_trimmed "  SELECT 1 ;  x ").
  vm_compute. left. reflexivity.
Defined.

End StatementFacts.

(** ** The keyword filter *)

Module KeywordFacts.

Import JsStringFacts InsertNotions TextFacts Retrieval.

Lemma includes_empty (s : string) : includes s "" = true.
Proof. destruct s; reflexivity. Qed.

(** X7.  A keyword that is empty or white space only switches the keyword
    filter off: every result is kept, whatever the other keywords are. *)
Theorem blank_keyword_keeps_every_result
    (keywords : list string) (blank : string) (found : list SearchResult) :
  In blank keywords ->
  all_chars is_space blank = true ->
  keyword_filter (Some keywords) found = found.
Proof.
  intros Hin Hblank. unfold keyword_filter.
  destruct keywords as [|k keywords]; [reflexivity|].
  apply forallb_filter_id. apply forallb_forall. intros r _.
  apply existsb_exists. exists "". split.
  - apply in_map_iff. exists blank. split; [|assumption].
    now rewrite trim_spaces.
  - apply includes_empty.
Qed.

Lemma blank_keyword_keeps_every_result_witness :
  keyword_filter (Some ["zzz"; "  "])
                 [mkResult "let x;" "a.js" 1 None]
  = [mkResult "let x;" "a.js" 1 None].
Proof.
  apply (blank_keyword_keeps_every_result ["zzz"; "  "] "  ").
  - right. left. reflexivity.
  - reflexivity.
Defined.

End KeywordFacts.

(** ** Glob patterns and [LIKE] *)

Module GlobFacts.

Import JsStringFacts FilePattern PatternNotions.

Lemma prefix_cons (a b : ascii) (p s : string) :
  String.prefix (String a p) (String b s) = Ascii.eqb a b && String.prefix p s.
Proof.
  cbn [String.prefix]. destruct (ascii_dec a b) as [-> | Hne].
  - now rewrite Ascii.eqb_refl.
  - apply Ascii.eqb_neq in Hne. now rewrite Hne.
Qed.

Lemma prefix_empty (s : string) : String.prefix "" s = true.
Proof. destruct s; reflexivity. Qed.

(** The second replacement, of every star that is left. *)
Lemma replaceAll_star (fuel : nat) (s : string) :
  String.length s <= fuel ->
  replaceAll_fuel fuel s "*" "%" = map_string star_percent s.
Proof.
  revert s. induction fuel as [|fuel IH]; intros s Hlen.
  - destruct s; [reflexivity | cbn in Hlen; lia].
  - destruct s as [|c s]; [reflexivity|].
    cbn [replaceAll_fuel String.length drop map_string]. unfold startsWith.
    rewrite prefix_cons, prefix_empty, andb_true_r.
    rewrite (Ascii.eqb_sym "*" c). unfold star_percent at 1.
    cbn in Hlen.
    destruct (Ascii.eqb c "*"); cbn [append]; rewrite IH by lia; reflexivity.
Qed.

(** The first replacement, of pairs of stars, followed by the second. *)
Lemma replaceAll_pairs (fuel : nat) (s : string) :
  String.length s <= fuel ->
  map_string star_percent (replaceAll_fuel fuel s "**" "%")
  = star_to_percent fuel s.
Proof.
  revert s. induction fuel as [|fuel IH]; intros s Hlen.
  - destruct s; [reflexivity | cbn in Hlen; lia].
  - destruct s as [|c s]; [reflexivity|].
    cbn [replaceAll_fuel star_to_percent]. unfold startsWith.
    cbn in Hlen.
    destruct s as [|d s].
    + cbn [String.prefix]. destruct (ascii_dec "*" c) as [<- | Hne].
      * cbn. destruct fuel; reflexivity.
      * assert (Hc : Ascii.eqb c "*" = false)
          by (apply Ascii.eqb_neq; congruence).
        rewrite Hc. cbn [map_string]. unfold star_percent at 1. rewrite Hc.
        f_equal. destruct fuel; reflexivity.
    + rewrite !prefix_cons, prefix_empty, andb_true_r.
      rewrite (Ascii.eqb_sym "*" c), (Ascii.eqb_sym "*" d).
      cbn in Hlen.
      destruct (Ascii.eqb c "*") eqn:Hc; cbn [andb].
      * destruct (Ascii.eqb d "*") eqn:Hd.
        -- cbn [String.length drop append map_string].
           rewrite IH by lia. reflexivity.
        -- cbn [map_string]. unfold star_percent at 1. rewrite Hc.
           rewrite IH by (cbn; lia). reflexivity.
      * cbn [map_string]. unfold star_percent at 1. rewrite Hc.
        rewrite IH by (cbn; lia). reflexivity.
Qed.

Lemma replaceAll_fuel_length (fuel : nat) (s : string) :
  String.length (replaceAll_fuel fuel s "**" "%") <= String.length s.
Proof.
  revert s. induction fuel as [|fuel IH]; intros s; [cbn; lia|].
  destruct s as [|c s]; [cbn; lia|].
  cbn [replaceAll_fuel]. destruct (startsWith (String c s) "**") eqn:Hp.
  - cbn [String.length drop append].
    destruct s as [|d s].
    { unfold startsWith in Hp. rewrite prefix_cons in Hp. cbn in Hp.
      now rewrite andb_false_r in Hp. }
    cbn [drop String.length]. specialize (IH s). lia.
  - cbn [String.length]. specialize (IH s). lia.
Qed.

Lemma globToSqlPattern_stars (pattern : string) :
  globToSqlPattern pattern = star_to_percent (String.length pattern) pattern.
Proof.
  unfold globToSqlPattern, replaceAll.
  rewrite replaceAll_star by lia.
  now apply replaceAll_pairs.
Qed.

(** ** [LIKE] with a leading ["%"] *)

Lemma like_percent (q s : string) :
  like (String "%" q) s
  = like q s
    || match s with
       | EmptyString => false
       | String _ s' => like (String "%" q) s'
       end.
Proof. destruct s; reflexivity. Qed.

Lemma like_percent_here (q s : string) :
  like q s = true -> like (String "%" q) s = true.
Proof. intros H. rewrite like_percent, H. reflexivity. Qed.

Lemma like_percent_skip (q : string) (c : ascii) (s : string) :
  like (String "%" q) s = true -> like (String "%" q) (String c s) = true.
Proof. intros H. rewrite like_percent, H. apply orb_true_r. Qed.

Lemma like_literal (c : ascii) (q : string) (s : string) :
  like q s = true -> like (String c q) (String c s) = true.
Proof.
  intros H. cbn [like].
  destruct (Ascii.eqb c "%") eqn:Hc.
  - apply Ascii.eqb_eq in Hc. subst c.
    apply like_percent_skip, like_percent_here, H.
  - unfold eq_nocase. now rewrite Ascii.eqb_refl, orb_true_r, H.
Qed.

(** ** The glob *)

Lemma glob_match_literal (f : nat) (c : ascii) (pattern' path : string) :
  Ascii.eqb c "*" = false ->
  glob_match (S f) (String c pattern') path
  = match path with
    | EmptyString => false
    | String x path' => Ascii.eqb c x && glob_match f pattern' path'
    end.
Proof.
  intros H.
  destruct c as [[] [] [] [] [] [] [] []];
    try reflexivity; discriminate H.
Qed.

Lemma glob_match_single (f : nat) (d : ascii) (pattern' path : string) :
  Ascii.eqb d "*" = false ->
  glob_match (S f) (String "*" (String d pattern')) path
  = glob_match f (String d pattern') path
    || match path with
       | EmptyString => false
       | String x path' =>
         negb (Ascii.eqb x "/")
         && glob_match f (String "*" (String d pattern')) path'
       end.
Proof.
  intros H.
  destruct d as [[] [] [] [] [] [] [] []];
    try reflexivity; discriminate H.
Qed.

Lemma glob_match_stars (n : nat) :
  forall (f : nat) (pattern path : string),
    String.length pattern <= n ->
    glob_match f pattern path = true ->
    like (star_to_percent n pattern) path = true.
Proof.
  intros f. revert n. induction f as [|f IH]; intros n pattern path Hn Hg;
    [discriminate Hg|].
  destruct pattern as [|c pattern'].
  - destruct path; [|discriminate Hg]. destruct n; reflexivity.
  - destruct n as [|n]; [cbn in Hn; lia|]. cbn in Hn.
    cbn [star_to_percent].
    destruct (Ascii.eqb c "*") eqn:Hc.
    + apply Ascii.eqb_eq in Hc. subst c.
      destruct pattern' as [|d pattern''].
      * (* a single star at the end *)
        change (glob_match (S f) "*" path)
          with (glob_match f "" path
                || match path with
                   | EmptyString => false
                   | String x path' =>
                     negb (Ascii.eqb x "/") && glob_match f "*" path'
                   end) in Hg.
        apply orb_true_iff in Hg as [Hg | Hg].
        -- apply like_percent_here.
           apply (IH 0) in Hg; [exact Hg | cbn; lia].
        -- destruct path as [|x path']; [discriminate Hg|].
           apply andb_true_iff in Hg as [_ Hg].
           apply like_percent_skip.
           apply (IH 1) in Hg; [exact Hg | cbn; lia].
      * destruct (Ascii.eqb d "*") eqn:Hd.
        -- apply Ascii.eqb_eq in Hd. subst d.
           change (glob_match (S f) (String "*" (String "*" pattern'')) path)
             with (glob_match f pattern'' path
                   || match path with
                      | EmptyString => false
                      | String _ path' =>
                        glob_match f (String "*" (String "*" pattern'')) path'
                      end) in Hg.
           cbn in Hn.
           apply orb_true_iff in Hg as [Hg | Hg].
           ++ apply like_percent_here. apply (IH n) in Hg; [exact Hg | lia].
           ++ destruct path as [|x path']; [discriminate Hg|].
              apply like_percent_skip.
              apply (IH (S n)) in Hg; [|cbn; lia].
              cbn [star_to_percent] in Hg.
              rewrite Ascii.eqb_refl in Hg. exact Hg.
        -- rewrite glob_match_single in Hg by assumption.
           apply orb_true_iff in Hg as [Hg | Hg].
           ++ apply like_percent_here. apply (IH n) in Hg; [exact Hg | lia].
           ++ destruct path as [|x path']; [discriminate Hg|].
              apply andb_true_iff in Hg as [_ Hg].
              apply like_percent_skip.
              apply (IH (S n)) in Hg; [|cbn; cbn in Hn; lia].
              cbn [star_to_percent] in Hg.
              rewrite Ascii.eqb_refl, Hd in Hg. exact Hg.
    + rewrite glob_match_literal in Hg by assumption.
      destruct path as [|x path']; [discriminate Hg|].
      apply andb_true_iff in Hg as [Hx Hg].
      apply Ascii.eqb_eq in Hx. subst x.
      apply like_literal. apply (IH n) in Hg; [exact Hg | lia].
Qed.

(** X8.  A path that a glob pattern matches (["**"] standing for any
    characters, ["*"] for any characters other than ["/"], every other
    character for itself) is matched by the [LIKE] pattern that
    [globToSqlPattern] makes of it: the filter can let more paths through
    than the glob, never fewer. *)
Theorem glob_match_implies_like (pattern path : string) :
  glob_matches pattern path = true ->
  like (globToSqlPattern pattern) path = true.
Proof.
  unfold glob_matches. intros H.
  rewrite globToSqlPattern_stars.
  now apply (glob_match_stars _ _ _ _ (le_n _) H).
Qed.

Lemma glob_match_implies_like_witness :
  like (globToSqlPattern "src/**/*.ts") "src/a/b/c.ts" = true.
Proof.
  apply (glob_match_implies_like "src/**/*.ts" "src/a/b/c.ts").
  vm_compute. reflexivity.
Defined.

End GlobFacts.

(** ** Parsing the listing of a branch *)

Module GitListingFacts.

Import JsStringFacts InsertNotions TextFacts GitListing.

Lemma all_chars_impl (p q : ascii -> bool) (s : string) :
  (forall c, p c = true -> q c = true) ->
  all_chars p s = true -> all_chars q s = true.
Proof.
  intros Hpq. induction s as [|c s IH]; cbn; [reflexivity|].
  intros H. apply andb_true_iff in H as [Hc Hs].
  now rewrite (Hpq c Hc), IH.
Qed.

Lemma split_acc_whole (sep : ascii) (acc a : string) :
  all_chars (fun c => negb (Ascii.eqb c sep)) a = true ->
  split_acc sep acc a = [acc ++ a].
Proof.
  revert acc. induction a as [|c a IH]; intros acc H; cbn.
  - now rewrite append_empty_r.
  - cbn in H. apply andb_true_iff in H as [Hc Ha].
    apply negb_true_iff in Hc. rewrite Hc, IH by assumption.
    now rewrite append_assoc.
Qed.

Lemma split_acc_first (sep : ascii) (acc a b : string) :
  all_chars (fun c => negb (Ascii.eqb c sep)) a = true ->
  split_acc sep acc (a ++ String sep b) = (acc ++ a) :: split_acc sep "" b.
Proof.
  revert acc. induction a as [|c a IH]; intros acc H; cbn.
  - now rewrite Ascii.eqb_refl, append_empty_r.
  - cbn in H. apply andb_true_iff in H as [Hc Ha].
    apply negb_true_iff in Hc. rewrite Hc, IH by assumption.
    now rewrite append_assoc.
Qed.

Lemma split_first (sep : ascii) (a b : string) :
  all_chars (fun c => negb (Ascii.eqb c sep)) a = true ->
  split sep (a ++ String sep b) = a :: split sep b.
Proof. intros H. unfold split. now rewrite split_acc_first. Qed.

Lemma split_whole (sep : ascii) (a : string) :
  all_chars (fun c => negb (Ascii.eqb c sep)) a = true ->
  split sep a = [a].
Proof. intros H. unfold split. now rewrite split_acc_whole. Qed.

Lemma no_space_without (sep : ascii) (s : string) :
  is_space sep = true -> no_space s = true ->
  all_chars (fun c => negb (Ascii.eqb c sep)) s = true.
Proof.
  intros Hsep. apply all_chars_impl. intros c Hc.
  apply negb_true_iff. apply negb_true_iff in Hc.
  destruct (Ascii.eqb c sep) eqn:E; [|reflexivity].
  apply Ascii.eqb_eq in E. subst c. congruence.
Qed.

Section Entry.

Variable e : TreeEntry.
Hypothesis Hok : entry_ok e = true.

Lemma entry_ok_parts :
  no_space e.(te_mode) = true /\ no_space e.(te_type) = true
  /\ no_space e.(te_object) = true /\ e.(te_object) <> ""
  /\ e.(te_file) <> ""
  /\ all_chars (fun c => negb (Ascii.eqb c "009")) e.(te_file) = true
  /\ all_chars (fun c => negb (Ascii.eqb c "010")) e.(te_file) = true.
Proof.
  unfold entry_ok in Hok. rewrite !andb_true_iff, !negb_true_iff in Hok.
  destruct Hok as [[[[[Hm Ht] Ho] Hoe] Hfe] Hf].
  repeat split; try assumption.
  - intros H. rewrite H in Hoe. discriminate Hoe.
  - intros H. rewrite H in Hfe. discriminate Hfe.
  - revert Hf. apply all_chars_impl. intros c Hc.
    now apply andb_true_iff in Hc as [Hc _].
  - revert Hf. apply all_chars_impl. intros c Hc.
    now apply andb_true_iff in Hc as [_ Hc].
Qed.

Lemma entry_line_no_line_feed :
  all_chars (fun c => negb (Ascii.eqb c "010")) (entry_line e) = true.
Proof.
  destruct entry_ok_parts as (Hm & Ht & Ho & _ & _ & _ & Hf).
  unfold entry_line. rewrite !all_chars_append. cbn [all_chars].
  rewrite (no_space_without "010" _ eq_refl Hm),
          (no_space_without "010" _ eq_refl Ht),
          (no_space_without "010" _ eq_refl Ho), Hf.
  reflexivity.
Qed.

Lemma entry_line_not_blank : trim (entry_line e) <> "".
Proof.
  destruct entry_ok_parts as (_ & _ & Ho & Hoe & _).
  intros H. apply trim_empty in H. unfold entry_line in H.
  rewrite !all_chars_append in H. cbn [all_chars] in H.
  rewrite !andb_true_iff in H.
  destruct H as (_ & _ & _ & _ & H & _).
  destruct (te_object e) as [|c o]; [contradiction|].
  cbn in H, Ho. apply andb_true_iff in H as [Hc _].
  apply andb_true_iff in Ho as [Hn _]. rewrite Hc in Hn. discriminate Hn.
Qed.

Lemma parse_entry_line :
  parse_line (entry_line e)
  = Some (mkListedFile e.(te_file) (basename e.(te_file))
                       (Some e.(te_object))).
Proof.
  destruct entry_ok_parts as (Hm & Ht & Ho & _ & Hfe & Hf & _).
  unfold parse_line, entry_line.
  assert (E : te_mode e ++ " " ++ te_type e ++ " " ++ te_object e
              ++ String "009" (te_file e)
              = (te_mode e ++ " " ++ te_type e ++ " " ++ te_object e)
                ++ String "009" (te_file e)).
  { now rewrite !append_assoc. }
  rewrite E. rewrite split_first, split_whole by
    (try assumption; rewrite !all_chars_append; cbn [all_chars];
     now rewrite (no_space_without "009" _ eq_refl Hm),
                 (no_space_without "009" _ eq_refl Ht),
                 (no_space_without "009" _ eq_refl Ho)).
  destruct (String.eqb (te_file e) "") eqn:Hf0;
    [apply String.eqb_eq in Hf0; contradiction|].
  change (" " ++ te_type e ++ " " ++ te_object e)
    with (String " " (te_type e ++ String " " (te_object e))).
  rewrite split_first by now apply (no_space_without " " _ eq_refl).
  rewrite split_first by now apply (no_space_without " " _ eq_refl).
  rewrite split_whole by now apply (no_space_without " " _ eq_refl).
  reflexivity.
Qed.

End Entry.

(** X9.  [getRepositoryFiles] reads the output of [git ls-tree -r] back:
    for lines of the form [<mode> SP <type> SP <object> TAB <file>], each
    ended by a line feed, it returns one file per line, in order, with the
    path and the object name of the line and the last path segment as
    name. *)
Theorem parse_ls_tree_round_trip (entries : list TreeEntry) :
  forallb entry_ok entries = true ->
  parse_ls_tree (listing_text entries)
  = map (fun e => mkListedFile e.(te_file) (basename e.(te_file))
                               (Some e.(te_object)))
        entries.
Proof.
  unfold parse_ls_tree.
  induction entries as [|e entries IH]; intros Hall; [reflexivity|].
  cbn [forallb] in Hall. apply andb_true_iff in Hall as [He Hall].
  cbn [listing_text map].
  rewrite split_first by now apply entry_line_no_line_feed.
  cbn [filter].
  destruct (String.eqb (trim (entry_line e)) "") eqn:Hb.
  { apply String.eqb_eq in Hb. now apply entry_line_not_blank in Hb. }
  cbn [negb flat_map]. rewrite parse_entry_line by assumption.
  cbn [app]. f_equal. now apply IH.
Qed.

Lemma parse_ls_tree_round_trip_witness :
  parse_ls_tree
    ("100644 blob 3b18e512dba79e4c8300dd08aeb37f8e728b8dad"
     ++ String "009" ("src/index.ts" ++ String "010"
    ("100755 blob 9daeafb9864cf43055ae93beb0afd6c7d144bfa4"
     ++ String "009" ("run me.sh" ++ String "010" ""))))
  = [mkListedFile "src/index.ts" "index.ts"
       (Some "3b18e512dba79e4c8300dd08aeb37f8e728b8dad");
     mkListedFile "run me.sh" "run me.sh"
       (Some "9daeafb9864cf43055ae93beb0afd6c7d144bfa4")].
Proof.
  apply (parse_ls_tree_round_trip
           [mkTreeEntry "100644" "blob"
              "3b18e512dba79e4c8300dd08aeb37f8e728b8dad" "src/index.ts";
            mkTreeEntry "100755" "blob"
              "9daeafb9864cf43055ae93beb0afd6c7d144bfa4" "run me.sh"]).
  reflexivity.
Defined.

(** ** What is never listed *)

Lemma split_acc_parts (sep : ascii) (acc s part : string) :
  all_chars (fun c => negb (Ascii.eqb c sep)) acc = true ->
  In part (split_acc sep acc s) ->
  all_chars (fun c => negb (Ascii.eqb c sep)) part = true.
Proof.
  revert acc. induction s as [|c s IH]; intros acc Hacc; cbn.
  - intros [<- | []]. assumption.
  - destruct (Ascii.eqb c sep) eqn:Hc.
    + intros [<- | Hin]; [assumption | now apply (IH "")].
    + apply IH. rewrite all_chars_append. cbn. now rewrite Hacc, Hc.
Qed.

Lemma split_parts (sep : ascii) (s part : string) :
  In part (split sep s) ->
  all_chars (fun c => negb (Ascii.eqb c sep)) part = true.
Proof. now apply split_acc_parts. Qed.

Lemma split_acc_parts_of (sep other : ascii) (acc s part : string) :
  all_chars (fun c => negb (Ascii.eqb c other)) acc = true ->
  all_chars (fun c => negb (Ascii.eqb c other)) s = true ->
  In part (split_acc sep acc s) ->
  all_chars (fun c => negb (Ascii.eqb c other)) part = true.
Proof.
  revert acc. induction s as [|c s IH]; intros acc Hacc Hs; cbn.
  - intros [<- | []]. assumption.
  - cbn in Hs. apply andb_true_iff in Hs as [Hc Hs].
    destruct (Ascii.eqb c sep).
    + intros [<- | Hin]; [assumption | now apply (IH "")].
    + apply IH; [|assumption]. rewrite all_chars_append. cbn.
      now rewrite Hacc, Hc.
Qed.

(** X10.  Whatever the output of [git ls-tree] is, the path of a file that
    [getRepositoryFiles] returns is not empty and holds neither a tab nor
    a line feed (a path is cut at its first tab), and the name is the last
    segment of the path. *)
Theorem parse_ls_tree_paths (stdout : string) (f : ListedFile) :
  In f (parse_ls_tree stdout) ->
  f.(lf_path) <> ""
  /\ all_chars (fun c => negb (Ascii.eqb c "009")) f.(lf_path) = true
  /\ all_chars (fun c => negb (Ascii.eqb c "010")) f.(lf_path) = true
  /\ f.(lf_name) = basename f.(lf_path).
Proof.
  unfold parse_ls_tree. intros Hin.
  apply in_flat_map in Hin as (line & Hline & Hin).
  apply filter_In in Hline as [Hline _].
  apply split_parts in Hline.
  unfold parse_line in Hin.
  destruct (split "009" line) as [|info [|filePath more]] eqn:Hsplit;
    try contradiction.
  destruct (String.eqb filePath "") eqn:Hempty; [contradiction|].
  destruct Hin as [<- | []]. cbn [lf_path lf_name].
  assert (Hpart : In filePath (split "009" line))
    by (rewrite Hsplit; right; now left).
  repeat split.
  - intros H. rewrite H in Hempty. discriminate Hempty.
  - now apply (split_parts "009" line).
  - unfold split in Hpart.
    now apply (split_acc_parts_of "009" "010" "" line).
Qed.

Lemma parse_ls_tree_paths_witness :
  "a" <> ""
  /\ all_chars (fun c => negb (Ascii.eqb c "009")) "a" = true
  /\ all_chars (fun c => negb (Ascii.eqb c "010")) "a" = true
  /\ "a" = basename "a".
Proof.
  apply (parse_ls_tree_paths
           ("100644 blob 3b18" ++ String "009" ("a" ++ String "009" "b"))
           (mkListedFile "a" "a" (Some "3b18"))).
  vm_compute. left. reflexivity.
Defined.

End GitListingFacts.

(** ** The content hash of the older indexer *)

Module FileHashFacts.

Import FileHash.

Local Open Scope Z_scope.

Lemma to_int32_shift (x k : Z) : to_int32 (x + k * 2 ^ 32) = to_int32 x.
Proof.
  unfold to_int32.
  replace (x + k * 2 ^ 32 + 2 ^ 31) with (x + 2 ^ 31 + k * 2 ^ 32) by ring.
  now rewrite Z_mod_plus_full.
Qed.

Lemma to_int32_repr (x : Z) : exists k, to_int32 x = x + k * 2 ^ 32.
Proof.
  exists (- ((x + 2 ^ 31) / 2 ^ 32)). unfold to_int32.
  rewrite Zmod_eq_full by lia. ring.
Qed.

Lemma to_int32_range (x : Z) : - 2 ^ 31 <= to_int32 x < 2 ^ 31.
Proof.
  unfold to_int32.
  pose proof (Z.mod_pos_bound (x + 2 ^ 31) (2 ^ 32) ltac:(lia)). lia.
Qed.

Lemma hash_step_polynomial (acc : Z) (c : ascii) :
  hash_step (to_int32 acc) c
  = to_int32 (31 * acc + Z.of_nat (nat_of_ascii c)).
Proof.
  unfold hash_step, shift_left_5. rewrite Z.land_diag.
  rewrite Z.shiftl_mul_pow2 by lia.
  destruct (to_int32_repr acc) as [k Hk].
  destruct (to_int32_repr (to_int32 acc)) as [k1 Hk1].
  destruct (to_int32_repr (to_int32 (to_int32 acc) * 2 ^ 5)) as [k2 Hk2].
  rewrite Hk2, Hk1, Hk.
  replace ((acc + k * 2 ^ 32 + k1 * 2 ^ 32) * 2 ^ 5 + k2 * 2 ^ 32
           - (acc + k * 2 ^ 32) + Z.of_nat (nat_of_ascii c))
    with (31 * acc + Z.of_nat (nat_of_ascii c)
          + (32 * k + 32 * k1 + k2 - k) * 2 ^ 32) by ring.
  apply to_int32_shift.
Qed.

Lemma hash_loop_polynomial (content : string) (acc : Z) :
  hash_loop content (to_int32 acc) = to_int32 (polynomial content acc).
Proof.
  revert acc. induction content as [|c content IH]; intros acc; cbn.
  - reflexivity.
  - rewrite hash_step_polynomial. apply IH.
Qed.

(** X11.  The number [getFileHash] turns into base 16 is the polynomial
    in 31 over the character codes of the content, reduced to a signed
    32-bit integer: for the codes [c0 .. cn] it is
    [c0 * 31^n + .. + cn] modulo [2^32], between [-2^31] and [2^31 - 1]. *)
Theorem getFileHash_is_polynomial_hash (content : string) :
  hash_loop content 0 = to_int32 (polynomial content 0)
  /\ - 2 ^ 31 <= hash_loop content 0 < 2 ^ 31
  /\ getFileHash content
     = NilZero.string_of_int
         (Z.to_hex_int (to_int32 (polynomial content 0))).
Proof.
  assert (H : hash_loop content 0 = to_int32 (polynomial content 0)).
  { change 0 with (to_int32 0) at 1. apply hash_loop_polynomial. }
  split; [assumption|]. split.
  - rewrite H. apply to_int32_range.
  - unfold getFileHash. now rewrite H.
Qed.

End FileHashFacts.

(** ** What every run of an operation respects *)

Module StepFacts.

Import Store Sync Retrieval Pipeline PipelineNotions.

Section Respect.

Variable R : World -> World -> Prop.
Hypothesis R_refl : forall w, R w w.
Hypothesis R_trans : forall a b c, R a b -> R b c -> R a c.

Lemma respects_ret {A : Type} (a : A) : respects R (ret a).
Proof. intros w. apply R_refl. Qed.

Lemma respects_throw {A : Type} (message : string) :
  respects R (@throw A message).
Proof. intros w. apply R_refl. Qed.

Lemma respects_mbind {A B : Type} (m : M A) (k : A -> M B) :
  respects R m -> (forall a, respects R (k a)) -> respects R (mbind m k).
Proof.
  intros Hm Hk w. unfold mbind. specialize (Hm w).
  destruct (m w) as [[a | e] w1]; cbn [snd] in *.
  - apply (R_trans _ _ _ Hm). apply Hk.
  - exact Hm.
Qed.

Lemma respects_try_catch {A : Type} (body : M A) (handler : string -> M A) :
  respects R body -> (forall e, respects R (handler e)) ->
  respects R (try_catch body handler).
Proof.
  intros Hb Hh w. unfold try_catch. specialize (Hb w).
  destruct (body w) as [[a | e] w1]; cbn [snd] in *.
  - exact Hb.
  - apply (R_trans _ _ _ Hb). apply Hh.
Qed.

Lemma respects_for_each {A : Type} (body : A -> M unit) (l : list A) :
  (forall a, In a l -> respects R (body a)) -> respects R (for_each body l).
Proof.
  induction l as [|a l IH]; intros H; cbn [for_each].
  - apply respects_ret.
  - apply respects_mbind.
    + apply H. now left.
    + intros _. apply IH. intros b Hb. apply H. now right.
Qed.

End Respect.

(** *** Relations on the store *)

Section StoreRelation.

Variable fault : nat -> option string.
Variable S : DB -> DB -> Prop.
Hypothesis S_refl : forall d, S d d.

Lemma respects_collab {A : Type} (f : nat -> DB -> Outcome (A * DB)) :
  (forall t d a d', f t d = Ok (a, d') -> S d d') ->
  respects (on_store S) (collab fault f).
Proof.
  intros Hf w. unfold collab, on_store.
  destruct (fault (clock w)); cbn; [apply S_refl|].
  destruct (f (clock w) (store w)) as [[a d'] | e] eqn:Hrun; cbn.
  - now apply (Hf _ _ _ _ Hrun).
  - apply S_refl.
Qed.

Lemma respects_db_query {A : Type} (q : DB -> A) :
  respects (on_store S) (db_query fault q).
Proof.
  apply respects_collab. intros t d a d' [= _ <-]. apply S_refl.
Qed.

Lemma respects_external {A : Type} (f : nat -> A) :
  respects (on_store S) (external fault f).
Proof.
  apply respects_collab. intros t d a d' [= _ <-]. apply S_refl.
Qed.

Lemma respects_db_run (stmt : DB -> DB) :
  (forall d, S d (stmt d)) -> respects (on_store S) (db_run fault stmt).
Proof.
  intros H. apply respects_collab. intros t d a d' [= _ <-]. apply H.
Qed.

Lemma respects_transaction {A : Type} (body : DB -> Outcome (A * DB)) :
  (forall d a d', body d = Ok (a, d') -> S d d') ->
  respects (on_store S) (transaction fault body).
Proof.
  intros H. apply respects_collab. intros t d a d'. apply H.
Qed.

Lemma respects_emit (e : Event) : respects (on_store S) (emit e).
Proof. intros w. apply S_refl. Qed.

Lemma on_store_refl (w : World) : on_store S w w.
Proof. apply S_refl. Qed.

Lemma on_store_trans :
  (forall a b c, S a b -> S b c -> S a c) ->
  forall a b c, on_store S a b -> on_store S b c -> on_store S a c.
Proof. intros H a b c. apply H. Qed.

End StoreRelation.

(** *** Relations on the observed calls *)

Section TraceRelation.

Variable fault : nat -> option string.
Variable T : list Event -> list Event -> Prop.
Hypothesis T_refl : forall tr, T tr tr.

Lemma traces_collab {A : Type} (f : nat -> DB -> Outcome (A * DB)) :
  respects (on_trace T) (collab fault f).
Proof.
  intros w. unfold collab, on_trace.
  destruct (fault (clock w)); cbn; [apply T_refl|].
  destruct (f (clock w) (store w)) as [[a d'] | e]; cbn; apply T_refl.
Qed.

Lemma traces_emit (e : Event) :
  (forall tr, T tr (tr ++ [e])) -> respects (on_trace T) (emit e).
Proof. intros H w. apply H. Qed.

Lemma on_trace_refl (w : World) : on_trace T w w.
Proof. apply T_refl. Qed.

Lemma on_trace_trans :
  (forall a b c, T a b -> T b c -> T a c) ->
  forall a b c, on_trace T a b -> on_trace T b c -> on_trace T a c.
Proof. intros H a b c. apply H. Qed.

End TraceRelation.

End StepFacts.

(** ** What [embedFiles] and [processFileContents] leave alone *)

Module LeaveAloneFacts.

Import Store Sync Retrieval Pipeline PipelineNotions StepFacts.

(** *** [embedFiles] *)

Lemma only_embeddings_refl (d : DB) : only_embeddings d d.
Proof. unfold only_embeddings. auto. Qed.

Lemma only_embeddings_trans (a b c : DB) :
  only_embeddings a b -> only_embeddings b c -> only_embeddings a c.
Proof.
  unfold only_embeddings.
  intros (H1 & H2 & H3 & H4 & H5) (K1 & K2 & K3 & K4 & K5).
  repeat split; congruence.
Qed.

Lemma update_chunk_embedding_only (v : list Q) (m : string) (id : nat)
    (d : DB) :
  only_embeddings d (update_chunk_embedding v m id d).
Proof.
  unfold only_embeddings, update_chunk_embedding. cbn.
  repeat split. rewrite map_map. apply map_ext.
  intros c. now destruct (chunk_id c =? id).
Qed.

Lemma update_branch_status_only (s : BranchStatus) (b : nat) (d : DB) :
  only_embeddings d (update_branch_status s b d).
Proof.
  unfold only_embeddings, update_branch_status. cbn.
  repeat split. rewrite map_map. apply map_ext.
  intros r. now destruct (branch_id r =? b).
Qed.

Lemma store_embeddings_only (batch : list (ChunkRow * FileRow))
    (embeddings : list (list Q)) (d : DB) (a : unit) (d' : DB) :
  store_embeddings batch embeddings d = Ok (a, d') -> only_embeddings d d'.
Proof.
  unfold store_embeddings. intros [= _ <-].
  generalize (combine batch embeddings). intros l. revert d.
  induction l as [|ce l IH]; intros d; cbn [fold_left].
  - apply only_embeddings_refl.
  - eapply only_embeddings_trans; [|apply IH].
    apply update_chunk_embedding_only.
Qed.

Section AnyCollaborators.

Variable fault : nat -> option string.
Variable embed_text : nat -> string -> list Q.
Variable fs_exists : nat -> string -> bool.
Variable fs_read : nat -> string -> string.
Variable recursive_split : string -> string -> list string.
Variable createDocuments :
  (string -> list string) -> string -> string -> list string.

Lemma embeddings_refl (w : World) : on_store only_embeddings w w.
Proof. apply on_store_refl, only_embeddings_refl. Qed.

Lemma embeddings_trans (a b c : World) :
  on_store only_embeddings a b -> on_store only_embeddings b c ->
  on_store only_embeddings a c.
Proof. apply on_store_trans, only_embeddings_trans. Qed.

Lemma sendProgress_only_embeddings (notifier : bool) (fraction : Q) :
  respects (on_store only_embeddings) (sendProgress fault notifier fraction).
Proof.
  unfold sendProgress. destruct notifier.
  - apply (respects_mbind _ embeddings_trans).
    + apply respects_emit, only_embeddings_refl.
    + intros _. apply respects_external, only_embeddings_refl.
  - apply (respects_ret _ embeddings_refl).
Qed.

Lemma generate_only_embeddings (texts : list string) :
  respects (on_store only_embeddings) (generateOllamaEmbeddings fault embed_text texts).
Proof.
  unfold generateOllamaEmbeddings.
  apply (respects_mbind _ embeddings_trans).
  - apply respects_emit, only_embeddings_refl.
  - intros _. apply respects_external, only_embeddings_refl.
Qed.

Lemma embed_batches_only_embeddings :
  forall (fuel : nat) (notifier : bool) (total : nat)
         (remaining : list (ChunkRow * FileRow)) (processed : nat),
    respects (on_store only_embeddings) (embed_batches fault embed_text fuel notifier total
                              remaining processed).
Proof.
  induction fuel as [|fuel IH]; intros notifier total remaining processed.
  - apply (respects_ret _ embeddings_refl).
  - destruct remaining as [|ce rest]; [apply (respects_ret _ embeddings_refl)|].
    cbn [embed_batches].
    apply (respects_mbind _ embeddings_trans);
      [apply generate_only_embeddings|].
    intros embeddings.
    apply (respects_mbind _ embeddings_trans).
    { apply respects_transaction; [apply only_embeddings_refl|].
      intros d a d'. apply store_embeddings_only. }
    intros _.
    apply (respects_mbind _ embeddings_trans);
      [apply sendProgress_only_embeddings|].
    intros _. apply IH.
Qed.

(** X12.  Whatever the collaborators answer and whichever of their calls
    fail, [embedFiles] writes nothing but vectors and model versions of
    chunks and statuses of branches: repositories, files and associations
    are as before, and so are the chunks in number, order, file, ordinal
    and content. *)
Theorem embedFiles_writes_only_embeddings
    (input : option EmbedFilesInput) (notifier : bool) (w : World) :
  only_embeddings
    w.(store) (snd (embedFiles fault embed_text input notifier w)).(store).
Proof.
  revert w. change (respects (on_store only_embeddings) (embedFiles fault embed_text input notifier)).
  unfold embedFiles.
  apply (respects_mbind _ embeddings_trans);
    [apply respects_emit, only_embeddings_refl|].
  intros _. apply (respects_try_catch _ embeddings_trans);
    [|intros e; apply (respects_ret _ embeddings_refl)].
  destruct input as [input|]; [|apply (respects_ret _ embeddings_refl)].
  apply (respects_mbind _ embeddings_trans);
    [apply respects_db_query, only_embeddings_refl|].
  intros [row|]; [|apply (respects_ret _ embeddings_refl)].
  apply (respects_mbind _ embeddings_trans);
    [apply respects_db_query, only_embeddings_refl|].
  intros fileCount.
  assert (Hstatus : respects (on_store only_embeddings)
            (db_run fault
               (update_branch_status EmbeddingsGenerated (ef_branchId input)))).
  { apply respects_db_run; [apply only_embeddings_refl|].
    intros d. apply update_branch_status_only. }
  destruct (fileCount =? 0).
  - apply (respects_mbind _ embeddings_trans); [exact Hstatus|].
    intros _. apply (respects_ret _ embeddings_refl).
  - apply (respects_mbind _ embeddings_trans);
      [apply respects_db_query, only_embeddings_refl|].
    intros [|ce chunks].
    + apply (respects_mbind _ embeddings_trans); [exact Hstatus|].
      intros _. apply (respects_mbind _ embeddings_trans);
        [apply sendProgress_only_embeddings|].
      intros _. apply (respects_ret _ embeddings_refl).
    + apply (respects_mbind _ embeddings_trans);
        [apply embed_batches_only_embeddings|].
      intros n. apply (respects_mbind _ embeddings_trans); [exact Hstatus|].
      intros _. apply (respects_ret _ embeddings_refl).
Qed.

(** *** [processFileContents] *)

Lemma only_new_chunks_refl (d : DB) : only_new_chunks d d.
Proof.
  unfold only_new_chunks. repeat split; try reflexivity.
  exists []. now rewrite app_nil_r.
Qed.

Lemma only_new_chunks_trans (a b c : DB) :
  only_new_chunks a b -> only_new_chunks b c -> only_new_chunks a c.
Proof.
  unfold only_new_chunks.
  intros (H1 & H2 & H3 & H4 & m1 & H5 & H6) (K1 & K2 & K3 & K4 & m2 & K5 & K6).
  repeat split; try congruence.
  exists (m1 ++ m2)%list. split.
  - rewrite K5, H5. now rewrite app_assoc.
  - apply Forall_app. now split.
Qed.

Lemma insert_chunk_or_ignore_only (fileId : nat) (content : string)
    (chunkNumber : nat) (d d' : DB) :
  insert_chunk_or_ignore fileId content chunkNumber d = Ok d' ->
  only_new_chunks d d'.
Proof.
  unfold insert_chunk_or_ignore.
  destruct (existsb _ _).
  - intros [= <-]. apply only_new_chunks_refl.
  - destruct (negb _); [discriminate|]. intros [= <-].
    unfold only_new_chunks. cbn. repeat split.
    eexists. split; [reflexivity|]. now repeat constructor.
Qed.

Lemma insert_chunks_only (fileId : nat) :
  forall (chunks : list string) (i : nat) (d d' : DB),
    insert_chunks fileId chunks i d = Ok d' -> only_new_chunks d d'.
Proof.
  induction chunks as [|c chunks IH]; intros i d d'; cbn [insert_chunks].
  - intros [= <-]. apply only_new_chunks_refl.
  - unfold Sync.bind.
    destruct (insert_chunk_or_ignore fileId c (i + 1) d) as [d1|e] eqn:H1;
      [|discriminate].
    intros H2. eapply only_new_chunks_trans.
    + eapply insert_chunk_or_ignore_only, H1.
    + eapply IH, H2.
Qed.

Lemma update_file_status_only (s : FileStatus) (fileId : nat) (d : DB) :
  only_new_chunks d (update_file_status s fileId d).
Proof.
  unfold only_new_chunks, update_file_status. cbn. repeat split.
  - rewrite map_map. apply map_ext. intros f.
    now destruct (file_id f =? fileId).
  - exists []. now rewrite app_nil_r.
Qed.

Lemma store_chunks_only (fileId : nat) (chunks : list string) (d : DB)
    (a : unit) (d' : DB) :
  store_chunks fileId chunks d = Ok (a, d') -> only_new_chunks d d'.
Proof.
  unfold store_chunks, Sync.bind.
  destruct (insert_chunks fileId chunks 0 d) as [d1|e] eqn:H1; [|discriminate].
  intros [= _ <-]. eapply only_new_chunks_trans.
  - eapply insert_chunks_only, H1.
  - apply update_file_status_only.
Qed.

Lemma new_chunks_refl (w : World) : on_store only_new_chunks w w.
Proof. apply on_store_refl, only_new_chunks_refl. Qed.

Lemma new_chunks_trans (a b c : World) :
  on_store only_new_chunks a b -> on_store only_new_chunks b c ->
  on_store only_new_chunks a c.
Proof. apply on_store_trans, only_new_chunks_trans. Qed.

Lemma process_pending_file_only (repoPath : string) (f : FileRow) :
  respects (on_store only_new_chunks) (process_pending_file fault fs_exists fs_read recursive_split
                                   createDocuments repoPath f).
Proof.
  unfold process_pending_file.
  destruct (negb _).
  - apply (respects_try_catch _ new_chunks_trans);
      [|intros e; apply (respects_ret _ new_chunks_refl)].
    apply (respects_mbind _ new_chunks_trans);
      [apply respects_external, only_new_chunks_refl|].
    intros present. destruct (negb present);
      [apply (respects_ret _ new_chunks_refl)|].
    apply (respects_mbind _ new_chunks_trans);
      [apply respects_external, only_new_chunks_refl|].
    intros content.
    apply (respects_mbind _ new_chunks_trans);
      [apply respects_external, only_new_chunks_refl|].
    intros chunks.
    apply respects_transaction; [apply only_new_chunks_refl|].
    intros d a d'. apply store_chunks_only.
  - apply respects_db_run; [apply only_new_chunks_refl|].
    intros d. apply update_file_status_only.
Qed.

Lemma processFileContents_respects (branchName repoPath : string) :
  respects (on_store only_new_chunks)
           (processFileContents fault fs_exists fs_read recursive_split
                                createDocuments branchName repoPath).
Proof.
  unfold processFileContents.
  apply (respects_mbind _ new_chunks_trans);
    [apply respects_external, only_new_chunks_refl|].
  intros _.
  apply (respects_mbind _ new_chunks_trans);
    [apply respects_db_query, only_new_chunks_refl|].
  intros [repo|]; [|apply (respects_throw _ new_chunks_refl)].
  apply (respects_mbind _ new_chunks_trans);
    [apply respects_db_query, only_new_chunks_refl|].
  intros [branch|]; [|apply (respects_throw _ new_chunks_refl)].
  apply (respects_mbind _ new_chunks_trans);
    [apply respects_db_query, only_new_chunks_refl|].
  intros pendingFiles.
  apply (respects_for_each _ new_chunks_refl new_chunks_trans).
  intros f _. apply process_pending_file_only.
Qed.

(** X13.  Whatever the collaborators answer and whichever of their calls
    fail, [processFileContents] removes and rewrites no chunk: the chunks
    stored before are still there, unchanged and in their order, followed
    by the chunks it added, which have no vector.  Repositories, branches
    and associations are as before, and of the files only the status can
    have changed. *)
Theorem processFileContents_only_adds_chunks
    (branchName repoPath : string) (w : World) :
  only_new_chunks
    w.(store)
    (snd (processFileContents fault fs_exists fs_read recursive_split
                              createDocuments branchName repoPath w)).(store).
Proof.
  pose proof (processFileContents_respects branchName repoPath w) as H.
  unfold on_store in H. exact H.
Qed.

End AnyCollaborators.

End LeaveAloneFacts.

(** ** Reasoning backwards through an operation *)

Module WpFacts.

Import Store Sync Retrieval Pipeline PipelineNotions.

Lemma wp_ret {A : Type} (a : A) (Q : Outcome A -> World -> Prop) (w : World) :
  Q (Ok a) w -> wp (ret a) Q w.
Proof. exact (fun H => H). Qed.

Lemma wp_throw {A : Type} (message : string)
    (Q : Outcome A -> World -> Prop) (w : World) :
  Q (Throw message) w -> wp (throw message) Q w.
Proof. exact (fun H => H). Qed.

Lemma wp_mbind {A B : Type} (m : M A) (k : A -> M B)
    (Q : Outcome B -> World -> Prop) (w : World) :
  wp m (fun o w1 => match o with
                    | Ok a => wp (k a) Q w1
                    | Throw e => Q (Throw e) w1
                    end) w ->
  wp (mbind m k) Q w.
Proof.
  unfold wp, mbind. destruct (m w) as [[a | e] w1]; exact (fun H => H).
Qed.

Lemma wp_try_catch {A : Type} (body : M A) (handler : string -> M A)
    (Q : Outcome A -> World -> Prop) (w : World) :
  wp body (fun o w1 => match o with
                       | Ok a => Q (Ok a) w1
                       | Throw e => wp (handler e) Q w1
                       end) w ->
  wp (try_catch body handler) Q w.
Proof.
  unfold wp, try_catch. destruct (body w) as [[a | e] w1]; exact (fun H => H).
Qed.

Lemma wp_conseq {A : Type} (m : M A) (Q Q' : Outcome A -> World -> Prop)
    (w : World) :
  wp m Q w -> (forall o w', Q o w' -> Q' o w') -> wp m Q' w.
Proof. unfold wp. intros H HQ. now apply HQ. Qed.

Lemma wp_any {A : Type} (m : M A) (Q : Outcome A -> World -> Prop)
    (w : World) :
  (forall o w', Q o w') -> wp m Q w.
Proof. intros H. apply H. Qed.

Lemma wp_try_catch_total {A : Type} (body : M A) (a : A)
    (Q : Outcome A -> World -> Prop) (w : World) :
  (forall x w', Q (Ok x) w') ->
  wp (try_catch body (fun _ => ret a)) Q w.
Proof.
  intros H. unfold wp, try_catch. destruct (body w) as [[x|e] w1]; apply H.
Qed.

Lemma wp_of_respects {A : Type} (R : World -> World -> Prop) (m : M A)
    (Q : Outcome A -> World -> Prop) (w : World) :
  respects R m -> (forall o w', R w w' -> Q o w') -> wp m Q w.
Proof. intros Hm H. apply H, Hm. Qed.

Lemma wp_emit (e : Event) (Q : Outcome unit -> World -> Prop) (w : World) :
  Q (Ok tt) (mkWorld w.(store) w.(clock) (w.(trace) ++ [e])) ->
  wp (emit e) Q w.
Proof. exact (fun H => H). Qed.

Section Calls.

Variable fault : nat -> option string.
Variable embed_text : nat -> string -> list Q.

Lemma wp_collab {A : Type} (f : nat -> DB -> Outcome (A * DB))
    (Q : Outcome A -> World -> Prop) (w : World) :
  (forall e, Q (Throw e) (tick w)) ->
  (forall a d', f w.(clock) w.(store) = Ok (a, d') ->
                Q (Ok a) (mkWorld d' (S w.(clock)) w.(trace))) ->
  wp (collab fault f) Q w.
Proof.
  intros Hthrow Hok. unfold wp, collab.
  destruct (fault (clock w)); [apply Hthrow|].
  destruct (f (clock w) (store w)) as [[a d'] | e] eqn:Hrun;
    [now apply Hok | apply Hthrow].
Qed.

Lemma wp_db_query {A : Type} (q : DB -> A)
    (Q : Outcome A -> World -> Prop) (w : World) :
  (forall e, Q (Throw e) (tick w)) ->
  Q (Ok (q w.(store))) (tick w) ->
  wp (db_query fault q) Q w.
Proof.
  intros Hthrow Hok. apply wp_collab; [assumption|].
  intros a d' [= <- <-]. exact Hok.
Qed.

Lemma wp_db_try {A : Type} (q : DB -> Outcome A)
    (Q : Outcome A -> World -> Prop) (w : World) :
  (forall e, Q (Throw e) (tick w)) ->
  (forall a, q w.(store) = Ok a -> Q (Ok a) (tick w)) ->
  wp (db_try fault q) Q w.
Proof.
  intros Hthrow Hok. apply wp_collab; [assumption|].
  intros a d' Hrun. destruct (q (store w)) as [a'|e] eqn:Hq; [|discriminate].
  injection Hrun as <- <-. now apply Hok.
Qed.

Lemma wp_external {A : Type} (f : nat -> A)
    (Q : Outcome A -> World -> Prop) (w : World) :
  (forall e, Q (Throw e) (tick w)) ->
  Q (Ok (f w.(clock))) (tick w) ->
  wp (external fault f) Q w.
Proof.
  intros Hthrow Hok. apply wp_collab; [assumption|].
  intros a d' [= <- <-]. exact Hok.
Qed.

Lemma wp_db_run (stmt : DB -> DB)
    (Q : Outcome unit -> World -> Prop) (w : World) :
  (forall e, Q (Throw e) (tick w)) ->
  Q (Ok tt) (mkWorld (stmt w.(store)) (S w.(clock)) w.(trace)) ->
  wp (db_run fault stmt) Q w.
Proof.
  intros Hthrow Hok. apply wp_collab; [assumption|].
  intros a d' [= <- <-]. exact Hok.
Qed.

Lemma wp_transaction {A : Type} (body : DB -> Outcome (A * DB))
    (Q : Outcome A -> World -> Prop) (w : World) :
  (forall e, Q (Throw e) (tick w)) ->
  (forall a d', body w.(store) = Ok (a, d') ->
                Q (Ok a) (mkWorld d' (S w.(clock)) w.(trace))) ->
  wp (transaction fault body) Q w.
Proof.
  intros Hthrow Hok. unfold transaction. apply wp_collab; assumption.
Qed.

Lemma wp_sendProgress (notifier : bool) (fraction : Q)
    (P : Outcome unit -> World -> Prop) (w : World) :
  (notifier = false -> P (Ok tt) w) ->
  (notifier = true ->
   forall o, P o (mkWorld w.(store) (S w.(clock))
                          (w.(trace) ++ [EvProgress fraction]))) ->
  wp (sendProgress fault notifier fraction) P w.
Proof.
  intros Hoff Hon. unfold sendProgress. destruct notifier.
  - apply wp_mbind, wp_emit, wp_external; intros; now apply Hon.
  - now apply Hoff.
Qed.

Lemma wp_generate (texts : list string)
    (P : Outcome (list (list Q)) -> World -> Prop) (w : World) :
  (forall e, P (Throw e)
               (mkWorld w.(store) (S w.(clock))
                        (w.(trace) ++ [EvEmbedder (List.length texts)]))) ->
  P (Ok (map (embed_text w.(clock)) texts))
    (mkWorld w.(store) (S w.(clock))
             (w.(trace) ++ [EvEmbedder (List.length texts)])) ->
  wp (generateOllamaEmbeddings fault embed_text texts) P w.
Proof.
  intros Hthrow Hok. unfold generateOllamaEmbeddings.
  apply wp_mbind, wp_emit, wp_external; assumption.
Qed.

Lemma wp_sendProgress_same (notifier : bool) (fraction : Q)
    (P : Outcome unit -> World -> Prop) (w : World) :
  (forall o w', w'.(store) = w.(store) -> P o w') ->
  wp (sendProgress fault notifier fraction) P w.
Proof.
  intros H. apply wp_sendProgress.
  - intros _. now apply H.
  - intros _ o. now apply H.
Qed.

End Calls.

(** An exit that the statement says nothing about. *)
Ltac dead := cbv beta iota; try apply wp_ret; intros; discriminate.

End WpFacts.

(** ** What [embedFiles] has done when it returns *)

Module EmbedResultFacts.

Import Store Sync Retrieval Pipeline PipelineNotions WpFacts BackfillFacts.

Lemma embedder_calls_app (a b : list Event) :
  embedder_calls (a ++ b) = (embedder_calls a ++ embedder_calls b)%list.
Proof.
  induction a as [|e a IH]; cbn; [reflexivity|].
  destruct e; cbn; now rewrite IH.
Qed.

Lemma list_sum_cons (a : nat) (l : list nat) :
  list_sum (a :: l) = a + list_sum l.
Proof. reflexivity. Qed.

Lemma batch_sized_app (a b : list nat) :
  batch_sized a -> batch_sized b -> batch_sized (a ++ b).
Proof. intros Ha Hb. apply Forall_app. now split. Qed.

Lemma batch_size (remaining : list (ChunkRow * FileRow)) :
  remaining <> [] ->
  1 <= List.length (firstn BATCH_SIZE remaining) <= 100.
Proof.
  intros Hne. rewrite length_firstn. unfold BATCH_SIZE.
  destruct remaining; [contradiction | cbn [List.length]; lia].
Qed.

Lemma store_embeddings_branch (batch : list (ChunkRow * FileRow))
    (embeddings : list (list Q)) (d : DB) (a : unit) (d' : DB) :
  store_embeddings batch embeddings d = Ok (a, d') ->
  d'.(Store.branch) = d.(Store.branch).
Proof.
  unfold store_embeddings. intros [= _ <-].
  generalize (combine batch embeddings). intros l. revert d.
  induction l as [|ce l IH]; intros d; cbn [fold_left]; [reflexivity|].
  now rewrite IH.
Qed.

Section AnyCollaborators.

Variable fault : nat -> option string.
Variable embed_text : nat -> string -> list Q.

(** The observed calls of the batch loop. *)
Lemma embed_batches_calls :
  forall (fuel : nat) (notifier : bool) (total : nat)
         (remaining : list (ChunkRow * FileRow)) (processed : nat)
         (w : World),
    wp (embed_batches fault embed_text fuel notifier total remaining processed)
       (fun o w' =>
          exists more,
            w'.(trace) = (w.(trace) ++ more)%list
            /\ batch_sized (embedder_calls more)
            /\ forall p, o = Ok p ->
                         p = processed + list_sum (embedder_calls more))
       w.
Proof.
  induction fuel as [|fuel IH]; intros notifier total remaining processed w.
  - cbn [embed_batches]. apply wp_ret. exists []. rewrite app_nil_r.
    repeat split; [constructor | intros p [= <-]; cbn; lia].
  - destruct remaining as [|ce rest].
    { cbn [embed_batches]. apply wp_ret. exists []. rewrite app_nil_r.
      repeat split; [constructor | intros p [= <-]; cbn; lia]. }
    cbn [embed_batches].
    set (remaining := ce :: rest).
    set (batch := firstn BATCH_SIZE remaining).
    assert (Hsize : 1 <= List.length batch <= 100)
      by (apply batch_size; discriminate).
    assert (Hone : forall tr,
               batch_sized (embedder_calls
                              (tr ++ [EvEmbedder (List.length batch)]))
               <-> batch_sized (embedder_calls tr
                                ++ [List.length batch])%list).
    { intros tr. now rewrite embedder_calls_app. }
    assert (Hsingle : batch_sized [List.length batch])
      by (constructor; [exact Hsize | constructor]).
    apply wp_mbind, wp_generate; rewrite !length_map.
    { intros e. exists [EvEmbedder (List.length batch)].
      repeat split; [exact Hsingle | discriminate]. }
    apply wp_mbind, wp_transaction; cbn [store clock trace tick].
    { intros e. exists [EvEmbedder (List.length batch)].
      repeat split; [exact Hsingle | discriminate]. }
    intros [] d' _.
    apply wp_mbind, wp_sendProgress; cbn [store clock trace].
    + intros _.
      eapply wp_conseq; [apply IH|].
      cbn [trace]. intros o w' (more & Htr & Hsized & Hsum).
      exists (EvEmbedder (List.length batch) :: more).
      rewrite Htr, <- app_assoc. repeat split.
      * cbn [embedder_calls]. now constructor.
      * intros p Hp. cbn [embedder_calls]. specialize (Hsum p Hp).
        rewrite list_sum_cons. lia.
    + intros _ [[] | e].
      * eapply wp_conseq; [apply IH|].
        cbn [trace]. intros o w' (more & Htr & Hsized & Hsum).
        eexists. split; [rewrite Htr, <- !app_assoc; reflexivity|].
        cbn [app embedder_calls]. split.
        -- now constructor.
        -- intros p Hp. specialize (Hsum p Hp).
           rewrite list_sum_cons. lia.
      * eexists. split; [rewrite <- !app_assoc; reflexivity|].
        cbn [app embedder_calls]. split; [exact Hsingle | discriminate].
Qed.

(** The store of the batch loop. *)
Lemma embed_batches_store :
  forall (fuel : nat) (notifier : bool) (total : nat)
         (remaining : list (ChunkRow * FileRow)) (processed : nat)
         (ids : list nat) (d0 : DB) (w : World),
    List.length remaining <= fuel ->
    untouched ids d0 w.(store) ->
    wp (embed_batches fault embed_text fuel notifier total remaining processed)
       (fun o w' =>
          w'.(store).(Store.branch) = w.(store).(Store.branch)
          /\ forall p, o = Ok p ->
               p = processed + List.length remaining
               /\ untouched
                    (ids ++ map (fun ce => (fst ce).(chunk_id)) remaining)
                    d0 w'.(store))
       w.
Proof.
  induction fuel as [|fuel IH];
    intros notifier total remaining processed ids d0 w Hfuel Hu.
  - destruct remaining; [|cbn in Hfuel; lia].
    cbn [embed_batches]. apply wp_ret. split; [reflexivity|].
    intros p [= <-]. cbn. rewrite app_nil_r. split; [lia | assumption].
  - destruct remaining as [|ce rest].
    { cbn [embed_batches]. apply wp_ret. split; [reflexivity|].
      intros p [= <-]. cbn. rewrite app_nil_r. split; [lia | assumption]. }
    cbn [embed_batches].
    set (remaining := ce :: rest) in *.
    set (batch := firstn BATCH_SIZE remaining).
    assert (Hsplit : List.length remaining
                     = List.length batch
                       + List.length (skipn BATCH_SIZE remaining)).
    { unfold batch. rewrite <- length_app. now rewrite firstn_skipn. }
    assert (Hless : List.length (skipn BATCH_SIZE remaining) <= fuel).
    { rewrite length_skipn. unfold BATCH_SIZE, remaining in *.
      cbn [List.length] in *. lia. }
    apply wp_mbind, wp_generate.
    { intros e. split; [reflexivity | discriminate]. }
    apply wp_mbind, wp_transaction; cbn [store clock trace tick].
    { intros e. split; [reflexivity | discriminate]. }
    intros [] d' Hstore.
    pose proof (store_embeddings_branch _ _ _ _ _ Hstore) as Hbranch.
    destruct (store_embeddings_untouched batch
                (map (embed_text (clock w))
                     (map (fun ce => chunk_content (fst ce)) batch))
                ids d0 (store w)) as (d'' & Hstore' & Hu');
      [now rewrite !length_map | assumption |].
    rewrite Hstore in Hstore'. injection Hstore' as <-.
    assert (Hnext : forall w1 : World,
               w1.(store) = d' ->
               wp (embed_batches fault embed_text fuel notifier total
                     (skipn BATCH_SIZE remaining)
                     (processed + List.length batch))
                  (fun o w' =>
                     w'.(store).(Store.branch) = w.(store).(Store.branch)
                     /\ forall p, o = Ok p ->
                          p = processed + List.length remaining
                          /\ untouched
                               (ids ++ map (fun ce => (fst ce).(chunk_id))
                                           remaining)
                               d0 w'.(store))
                  w1).
    { intros w1 Hw1.
      eapply wp_conseq;
        [apply (IH notifier total (skipn BATCH_SIZE remaining)
                   (processed + List.length batch)
                   (ids ++ map (fun ce => chunk_id (fst ce)) batch)%list
                   d0 w1 Hless); now rewrite Hw1|].
      intros o w' [Hb Hok]. split; [now rewrite Hb, Hw1|].
      intros p Hp. destruct (Hok p Hp) as [-> Hu''].
      split; [lia|].
      rewrite <- app_assoc, <- map_app in Hu''.
      unfold batch in Hu''. now rewrite firstn_skipn in Hu''. }
    apply wp_mbind, wp_sendProgress; cbn [store clock trace].
    + intros _. now apply Hnext.
    + intros _ [[] | e].
      * now apply Hnext.
      * split; [assumption | discriminate].
Qed.

Lemma untouched_all_embedded (d0 d : DB) (b : nat) :
  untouched (map (fun ce => (fst ce).(chunk_id))
                 (chunks_without_embedding d0 b)) d0 d ->
  chunks_without_embedding d b = [].
Proof.
  intros (Hf & Ha & Hnone).
  destruct (chunks_without_embedding d b) as [|[c f] l] eqn:Hl;
    [reflexivity|].
  exfalso.
  assert (Hin : In (c, f) (chunks_without_embedding d b))
    by (rewrite Hl; now left).
  apply in_chunks_without_embedding in Hin as [Hin Hemb].
  apply in_branch_chunks in Hin as (Hc' & Hf' & Hid & Hassoc).
  destruct (Hnone c Hc' Hemb) as [Hc0 Hnot].
  apply Hnot. apply in_map_iff. exists (c, f). split; [reflexivity|].
  apply in_chunks_without_embedding. split; [|assumption].
  apply in_branch_chunks. rewrite <- Hf. unfold associated in *.
  rewrite <- Ha. auto.
Qed.

Lemma untouched_status (ids : list nat) (d0 d : DB) (s : BranchStatus)
    (b : nat) :
  untouched ids d0 d -> untouched ids d0 (update_branch_status s b d).
Proof. exact (fun H => H). Qed.

Lemma update_branch_status_sets (s : BranchStatus) (b : nat) (d : DB) :
  branch_has_status (update_branch_status s b d) b s.
Proof.
  unfold branch_has_status, update_branch_status. cbn.
  intros row Hin Hid. apply in_map_iff in Hin as (r & <- & _).
  destruct (branch_id r =? b) eqn:E; [reflexivity|].
  apply Nat.eqb_neq in E. cbn in Hid. contradiction.
Qed.

Lemma no_association_no_chunk (d : DB) (b : nat) :
  count_branch_associations d b = 0 -> chunks_without_embedding d b = [].
Proof.
  intros H.
  destruct (chunks_without_embedding d b) as [|ce l] eqn:Hl; [reflexivity|].
  assert (Hne : chunks_without_embedding d b <> []) by (rewrite Hl; discriminate).
  apply outstanding_chunks_have_association in Hne.
  apply Nat.eqb_neq in Hne. contradiction.
Qed.

(** What holds of the store when [embedFiles] returns. *)
Lemma embedFiles_store (input : EmbedFilesInput) (notifier : bool)
    (w : World) :
  let b := input.(ef_branchId) in
  wp (embedFiles fault embed_text (Some input) notifier)
     (fun o w' =>
        match o with
        | Ok (Success n) =>
          n = List.length (chunks_without_embedding w.(store) b)
          /\ chunks_without_embedding w'.(store) b = []
          /\ has_branch w'.(store) b = true
          /\ branch_has_status w'.(store) b EmbeddingsGenerated
        | Ok (Error _) =>
          notifier = false ->
          w'.(store).(Store.branch) = w.(store).(Store.branch)
        | Throw _ => False
        end) w.
Proof.
  intros b. unfold embedFiles. fold b.
  apply wp_mbind, wp_emit, wp_try_catch.
  apply wp_mbind, wp_db_query; cbn [store tick];
    [intros e; apply wp_ret; intros _; reflexivity|].
  destruct (select_branch (store w) b) as [row|] eqn:Hrow;
    [|apply wp_ret; intros _; reflexivity].
  assert (Hhas : forall d : DB,
             d.(Store.branch) = (store w).(Store.branch) ->
             has_branch (update_branch_status EmbeddingsGenerated b d) b
             = true).
  { intros d Hd. unfold select_branch in Hrow.
    apply find_some in Hrow as [Hin Hid].
    unfold has_branch, update_branch_status. cbn. rewrite Hd.
    apply existsb_exists.
    exists (mkBranch row.(branch_id) row.(branch_name)
                     row.(branch_repository_id) row.(last_commit_sha)
                     EmbeddingsGenerated).
    split; [|exact Hid].
    apply in_map_iff. exists row. split; [|exact Hin]. now rewrite Hid. }
  apply wp_mbind, wp_db_query; cbn [store tick];
    [intros e; apply wp_ret; intros _; reflexivity|].
  assert (Hdone : forall d : DB,
             chunks_without_embedding d b = [] ->
             chunks_without_embedding
               (update_branch_status EmbeddingsGenerated b d) b = [])
    by (intros d H; exact H).
  destruct (count_branch_associations (store w) b =? 0) eqn:Hcount.
  - apply Nat.eqb_eq, no_association_no_chunk in Hcount.
    apply wp_mbind, wp_db_run; cbn [store tick];
      [intros e; apply wp_ret; intros _; reflexivity|].
    apply wp_ret. cbn [store]. rewrite Hcount. repeat split.
    + now apply Hdone.
    + now apply Hhas.
    + apply update_branch_status_sets.
  - apply wp_mbind, wp_db_query; cbn [store tick];
      [intros e; apply wp_ret; intros _; reflexivity|].
    destruct (chunks_without_embedding (store w) b) as [|ce rest] eqn:Hlist.
    + apply wp_mbind, wp_db_run; cbn [store tick];
        [intros e; apply wp_ret; intros _; reflexivity|].
      apply wp_mbind, wp_sendProgress; cbn [store].
      * intros _. apply wp_ret. cbn [store]. repeat split.
        -- now apply Hdone.
        -- now apply Hhas.
        -- apply update_branch_status_sets.
      * intros Hon [[] | e].
        -- apply wp_ret. cbn [store]. repeat split.
           ++ now apply Hdone.
           ++ now apply Hhas.
           ++ apply update_branch_status_sets.
        -- apply wp_ret. intros Hoff. congruence.
    + rewrite <- Hlist.
      apply wp_mbind.
      eapply wp_conseq;
        [apply (embed_batches_store _ notifier _ _ 0 [] (store w));
         [lia | apply untouched_refl]|].
      cbn [store tick]. intros [p | e] w2 [Hbranch Hok].
      * destruct (Hok p eq_refl) as [-> Hu]. cbn [app] in Hu.
        apply wp_mbind, wp_db_run; cbn [store tick];
          [intros e; apply wp_ret; intros _; exact Hbranch|].
        apply wp_ret. cbn [store]. repeat split.
        -- apply Hdone. now apply untouched_all_embedded with (d0 := store w).
        -- now apply Hhas.
        -- apply update_branch_status_sets.
      * apply wp_ret. intros _. exact Hbranch.
Qed.

(** X14.  Whatever the collaborators answer and whichever of their calls
    fail, [embedFiles] hands the embedder between one and a hundred texts
    per call, and when it reports success the texts of its calls add up to
    the number of chunks it reports. *)
Theorem embedFiles_calls_in_batches
    (input : EmbedFilesInput) (notifier : bool) (w : World) :
  let run := embedFiles fault embed_text (Some input) notifier w in
  exists more,
    (snd run).(trace) = (w.(trace) ++ more)%list
    /\ batch_sized (embedder_calls more)
    /\ forall n, fst run = Ok (Success n) ->
                 list_sum (embedder_calls more) = n.
Proof.
  change (wp (embedFiles fault embed_text (Some input) notifier)
             (fun o w' =>
                exists more,
                  w'.(trace) = (w.(trace) ++ more)%list
                  /\ batch_sized (embedder_calls more)
                  /\ forall n, o = Ok (Success n) ->
                               list_sum (embedder_calls more) = n)
             w).
  assert (Hquiet : forall (o : Outcome (Payload nat)) (w' : World) tr,
             w'.(trace) = (trace w ++ EvEmbedFiles :: tr)%list ->
             (forall n, o <> Ok (Success n)) \/ o = Ok (Success 0) ->
             embedder_calls tr = [] ->
             exists more,
               w'.(trace) = (trace w ++ more)%list
               /\ batch_sized (embedder_calls more)
               /\ forall n, o = Ok (Success n) ->
                            list_sum (embedder_calls more) = n).
  { intros o w' tr Hw' Ho Htr. exists (EvEmbedFiles :: tr).
    split; [assumption|].
    cbn [embedder_calls]. rewrite Htr. split; [constructor|].
    intros n Hn. destruct Ho as [Ho | ->]; [now apply Ho in Hn|].
    now injection Hn as <-. }
  assert (Hfail : forall (e : string) (w' : World) tr,
             w'.(trace) = (trace w ++ EvEmbedFiles :: tr)%list ->
             embedder_calls tr = [] ->
             wp (ret (Error ("Error executing embedFiles tool: " ++ e)%string))
                (fun (o : Outcome (Payload nat)) w' =>
                   exists more,
                     w'.(trace) = (trace w ++ more)%list
                     /\ batch_sized (embedder_calls more)
                     /\ forall n, o = Ok (Success n) ->
                                  list_sum (embedder_calls more) = n) w').
  { intros e w' tr Hw' Htr. apply wp_ret.
    apply (Hquiet _ _ tr); [assumption | left; discriminate | assumption]. }
  unfold embedFiles.
  apply wp_mbind, wp_emit, wp_try_catch.
  apply wp_mbind, wp_db_query.
  { intros e. apply (Hfail e _ []); [|reflexivity].
    cbn [trace tick store clock]. rewrite <- ?app_assoc; reflexivity. }
  cbn [trace tick store clock].
  destruct (select_branch (store w) (ef_branchId input)) as [row|].
  2:{ apply wp_ret. apply (Hquiet _ _ []);
        [cbn [trace tick store clock]; rewrite <- ?app_assoc; reflexivity | left; discriminate
        | reflexivity]. }
  apply wp_mbind, wp_db_query.
  { intros e. apply (Hfail e _ []); [|reflexivity].
    cbn [trace tick store clock]. rewrite <- ?app_assoc; reflexivity. }
  cbn [trace tick store clock].
  destruct (count_branch_associations (store w) (ef_branchId input) =? 0).
  - apply wp_mbind, wp_db_run.
    { intros e. apply (Hfail e _ []); [|reflexivity].
      cbn [trace tick store clock]. rewrite <- ?app_assoc; reflexivity. }
    apply wp_ret. apply (Hquiet _ _ []);
      [cbn [trace tick store clock]; rewrite <- ?app_assoc; reflexivity | now right | reflexivity].
  - apply wp_mbind, wp_db_query.
    { intros e. apply (Hfail e _ []); [|reflexivity].
      cbn [trace tick store clock]. rewrite <- ?app_assoc; reflexivity. }
    cbn [trace tick store clock].
    destruct (chunks_without_embedding (store w) (ef_branchId input))
      as [|ce rest].
    + apply wp_mbind, wp_db_run.
      { intros e. apply (Hfail e _ []); [|reflexivity].
        cbn [trace tick store clock]. rewrite <- ?app_assoc; reflexivity. }
      apply wp_mbind, wp_sendProgress.
      * intros _. apply wp_ret. apply (Hquiet _ _ []);
          [cbn [trace tick store clock]; rewrite <- ?app_assoc; reflexivity | now right | reflexivity].
      * intros _ [[] | e].
        -- apply wp_ret. apply (Hquiet _ _ [EvProgress 1]);
             [cbn [trace tick store clock]; rewrite <- ?app_assoc; reflexivity | now right
             | reflexivity].
        -- apply (Hfail e _ [EvProgress 1]); [|reflexivity].
           cbn [trace tick store clock]. rewrite <- ?app_assoc; reflexivity.
    + apply wp_mbind.
      eapply wp_conseq; [apply embed_batches_calls|].
      cbn [trace tick]. intros [p | e] w2 (more & Htr & Hsized & Hsum).
      * specialize (Hsum p eq_refl). cbn in Hsum.
        apply wp_mbind, wp_db_run.
        { intros e. apply wp_ret. cbn [trace tick]. rewrite Htr, <- ?app_assoc.
          exists (EvEmbedFiles :: more). repeat split;
            [exact Hsized | discriminate]. }
        apply wp_ret. cbn [trace]. rewrite Htr, <- ?app_assoc.
        exists (EvEmbedFiles :: more). repeat split; [exact Hsized|].
        intros n [= <-]. now rewrite Hsum.
      * apply wp_ret. cbn [trace]. rewrite Htr, <- ?app_assoc.
        exists (EvEmbedFiles :: more). repeat split;
          [exact Hsized | discriminate].
Qed.

(** X15.  When [embedFiles] reports success, whatever happened on the
    way: the number it reports is the number of chunks of the branch that
    had no vector, no chunk of the branch is without a vector any more,
    and the branch is in the store and [embeddings_generated]. *)
Theorem embedFiles_success_means_done
    (input : EmbedFilesInput) (notifier : bool) (w : World) (n : nat) :
  let run := embedFiles fault embed_text (Some input) notifier w in
  let b := input.(ef_branchId) in
  fst run = Ok (Success n) ->
  n = List.length (chunks_without_embedding w.(store) b)
  /\ chunks_without_embedding (snd run).(store) b = []
  /\ has_branch (snd run).(store) b = true
  /\ branch_has_status (snd run).(store) b EmbeddingsGenerated.
Proof.
  intros run b Hrun.
  pose proof (embedFiles_store input notifier w) as H.
  unfold wp in H. fold run in H. rewrite Hrun in H. exact H.
Qed.

(** X16.  When [embedFiles], called without a progress notifier as
    [queryRepo] calls it, reports an error, the branch table is as it was:
    a failed run never marks the branch as embedded. *)
Theorem embedFiles_error_keeps_status
    (input : EmbedFilesInput) (w : World) (message : string) :
  let run := embedFiles fault embed_text (Some input) false w in
  fst run = Ok (Error message) ->
  (snd run).(store).(Store.branch) = w.(store).(Store.branch).
Proof.
  intros run Hrun.
  pose proof (embedFiles_store input false w) as H.
  unfold wp in H. fold run in H. rewrite Hrun in H. now apply H.
Qed.

End AnyCollaborators.

Lemma embedFiles_success_means_done_witness :
  1 = List.length (chunks_without_embedding Scenarios.midway_store 1)
  /\ chunks_without_embedding (snd Scenarios.embed_run).(store) 1 = []
  /\ has_branch (snd Scenarios.embed_run).(store) 1 = true
  /\ branch_has_status (snd Scenarios.embed_run).(store) 1
                       EmbeddingsGenerated.
Proof.
  apply (embedFiles_success_means_done
           Scenarios.no_fault Scenarios.embed_half
           (mkEmbedFilesInput "/repos/x" 1) false
           (mkWorld Scenarios.midway_store 0 []) 1).
  vm_compute. reflexivity.
Defined.

Lemma embedFiles_error_keeps_status_witness :
  (snd (embedFiles Scenarios2.embedder_offline Scenarios.embed_half
          (Some (mkEmbedFilesInput "/repos/x" 1)) false
          (mkWorld Scenarios.midway_store 0 []))).(store).(Store.branch)
  = Scenarios.midway_store.(Store.branch).
Proof.
  apply (embedFiles_error_keeps_status
           Scenarios2.embedder_offline Scenarios.embed_half
           (mkEmbedFilesInput "/repos/x" 1)
           (mkWorld Scenarios.midway_store 0 [])
           "Error executing embedFiles tool: offline").
  vm_compute. reflexivity.
Defined.

End EmbedResultFacts.

(* ================================================================== *)
(** * The similarity scan *)
(* ================================================================== *)

Module ScanFacts.

Import Store FilePattern Retrieval RetrievalNotions RankingFacts Scenarios.

(** With a natural number of 63 bits bound to [LIMIT ?], the statement
    returns the first rows of the ranking. *)
Lemma select_similar_nat (score : list Q -> list Q -> option Q) (d : DB)
    (queryVector : list Q) (branchId : nat) (condition : list clause)
    (n : nat) :
  (Z.of_nat n < 2 ^ 63)%Z ->
  select_similar score d queryVector branchId condition
                 (Finite (inject_Z (Z.of_nat n)))
  = Ok (scan score d queryVector branchId condition n).
Proof.
  intros Hn. unfold select_similar, scan.
  rewrite (limited_integer _ (Z.of_nat n)).
  - destruct (Z.ltb_spec (Z.of_nat n) 0); [lia|]. now rewrite Nat2Z.id.
  - unfold limit_integer, inject_Z. cbn [Qnum Qden].
    rewrite Z.div_1_r, Z.mod_1_r. cbn [Z.eqb andb].
    destruct (Z.leb_spec (- 2 ^ 63) (Z.of_nat n)); [|lia].
    destruct (Z.ltb_spec (Z.of_nat n) (2 ^ 63)); [reflexivity | lia].
Qed.



(** X18.  For patterns without a quote, a file that one of the exclude
    globs matches never shows up in the results of the scan of
    [queryRepo], and when include globs are given every result is of a
    file that the [LIKE] pattern of one of them matches. *)
Theorem scan_honours_patterns
    (score : list Q -> list Q -> option Q) (d : DB) (queryVector : list Q)
    (branchId : nat) (includePatterns excludePatterns : option (list string))
    (limit : JsNumber) (found : list SearchResult) (r : SearchResult) :
  written_as_read includePatterns = true ->
  written_as_read excludePatterns = true ->
  select_similar score d queryVector branchId
                 (createFilePatternCondition includePatterns excludePatterns)
                 limit = Ok found ->
  In r found ->
  (forall ps g, excludePatterns = Some ps -> In g ps ->
                glob_matches g r.(filePath) = false)
  /\ (forall g ps, includePatterns = Some (g :: ps) ->
        exists g', In g' (g :: ps)
                   /\ like (globToSqlPattern g') r.(filePath) = true).
Proof.
  intros _ _ Hfound Hin.
  destruct (select_similar_in _ _ _ _ _ _ _ _ Hfound Hin) as [cf [Hcf Hr]].
  apply filter_In in Hcf as [_ Hcond].
  replace (file_path (snd cf)) with (filePath r) in Hcond
    by (rewrite Hr; reflexivity).
  apply FilePatternFacts.condition_holds_iff in Hcond as [Hinc Hexc].
  split.
  - intros ps g -> Hg.
    destruct (glob_matches g (filePath r)) eqn:E; [|reflexivity].
    unfold glob_matches in E.
    pose proof (GlobFacts.glob_match_stars _ _ _ _ (le_n _) E) as Hlike.
    rewrite <- GlobFacts.globToSqlPattern_stars in Hlike.
    rewrite (Hexc g Hg) in Hlike. discriminate.
  - intros g ps ->. exact Hinc.
Qed.

Lemma scan_honours_patterns_witness :
  (forall ps g, Some ["docs/**"; "src/*/*.ts"] = Some ps -> In g ps ->
                glob_matches g "src/a/b.js" = false)
  /\ (forall g ps, Some ["src/**"] = Some (g :: ps) ->
        exists g', In g' (g :: ps)
                   /\ like (globToSqlPattern g') "src/a/b.js" = true).
Proof.
  apply (scan_honours_patterns
           similarity_initial b_js_store [1%Q] 1
           (Some ["src/**"]) (Some ["docs/**"; "src/*/*.ts"])
           (Finite (inject_Z 10))
           [mkResult "let x;" "src/a/b.js" 1 (Some 1%Q)]
           (mkResult "let x;" "src/a/b.js" 1 (Some 1%Q))).
  - vm_compute. reflexivity.
  - vm_compute. reflexivity.
  - vm_compute. reflexivity.
  - left. reflexivity.
Defined.

End ScanFacts.

(* ================================================================== *)
(** * The synchronizer: what it spares and when it does nothing *)
(* ================================================================== *)

Module SyncSparesFacts.

Import Store Sync SyncNotions Scenarios.

Lemma filter_filter_keep {A : Type} (p q : A -> bool) (l : list A) :
  (forall a, In a l -> p a = true -> q a = true) ->
  filter p (filter q l) = filter p l.
Proof.
  induction l as [|a l IH]; intros H; cbn; [reflexivity|].
  destruct (q a) eqn:Hq; cbn.
  - rewrite IH; [reflexivity|]. intros b Hb. apply H. now right.
  - destruct (p a) eqn:Hp.
    + rewrite (H a (or_introl eq_refl) Hp) in Hq. discriminate.
    + apply IH. intros b Hb. apply H. now right.
Qed.

Lemma used_elsewhere_stays (branchId : nat) (d d' : DB) (id : nat) :
  (forall b, b <> branchId ->
     of_branch b d'.(branch_file_association)
     = of_branch b d.(branch_file_association)) ->
  used_elsewhere branchId d id -> used_elsewhere branchId d' id.
Proof.
  intros H [b [Hb Hin]]. exists b. split; [exact Hb|].
  assert (Hf : In (b, id) (of_branch b d.(branch_file_association))).
  { apply filter_In. split; [exact Hin|]. cbn. apply Nat.eqb_refl. }
  rewrite <- (H b Hb) in Hf. now apply filter_In in Hf as [Hf _].
Qed.

Lemma spares_refl (branchId : nat) (d : DB) : spares branchId d d.
Proof. unfold spares. repeat split; auto. Qed.

Lemma spares_trans (branchId : nat) (d1 d2 d3 : DB) :
  spares branchId d1 d2 -> spares branchId d2 d3 -> spares branchId d1 d3.
Proof.
  intros (Hr1 & Hb1 & Ha1 & Hf1) (Hr2 & Hb2 & Ha2 & Hf2).
  unfold spares. repeat split.
  - congruence.
  - congruence.
  - intros b Hb. rewrite (Ha2 b Hb). now apply Ha1.
  - intros Hhas. destruct (Hf1 id H) as [H1 _].
    destruct (Hf2 id (used_elsewhere_stays _ _ _ _ Ha1 H)) as [H2 _].
    auto.
  - destruct (Hf1 id H) as [_ H1].
    destruct (Hf2 id (used_elsewhere_stays _ _ _ _ Ha1 H)) as [_ H2].
    congruence.
Qed.

Lemma insert_association_spares (branchId fileId : nat) (d d' : DB) :
  insert_association branchId fileId d = Ok d' -> spares branchId d d'.
Proof.
  unfold insert_association.
  destruct (associated d branchId fileId); [discriminate|].
  destruct (negb _); [discriminate|]. intros [= <-].
  unfold spares. cbn. repeat split; auto.
  intros b Hb. unfold of_branch. rewrite filter_app. cbn.
  apply Nat.eqb_neq in Hb. rewrite Nat.eqb_sym, Hb. apply app_nil_r.
Qed.

Lemma insert_file_spares (branchId repoId : nat) (p s n : string)
    (d d' : DB) (id : nat) :
  insert_file repoId p s n d = Ok (id, d') -> spares branchId d d'.
Proof.
  unfold insert_file.
  destruct (select_file_by_key d repoId p s); [discriminate|].
  destruct (negb _); [discriminate|]. intros [= <- <-].
  unfold spares. cbn. repeat split; auto.
  unfold has_file. cbn. rewrite existsb_app. intros ->. reflexivity.
Qed.

Lemma update_file_sha_spares (branchId : nat) (s : string) (fileId : nat)
    (d d' : DB) :
  update_file_sha s fileId d = Ok d' -> spares branchId d d'.
Proof.
  unfold update_file_sha.
  destruct (existsb _ _); [discriminate|]. intros [= <-].
  unfold spares. cbn. repeat split; auto.
  unfold has_file. cbn. intros Hhas.
  apply existsb_exists in Hhas as [f [Hf Hid]].
  apply existsb_exists.
  exists (if f.(file_id) =? fileId
          then mkFile f.(file_id) f.(file_repository_id) f.(file_path)
                      f.(file_name) s FilePending
          else f).
  split.
  - apply in_map_iff. exists f. now split.
  - now destruct (file_id f =? fileId).
Qed.

Lemma delete_association_spares (branchId fileId : nat) (d : DB) :
  spares branchId d (delete_association branchId fileId d).
Proof.
  unfold spares, delete_association. cbn. repeat split; auto.
  intros b Hb. unfold of_branch. apply filter_filter_keep.
  intros [b' i] _ Hfst. cbn in Hfst. apply Nat.eqb_eq in Hfst. subst b'.
  unfold assoc_eqb. cbn.
  apply Nat.eqb_neq in Hb. rewrite Nat.eqb_sym, Hb. reflexivity.
Qed.

Lemma delete_unused_file_spares (branchId fileId : nat) (d : DB) :
  file_in_use d fileId = false ->
  spares branchId d (delete_file fileId (delete_file_chunks fileId d)).
Proof.
  intros Hfree.
  assert (Hnone : forall a, In a d.(branch_file_association) ->
                            (snd a =? fileId) = false).
  { intros a Ha. unfold file_in_use in Hfree.
    destruct (snd a =? fileId) eqn:E; [|reflexivity].
    rewrite <- Hfree. symmetry. apply existsb_exists. now exists a. }
  assert (Hother : forall id, used_elsewhere branchId d id ->
                              (id =? fileId) = false).
  { intros id [b [_ Hin]]. exact (Hnone _ Hin). }
  unfold spares, delete_file, delete_file_chunks. cbn. repeat split; auto.
  - intros b _. unfold of_branch. apply filter_filter_keep.
    intros a Ha _. now rewrite (Hnone a Ha).
  - unfold has_file. cbn. intros Hhas.
    apply existsb_exists in Hhas as [f [Hf Hid]].
    apply existsb_exists. exists f. split; [|exact Hid].
    apply filter_In. split; [exact Hf|].
    apply Nat.eqb_eq in Hid. rewrite Hid, (Hother id H). reflexivity.
  - unfold file_chunks. cbn.
    rewrite filter_filter_keep;
      [apply filter_filter_keep|];
      intros c _ Hc; apply Nat.eqb_eq in Hc;
      now rewrite Hc, (Hother id H).
Qed.

Section OneBranch.

Variables repoId branchId : nat.

Lemma sync_file_spares (f : RepositoryFile) (st st' : SyncState) :
  sync_file repoId branchId f st = Ok st' ->
  spares branchId st.(db) st'.(db).
Proof.
  unfold sync_file.
  destruct (map_get (existingFileMap st) (path f)) as [existing|].
  - destruct (negb (String.eqb (file_sha existing) (sha f))).
    + destruct (update_file_sha (sha f) (file_id existing) (db st))
        as [d'|e] eqn:E; cbn [bind]; [|discriminate].
      intros [= <-]. cbn. exact (update_file_sha_spares branchId _ _ _ _ E).
    + intros [= <-]. cbn. apply spares_refl.
  - destruct (select_file_by_key (db st) repoId (path f) (sha f))
      as [fileId|].
    + destruct (associated (db st) branchId fileId).
      * intros [= <-]. cbn. apply spares_refl.
      * destruct (insert_association branchId fileId (db st))
          as [d'|e] eqn:E; cbn [bind]; [|discriminate].
        intros [= <-]. cbn. exact (insert_association_spares _ _ _ _ E).
    + destruct (insert_file repoId (path f) (sha f) (name f) (db st))
        as [[fileId d1]|e] eqn:E1; cbn [bind]; [|discriminate].
      destruct (insert_association branchId fileId d1)
        as [d2|e] eqn:E2; cbn [bind]; [|discriminate].
      intros [= <-]. cbn.
      eapply spares_trans.
      * eapply insert_file_spares, E1.
      * eapply insert_association_spares, E2.
Qed.

Lemma sync_files_spares (files : list RepositoryFile) :
  forall st st',
    sync_files repoId branchId files st = Ok st' ->
    spares branchId st.(db) st'.(db).
Proof.
  induction files as [|f files IH]; intros st st'; cbn [sync_files].
  - intros [= <-]. apply spares_refl.
  - destruct (sync_file repoId branchId f st) as [st1|e] eqn:E;
      cbn [bind]; [|discriminate].
    intros H. eapply spares_trans.
    + eapply sync_file_spares, E.
    + eapply IH, H.
Qed.

Lemma remove_file_spares (entry : string * FileRow) (st : SyncState) :
  spares branchId st.(db) (remove_file branchId entry st).(db).
Proof.
  destruct entry as [p f]. unfold remove_file. cbn [push_removed db].
  destruct (negb (file_in_use (delete_association branchId (file_id f)
                                                  (db st)) (file_id f)))
    eqn:E.
  - eapply spares_trans; [apply delete_association_spares|].
    apply delete_unused_file_spares. now apply negb_true_iff in E.
  - apply delete_association_spares.
Qed.

Lemma sweep_from_spares (entries : FileMap) :
  forall st,
    spares branchId st.(db)
           (fold_left (fun st entry => remove_file branchId entry st)
                      entries st).(db).
Proof.
  induction entries as [|e entries IH]; intros st; cbn [fold_left].
  - apply spares_refl.
  - eapply spares_trans; [apply remove_file_spares | apply IH].
Qed.

(** X19.  Whatever the listing, a synchronisation of one branch that
    commits leaves the repositories and the branches as they were, changes
    no association of another branch, and of a file that another branch is
    associated with it deletes neither the row nor a chunk. *)
Theorem sync_spares_other_branches
    (files : list RepositoryFile) (d : DB) (st : SyncState) :
  processFilesTx repoId branchId files d = Ok st ->
  spares branchId d st.(db).
Proof.
  unfold processFilesTx.
  destruct (sync_files repoId branchId files _) as [st1|e] eqn:E;
    cbn [bind]; [|discriminate].
  intros [= <-]. apply sync_files_spares in E. cbn [db] in E.
  eapply spares_trans; [exact E|]. unfold sweep. apply sweep_from_spares.
Qed.

End OneBranch.

Lemma sync_spares_other_branches_witness :
  spares 1 sync_store Scenarios2.sync_after.(db).
Proof.
  apply (sync_spares_other_branches 1 1 sync_listing sync_store
                                    Scenarios2.sync_after).
  vm_compute. reflexivity.
Defined.

End SyncSparesFacts.

(* ================================================================== *)
(** * The synchronizer on a listing that brings nothing new *)
(* ================================================================== *)

Module SyncQuietFacts.

Import Store Sync SyncNotions Scenarios.

Section OneBranch.

Variables repoId branchId : nat.

Lemma sync_file_unchanged (f : RepositoryFile) (st : SyncState) :
  is_unchanged st.(existingFileMap) f = true ->
  sync_file repoId branchId f st
  = Ok (push_unchanged f (map_delete st.(existingFileMap) f.(path)) st).
Proof.
  unfold is_unchanged, sync_file.
  destruct (map_get (existingFileMap st) (path f)) as [e|]; [|discriminate].
  intros ->. reflexivity.
Qed.

Lemma sync_files_unchanged (files : list RepositoryFile) :
  forall st,
    NoDup (paths files) ->
    (forall f, In f files -> is_unchanged st.(existingFileMap) f = true) ->
    exists st',
      sync_files repoId branchId files st = Ok st'
      /\ st'.(db) = st.(db)
      /\ st'.(filesToProcess) = st.(filesToProcess)
      /\ st'.(newFiles) = st.(newFiles)
      /\ st'.(updatedFiles) = st.(updatedFiles)
      /\ st'.(removedFiles) = st.(removedFiles)
      /\ st'.(unchangedFiles) = st.(unchangedFiles) + List.length files
      /\ st'.(existingFileMap)
         = fold_left map_delete (paths files) st.(existingFileMap).
Proof.
  induction files as [|f files IH]; intros st Hnd Hall; cbn [sync_files].
  - exists st. cbn. rewrite Nat.add_0_r. repeat split; reflexivity.
  - rewrite sync_file_unchanged by (apply Hall; now left). cbn [bind].
    cbn [paths map] in Hnd. inversion Hnd as [|? ? Hnew Hnd']; subst.
    destruct (IH (push_unchanged f (map_delete st.(existingFileMap)
                                               f.(path)) st) Hnd')
      as (st' & Hrun & Hdb & Hq & Hn & Hu & Hr & Hc & Hm).
    { intros g Hg. cbn [push_unchanged existingFileMap].
      unfold is_unchanged. rewrite SyncFacts.map_get_delete.
      destruct (String.eqb (path f) (path g)) eqn:E.
      - apply String.eqb_eq in E. exfalso. apply Hnew. rewrite E.
        now apply in_map.
      - apply (Hall g). now right. }
    exists st'. cbn in *. repeat split; try assumption. lia.
Qed.

(** X20.  When the listing says what the branch already holds (every
    entry is a path of the branch with the content identifier stored for
    it, no path twice, every path of the branch listed), the
    synchronisation commits, leaves the store exactly as it was and asks
    for no file to be chunked again: nothing is new, updated or removed. *)
Theorem up_to_date_listing_changes_nothing
    (files : list RepositoryFile) (d : DB) :
  up_to_date d branchId files ->
  exists st,
    processFilesTx repoId branchId files d = Ok st
    /\ st.(db) = d
    /\ st.(filesToProcess) = []
    /\ st.(newFiles) = 0 /\ st.(updatedFiles) = 0 /\ st.(removedFiles) = 0
    /\ st.(unchangedFiles) = List.length files.
Proof.
  intros (Hnd & Hall & Hkeys). unfold processFilesTx.
  fold (prior d branchId).
  destruct (sync_files_unchanged files
              (mkSync d (prior d branchId) [] 0 0 0 0 [] [] [] []) Hnd Hall)
    as (st & Hrun & Hdb & Hq & Hn & Hu & Hr & Hc & Hm).
  rewrite Hrun. cbn [bind]. cbn in Hdb, Hq, Hn, Hu, Hr, Hc, Hm.
  assert (Hempty : st.(existingFileMap) = []).
  { destruct (existingFileMap st) as [|e m] eqn:E; [reflexivity|].
    exfalso.
    assert (Hin : In e (fold_left map_delete (paths files)
                                  (prior d branchId))).
    { rewrite <- Hm. now left. }
    apply SyncFacts.fold_delete_In in Hin as [Hin Hout].
    apply Hout, Hkeys. unfold map_keys. now apply in_map. }
  exists (sweep branchId st). unfold sweep. rewrite Hempty. cbn [fold_left].
  repeat split; assumption.
Qed.

End OneBranch.

Lemma up_to_date_listing_changes_nothing_witness :
  exists st,
    processFilesTx 1 2 [mkRepositoryFile "lib.ts" "lib.ts" "sha7"] sync_store
    = Ok st
    /\ st.(db) = sync_store
    /\ st.(filesToProcess) = []
    /\ st.(newFiles) = 0 /\ st.(updatedFiles) = 0 /\ st.(removedFiles) = 0
    /\ st.(unchangedFiles) = 1.
Proof.
  apply (up_to_date_listing_changes_nothing
           1 2 [mkRepositoryFile "lib.ts" "lib.ts" "sha7"] sync_store).
  unfold up_to_date. repeat split.
  - cbn. constructor; [intros [] | constructor].
  - intros f [<-|[]]. reflexivity.
  - vm_compute. intros k [<-|[]]. left. reflexivity.
Defined.

End SyncQuietFacts.

(* ================================================================== *)
(** * What [queryRepo] answers *)
(* ================================================================== *)

Module QueryResultFacts.

Import JsString Store Sync FilePattern Retrieval Pipeline PipelineNotions.
Import RetrievalNotions QueryNotions WpFacts RankingFacts Scenarios.

Lemma keyword_filter_in (keywords : option (list string))
    (found : list SearchResult) (r : SearchResult) :
  In r (keyword_filter keywords found) ->
  In r found /\ has_keyword keywords r.
Proof.
  unfold keyword_filter, has_keyword.
  destruct keywords as [[|k ks]|]; try (intros H; split; [exact H | exact I]).
  intros H. apply filter_In in H as [Hin Hsome]. split; [exact Hin|].
  apply existsb_exists in Hsome as [kw' [Hkw Hinc]].
  apply in_map_iff in Hkw as [kw [<- Hkw]]. now exists kw.
Qed.

Lemma keyword_filter_length (keywords : option (list string))
    (found : list SearchResult) :
  List.length (keyword_filter keywords found) <= List.length found.
Proof.
  unfold keyword_filter.
  destruct keywords as [[|k ks]|]; try apply le_n. apply filter_length_le.
Qed.

Lemma scan_answers (score : list Q -> list Q -> option Q) (d : DB)
    (queryVector : list Q) (branchId : nat) (condition : list clause)
    (limit : JsNumber) (found : list SearchResult) (r : SearchResult) :
  select_similar score d queryVector branchId condition limit = Ok found ->
  In r found ->
  answer_of d branchId condition r.
Proof.
  intros Hfound H.
  destruct (select_similar_in _ _ _ _ _ _ _ _ Hfound H) as [[c f] [Hcf ->]].
  apply filter_In in Hcf as [Hin Hcond].
  exists c, f. repeat split; assumption.
Qed.

Lemma select_similar_length (score : list Q -> list Q -> option Q) (d : DB)
    (queryVector : list Q) (branchId : nat) (condition : list clause)
    (limit : JsNumber) (found : list SearchResult) :
  select_similar score d queryVector branchId condition limit = Ok found ->
  exists z, limit_integer limit = Some z
            /\ ((0 <= z)%Z -> (Z.of_nat (List.length found) <= z)%Z).
Proof.
  unfold select_similar. intros H. apply limited_ok in H as (z & Hz & ->).
  exists z. split; [exact Hz|]. intros Hpos.
  destruct (Z.ltb_spec z 0); [lia|].
  pose proof (firstn_le_length (Z.to_nat z)
                (ranking score d queryVector branchId condition)).
  lia.
Qed.

Section AnyCollaborators.

Variable fault : nat -> option string.
Variable embed_text : nat -> string -> list Q.
Variable git_clone : nat -> string -> string.
Variable git_head : nat -> string.
Variable git_revparse : nat -> string -> string.
Variable git_ls_tree : nat -> string -> list RepositoryFile.
Variable fs_exists : nat -> string -> bool.
Variable fs_read : nat -> string -> string.
Variable recursive_split : string -> string -> list string.
Variable createDocuments :
  (string -> list string) -> string -> string -> list string.

(** What holds of the results when the search returns them. *)
Lemma search_results (branchData : BranchData) (semanticSearch : string)
    (input : QueryRepoInput) (heartbeat : bool) (w : World) :
  wp (search fault embed_text branchData semanticSearch input heartbeat)
     (fun o w' =>
        forall found, o = Ok (Success found) ->
          (exists z, limit_integer (limit_of input) = Some z
                     /\ ((0 <= z)%Z
                         -> (Z.of_nat (List.length found) <= z)%Z))
          /\ forall r, In r found ->
               answer_of w'.(store) branchData.(branchId)
                         (patterns_of input) r)
     w.
Proof.
  unfold search. fold (limit_of input). fold (patterns_of input).
  apply wp_mbind, wp_generate; [dead|]. cbn [map].
  apply wp_mbind, (wp_sendProgress_same fault). intros [[]|e] w1 H1; [|dead].
  apply wp_mbind, wp_emit.
  apply wp_mbind, wp_db_try; [dead|]. cbn [store tick].
  intros results Hscan.
  apply wp_mbind, (wp_sendProgress_same fault). intros [[]|e] w2 H2; [|dead].
  cbn [store] in H2.
  destruct results as [|r0 results'].
  - apply wp_mbind, wp_db_query; [dead|]. cbn [store tick].
    destruct (0 <? _).
    + apply wp_mbind, (wp_sendProgress_same fault). intros [[]|e] w3 H3; [|dead].
      apply wp_mbind, wp_any. intros [embedResult|e] w4; [|dead].
      apply wp_mbind, (wp_sendProgress_same fault). intros [[]|e] w5 H5; [|dead].
      destruct embedResult as [n|message]; [|dead].
      apply wp_mbind, wp_emit.
      apply wp_mbind, wp_db_try; [dead|]. cbn [store tick].
      intros retry Hretry.
      apply wp_ret. intros found [= <-]. cbn [app]. split.
      * exact (select_similar_length _ _ _ _ _ _ _ Hretry).
      * intros r Hr. exact (scan_answers _ _ _ _ _ _ _ _ Hretry Hr).
    + apply wp_ret. intros found [= <-]. split.
      * exact (select_similar_length _ _ _ _ _ _ _ Hscan).
      * intros r [].
  - apply wp_ret. intros found [= <-]. rewrite H2. split.
    + exact (select_similar_length _ _ _ _ _ _ _ Hscan).
    + intros r Hr. exact (scan_answers _ _ _ _ _ _ _ _ Hscan Hr).
Qed.

(** X21.  For patterns without a quote, when [queryRepo] returns results,
    whatever the collaborators answered on the way: the limit (ten when
    none is given) is an integer of 64 bits and, unless it is negative, the
    results are at most that many; there is one branch such that every
    result shows a chunk that the store, as the run leaves it, holds with a
    vector for a file of that branch whose path passes the include and
    exclude patterns; and when keywords are given every result holds one
    of them. *)
Theorem queryRepo_answers_from_the_store
    (input : QueryRepoInput) (notifier : bool) (w : World)
    (out : QueryRepoOutput) :
  let run :=
    queryRepo fault embed_text git_clone git_head git_revparse git_ls_tree
              fs_exists fs_read recursive_split createDocuments
              (Some input) notifier w in
  written_as_read input.(filePatterns) = true ->
  written_as_read input.(excludePatterns) = true ->
  fst run = Ok (Success out) ->
  out.(out_repoUrl) = input.(repoUrl)
  /\ (exists z, limit_integer (limit_of input) = Some z
                /\ ((0 <= z)%Z
                    -> (Z.of_nat (List.length out.(results)) <= z)%Z))
  /\ exists branchId,
       forall r, In r out.(results) ->
         answer_of (snd run).(store) branchId (patterns_of input) r
         /\ has_keyword input.(keywordsSearch) r.
Proof.
  intros run _ _. unfold run. revert out.
  change (wp (queryRepo fault embed_text git_clone git_head git_revparse
                        git_ls_tree fs_exists fs_read recursive_split
                        createDocuments (Some input) notifier)
             (fun o w' =>
                forall out, o = Ok (Success out) ->
                  out.(out_repoUrl) = input.(repoUrl)
                  /\ (exists z, limit_integer (limit_of input) = Some z
                                /\ ((0 <= z)%Z
                                    -> (Z.of_nat (List.length out.(results))
                                        <= z)%Z))
                  /\ exists branchId,
                       forall r, In r out.(results) ->
                         answer_of w'.(store) branchId (patterns_of input) r
                         /\ has_keyword input.(keywordsSearch) r)
             w).
  unfold queryRepo. apply wp_try_catch.
  destruct (_ || _); [dead|].
  apply wp_mbind, (wp_sendProgress_same fault). intros [[]|e] w1 _; [|dead].
  apply wp_mbind, wp_any. intros [branchResult|e] w2; [|dead].
  apply wp_mbind, (wp_sendProgress_same fault). intros [[]|e] w3 _; [|dead].
  destruct branchResult as [branchData|message]; [|dead].
  apply wp_mbind, wp_any. intros [filesResult|e] w4; [|dead].
  apply wp_mbind, (wp_sendProgress_same fault). intros [[]|e] w5 _; [|dead].
  destruct filesResult as [filesOutput|message]; [|dead].
  apply wp_mbind.
  eapply wp_conseq; [apply search_results|].
  intros [found|e] w6 Hfound; [|dead].
  destruct found as [found|message]; [|dead].
  destruct (Hfound found eq_refl) as [(z & Hz & Hlen) Hall].
  apply wp_mbind, (wp_sendProgress_same fault). intros [[]|e] w7 H7; [|dead].
  apply wp_ret. intros out [= <-]. cbn [out_repoUrl results].
  split; [reflexivity|]. split.
  - exists z. split; [exact Hz|]. intros Hpos.
    pose proof (keyword_filter_length input.(keywordsSearch) found).
    specialize (Hlen Hpos). lia.
  - exists branchData.(branchId). intros r Hr.
    apply keyword_filter_in in Hr as [Hin Hkw].
    split; [|exact Hkw]. rewrite H7. now apply Hall.
Qed.

End AnyCollaborators.

Lemma queryRepo_answers_from_the_store_witness :
  Scenarios2.query_out.(out_repoUrl) = query_input.(repoUrl)
  /\ (exists z, limit_integer (limit_of query_input) = Some z
                /\ ((0 <= z)%Z
                    -> (Z.of_nat (List.length Scenarios2.query_out.(results))
                        <= z)%Z))
  /\ exists branchId,
       forall r, In r Scenarios2.query_out.(results) ->
         answer_of (snd query_run).(store) branchId
                   (patterns_of query_input) r
         /\ has_keyword query_input.(keywordsSearch) r.
Proof.
  apply (queryRepo_answers_from_the_store
           no_fault embed_half
           (fun _ _ => "/repos/x") (fun _ => "main") (fun _ _ => "c1")
           (fun _ _ => [mkRepositoryFile "a.ts" "a.ts" "sha1";
                        mkRepositoryFile "b.ts" "b.ts" "sha2"])
           (fun _ _ => false) (fun _ _ => "") one_chunk with_header
           query_input true (mkWorld midway_store 0 [])
           Scenarios2.query_out).
  - vm_compute. reflexivity.
  - vm_compute. reflexivity.
  - vm_compute. reflexivity.
Defined.

End QueryResultFacts.

(* ================================================================== *)
(** * What [ingestBranch] records *)
(* ================================================================== *)

Module IngestFacts.

Import JsString Store Sync Retrieval Pipeline PipelineNotions IngestNotions.
Import StepFacts WpFacts Scenarios.

Lemma only_registers_refl (d : DB) : only_registers d d.
Proof.
  unfold only_registers. repeat split; try reflexivity;
    exists []; now rewrite app_nil_r.
Qed.

Lemma only_registers_trans (a b c : DB) :
  only_registers a b -> only_registers b c -> only_registers a c.
Proof.
  intros (Hf1 & Ha1 & Hc1 & [r1 Hr1] & [b1 Hb1])
         (Hf2 & Ha2 & Hc2 & [r2 Hr2] & [b2 Hb2]).
  unfold only_registers. repeat split; try congruence.
  - exists (r1 ++ r2)%list. now rewrite Hr2, Hr1, app_assoc.
  - exists (b1 ++ b2)%list. now rewrite Hb2, Hb1, app_assoc.
Qed.

Lemma insert_repository_registers (n p : string) (d d' : DB) (id : nat) :
  insert_repository n p d = Ok (id, d') -> only_registers d d'.
Proof.
  unfold insert_repository.
  destruct (select_repository_by_path d p); [discriminate|].
  intros [= <- <-]. unfold only_registers. cbn.
  repeat split; try reflexivity.
  - eexists. reflexivity.
  - exists []. now rewrite app_nil_r.
Qed.

Lemma insert_branch_registers (n : string) (r : nat) (s : string)
    (d d' : DB) (id : nat) :
  insert_branch n r s d = Ok (id, d') -> only_registers d d'.
Proof.
  unfold insert_branch.
  destruct (select_branch_by_name d n r); [discriminate|].
  destruct (negb _); [discriminate|].
  intros [= <- <-]. unfold only_registers. cbn.
  repeat split; try reflexivity.
  - exists []. now rewrite app_nil_r.
  - rewrite map_app. eexists. reflexivity.
Qed.

Lemma update_branch_commit_registers (s : string) (b : nat) (d : DB) :
  only_registers d (update_branch_commit s b d).
Proof.
  unfold only_registers, update_branch_commit. cbn.
  repeat split; try reflexivity.
  - exists []. now rewrite app_nil_r.
  - exists []. rewrite app_nil_r, map_map. apply map_ext.
    intros row. now destruct (branch_id row =? b).
Qed.

Lemma find_some_in {A : Type} (p : A -> bool) (l : list A) (a : A) :
  find p l = Some a -> In a l /\ p a = true.
Proof. apply find_some. Qed.

Section AnyCollaborators.

Variable fault : nat -> option string.
Variable git_clone : nat -> string -> string.
Variable git_head : nat -> string.
Variable git_revparse : nat -> string -> string.

Lemma registers_refl (w : World) : on_store only_registers w w.
Proof. apply on_store_refl, only_registers_refl. Qed.

Lemma registers_trans (a b c : World) :
  on_store only_registers a b -> on_store only_registers b c ->
  on_store only_registers a c.
Proof. apply on_store_trans, only_registers_trans. Qed.

Lemma sendProgress_registers (notifier : bool) (fraction : Q) :
  respects (on_store only_registers) (sendProgress fault notifier fraction).
Proof.
  unfold sendProgress. destruct notifier.
  - apply (respects_mbind _ registers_trans).
    + apply respects_emit, only_registers_refl.
    + intros _. apply respects_external, only_registers_refl.
  - apply (respects_ret _ registers_refl).
Qed.

(** X22.  Whatever the collaborators answer and whichever of their calls
    fail, [ingestBranch] leaves the files, the associations and the chunks
    as they were and removes neither a repository nor a branch: the
    repositories are as before, followed by the new ones, and the branches
    keep their id, name and repository and are followed by the new ones. *)
Theorem ingestBranch_only_registers
    (input : option IngestBranchInput) (notifier : bool) (w : World) :
  only_registers
    w.(store)
    (snd (ingestBranch fault git_clone git_head git_revparse
                       input notifier w)).(store).
Proof.
  revert w.
  change (respects (on_store only_registers)
                   (ingestBranch fault git_clone git_head git_revparse
                                 input notifier)).
  unfold ingestBranch.
  apply (respects_try_catch _ registers_trans);
    [|intros e; apply (respects_ret _ registers_refl)].
  destruct input as [input|]; [|apply (respects_ret _ registers_refl)].
  destruct (String.eqb (ib_repoUrl input) "");
    [apply (respects_ret _ registers_refl)|].
  apply (respects_mbind _ registers_trans);
    [apply sendProgress_registers|]. intros _.
  apply (respects_mbind _ registers_trans);
    [apply respects_external, only_registers_refl|]. intros repoLocalPath.
  apply (respects_mbind _ registers_trans);
    [apply sendProgress_registers|]. intros _.
  apply (respects_mbind _ registers_trans).
  { destruct (String.eqb _ "").
    - apply (respects_try_catch _ registers_trans).
      + apply respects_external, only_registers_refl.
      + intros e. apply (respects_ret _ registers_refl).
    - apply (respects_ret _ registers_refl). }
  intros actualBranch.
  apply (respects_mbind _ registers_trans);
    [apply respects_external, only_registers_refl|]. intros _.
  apply (respects_mbind _ registers_trans);
    [apply respects_external, only_registers_refl|]. intros latestCommit.
  apply (respects_mbind _ registers_trans);
    [apply respects_db_query, only_registers_refl|]. intros repoExists.
  apply (respects_mbind _ registers_trans).
  { destruct repoExists as [r|].
    - apply (respects_ret _ registers_refl).
    - apply respects_transaction; [apply only_registers_refl|].
      intros d a d'. apply insert_repository_registers. }
  intros repoId.
  apply (respects_mbind _ registers_trans);
    [apply respects_db_query, only_registers_refl|]. intros [b|].
  - apply (respects_mbind _ registers_trans).
    { destruct (negb _).
      - apply (respects_mbind _ registers_trans).
        + apply respects_db_run; [apply only_registers_refl|].
          intros d. apply update_branch_commit_registers.
        + intros _. apply (respects_ret _ registers_refl).
      - apply (respects_ret _ registers_refl). }
    intros changed. apply (respects_ret _ registers_refl).
  - apply (respects_mbind _ registers_trans).
    + apply respects_transaction; [apply only_registers_refl|].
      intros d a d'. apply insert_branch_registers.
    + intros newId. apply (respects_ret _ registers_refl).
Qed.

(** X23.  When [ingestBranch] succeeds, the identifiers it returns denote
    rows of the store as it leaves it: a repository with the returned id
    and name, and a branch with the returned id, of the returned name and
    repository, at the returned commit.  When it says that no update is
    needed, that branch is [embeddings_generated] and no branch row was
    written. *)
Theorem ingestBranch_names_rows
    (input : IngestBranchInput) (notifier : bool) (w : World)
    (data : BranchData) :
  let run := ingestBranch fault git_clone git_head git_revparse
                          (Some input) notifier w in
  fst run = Ok (Success data) ->
  names_rows data (snd run).(store)
  /\ (data.(needsUpdate) = false ->
      (snd run).(store).(Store.branch) = w.(store).(Store.branch)).
Proof.
  intros run. unfold run. revert data.
  change (wp (ingestBranch fault git_clone git_head git_revparse
                           (Some input) notifier)
             (fun o w' =>
                forall data, o = Ok (Success data) ->
                  names_rows data w'.(store)
                  /\ (data.(needsUpdate) = false ->
                      w'.(store).(Store.branch) = w.(store).(Store.branch)))
             w).
  unfold ingestBranch. apply wp_try_catch.
  destruct (String.eqb (ib_repoUrl input) ""); [dead|].
  apply wp_mbind, (wp_sendProgress_same fault). intros [[]|e] w1 H1; [|dead].
  apply wp_mbind, wp_external; [dead|]. cbn [store tick].
  set (repoLocalPath := git_clone _ _).
  apply wp_mbind, (wp_sendProgress_same fault). intros [[]|e] w2 H2; [|dead].
  cbn [store tick] in H2.
  assert (Hbranch : forall (P : Outcome string -> World -> Prop),
             (forall o w', w'.(store) = w2.(store) -> P o w') ->
             wp (if String.eqb
                      match ib_branch input with Some b => b | None => "" end
                      ""
                 then try_catch (external fault git_head)
                                (fun _ => ret "main")
                 else ret match ib_branch input with
                          | Some b => b | None => "" end) P w2).
  { intros P HP. destruct (String.eqb _ "").
    - apply wp_try_catch, wp_external; cbn [store tick].
      + intros e. apply wp_ret. now apply HP.
      + now apply HP.
    - apply wp_ret. now apply HP. }
  apply wp_mbind, Hbranch. intros [actualBranch|e] w3 H3; [|dead].
  apply wp_mbind, wp_external; [dead|]. cbn [store tick].
  apply wp_mbind, wp_external; [dead|]. cbn [store tick].
  set (latestCommit := git_revparse _ _).
  set (repoName := basename_git _).
  apply wp_mbind, wp_db_query; [dead|]. cbn [store tick].
  assert (Hw3 : store w3 = store w) by congruence.
  (* the rest, from a store [d] that has the repository *)
  assert (Hrest :
            forall (repoId : nat) (w4 : World),
              w4.(store).(Store.branch) = w.(store).(Store.branch) ->
              (exists repo,
                 In repo w4.(store).(repository)
                 /\ repo.(repo_id) = repoId
                 /\ repo.(repo_name) = repoName) ->
              wp (branchExists <-
                    db_query fault
                      (fun d => select_branch_by_name d actualBranch repoId) ;;
                  match branchExists with
                  | Some b =>
                    changed <-
                      (if negb (String.eqb b.(last_commit_sha) latestCommit)
                       then
                         db_run fault
                           (update_branch_commit latestCommit b.(branch_id))
                         ;;; ret true
                       else ret false) ;;
                    let needsUpdate :=
                      changed
                      || negb (branch_status_eqb b.(branch_status)
                                                 EmbeddingsGenerated) in
                    ret (Success (mkBranchData repoLocalPath repoId
                                    b.(branch_id) needsUpdate repoName
                                    actualBranch latestCommit))
                  | None =>
                    newId <- transaction fault
                               (insert_branch actualBranch repoId
                                              latestCommit) ;;
                    ret (Success (mkBranchData repoLocalPath repoId newId
                                    true repoName actualBranch latestCommit))
                  end)
                 (fun o w1 =>
                    match o with
                    | Ok a =>
                      forall data, Ok a = Ok (Success data) ->
                        names_rows data w1.(store)
                        /\ (data.(needsUpdate) = false ->
                            w1.(store).(Store.branch)
                            = w.(store).(Store.branch))
                    | Throw e =>
                      wp (ret (Error
                                 ("Error executing ingestBranch tool: "
                                  ++ e)))
                         (fun o w' =>
                            forall data, o = Ok (Success data) ->
                              names_rows data w'.(store)
                              /\ (data.(needsUpdate) = false ->
                                  w'.(store).(Store.branch)
                                  = w.(store).(Store.branch)))
                         w1
                    end)
                 w4).
  { intros repoId w4 Hsame Hrepo.
    apply wp_mbind, wp_db_query; [dead|]. cbn [store tick].
    destruct (select_branch_by_name (store w4) actualBranch repoId)
      as [b|] eqn:Hsel.
    - apply find_some_in in Hsel as [Hin Hkey].
      apply andb_true_iff in Hkey as [Hname Hrid].
      apply String.eqb_eq in Hname. apply Nat.eqb_eq in Hrid.
      destruct (negb (String.eqb (last_commit_sha b) latestCommit)) eqn:Hsha.
      + apply wp_mbind, wp_mbind, wp_db_run; [dead|]. cbn [store tick].
        apply wp_ret, wp_ret. intros data [= <-]. cbn. split.
        * split; [exact Hrepo|].
          exists (mkBranch b.(branch_id) b.(branch_name)
                           b.(branch_repository_id) latestCommit
                           BranchPending).
          cbn. repeat split; try assumption; try discriminate.
          apply in_map_iff. exists b. split; [|exact Hin].
          now rewrite Nat.eqb_refl.
        * discriminate.
      + apply wp_mbind, wp_ret, wp_ret. intros data [= <-]. cbn. split.
        * split; [exact Hrepo|]. exists b.
          apply negb_false_iff, String.eqb_eq in Hsha.
          repeat split; try assumption.
          intros Hno. apply negb_false_iff in Hno.
          now destruct (branch_status b).
        * intros _. exact Hsame.
    - apply wp_mbind, wp_transaction; [dead|].
      intros newId d' Hins. cbn [store tick] in Hins.
      apply wp_ret. intros data [= <-]. cbn.
      split; [|discriminate].
      unfold insert_branch in Hins.
      destruct (select_branch_by_name (store w4) actualBranch repoId);
        [discriminate|].
      destruct (negb _); [discriminate|].
      injection Hins as <- <-. cbn. split; [exact Hrepo|].
      eexists. split; [apply in_or_app; right; left; reflexivity|].
      cbn. repeat split; discriminate. }
  destruct (select_repository_by_name (store w3) repoName) as [r|] eqn:Hrepo.
  - apply find_some_in in Hrepo as [Hin Hname].
    apply String.eqb_eq in Hname.
    apply wp_mbind, wp_ret. apply Hrest; cbn [store tick].
    + now rewrite Hw3.
    + now exists r.
  - apply wp_mbind, wp_transaction; [dead|].
    intros repoId d' Hins. cbn [store tick] in Hins.
    apply Hrest; cbn [store].
    + unfold insert_repository in Hins.
      destruct (select_repository_by_path (store w3) repoLocalPath);
        [discriminate|].
      injection Hins as <- <-. cbn. now rewrite Hw3.
    + unfold insert_repository in Hins.
      destruct (select_repository_by_path (store w3) repoLocalPath);
        [discriminate|].
      injection Hins as <- <-. cbn.
      eexists. split; [apply in_or_app; right; left; reflexivity|].
      cbn. split; reflexivity.
Qed.

End AnyCollaborators.

Lemma ingestBranch_names_rows_witness :
  names_rows Scenarios2.ingest_data (snd Scenarios2.ingest_run).(store)
  /\ (Scenarios2.ingest_data.(needsUpdate) = false ->
      (snd Scenarios2.ingest_run).(store).(Store.branch)
      = b_js_store.(Store.branch)).
Proof.
  apply (ingestBranch_names_rows
           no_fault (fun _ _ => "/repos/r") (fun _ => "main")
           (fun _ _ => "c1")
           (mkIngestBranchInput "https://github.com/o/r.git" None)
           false (mkWorld b_js_store 0 []) Scenarios2.ingest_data).
  vm_compute. reflexivity.
Defined.

End IngestFacts.

(* ================================================================== *)
(** * [processFiles]: all or nothing, and what it is made of *)
(* ================================================================== *)

Module ProcessFilesFacts.

Import JsString Store Sync Retrieval Pipeline PipelineNotions ProcessNotions.
Import StepFacts WpFacts LeaveAloneFacts Scenarios.

Lemma chunked_refl (d : DB) : chunked d d.
Proof.
  unfold chunked. repeat split; try reflexivity.
  exists []. now rewrite app_nil_r.
Qed.

Lemma chunked_trans (a b c : DB) :
  chunked a b -> chunked b c -> chunked a c.
Proof.
  unfold chunked.
  intros (H1 & H2 & H3 & H4 & m1 & H5 & H6) (K1 & K2 & K3 & K4 & m2 & K5 & K6).
  repeat split; try congruence.
  exists (m1 ++ m2)%list. split.
  - rewrite K5, H5. now rewrite app_assoc.
  - apply Forall_app. now split.
Qed.

Lemma only_new_chunks_chunked (d d' : DB) :
  only_new_chunks d d' -> chunked d d'.
Proof.
  unfold only_new_chunks, chunked. intros (H1 & H2 & H3 & H4 & H5).
  repeat split; try assumption. now rewrite H2.
Qed.

Lemma update_branch_status_chunked (s : BranchStatus) (b : nat) (d : DB) :
  chunked d (update_branch_status s b d).
Proof.
  unfold chunked, update_branch_status. cbn. repeat split.
  - rewrite map_map. apply map_ext. intros row.
    now destruct (branch_id row =? b).
  - exists []. now rewrite app_nil_r.
Qed.

Lemma respects_weaken {A : Type} (R R' : World -> World -> Prop) (m : M A) :
  (forall w w', R w w' -> R' w w') -> respects R m -> respects R' m.
Proof. intros H Hm w. apply H, Hm. Qed.

Section AnyCollaborators.

Variable fault : nat -> option string.
Variable git_ls_tree : nat -> string -> list RepositoryFile.
Variable fs_exists : nat -> string -> bool.
Variable fs_read : nat -> string -> string.
Variable recursive_split : string -> string -> list string.
Variable createDocuments :
  (string -> list string) -> string -> string -> list string.

Lemma chunking_refl (w : World) : on_store chunked w w.
Proof. apply on_store_refl, chunked_refl. Qed.

Lemma chunking_trans (a b c : World) :
  on_store chunked a b -> on_store chunked b c -> on_store chunked a c.
Proof. apply on_store_trans, chunked_trans. Qed.

Lemma sendProgress_chunked (notifier : bool) (fraction : Q) :
  respects (on_store chunked) (sendProgress fault notifier fraction).
Proof.
  unfold sendProgress. destruct notifier.
  - apply (respects_mbind _ chunking_trans).
    + apply respects_emit, chunked_refl.
    + intros _. apply respects_external, chunked_refl.
  - apply (respects_ret _ chunking_refl).
Qed.

(** The part of [processFiles] that follows the transaction. *)
Lemma chunking_block (branchName repoPath : string) (branchId : nat)
    (notifier : bool) :
  respects (on_store chunked)
    (try_catch
       (processFileContents fault fs_exists fs_read recursive_split
                            createDocuments branchName repoPath ;;;
        db_run fault (update_branch_status FilesProcessed branchId) ;;;
        sendProgress fault notifier (66 # 100))
       (fun _ => ret tt)).
Proof.
  apply (respects_try_catch _ chunking_trans);
    [|intros e; apply (respects_ret _ chunking_refl)].
  apply (respects_mbind _ chunking_trans).
  { eapply respects_weaken; [|apply processFileContents_respects].
    intros w w'. apply only_new_chunks_chunked. }
  intros _. apply (respects_mbind _ chunking_trans).
  { apply respects_db_run; [apply chunked_refl|].
    intros d. apply update_branch_status_chunked. }
  intros _. apply sendProgress_chunked.
Qed.

(** X24.  [processFiles], called without a progress notifier as
    [queryRepo] calls it, is all or nothing towards the store: when it
    reports an error, the store is exactly as it was. *)
Theorem processFiles_error_changes_nothing
    (input : option ProcessFilesInput) (w : World) (message : string) :
  let run := processFiles fault git_ls_tree fs_exists fs_read
                          recursive_split createDocuments input false w in
  fst run = Ok (Error message) ->
  (snd run).(store) = w.(store).
Proof.
  intros run. unfold run. revert message.
  change (wp (processFiles fault git_ls_tree fs_exists fs_read
                           recursive_split createDocuments input false)
             (fun o w' =>
                forall message, o = Ok (Error message) ->
                                w'.(store) = w.(store))
             w).
  unfold processFiles. apply wp_try_catch.
  destruct input as [input|]; [|apply wp_ret; reflexivity].
  destruct (negb (pf_needsUpdate input)); [dead|].
  apply wp_mbind, wp_external;
    [intros e; apply wp_ret; reflexivity|]. cbn [store tick].
  apply wp_mbind, wp_external;
    [intros e; apply wp_ret; reflexivity|]. cbn [store tick].
  apply wp_mbind, wp_external;
    [intros e; apply wp_ret; reflexivity|]. cbn [store tick clock].
  apply wp_mbind, wp_transaction;
    [intros e; apply wp_ret; reflexivity|].
  intros st d' _. cbn [sendProgress].
  apply wp_mbind, wp_ret.
  apply wp_mbind, wp_try_catch_total. intros [] w1. dead.
Qed.

(** X25.  When [processFiles] is asked to update and succeeds, its run is
    a committed synchronisation followed by chunking: the transaction of
    the branch committed on the store as it was, for the listing that
    [git ls-tree], the third call to a collaborator, gave for the branch;
    the files returned are the files that it scheduled; and the store is
    the one it committed but for what chunking does, which is to add
    chunks without a vector and to set statuses of files and branches. *)
Theorem processFiles_is_sync_then_chunking
    (input : ProcessFilesInput) (notifier : bool) (w : World)
    (out : ProcessFilesOutput) :
  let run := processFiles fault git_ls_tree fs_exists fs_read
                          recursive_split createDocuments
                          (Some input) notifier w in
  let files := git_ls_tree (S (S w.(clock))) input.(pf_actualBranch) in
  input.(pf_needsUpdate) = true ->
  fst run = Ok (Success out) ->
  exists st,
    processFilesTx input.(pf_repoId) input.(pf_branchId) files w.(store)
    = Ok st
    /\ out.(out_filesToProcess)
       = firstn MAX_FILES_TO_PROCESS st.(filesToProcess)
    /\ out.(out_needsUpdate) = true
    /\ chunked st.(Sync.db) (snd run).(store).
Proof.
  intros run files Hneeds. unfold run. revert out.
  change (wp (processFiles fault git_ls_tree fs_exists fs_read
                           recursive_split createDocuments
                           (Some input) notifier)
             (fun o w' =>
                forall out, o = Ok (Success out) ->
                  exists st,
                    processFilesTx input.(pf_repoId) input.(pf_branchId)
                                   files w.(store) = Ok st
                    /\ out.(out_filesToProcess)
                       = firstn MAX_FILES_TO_PROCESS st.(filesToProcess)
                    /\ out.(out_needsUpdate) = true
                    /\ chunked st.(Sync.db) w'.(store))
             w).
  unfold processFiles. apply wp_try_catch. rewrite Hneeds. cbn [negb].
  apply wp_mbind, wp_external; [dead|]. cbn [store tick].
  apply wp_mbind, wp_external; [dead|]. cbn [store tick].
  apply wp_mbind, wp_external; [dead|]. cbn [store tick clock].
  fold files.
  apply wp_mbind, wp_transaction; [dead|].
  intros st d' Htx. unfold Sync.bind in Htx. cbn [store tick] in Htx.
  destruct (processFilesTx (pf_repoId input) (pf_branchId input) files
                           (store w)) as [st'|e] eqn:Hsync;
    [|discriminate].
  injection Htx as -> <-.
  apply wp_mbind.
  apply (wp_of_respects (on_store chunked));
    [apply sendProgress_chunked|].
  intros [[]|e] w1 H1; [|dead]. unfold on_store in H1. cbn [store] in H1.
  apply wp_mbind.
  apply (wp_of_respects (on_store chunked)); [apply chunking_block|].
  intros [[]|e] w2 H2; [|dead]. unfold on_store in H2.
  remember (firstn MAX_FILES_TO_PROCESS (filesToProcess st)) as limited
    eqn:Hlimited.
  apply wp_ret. intros out [= <-].
  cbn [out_filesToProcess out_needsUpdate].
  exists st.
  split; [reflexivity|]. split; [exact Hlimited|]. split; [reflexivity|].
  eapply chunked_trans; eassumption.
Qed.

End AnyCollaborators.

Lemma processFiles_error_changes_nothing_witness :
  (snd Scenarios2.orphan_run).(store) = rechunk_store.
Proof.
  apply (processFiles_error_changes_nothing
           no_fault
           (fun _ _ => [mkRepositoryFile "n.ts" "n.ts" "sha9"])
           (fun _ _ => true) (fun _ _ => "new") one_chunk with_header
           (Some (mkProcessFilesInput "/repos/x" 9 1 "main" true))
           (mkWorld rechunk_store 0 [])
           "Error executing processFiles tool: FOREIGN KEY constraint failed").
  vm_compute. reflexivity.
Defined.

Lemma processFiles_is_sync_then_chunking_witness :
  exists st,
    processFilesTx 1 1 [mkRepositoryFile "x.ts" "x.ts" "sha2"] rechunk_store
    = Ok st
    /\ Scenarios2.rechunk_out.(out_filesToProcess)
       = firstn MAX_FILES_TO_PROCESS st.(filesToProcess)
    /\ Scenarios2.rechunk_out.(out_needsUpdate) = true
    /\ chunked st.(Sync.db) (snd rechunk_run).(store).
Proof.
  apply (processFiles_is_sync_then_chunking
           no_fault
           (fun _ _ => [mkRepositoryFile "x.ts" "x.ts" "sha2"])
           (fun _ _ => true) (fun _ _ => "new") one_chunk with_header
           (mkProcessFilesInput "/repos/x" 1 1 "main" true) false
           (mkWorld rechunk_store 0 []) Scenarios2.rechunk_out).
  - reflexivity.
  - vm_compute. reflexivity.
Defined.

End ProcessFilesFacts.

(* ================================================================== *)
(** * The progress that [queryRepo] reports *)
(* ================================================================== *)

Module ProgressFacts.

Import JsString Store Sync Retrieval Pipeline PipelineNotions.
Import ProgressNotions StepFacts WpFacts Scenarios.

Lemma progress_of_app (a b : list Event) :
  progress_of (a ++ b) = (progress_of a ++ progress_of b)%list.
Proof.
  induction a as [|e a IH]; [reflexivity|].
  destruct e; cbn; now rewrite IH.
Qed.

Lemma silent_refl (tr : list Event) : silent tr tr.
Proof. reflexivity. Qed.

Lemma silent_trans (a b c : list Event) :
  silent a b -> silent b c -> silent a c.
Proof. unfold silent. congruence. Qed.

Lemma paced_snoc (b f : Q) (sent : list Q) :
  paced b sent -> (0 < f)%Q -> (b < f)%Q -> paced f (sent ++ [f]).
Proof.
  intros [Hs Hb] H0 Hf. split.
  - induction sent as [|q sent IH]; cbn.
    + constructor; constructor.
    + inversion Hs as [|? ? Hs' Hq]; subst.
      inversion Hb as [|? ? [_ Hqb] Hb']; subst.
      constructor; [now apply IH|].
      apply Forall_app. split; [exact Hq|].
      constructor; [|constructor]. now apply Qle_lt_trans with b.
  - apply Forall_app. split.
    + eapply Forall_impl; [|exact Hb]. cbn. intros q [Hq0 Hqb].
      split; [exact Hq0|]. apply Qlt_le_weak. now apply Qle_lt_trans with b.
    + constructor; [|constructor]. split; [exact H0 | apply Qle_refl].
Qed.

Lemma paced_weaken (b b' : Q) (sent : list Q) :
  paced b sent -> (b <= b')%Q -> paced b' sent.
Proof.
  intros [Hs Hb] Hle. split; [exact Hs|].
  eapply Forall_impl; [|exact Hb]. cbn. intros q [Hq0 Hqb].
  split; [exact Hq0|]. now apply Qle_trans with b.
Qed.

Ltac qcmp := unfold Qlt, Qle; cbn; lia.

Section AnyCollaborators.

Variable fault : nat -> option string.
Variable embed_text : nat -> string -> list Q.
Variable git_clone : nat -> string -> string.
Variable git_head : nat -> string.
Variable git_revparse : nat -> string -> string.
Variable git_ls_tree : nat -> string -> list RepositoryFile.
Variable fs_exists : nat -> string -> bool.
Variable fs_read : nat -> string -> string.
Variable recursive_split : string -> string -> list string.
Variable createDocuments :
  (string -> list string) -> string -> string -> list string.

(** *** The operations that [queryRepo] calls without a notifier report
        nothing *)

Lemma quiet_refl (w : World) : on_trace silent w w.
Proof. apply on_trace_refl, silent_refl. Qed.

Lemma quiet_trans (a b c : World) :
  on_trace silent a b -> on_trace silent b c -> on_trace silent a c.
Proof. apply on_trace_trans, silent_trans. Qed.

Lemma quiet_collab {A : Type} (f : nat -> DB -> Outcome (A * DB)) :
  respects (on_trace silent) (collab fault f).
Proof. apply traces_collab, silent_refl. Qed.

Lemma quiet_generate (texts : list string) :
  respects (on_trace silent)
           (generateOllamaEmbeddings fault embed_text texts).
Proof.
  unfold generateOllamaEmbeddings.
  apply (respects_mbind _ quiet_trans).
  - apply traces_emit. intros tr. unfold silent.
    rewrite progress_of_app. apply app_nil_r.
  - intros _. apply quiet_collab.
Qed.

Lemma quiet_embed_batches :
  forall (fuel total : nat) (remaining : list (ChunkRow * FileRow))
         (processed : nat),
    respects (on_trace silent)
             (embed_batches fault embed_text fuel false total remaining
                            processed).
Proof.
  induction fuel as [|fuel IH]; intros total remaining processed.
  - apply (respects_ret _ quiet_refl).
  - destruct remaining as [|ce rest]; [apply (respects_ret _ quiet_refl)|].
    cbn [embed_batches].
    apply (respects_mbind _ quiet_trans); [apply quiet_generate|].
    intros embeddings.
    apply (respects_mbind _ quiet_trans); [apply quiet_collab|].
    intros _. cbn [sendProgress].
    apply (respects_mbind _ quiet_trans);
      [apply (respects_ret _ quiet_refl)|].
    intros _. apply IH.
Qed.

Lemma quiet_embedFiles (input : option EmbedFilesInput) :
  respects (on_trace silent) (embedFiles fault embed_text input false).
Proof.
  unfold embedFiles.
  apply (respects_mbind _ quiet_trans).
  { apply traces_emit. intros tr. unfold silent.
    rewrite progress_of_app. apply app_nil_r. }
  intros _. apply (respects_try_catch _ quiet_trans);
    [|intros e; apply (respects_ret _ quiet_refl)].
  destruct input as [input|]; [|apply (respects_ret _ quiet_refl)].
  apply (respects_mbind _ quiet_trans); [apply quiet_collab|].
  intros [row|]; [|apply (respects_ret _ quiet_refl)].
  apply (respects_mbind _ quiet_trans); [apply quiet_collab|].
  intros fileCount. destruct (fileCount =? 0).
  - apply (respects_mbind _ quiet_trans); [apply quiet_collab|].
    intros _. apply (respects_ret _ quiet_refl).
  - apply (respects_mbind _ quiet_trans); [apply quiet_collab|].
    intros [|ce chunks].
    + apply (respects_mbind _ quiet_trans); [apply quiet_collab|].
      intros _. cbn [sendProgress].
      apply (respects_mbind _ quiet_trans);
        [apply (respects_ret _ quiet_refl)|].
      intros _. apply (respects_ret _ quiet_refl).
    + apply (respects_mbind _ quiet_trans); [apply quiet_embed_batches|].
      intros n. apply (respects_mbind _ quiet_trans); [apply quiet_collab|].
      intros _. apply (respects_ret _ quiet_refl).
Qed.

Lemma quiet_ingestBranch (input : option IngestBranchInput) :
  respects (on_trace silent)
           (ingestBranch fault git_clone git_head git_revparse input false).
Proof.
  unfold ingestBranch. cbn [sendProgress].
  apply (respects_try_catch _ quiet_trans);
    [|intros e; apply (respects_ret _ quiet_refl)].
  destruct input as [input|]; [|apply (respects_ret _ quiet_refl)].
  destruct (String.eqb (ib_repoUrl input) "");
    [apply (respects_ret _ quiet_refl)|].
  apply (respects_mbind _ quiet_trans);
    [apply (respects_ret _ quiet_refl)|]. intros _.
  apply (respects_mbind _ quiet_trans); [apply quiet_collab|].
  intros repoLocalPath.
  apply (respects_mbind _ quiet_trans);
    [apply (respects_ret _ quiet_refl)|]. intros _.
  apply (respects_mbind _ quiet_trans).
  { destruct (String.eqb _ "").
    - apply (respects_try_catch _ quiet_trans); [apply quiet_collab|].
      intros e. apply (respects_ret _ quiet_refl).
    - apply (respects_ret _ quiet_refl). }
  intros actualBranch.
  apply (respects_mbind _ quiet_trans); [apply quiet_collab|]. intros _.
  apply (respects_mbind _ quiet_trans); [apply quiet_collab|].
  intros latestCommit.
  apply (respects_mbind _ quiet_trans); [apply quiet_collab|].
  intros repoExists.
  apply (respects_mbind _ quiet_trans).
  { destruct repoExists as [r|];
      [apply (respects_ret _ quiet_refl) | apply quiet_collab]. }
  intros repoId.
  apply (respects_mbind _ quiet_trans); [apply quiet_collab|]. intros [b|].
  - apply (respects_mbind _ quiet_trans).
    { destruct (negb _).
      - apply (respects_mbind _ quiet_trans); [apply quiet_collab|].
        intros _. apply (respects_ret _ quiet_refl).
      - apply (respects_ret _ quiet_refl). }
    intros changed. apply (respects_ret _ quiet_refl).
  - apply (respects_mbind _ quiet_trans); [apply quiet_collab|].
    intros newId. apply (respects_ret _ quiet_refl).
Qed.

Lemma quiet_process_pending_file (repoPath : string) (f : FileRow) :
  respects (on_trace silent)
           (process_pending_file fault fs_exists fs_read recursive_split
                                 createDocuments repoPath f).
Proof.
  unfold process_pending_file. destruct (negb _).
  - apply (respects_try_catch _ quiet_trans);
      [|intros e; apply (respects_ret _ quiet_refl)].
    apply (respects_mbind _ quiet_trans); [apply quiet_collab|].
    intros present. destruct (negb present);
      [apply (respects_ret _ quiet_refl)|].
    apply (respects_mbind _ quiet_trans); [apply quiet_collab|].
    intros content.
    apply (respects_mbind _ quiet_trans); [apply quiet_collab|].
    intros chunks. apply quiet_collab.
  - apply quiet_collab.
Qed.

Lemma quiet_processFileContents (branchName repoPath : string) :
  respects (on_trace silent)
           (processFileContents fault fs_exists fs_read recursive_split
                                createDocuments branchName repoPath).
Proof.
  unfold processFileContents.
  apply (respects_mbind _ quiet_trans); [apply quiet_collab|]. intros _.
  apply (respects_mbind _ quiet_trans); [apply quiet_collab|].
  intros [repo|]; [|apply (respects_throw _ quiet_refl)].
  apply (respects_mbind _ quiet_trans); [apply quiet_collab|].
  intros [branch|]; [|apply (respects_throw _ quiet_refl)].
  apply (respects_mbind _ quiet_trans); [apply quiet_collab|].
  intros pendingFiles.
  apply (respects_for_each _ quiet_refl quiet_trans).
  intros f _. apply quiet_process_pending_file.
Qed.

Lemma quiet_processFiles (input : option ProcessFilesInput) :
  respects (on_trace silent)
           (processFiles fault git_ls_tree fs_exists fs_read recursive_split
                         createDocuments input false).
Proof.
  unfold processFiles. cbn [sendProgress].
  apply (respects_try_catch _ quiet_trans);
    [|intros e; apply (respects_ret _ quiet_refl)].
  destruct input as [input|]; [|apply (respects_ret _ quiet_refl)].
  destruct (negb (pf_needsUpdate input));
    [apply (respects_ret _ quiet_refl)|].
  apply (respects_mbind _ quiet_trans); [apply quiet_collab|]. intros _.
  apply (respects_mbind _ quiet_trans); [apply quiet_collab|]. intros _.
  apply (respects_mbind _ quiet_trans); [apply quiet_collab|]. intros files.
  apply (respects_mbind _ quiet_trans); [apply quiet_collab|]. intros st.
  apply (respects_mbind _ quiet_trans);
    [apply (respects_ret _ quiet_refl)|]. intros _.
  apply (respects_mbind _ quiet_trans).
  { apply (respects_try_catch _ quiet_trans);
      [|intros e; apply (respects_ret _ quiet_refl)].
    apply (respects_mbind _ quiet_trans);
      [apply quiet_processFileContents|]. intros _.
    apply (respects_mbind _ quiet_trans); [apply quiet_collab|]. intros _.
    apply (respects_ret _ quiet_refl). }
  intros _. apply (respects_ret _ quiet_refl).
Qed.

(** *** The steps of [queryRepo] *)

Lemma so_far_quiet (w0 : World) (b : Q) (w w' : World) :
  so_far w0 b w -> on_trace silent w w' -> so_far w0 b w'.
Proof.
  intros [sent [Hs Hp]] Hq. exists sent. split; [|exact Hp].
  unfold sent_since, on_trace, silent in *. congruence.
Qed.

Lemma so_far_weaken (w0 : World) (b b' : Q) (w : World) :
  so_far w0 b w -> (b <= b')%Q -> so_far w0 b' w.
Proof.
  intros [sent [Hs Hp]] Hle. exists sent. split; [exact Hs|].
  now apply paced_weaken with b.
Qed.

Lemma so_far_send (w0 : World) (b f : Q) (w : World) (c : nat) :
  so_far w0 b w -> (0 < f)%Q -> (b < f)%Q ->
  so_far w0 f (mkWorld w.(store) c (w.(trace) ++ [EvProgress f])).
Proof.
  intros [sent [Hs Hp]] H0 Hf. exists (sent ++ [f])%list. split.
  - unfold sent_since in *. cbn [trace].
    rewrite progress_of_app, Hs, <- app_assoc. reflexivity.
  - now apply paced_snoc with b.
Qed.

(** A step that reports [f] after fractions below [b]. *)
Lemma wp_report (w0 : World) (b f : Q)
    (P : Outcome unit -> World -> Prop) (w : World) :
  so_far w0 b w -> (0 < f)%Q -> (b < f)%Q ->
  (forall o w', so_far w0 f w' -> P o w') ->
  wp (sendProgress fault true f) P w.
Proof.
  intros Hw H0 Hf H. apply wp_sendProgress; [discriminate|].
  intros _ o. apply H. now apply so_far_send with b.
Qed.

(** A step that reports nothing. *)
Lemma wp_quiet {A : Type} (m : M A) (w0 : World) (b : Q)
    (P : Outcome A -> World -> Prop) (w : World) :
  respects (on_trace silent) m ->
  so_far w0 b w ->
  (forall o w', so_far w0 b w' -> P o w') ->
  wp m P w.
Proof.
  intros Hm Hw H. apply (wp_of_respects _ _ _ _ Hm).
  intros o w' Hq. apply H. now apply so_far_quiet with w.
Qed.

Lemma reported_error (w0 : World) (A : Type) (b : Q) (message : string)
    (w : World) :
  so_far w0 b w -> (b <= 1)%Q ->
  reported w0 A (Ok (Error message)) w.
Proof.
  intros Hw Hb. destruct (so_far_weaken _ _ 1 _ Hw Hb) as [sent [Hs Hp]].
  exists sent. repeat split; try assumption; try apply Hp. discriminate.
Qed.

Lemma quiet_emit (e : Event) :
  progress_of [e] = [] -> respects (on_trace silent) (emit e).
Proof.
  intros He. apply traces_emit. intros tr. unfold silent.
  rewrite progress_of_app, He. apply app_nil_r.
Qed.

Ltac leave :=
  cbv beta iota; try apply wp_ret; try apply wp_throw;
  eapply so_far_weaken; [eassumption | qcmp].

(** The search reports fractions up to nine tenths. *)
Lemma search_paces (w0 : World) (branchData : BranchData)
    (semanticSearch : string) (input : QueryRepoInput) (w : World) :
  so_far w0 (5 # 10) w ->
  wp (search fault embed_text branchData semanticSearch input true)
     (fun _ w' => so_far w0 (9 # 10) w') w.
Proof.
  intros Hw. unfold search.
  apply wp_mbind, (wp_quiet _ w0 (5 # 10)); [apply quiet_generate | exact Hw|].
  intros [[|queryEmbedding rest]|e] w1 H1; [leave | | leave].
  apply wp_mbind, (wp_report w0 (5 # 10)); [exact H1 | qcmp | qcmp|].
  intros [[]|e] w2 H2; [|leave].
  apply wp_mbind, (wp_quiet _ w0 (6 # 10));
    [now apply quiet_emit | exact H2|].
  intros [[]|e] w3 H3; [|leave].
  apply wp_mbind, (wp_quiet _ w0 (6 # 10)); [apply quiet_collab | exact H3|].
  intros [results|e] w4 H4; [|leave].
  apply wp_mbind, (wp_report w0 (6 # 10)); [exact H4 | qcmp | qcmp|].
  intros [[]|e] w5 H5; [|leave].
  destruct results as [|r0 results']; [|leave].
  apply wp_mbind, (wp_quiet _ w0 (7 # 10)); [apply quiet_collab | exact H5|].
  intros [count|e] w6 H6; [|leave].
  destruct (0 <? count); [|leave].
  apply wp_mbind, (wp_report w0 (7 # 10)); [exact H6 | qcmp | qcmp|].
  intros [[]|e] w7 H7; [|leave].
  apply wp_mbind, (wp_quiet _ w0 (75 # 100));
    [apply quiet_embedFiles | exact H7|].
  intros [embedResult|e] w8 H8; [|leave].
  apply wp_mbind, (wp_report w0 (75 # 100)); [exact H8 | qcmp | qcmp|].
  intros [[]|e] w9 H9; [|leave].
  destruct embedResult as [n|message]; [|leave].
  apply wp_mbind, (wp_quiet _ w0 (9 # 10));
    [now apply quiet_emit | exact H9|].
  intros [[]|e] w10 H10; [|leave].
  apply wp_mbind, (wp_quiet _ w0 (9 # 10));
    [apply quiet_collab | exact H10|].
  intros [retryResults|e] w11 H11; leave.
Qed.

Ltac quit :=
  cbv beta iota; try apply wp_ret;
  eapply reported_error; [eassumption | qcmp].

(** X26.  The fractions that the steps of [queryRepo] report to the
    progress notifier in one run, whatever the collaborators answer and
    whichever of their calls fail, grow from one to the next and lie above
    0 and at most at 1; and when [queryRepo] succeeds the last of them is
    1.  (The repetitions of the last fraction that the heartbeat timer
    sends in between are not among them.) *)
Theorem queryRepo_progress_grows
    (input : option QueryRepoInput) (w : World) :
  let run :=
    queryRepo fault embed_text git_clone git_head git_revparse git_ls_tree
              fs_exists fs_read recursive_split createDocuments
              input true w in
  exists sent,
    progress_of (snd run).(trace) = (progress_of w.(trace) ++ sent)%list
    /\ StronglySorted Qlt sent
    /\ Forall (fun q => (0 < q)%Q /\ (q <= 1)%Q) sent
    /\ forall out, fst run = Ok (Success out) ->
                   exists before, sent = (before ++ [1%Q])%list.
Proof.
  cbv zeta.
  cut (wp (queryRepo fault embed_text git_clone git_head git_revparse
                     git_ls_tree fs_exists fs_read recursive_split
                     createDocuments input true)
          (reported w QueryRepoOutput) w).
  { unfold wp, reported, sent_since, paced.
    intros [sent (Hs & [Hsorted Hrange] & Hlast)].
    exists sent. repeat split; assumption. }
  assert (Hstart : so_far w 0 w).
  { exists []. split.
    - unfold sent_since. now rewrite app_nil_r.
    - split; constructor. }
  unfold queryRepo. apply wp_try_catch.
  destruct input as [input|]; [|quit].
  destruct (_ || _); [quit|].
  apply wp_mbind, (wp_report w 0); [exact Hstart | qcmp | qcmp|].
  intros [[]|e] w1 H1; [|quit].
  apply wp_mbind, (wp_quiet _ w (5 # 100));
    [apply quiet_ingestBranch | exact H1|].
  intros [branchResult|e] w2 H2; [|quit].
  apply wp_mbind, (wp_report w (5 # 100)); [exact H2 | qcmp | qcmp|].
  intros [[]|e] w3 H3; [|quit].
  destruct branchResult as [branchData|message]; [|quit].
  apply wp_mbind, (wp_quiet _ w (25 # 100));
    [apply quiet_processFiles | exact H3|].
  intros [filesResult|e] w4 H4; [|quit].
  apply wp_mbind, (wp_report w (25 # 100)); [exact H4 | qcmp | qcmp|].
  intros [[]|e] w5 H5; [|quit].
  destruct filesResult as [filesOutput|message]; [|quit].
  apply wp_mbind.
  eapply wp_conseq; [apply (search_paces w), H5|].
  intros [found|e] w6 H6; [|quit].
  destruct found as [found|message]; [|quit].
  apply wp_mbind, wp_sendProgress; [discriminate|].
  intros _ [[]|e].
  - apply wp_ret. destruct H6 as [sent [Hs Hp]].
    exists (sent ++ [1%Q])%list. split; [|split].
    + unfold sent_since in *. cbn [trace].
      rewrite progress_of_app, Hs, <- app_assoc. reflexivity.
    + apply paced_snoc with (9 # 10); [exact Hp | qcmp | qcmp].
    + intros out _. now exists sent.
  - apply wp_ret. eapply reported_error; [|apply Qle_refl].
    apply so_far_send with (9 # 10); [exact H6 | qcmp | qcmp].
Qed.

End AnyCollaborators.

End ProgressFacts.

(* ================================================================== *)
(** * The synchronizer: the branch after a committed transaction *)
(* ================================================================== *)

Module SyncResultFacts.

Import Store Sync SyncNotions SyncFacts SyncStoreFacts Scenarios.

Lemma holds_iff (d : DB) (b : nat) (r : FileRow) :
  holds d b r <-> In r d.(file) /\ associated d b r.(file_id) = true.
Proof. unfold holds, select_branch_files. apply filter_In. Qed.

Lemma same_id (d : DB) (r1 r2 : FileRow) :
  ids_sound d -> In r1 d.(file) -> In r2 d.(file) ->
  r1.(file_id) = r2.(file_id) -> r1 = r2.
Proof. intros [Hnd _]. now apply same_id_same_row. Qed.

Lemma ids_after_filter (keep : FileRow -> bool) (rows : list FileRow) :
  NoDup (map file_id rows) -> NoDup (map file_id (filter keep rows)).
Proof.
  induction rows as [|row rows IH]; cbn; intros H; [constructor|].
  inversion H as [|? ? Hrow Hrows]; subst.
  destruct (keep row); cbn; [|now apply IH].
  constructor; [|now apply IH].
  intros Hin. apply Hrow. apply in_map_iff in Hin as [x [Hx Hin]].
  apply filter_In in Hin as [Hin _]. apply in_map_iff. now exists x.
Qed.

(** *** The map of existing files *)

Lemma map_set_has (m : FileMap) (k : string) (v : FileRow) :
  In (k, v) (map_set m k v).
Proof.
  induction m as [|[k0 w] m IH]; cbn; [now left|].
  destruct (String.eqb k0 k) eqn:E.
  - apply String.eqb_eq in E. subst k0. now left.
  - right. exact IH.
Qed.

Lemma map_set_other (m : FileMap) (k k' : string) (v v' : FileRow) :
  In (k', v') m -> k' <> k -> In (k', v') (map_set m k v).
Proof.
  induction m as [|[k0 w] m IH]; cbn; [tauto|].
  intros [[= -> ->] | Hin] Hne.
  - apply String.eqb_neq in Hne. rewrite Hne. now left.
  - destruct (String.eqb k0 k); right; auto.
Qed.

Lemma fold_set_keeps (l : list FileRow) :
  forall (m : FileMap) (v : FileRow),
    In (v.(file_path), v) m ->
    (forall g, In g l -> g.(file_path) = v.(file_path) -> g = v) ->
    In (v.(file_path), v)
       (fold_left (fun m f => map_set m f.(file_path) f) l m).
Proof.
  induction l as [|g l IH]; intros m v Hin Hinj; cbn; [assumption|].
  apply IH.
  - destruct (string_dec g.(file_path) v.(file_path)) as [E|E].
    + rewrite (Hinj g (or_introl eq_refl) E). apply map_set_has.
    + apply map_set_other; [assumption | congruence].
  - intros g' Hg'. apply Hinj. now right.
Qed.

Lemma build_map_has (rows : list FileRow) (r : FileRow) :
  (forall r1 r2, In r1 rows -> In r2 rows ->
                 r1.(file_path) = r2.(file_path) -> r1 = r2) ->
  In r rows -> In (r.(file_path), r) (build_map rows).
Proof.
  unfold build_map. generalize (@nil (string * FileRow)).
  induction rows as [|g rows IH]; intros m Hinj Hin; [contradiction|].
  cbn [fold_left]. destruct Hin as [-> | Hin].
  - apply fold_set_keeps; [apply map_set_has|].
    intros g Hg Hp. apply Hinj; [now right | now left | assumption].
  - apply IH; [|assumption].
    intros r1 r2 H1 H2. apply Hinj; now right.
Qed.

Lemma map_get_None_In (m : FileMap) (k : string) (e : FileRow) :
  map_get m k = None -> ~ In (k, e) m.
Proof.
  intros Hget Hin.
  assert (Hk : In k (map_keys m)).
  { unfold map_keys. apply in_map_iff. now exists (k, e). }
  apply map_get_keys in Hk. contradiction.
Qed.

Lemma map_delete_NoDup (m : FileMap) (k : string) :
  NoDup (map_keys m) -> NoDup (map_keys (map_delete m k)).
Proof. apply (fold_delete_NoDup [k]). Qed.

(** *** What each statement does to the rows that the branch holds *)

Section OneBranch.

Variables repoId branchId : nat.

Lemma holds_insert_association (id : nat) (d d' : DB) (r : FileRow) :
  insert_association branchId id d = Ok d' ->
  (holds d' branchId r
   <-> holds d branchId r \/ (In r d.(file) /\ r.(file_id) = id)).
Proof.
  intros H. apply insert_association_facts in H as (Hf & _ & Ha).
  rewrite !holds_iff, !associated_In, Hf, Ha, in_app_iff. cbn.
  split.
  - intros [Hin [Hold | [[= Hid] | []]]]; auto.
  - intros [[Hin Hold] | [Hin Hid]]; (split; [assumption|]);
      [now left | right; left; now rewrite Hid].
Qed.

Lemma holds_update_file_sha (s : string) (id : nat) (d d' : DB)
    (r' : FileRow) :
  update_file_sha s id d = Ok d' ->
  (holds d' branchId r'
   <-> exists r, holds d branchId r
                 /\ r' = if r.(file_id) =? id
                         then mkFile r.(file_id) r.(file_repository_id)
                                     r.(file_path) r.(file_name) s
                                     FilePending
                         else r).
Proof.
  intros H. apply update_file_sha_facts in H as (Hf & _ & Ha).
  rewrite holds_iff, associated_In, Hf, Ha, in_map_iff. split.
  - intros [[r [<- Hin]] Has]. exists r. split; [|reflexivity].
    apply holds_iff. split; [assumption|]. apply associated_In.
    now destruct (file_id r =? id).
  - intros [r [Hr ->]]. apply holds_iff in Hr as [Hin Has].
    apply associated_In in Has. split.
    + now exists r.
    + now destruct (file_id r =? id).
Qed.

Lemma holds_delete_association (id : nat) (d : DB) (r : FileRow) :
  holds (delete_association branchId id d) branchId r
  <-> holds d branchId r /\ r.(file_id) <> id.
Proof.
  rewrite !holds_iff, !associated_In. unfold delete_association. cbn.
  rewrite filter_In. unfold assoc_eqb. cbn. rewrite Nat.eqb_refl. cbn.
  rewrite negb_true_iff, Nat.eqb_neq. intuition congruence.
Qed.

Lemma holds_delete_file (id : nat) (d : DB) (r : FileRow) :
  holds (delete_file id (delete_file_chunks id d)) branchId r
  <-> holds d branchId r /\ r.(file_id) <> id.
Proof.
  rewrite !holds_iff, !associated_In. unfold delete_file, delete_file_chunks.
  cbn. rewrite !filter_In. cbn.
  rewrite !negb_true_iff, !Nat.eqb_neq. intuition congruence.
Qed.

Lemma insert_association_fresh (id : nat) (d d' : DB) :
  insert_association branchId id d = Ok d' ->
  associated d branchId id = false.
Proof.
  unfold insert_association.
  destruct (associated d branchId id); [discriminate | reflexivity].
Qed.

Lemma in_paths_snoc (done : list RepositoryFile) (f : RepositoryFile)
    (k : string) :
  In k (paths (done ++ [f])) <-> In k (paths done) \/ k = f.(path).
Proof.
  unfold paths. rewrite map_app, in_app_iff. cbn. intuition congruence.
Qed.

(** *** One turn of the loop over the listing *)

(** A turn that makes the branch hold one more row, [r0], for an entry
    whose path the branch did not hold. *)
Lemma step_new (done : list RepositoryFile) (f : RepositoryFile)
    (d d' : DB) (m : FileMap) (r0 : FileRow) :
  in_step branchId done d m ->
  ~ In f.(path) (paths done) ->
  map_get m f.(path) = None ->
  ids_sound d' ->
  (forall r, holds d' branchId r <-> holds d branchId r \/ r = r0) ->
  r0.(file_path) = f.(path) ->
  r0.(file_sha) = f.(sha) ->
  in_step branchId (done ++ [f]) d' (map_delete m f.(path)).
Proof.
  intros (J1 & J2 & J3 & J4 & J5 & J6) Hfresh Hget Hids Hholds Hp Hs.
  assert (Hnone : forall r, holds d branchId r ->
                            r.(file_path) <> f.(path)).
  { intros r Hr Hpath. destruct (J4 r Hr) as [[g (Hg & Hgp & _)] | Hm].
    - apply Hfresh. rewrite <- Hpath, <- Hgp. unfold paths. now apply in_map.
    - rewrite Hpath in Hm. now apply map_get_None_In in Hm. }
  unfold in_step. repeat split.
  - apply Hids.
  - apply Hids.
  - intros r1 r2 H1 H2 Hpath.
    apply Hholds in H1 as [H1 | ->]; apply Hholds in H2 as [H2 | ->].
    + now apply J2.
    + exfalso. apply (Hnone r1 H1). congruence.
    + exfalso. apply (Hnone r2 H2). congruence.
    + reflexivity.
  - intros g Hg. apply in_app_iff in Hg as [Hg | [<- | []]].
    + destruct (J3 g Hg) as (row & Hrow & Hrp & Hrs).
      exists row. repeat split; try assumption. apply Hholds. now left.
    + exists r0. repeat split; try assumption. apply Hholds. now right.
  - intros row Hrow. apply Hholds in Hrow as [Hrow | ->].
    + destruct (J4 row Hrow) as [[g (Hg & Hgp & Hgs)] | Hm].
      * left. exists g. repeat split; try assumption.
        apply in_or_app. now left.
      * right. apply map_delete_In. split; [assumption|]. cbn.
        now apply Hnone.
    + left. exists f. repeat split; [|congruence|congruence].
      apply in_or_app. right. now left.
  - apply map_delete_In in H as [H _]. apply Hholds. left.
    now apply (J5 _ _ H).
  - apply map_delete_In in H as [H _]. now apply (J5 _ _ H).
  - apply map_delete_In in H as [H Hk]. cbn in Hk.
    intros Hin. apply in_paths_snoc in Hin as [Hin | Hin].
    + now apply (J5 _ _ H).
    + contradiction.
  - now apply map_delete_NoDup.
Qed.

Lemma sync_file_step (done : list RepositoryFile) (f : RepositoryFile)
    (st st' : SyncState) :
  in_step branchId done st.(db) st.(existingFileMap) ->
  ~ In f.(path) (paths done) ->
  sync_file repoId branchId f st = Ok st' ->
  in_step branchId (done ++ [f]) st'.(db) st'.(existingFileMap).
Proof.
  intros HJ Hfresh Hrun. unfold sync_file in Hrun.
  destruct (map_get (existingFileMap st) (path f)) as [e|] eqn:Hget.
  - (* the branch holds the path *)
    destruct HJ as (J1 & J2 & J3 & J4 & J5 & J6).
    pose proof (map_get_In _ _ _ Hget) as Hin.
    destruct (J5 _ _ Hin) as (He & Hep & _).
    assert (Hother : forall r, holds (db st) branchId r ->
                               r.(file_path) <> f.(path) ->
                               r.(file_id) <> e.(file_id)).
    { intros r Hr Hpath Hid. apply Hpath. rewrite <- Hep. f_equal.
      apply holds_iff in Hr as [Hr _]. apply holds_iff in He as [He _].
      now apply (same_id (db st)). }
    assert (Hdone : forall g, In g done -> g.(path) <> f.(path)).
    { intros g Hg Hpath. apply Hfresh. rewrite <- Hpath. unfold paths.
      now apply in_map. }
    destruct (negb (String.eqb (file_sha e) (sha f))) eqn:Hsha.
    + (* another content identifier: the row is updated *)
      destruct (update_file_sha (sha f) (file_id e) (db st))
        as [d'|msg] eqn:Hupd; cbn [bind] in Hrun; [|discriminate].
      injection Hrun as <-. cbn [push_updated db existingFileMap].
      pose proof (fun r' => holds_update_file_sha (sha f) (file_id e)
                              (db st) d' r' Hupd) as Hholds.
      apply update_file_sha_facts in Hupd as (Hfile & Hseq & _).
      set (upd := fun r : FileRow =>
                    if r.(file_id) =? e.(file_id)
                    then mkFile r.(file_id) r.(file_repository_id)
                                r.(file_path) r.(file_name) (sha f)
                                FilePending
                    else r) in *.
      assert (Hheld : forall r',
                 holds d' branchId r'
                 <-> exists r, holds (db st) branchId r /\ r' = upd r)
        by exact Hholds.
      clear Hholds. rename Hheld into Hholds.
      change (file d' = map upd (file (db st))) in Hfile.
      assert (Hpath : forall r, file_path (upd r) = file_path r).
      { intros r. unfold upd. now destruct (file_id r =? file_id e). }
      assert (Hid : forall r, file_id (upd r) = file_id r).
      { intros r. unfold upd. now destruct (file_id r =? file_id e). }
      assert (Hsame : forall r, holds (db st) branchId r ->
                                r.(file_path) <> f.(path) -> upd r = r).
      { intros r Hr Hp. unfold upd.
        destruct (file_id r =? file_id e) eqn:E; [|reflexivity].
        apply Nat.eqb_eq in E. now apply Hother in E. }
      assert (Hupde : upd e = mkFile e.(file_id) e.(file_repository_id)
                                     e.(file_path) e.(file_name) (sha f)
                                     FilePending).
      { unfold upd. now rewrite Nat.eqb_refl. }
      unfold in_step. repeat split.
      * rewrite Hfile, map_map.
        rewrite (map_ext _ file_id Hid). apply J1.
      * intros r' Hr'. rewrite Hfile in Hr'.
        apply in_map_iff in Hr' as [r [<- Hr]].
        rewrite Hid, Hseq. now apply J1.
      * intros r1 r2 H1 H2 Hp.
        apply Hholds in H1 as [a [Ha ->]].
        apply Hholds in H2 as [b [Hb ->]].
        rewrite !Hpath in Hp. now rewrite (J2 a b Ha Hb Hp).
      * intros g Hg. apply in_app_iff in Hg as [Hg | [<- | []]].
        -- destruct (J3 g Hg) as (row & Hrow & Hrp & Hrs).
           exists row. repeat split; try assumption.
           apply Hholds. exists row. split; [assumption|].
           symmetry. apply Hsame; [assumption|].
           rewrite Hrp. now apply Hdone.
        -- exists (upd e). split; [apply Hholds; now exists e|].
           rewrite Hupde. cbn. now split.
      * intros row' Hrow'. apply Hholds in Hrow' as [r [Hr ->]].
        destruct (string_dec r.(file_path) f.(path)) as [E|E].
        -- assert (r = e) by (apply J2; try assumption; congruence).
           subst r. left. exists f. rewrite Hupde. cbn.
           repeat split; [|congruence].
           apply in_or_app. right. now left.
        -- rewrite (Hsame r Hr E).
           destruct (J4 r Hr) as [[g (Hg & Hgp & Hgs)] | Hm].
           ++ left. exists g. repeat split; try assumption.
              apply in_or_app. now left.
           ++ right. apply map_delete_In. now split.
      * apply map_delete_In in H as [H Hk]. cbn in Hk.
        destruct (J5 _ _ H) as (A & B & C).
        apply Hholds. exists e0. split; [assumption|].
        symmetry. apply Hsame; [assumption | congruence].
      * apply map_delete_In in H as [H _]. now apply (J5 _ _ H).
      * apply map_delete_In in H as [H Hk]. cbn in Hk.
        intros Hin'. apply in_paths_snoc in Hin' as [Hin' | Hin'].
        -- now apply (J5 _ _ H).
        -- contradiction.
      * now apply map_delete_NoDup.
    + (* the same content identifier: nothing is written *)
      apply negb_false_iff, String.eqb_eq in Hsha.
      injection Hrun as <-. cbn [push_unchanged db existingFileMap].
      unfold in_step. repeat split.
      * apply J1.
      * apply J1.
      * exact J2.
      * intros g Hg. apply in_app_iff in Hg as [Hg | [<- | []]].
        -- now apply J3.
        -- exists e. now repeat split.
      * intros row Hrow.
        destruct (string_dec row.(file_path) f.(path)) as [E|E].
        -- assert (row = e) by (apply J2; try assumption; congruence).
           subst row. left. exists f. repeat split; [|congruence|congruence].
           apply in_or_app. right. now left.
        -- destruct (J4 row Hrow) as [[g (Hg & Hgp & Hgs)] | Hm].
           ++ left. exists g. repeat split; try assumption.
              apply in_or_app. now left.
           ++ right. apply map_delete_In. now split.
      * apply map_delete_In in H as [H _]. now apply (J5 _ _ H).
      * apply map_delete_In in H as [H _]. now apply (J5 _ _ H).
      * apply map_delete_In in H as [H Hk]. cbn in Hk.
        intros Hin'. apply in_paths_snoc in Hin' as [Hin' | Hin'].
        -- now apply (J5 _ _ H).
        -- contradiction.
      * now apply map_delete_NoDup.
  - (* the branch does not hold the path *)
    pose proof HJ as (J1 & J2 & J3 & J4 & J5 & J6).
    assert (Hnone : forall r, holds (db st) branchId r ->
                              r.(file_path) <> f.(path)).
    { intros r Hr Hpath. destruct (J4 r Hr) as [[g (Hg & Hgp & _)] | Hm].
      - apply Hfresh. rewrite <- Hpath, <- Hgp. unfold paths.
        now apply in_map.
      - rewrite Hpath in Hm. now apply map_get_None_In in Hm. }
    destruct (select_file_by_key (db st) repoId (path f) (sha f))
      as [fileId|] eqn:Hkey.
    + (* a row of the store has the path and the content identifier *)
      apply select_file_by_key_Some in Hkey
        as (r0 & Hr0 & Hid0 & _ & Hp0 & Hs0).
      destruct (associated (db st) branchId fileId) eqn:Hassoc.
      * exfalso. apply (Hnone r0); [|assumption].
        apply holds_iff. split; [assumption | now rewrite Hid0].
      * destruct (insert_association branchId fileId (db st))
          as [d'|msg] eqn:Hins; cbn [bind] in Hrun; [|discriminate].
        injection Hrun as <-. cbn [push_new db existingFileMap].
        pose proof (fun r => holds_insert_association fileId (db st) d' r
                               Hins) as Hholds.
        apply insert_association_facts in Hins as (Hfile & Hseq & _).
        apply (step_new done f (db st) d' _ r0 HJ Hfresh Hget);
          try assumption.
        -- unfold ids_sound. rewrite Hfile, Hseq. exact J1.
        -- intros r. rewrite Hholds. split.
           ++ intros [H | [Hin Hid]]; [now left | right].
              apply (same_id (db st)); try assumption. congruence.
           ++ intros [H | ->]; [now left | right; now split].
    + (* no such row: one is inserted *)
      destruct (insert_file repoId (path f) (sha f) (name f) (db st))
        as [[fileId d1]|msg] eqn:Hnew; cbn [bind] in Hrun; [|discriminate].
      destruct (insert_association branchId fileId d1)
        as [d2|msg] eqn:Hins; cbn [bind] in Hrun; [|discriminate].
      injection Hrun as <-. cbn [push_new db existingFileMap].
      pose proof (fun r => holds_insert_association fileId d1 d2 r Hins)
        as Hholds.
      pose proof (insert_association_fresh _ _ _ Hins) as Hfree.
      apply insert_association_facts in Hins as (Hfile2 & Hseq2 & _).
      apply insert_file_facts in Hnew as (Hid & Hseq1 & Hfile1 & Hassoc1).
      set (rn := mkFile fileId repoId (path f) (name f) (sha f)
                        FilePending) in *.
      assert (Hold : forall r, In r (file (db st)) ->
                               r.(file_id) <> fileId).
      { intros r Hr. apply J1 in Hr. lia. }
      assert (Hsame1 : forall i, associated d1 branchId i
                                 = associated (db st) branchId i).
      { intros i. unfold associated. now rewrite Hassoc1. }
      apply (step_new done f (db st) d2 _ rn HJ Hfresh Hget);
        try reflexivity.
      * unfold ids_sound. rewrite Hfile2, Hseq2, Hfile1, Hseq1. split.
        -- rewrite map_app. cbn. apply NoDup_app.
           ++ apply J1.
           ++ repeat constructor. intros [].
           ++ intros i Hi [<- | []].
              apply in_map_iff in Hi as [r [Hri Hr]].
              now apply (Hold r Hr).
        -- intros r Hr. apply in_app_iff in Hr as [Hr | [<- | []]].
           ++ apply J1 in Hr. lia.
           ++ cbn. lia.
      * intros r. rewrite Hholds, !holds_iff, Hfile1, Hsame1, in_app_iff.
        cbn. split.
        -- intros [[[Hr | [<- | []]] Ha] | [[Hr | [<- | []]] Hi]].
           ++ left. now split.
           ++ cbn in Ha. rewrite <- Hsame1, Hfree in Ha. discriminate.
           ++ exfalso. now apply (Hold r Hr).
           ++ now right.
        -- intros [[Hr Ha] | ->].
           ++ left. split; [now left | assumption].
           ++ right. split; [right; now left | reflexivity].
Qed.

Lemma sync_files_steps (files : list RepositoryFile) :
  forall (done : list RepositoryFile) (st st' : SyncState),
    in_step branchId done st.(db) st.(existingFileMap) ->
    NoDup (paths files) ->
    (forall f, In f files -> ~ In f.(path) (paths done)) ->
    sync_files repoId branchId files st = Ok st' ->
    in_step branchId (done ++ files) st'.(db) st'.(existingFileMap).
Proof.
  induction files as [|f files IH]; intros done st st' HJ Hnd Hfresh Hrun;
    cbn [sync_files] in Hrun.
  - injection Hrun as <-. now rewrite app_nil_r.
  - destruct (sync_file repoId branchId f st) as [st1|msg] eqn:Hstep;
      cbn [bind] in Hrun; [|discriminate].
    cbn [paths map] in Hnd. inversion Hnd as [|? ? Hf Hnd']; subst.
    replace (done ++ f :: files)%list with ((done ++ [f]) ++ files)%list
      by (rewrite <- app_assoc; reflexivity).
    apply (IH (done ++ [f])%list st1 st'); try assumption.
    + apply (sync_file_step done f st st1); try assumption.
      apply Hfresh. now left.
    + intros g Hg Hin. apply in_paths_snoc in Hin as [Hin | Hin].
      * apply (Hfresh g); [now right | assumption].
      * apply Hf. rewrite <- Hin. unfold paths. now apply in_map.
Qed.

(** *** The loop over the rows that no entry named *)

Lemma remove_file_drops (p : string) (e : FileRow) (st : SyncState) :
  (forall r, holds (remove_file branchId (p, e) st).(db) branchId r
             <-> holds st.(db) branchId r /\ r.(file_id) <> e.(file_id))
  /\ (ids_sound st.(db) -> ids_sound (remove_file branchId (p, e) st).(db)).
Proof.
  unfold remove_file. cbn [push_removed db].
  destruct (negb (file_in_use (delete_association branchId (file_id e)
                                                  (db st)) (file_id e))).
  - split.
    + intros r. rewrite holds_delete_file, holds_delete_association. tauto.
    + intros [Hnd Hseq]. unfold ids_sound, delete_file, delete_file_chunks,
        delete_association. cbn. split.
      * now apply ids_after_filter.
      * intros r Hr. apply filter_In in Hr as [Hr _]. now apply Hseq.
  - split.
    + intros r. apply holds_delete_association.
    + intros H. exact H.
Qed.

Lemma sweep_drops (entries : FileMap) :
  forall st : SyncState,
    let d' := (fold_left (fun st entry => remove_file branchId entry st)
                         entries st).(db) in
    (forall r, holds d' branchId r
               <-> holds st.(db) branchId r
                   /\ ~ In r.(file_id)
                           (map (fun kv => (snd kv).(file_id)) entries))
    /\ (ids_sound st.(db) -> ids_sound d').
Proof.
  induction entries as [|[p e] entries IH]; intros st; cbn [fold_left map].
  - split; [|auto]. intros r. cbn. tauto.
  - destruct (IH (remove_file branchId (p, e) st)) as [Hh Hi].
    destruct (remove_file_drops p e st) as [Hh1 Hi1].
    split.
    + intros r. rewrite Hh, Hh1. cbn. intuition congruence.
    + intros H. apply Hi, Hi1, H.
Qed.

(** X27.  After a synchronisation that commits, the branch holds what the
    listing says: for every entry of the listing a row with the path and
    the content identifier of the entry, and no other row.  This is for a
    listing without a path twice and a store whose file ids are unique and
    issued by the counter and in which the branch holds one row per path;
    the store is left with file ids and a branch of that kind again. *)
Theorem sync_makes_branch_reflect_listing
    (files : list RepositoryFile) (d : DB) (st : SyncState) :
  NoDup (paths files) ->
  ids_sound d ->
  one_row_per_path d branchId ->
  processFilesTx repoId branchId files d = Ok st ->
  reflects st.(db) branchId files
  /\ ids_sound st.(db)
  /\ one_row_per_path st.(db) branchId.
Proof.
  intros Hnd Hids Hone Hrun. unfold processFilesTx in Hrun.
  set (st0 := mkSync d (build_map (select_branch_files d branchId))
                     [] 0 0 0 0 [] [] [] []) in Hrun.
  destruct (sync_files repoId branchId files st0) as [st1|msg] eqn:Hloop;
    cbn [bind] in Hrun; [|discriminate].
  injection Hrun as <-.
  assert (HJ0 : in_step branchId [] st0.(db) st0.(existingFileMap)).
  { unfold in_step, st0. cbn [db existingFileMap]. repeat split.
    - apply Hids.
    - apply Hids.
    - exact Hone.
    - intros f [].
    - intros row Hrow. right. apply build_map_has; [|exact Hrow].
      intros r1 r2 H1 H2. now apply Hone.
    - now apply build_map_In in H.
    - now apply build_map_In in H.
    - intros [].
    - apply build_map_NoDup. }
  pose proof (sync_files_steps files [] st0 st1 HJ0 Hnd
                               (fun f _ H => H) Hloop) as HJ.
  cbn [app] in HJ. destruct HJ as (J1 & J2 & J3 & J4 & J5 & J6).
  unfold sweep.
  destruct (sweep_drops (existingFileMap st1) st1) as [Hh Hi].
  cbv zeta in Hh, Hi.
  assert (Hkept : forall row f,
             holds (db st1) branchId row -> In f files ->
             row.(file_path) = f.(path) ->
             ~ In row.(file_id)
                  (map (fun kv => (snd kv).(file_id)) (existingFileMap st1))).
  { intros row f Hrow Hf Hp Hin.
    apply in_map_iff in Hin as [[k e] [Hid Hke]]. cbn in Hid.
    destruct (J5 _ _ Hke) as (He & Hek & Hout).
    assert (e = row).
    { apply holds_iff in He as [He _]. apply holds_iff in Hrow as [Hrow _].
      now apply (same_id (db st1)). }
    subst e. apply Hout. rewrite <- Hek, Hp. unfold paths.
    now apply in_map. }
  repeat split.
  - intros f Hf. destruct (J3 f Hf) as (row & Hrow & Hp & Hs).
    exists row. repeat split; try assumption.
    apply Hh. split; [assumption|]. now apply (Hkept row f).
  - intros row Hrow. apply Hh in Hrow as [Hrow Hout].
    destruct (J4 row Hrow) as [Hf | Hm]; [exact Hf|].
    exfalso. apply Hout. apply in_map_iff.
    now exists (row.(file_path), row).
  - now apply Hi.
  - now apply Hi.
  - intros r1 r2 H1 H2. apply Hh in H1 as [H1 _]. apply Hh in H2 as [H2 _].
    now apply J2.
Qed.

End OneBranch.

Lemma sync_makes_branch_reflect_listing_witness :
  reflects Scenarios2.sync_after.(db) 1 sync_listing
  /\ ids_sound Scenarios2.sync_after.(db)
  /\ one_row_per_path Scenarios2.sync_after.(db) 1.
Proof.
  apply (sync_makes_branch_reflect_listing
           1 1 sync_listing sync_store Scenarios2.sync_after).
  - cbn. repeat constructor; cbn; intuition discriminate.
  - split.
    + cbn. repeat constructor; cbn; intuition discriminate.
    + intros r Hr. cbn in Hr.
      repeat (destruct Hr as [<- | Hr]; [cbn; lia|]). destruct Hr.
  - intros r1 r2 H1 H2. vm_compute in H1, H2.
    repeat (destruct H1 as [<- | H1]);
      repeat (destruct H2 as [<- | H2]);
      try contradiction; cbn; intros Hp;
      try reflexivity; discriminate Hp.
  - vm_compute. reflexivity.
Defined.

End SyncResultFacts.
